(** * video-scanner: the concurrent processing engine, embedded in Rocq

    A shallow embedding of the parts of the repository that the
    specification talks about:

    - [Regex], [Path]: the JavaScript regular expressions and the [path]
      helpers the organizer relies on;
    - [Retry]: [src/utils/retry.js] ([retryOperation], the process-wide
      abort flag and its cleanup hooks);
    - [Cache]: the two-tier cache ([Cache] class);
    - [TaskQueue]: the bounded-concurrency queue and [processAll];
    - [Fs], [FileUtils], [Organizer]: the file system the pipeline acts on,
      [moveFile], [extractVideoCode] and [processVideo].

    JavaScript strings are modelled as Rocq strings (sequences of bytes, the
    UTF-8 encoding of the text); every character class that occurs in the
    source is an ASCII class or the complement of one, so matching by bytes
    and matching by UTF-16 code units agree on where a match starts and on
    what the capture groups hold. *)

From Stdlib Require Import ZArith Lia Ascii String.
From stdpp Require Import gmap strings list pretty sorting.

Local Open Scope string_scope.

(** ** Characters *)

Module Char.

Definition code (a : ascii) : nat := nat_of_ascii a.

Definition isDigit (a : ascii) : bool :=
  (48 <=? code a)%nat && (code a <=? 57)%nat.

Definition isUpper (a : ascii) : bool :=
  (65 <=? code a)%nat && (code a <=? 90)%nat.

Definition isLower (a : ascii) : bool :=
  (97 <=? code a)%nat && (code a <=? 122)%nat.

(** [[A-Z]] under the [i] flag. *)
Definition isLetter (a : ascii) : bool := isUpper a || isLower a.

Definition toUpper (a : ascii) : ascii :=
  if isLower a then ascii_of_nat (code a - 32) else a.

Definition toLower (a : ascii) : ascii :=
  if isUpper a then ascii_of_nat (code a + 32) else a.

Definition eqb (a b : ascii) : bool := Ascii.eqb a b.

(** A literal character under the [i] flag. *)
Definition eqb_ci (a b : ascii) : bool := Ascii.eqb (toUpper a) (toUpper b).

End Char.

Module Str.

Fixpoint map (f : ascii → ascii) (s : string) : string :=
  match s with
  | EmptyString => EmptyString
  | String a s' => String (f a) (map f s')
  end.

(** [String.prototype.toUpperCase] / [toLowerCase] on the ASCII range. *)
Definition toUpperCase : string → string := map Char.toUpper.
Definition toLowerCase : string → string := map Char.toLower.

Fixpoint take (n : nat) (s : string) : string :=
  match n, s with
  | S n', String a s' => String a (take n' s')
  | _, _ => EmptyString
  end.

(** The text between a position [s] and a later position [s'] of the same
    string, both given as the remaining input. *)
Definition consumed (s s' : string) : string :=
  take (String.length s - String.length s') s.

Fixpoint rev_app (s acc : string) : string :=
  match s with
  | EmptyString => acc
  | String a s' => rev_app s' (String a acc)
  end.

Definition rev (s : string) : string := rev_app s EmptyString.

Fixpoint mem (a : ascii) (s : string) : bool :=
  match s with
  | EmptyString => false
  | String b s' => Ascii.eqb a b || mem a s'
  end.

End Str.

(** ** Regular expressions

    A backtracking matcher in continuation-passing style for the fragment of
    JavaScript regular expressions that the repository uses: character
    classes, concatenation, greedy bounded and unbounded repetition,
    capturing groups and the end-of-input assertion. *)

Module Regex.

Inductive re : Type :=
| Cls (p : ascii → bool)
| Cat (r1 r2 : re)
| Rep (r : re) (lo : nat) (hi : option nat)
| Grp (i : nat) (r : re)
| Eos.

Definition captures : Type := list (nat * string).

Definition cont : Type := string → captures → option (string * captures).

(** Greedy repetition of [body], between [lo] and [n] more times: one more
    round is tried first, and stopping here is the fallback. *)
Section Rep.
Variable body : string → captures → cont → option (string * captures).
Variable k : cont.

Fixpoint rep (n lo : nat) (s : string) (c : captures) {struct n}
  : option (string * captures) :=
  match n with
  | O => match lo with O => k s c | S _ => None end
  | S n' =>
      match body s c (fun s' c' => rep n' (pred lo) s' c') with
      | Some x => Some x
      | None => match lo with O => k s c | S _ => None end
      end
  end.
End Rep.

(** [m r s c k] matches [r] at the start of [s], then hands the rest of the
    input to [k]; a failing continuation makes the matcher backtrack.  An
    unbounded repetition is cut at the length of the remaining input, which
    loses nothing as long as its body consumes a character (true of every
    pattern of the repository). *)
Fixpoint m (r : re) (s : string) (c : captures) (k : cont) {struct r}
  : option (string * captures) :=
  match r with
  | Cls p =>
      match s with
      | String a s' => if p a then k s' c else None
      | EmptyString => None
      end
  | Cat r1 r2 => m r1 s c (fun s' c' => m r2 s' c' k)
  | Rep r lo hi =>
      rep (m r) k
          (match hi with Some h => h | None => String.length s end) lo s c
  | Grp i r => m r s c (fun s' c' => k s' ((i, Str.consumed s s') :: c'))
  | Eos =>
      match s with
      | EmptyString => k s c
      | String _ _ => None
      end
  end.

Definition accept : cont := fun s c => Some (s, c).

(** The result of [String.prototype.match] without the [g] flag: the text
    before the leftmost match, the text after it, and the groups. *)
Record found : Type := Found {
  before : string;
  after : string;
  groups : captures
}.

Fixpoint search (r : re) (s : string) : option found :=
  match m r s [] accept with
  | Some (rest, c) => Some (Found EmptyString rest c)
  | None =>
      match s with
      | EmptyString => None
      | String a s' =>
          match search r s' with
          | Some f => Some (Found (String a (before f)) (after f) (groups f))
          | None => None
          end
      end
  end.

(** [match[i]]; a group that did not take part reads as the empty text. *)
Fixpoint group (i : nat) (c : captures) : string :=
  match c with
  | [] => EmptyString
  | (j, t) :: c' => if (i =? j)%nat then t else group i c'
  end.

(** [s.replace(r, '')]. *)
Definition remove_first (r : re) (s : string) : string :=
  match search r s with
  | Some f => before f ++ after f
  | None => s
  end.

Definition chr (a : ascii) : re := Cls (Char.eqb a).
Definition chr_ci (a : ascii) : re := Cls (Char.eqb_ci a).
Definition digit : re := Cls Char.isDigit.
Definition letter : re := Cls Char.isLetter.
Definition opt (r : re) : re := Rep r 0 (Some 1).

End Regex.

(** ** [Organizer.extractVideoCode] *)

Module VideoCode.
Import Regex.

(** [/FC2[^\d]*(\d+)/i] *)
Definition FC2 : re :=
  Cat (chr_ci "F") (Cat (chr_ci "C") (Cat (chr "2")
    (Cat (Rep (Cls (fun a => negb (Char.isDigit a))) 0 None)
         (Grp 1 (Rep digit 1 None))))).

(** [/([A-Z]{2,6})-(\d{2,5})(?:-[A-Z])?/i] *)
Definition STANDARD : re :=
  Cat (Grp 1 (Rep letter 2 (Some 6)))
    (Cat (chr "-")
      (Cat (Grp 2 (Rep digit 2 (Some 5)))
           (opt (Cat (chr "-") letter)))).

(** [/([A-Z]{2,6})(\d{2,5})(?:-[A-Z])?/i] *)
Definition NO_HYPHEN : re :=
  Cat (Grp 1 (Rep letter 2 (Some 6)))
    (Cat (Grp 2 (Rep digit 2 (Some 5)))
         (opt (Cat (chr "-") letter))).

(** [/\.[^/.]+$/] *)
Definition EXTENSION : re :=
  Cat (chr ".")
    (Cat (Rep (Cls (fun a => negb (Char.eqb "/" a || Char.eqb "." a))) 1 None)
         Eos).

Definition format_fc2 (c : captures) : string := "FC2-PPV-" ++ group 1 c.
Definition format_pair (c : captures) : string := group 1 c ++ "-" ++ group 2 c.

Definition patterns : list (re * (captures → string)) :=
  [ (FC2, format_fc2); (STANDARD, format_pair); (NO_HYPHEN, format_pair) ].

Definition nameWithoutExt (fileName : string) : string :=
  remove_first EXTENSION fileName.

(** The [for (const pattern of patterns)] loop. *)
Fixpoint first_match (ps : list (re * (captures → string))) (name : string)
  : option string :=
  match ps with
  | [] => None
  | (r, format) :: ps' =>
      match search r name with
      | Some f => Some (Str.toUpperCase (format (groups f)))
      | None => first_match ps' name
      end
  end.

Definition extractVideoCode (fileName : string) : string :=
  let name := nameWithoutExt fileName in
  match first_match patterns name with
  | Some code => code
  | None => name
  end.

(** No recognized pattern occurs in [name]. *)
Definition unrecognized (name : string) : Prop :=
  ∀ r format, (r, format) ∈ patterns → search r name = None.

End VideoCode.

(** ** Effects: values thrown and the state-and-exception monad

    An [async] function is read as a computation over an explicit state: it
    either returns a value (the promise fulfils) or throws (the promise
    rejects).  Thrown values are [Error] objects; those of the file system
    carry a [code], and the error that [retryOperation] builds on exhaustion
    carries [originalError] and [attempts].  Calls to the logger only feed the observability sink and are
    left out. *)

Module Js.

Inductive jsError : Type :=
| Error (message : string)
| SystemError (code : string) (message : string)
| RetryError (message : string) (originalError : jsError) (attempts : Z).

Definition message (e : jsError) : string :=
  match e with
  | Error msg => msg
  | SystemError _ msg => msg
  | RetryError msg _ _ => msg
  end.

(** [error.code] *)
Definition code (e : jsError) : option string :=
  match e with
  | SystemError c _ => Some c
  | _ => None
  end.

Inductive Result (A : Type) : Type :=
| Return (v : A)
| Throw (e : jsError).
Arguments Return {A} v.
Arguments Throw {A} e.

Definition M (S A : Type) : Type := S → Result A * S.

Definition ret {S A} (v : A) : M S A := fun s => (Return v, s).

Definition throw {S A} (e : jsError) : M S A := fun s => (Throw e, s).

Definition bind {S A B} (c : M S A) (k : A → M S B) : M S B :=
  fun s =>
    match c s with
    | (Return v, s') => k v s'
    | (Throw e, s') => (Throw e, s')
    end.

(** [try { c } catch (error) { h error }] *)
Definition try_catch {S A} (c : M S A) (h : jsError → M S A) : M S A :=
  fun s =>
    match c s with
    | (Return v, s') => (Return v, s')
    | (Throw e, s') => h e s'
    end.

Definition get {S} : M S S := fun s => (Return s, s).
Definition modify {S} (f : S → S) : M S unit := fun s => (Return tt, f s).

End Js.

Export Js(jsError, Error, SystemError, RetryError, Result, Return, Throw, M).

Declare Scope js_scope.
Delimit Scope js_scope with js.
Notation "x <- c ;; k" := (Js.bind c (fun x => k))
  (at level 100, c at next level, right associativity) : js_scope.
Notation "c ;;; k" := (Js.bind c (fun _ => k))
  (at level 100, right associativity) : js_scope.

(** ** [src/utils/retry.js] *)

Module Retry.

Record options : Type := Options {
  maxRetries : Z;
  baseDelay : Z;
  maxDelay : Z
}.

(** The defaults of the destructuring pattern of [retryOperation]. *)
Definition default_options : options := Options 3 1000 10000.

Definition interrupted : jsError := Error "操作被用户中断".
Definition bad_maxRetries : jsError := Error "maxRetries 必须大于 0".
Definition bad_delay : jsError := Error "延迟时间不能为负数".

(** What reading [lastError.message] throws while [lastError] is still
    [undefined]; the guard on [maxRetries] keeps the loop from ending in
    that state. *)
Definition undefined_lastError : jsError :=
  Error "Cannot read properties of undefined (reading 'message')".

(** The two guards that precede the [try] block. *)
Definition validate (o : options) : option jsError :=
  if (maxRetries o <? 1)%Z then Some bad_maxRetries
  else if ((baseDelay o <? 0) || (maxDelay o <? 0))%Z then Some bad_delay
  else None.

(** [Math.min(baseDelay * Math.pow(2, attempt), maxDelay)] *)
Definition delay (o : options) (attempt : Z) : Z :=
  Z.min (baseDelay o * 2 ^ attempt) (maxDelay o).

Definition enhancedError (o : options) (lastError : jsError) : jsError :=
  RetryError
    ("操作在重试 " ++ pretty (maxRetries o) ++ " 次后仍然失败: "
       ++ Js.message lastError)
    lastError
    (maxRetries o).

(** *** The call as one computation

    [retryOperation] as its caller sees it when no signal arrives while it
    runs: the state [S] holds whatever the operation acts on, [isAborting]
    reads the module's flag and [sleep d] lets the timer of [d]
    milliseconds elapse. *)
Section Call.
Context {S A : Type}.
Variable isAborting : S → bool.
Variable sleep : Z → S → S.
Variable operation : M S A.

(** The [for] loop from [attempt] on, with [n] iterations left;
    [lastError] is the variable of that name. *)
Fixpoint loop (o : options) (n : nat) (attempt : Z)
    (lastError : option jsError) : M S A :=
  fun s =>
    match n with
    | O =>
        match lastError with
        | Some e => (Throw (enhancedError o e), s)
        | None => (Throw undefined_lastError, s)
        end
    | Datatypes.S n' =>
        if isAborting s then (Throw interrupted, s)
        else
          match operation s with
          | (Return v, s') => (Return v, s')
          | (Throw e, s') =>
              if (attempt <? maxRetries o - 1)%Z && negb (isAborting s')
              then
                (* the executor of the delay promise *)
                if isAborting s' then (Throw interrupted, s')
                else loop o n' (attempt + 1) (Some e)
                       (sleep (delay o attempt) s')
              else loop o n' (attempt + 1) (Some e) s'
          end
    end.

Definition retryOperation (o : options) : M S A :=
  match validate o with
  | Some e => Js.throw e
  | None => loop o (Z.to_nat (maxRetries o)) 0 None
  end.

End Call.

(** *** The call as a process, with the signal handler

    The same function step by step, so that a signal can arrive between
    two steps.  A timer is named by a number; the cleanup hook
    [() => clearTimeout(timer)] is named by the timer it clears. *)

Record global : Type := Global {
  isAborting : bool;
  cleanupFunctions : list nat;
  armed : list nat;        (* timers that are set and not yet cleared *)
  nextTimer : nat;
  exited : bool            (* [process.exit] was called *)
}.

Definition initial_global : global := Global false [] [] 0 false.

Inductive phase (A : Type) : Type :=
| AtLoopHead (attempt : Z)
| Awaiting (attempt : Z) (timer : nat)
| Settled (r : Result A).
Arguments AtLoopHead {A} attempt.
Arguments Awaiting {A} attempt timer.
Arguments Settled {A} r.

Record call (A : Type) : Type := Call {
  opts : options;
  lastError : option jsError;
  localCleanupFunctions : list nat;
  at_ : phase A
}.
Arguments Call {A} _ _ _ _.
Arguments opts {A} _.
Arguments lastError {A} _.
Arguments localCleanupFunctions {A} _.
Arguments at_ {A} _.

Definition remove_timer (t : nat) (l : list nat) : list nat :=
  filter (fun x => x ≠ t) l.

(** [cleanupFunctions.splice(cleanupFunctions.indexOf(cleanup), 1)] *)
Fixpoint remove_first (t : nat) (l : list nat) : list nat :=
  match l with
  | [] => []
  | x :: l' => if decide (x = t) then l' else x :: remove_first t l'
  end.

(** The [finally] block: the local hooks leave the global list, then each
    is run. *)
Definition finally_ (locals : list nat) (g : global) : global :=
  Global (isAborting g)
         (foldl (fun l t => remove_first t l) (cleanupFunctions g) locals)
         (foldl (fun l t => remove_timer t l) (armed g) locals)
         (nextTimer g)
         (exited g).

(** [globalAbortHandler]: set the flag, pop and run every hook, exit. *)
Definition globalAbortHandler (g : global) : global :=
  Global true
         []
         (foldl (fun l t => remove_timer t l) (armed g)
                (reverse (cleanupFunctions g)))
         (nextTimer g)
         true.

Section Process.
Context {S A : Type}.
Variable operation : M S A.

Definition state : Type := global * S * call A.

Definition settle (r : Result A) (g : global) (s : S) (c : call A) : state :=
  (finally_ (localCleanupFunctions c) g, s,
   Call (opts c) (lastError c) (localCleanupFunctions c) (Settled r)).

(** One turn of the function body: from the loop head up to the next
    [await] that has to wait, or to the end. *)
Definition advance (st : state) : option state :=
  let '(g, s, c) := st in
  if exited g then None else
  match at_ c with
  | AtLoopHead attempt =>
      let o := opts c in
      if (attempt <? maxRetries o)%Z then
        if isAborting g then Some (settle (Throw interrupted) g s c)
        else
          match operation s with
          | (Return v, s') => Some (settle (Return v) g s' c)
          | (Throw e, s') =>
              let c' := Call o (Some e) (localCleanupFunctions c) (at_ c) in
              if (attempt <? maxRetries o - 1)%Z && negb (isAborting g)
              then
                if isAborting g then Some (settle (Throw interrupted) g s' c')
                else
                  let t := nextTimer g in
                  Some (Global (isAborting g)
                               (cleanupFunctions g ++ [t])
                               (armed g ++ [t])
                               (Datatypes.S t)
                               (exited g),
                        s',
                        Call o (Some e) (localCleanupFunctions c ++ [t])
                             (Awaiting attempt t))
              else
                Some (g, s', Call o (Some e) (localCleanupFunctions c)
                                  (AtLoopHead (attempt + 1)))
          end
      else
        match lastError c with
        | Some e => Some (settle (Throw (enhancedError o e)) g s c)
        | None => Some (settle (Throw undefined_lastError) g s c)
        end
  | Awaiting _ _ => None
  | Settled _ => None
  end.

(** The timer of the pending delay fires: the promise resolves and the
    loop goes on to the next attempt. *)
Definition fire (st : state) : option state :=
  let '(g, s, c) := st in
  if exited g then None else
  match at_ c with
  | Awaiting attempt t =>
      if decide (t ∈ armed g) then
        Some (Global (isAborting g) (cleanupFunctions g)
                     (remove_timer t (armed g)) (nextTimer g) (exited g),
              s,
              Call (opts c) (lastError c) (localCleanupFunctions c)
                   (AtLoopHead (attempt + 1)))
      else None
  | _ => None
  end.

(** SIGINT or SIGTERM is delivered. *)
Definition signal (st : state) : option state :=
  let '(g, s, c) := st in
  if exited g then None else Some (globalAbortHandler g, s, c).

Inductive event : Type := Advance | Fire | Signal.

Definition step (ev : event) (st : state) : option state :=
  match ev with
  | Advance => advance st
  | Fire => fire st
  | Signal => signal st
  end.

(** Events that cannot happen in the current state are skipped. *)
Fixpoint run (evs : list event) (st : state) : state :=
  match evs with
  | [] => st
  | ev :: evs' =>
      match step ev st with
      | Some st' => run evs' st'
      | None => run evs' st
      end
  end.

(** The state in which [retryOperation] has passed its guards. *)
Definition start (o : options) (g : global) (s : S) : state :=
  (g, s, Call o None [] (AtLoopHead 0)).

End Process.

End Retry.

(** ** The two-tier cache ([class Cache])

    Keys are the digests that [generateKey] returns.  The durable tier is the
    set of [<digest>.json] files of the cache directory; a file is either the
    JSON that [set] wrote or something [JSON.parse] rejects.  Every operation
    takes the reading of [Date.now()] at which it runs, and what of the disk
    fails while it runs: every call of [fs.stat], [fs.readFile],
    [fs.writeFile], [fs.rename] and [fs.unlink] sits in a [try] or has a
    [catch] that keeps the error from the caller.  [get_on], [set_on] and
    [cleanup_on] are the methods on such a disk; [get], [set] and [cleanup]
    are the same methods when nothing fails. *)

Module Cache.

Section WithValue.
Context {V : Type}.

Record item : Type := Item {
  data : V;
  timestamp : Z;
  maxAge : option Z        (* [undefined] when the caller gave none *)
}.

Inductive content : Type :=
| Json (d : V) (fileMaxAge : option Z) (fileTimestamp : Z)
| Garbage.

Record file : Type := File {
  body : content;
  mtimeMs : Z
}.

Record t : Type := Cache {
  memoryCache : gmap string item;
  accessOrder : list string;
  files : gmap string file;
  maxMemoryItems : Z;
  maxFileAge : Z
}.

Definition init (maxItems maxAge_ : Z) (disk : gmap string file) : t :=
  Cache ∅ [] disk maxItems maxAge_.

(** What fails, during one call, of the operations on the file of one
    key. *)
Record faults : Type := Faults {
  stat_fails : bool;       (* [fs.stat] *)
  read_fails : bool;       (* [fs.readFile] *)
  write_fails : bool;      (* [fs.writeFile] of the temporary file, or
                              [fs.rename] onto the file *)
  unlink_fails : bool      (* [fs.unlink] *)
}.

Definition calm : faults := Faults false false false false.

(** A max-age that JavaScript treats as true: present and not [0]. *)
Definition truthy (a : option Z) : option Z :=
  match a with
  | Some z => if (z =? 0)%Z then None else Some z
  | None => None
  end.

(** [a || b] *)
Definition or_else (a b : option Z) : option Z :=
  match truthy a with
  | Some _ => a
  | None => b
  end.

(** [isExpired(item, maxAge)] for an item stamped [ts]. *)
Definition isExpired (c : t) (now ts : Z) (age : option Z) : bool :=
  let age := match truthy age with Some z => z | None => maxFileAge c end in
  (now - ts >? age)%Z.

(** [accessOrder.splice(accessOrder.indexOf(key), 1)] *)
Fixpoint removeFromAccessOrder (key : string) (order : list string)
  : list string :=
  match order with
  | [] => []
  | k :: order' =>
      if decide (k = key) then order'
      else k :: removeFromAccessOrder key order'
  end.

Definition updateAccessOrder (key : string) (order : list string)
  : list string :=
  removeFromAccessOrder key order ++ [key].

Definition has (c : t) (key : string) : bool :=
  bool_decide (is_Some (memoryCache c !! key)).

(** The eviction that opens [setMemoryCache]. *)
Definition evict (key : string) (c : t) : t :=
  if (Z.of_nat (size (memoryCache c)) >=? maxMemoryItems c)%Z
     && negb (has c key)
  then
    match accessOrder c with
    | oldestKey :: rest =>
        Cache (delete oldestKey (memoryCache c)) rest (files c)
              (maxMemoryItems c) (maxFileAge c)
    | [] => c
    end
  else c.

Definition setMemoryCache (key : string) (d : V) (age : option Z)
    (now : Z) (c : t) : t :=
  let c := evict key c in
  Cache (<[key := Item d now age]> (memoryCache c))
        (updateAccessOrder key (accessOrder c))
        (files c) (maxMemoryItems c) (maxFileAge c).

(** The first half of [get]: the in-process tier.  [inl d] is a hit;
    [inr c'] is a miss, with an expired entry dropped. *)
Definition get_memory (key : string) (optAge : option Z) (now : Z) (c : t)
  : V * t + t :=
  match memoryCache c !! key with
  | Some it =>
      if negb (isExpired c now (timestamp it) (or_else (maxAge it) optAge))
      then inl (data it,
                Cache (memoryCache c) (updateAccessOrder key (accessOrder c))
                      (files c) (maxMemoryItems c) (maxFileAge c))
      else inr (Cache (delete key (memoryCache c))
                      (removeFromAccessOrder key (accessOrder c))
                      (files c) (maxMemoryItems c) (maxFileAge c))
  | None => inr c
  end.

(** [fs.unlink(filePath).catch(() => {})]: a removal that fails leaves
    the file, and nobody hears of it. *)
Definition unlink (failed : bool) (key : string) (c : t) : t :=
  if failed then c
  else Cache (memoryCache c) (accessOrder c) (delete key (files c))
             (maxMemoryItems c) (maxFileAge c).

(** The second half of [get]: the durable tier.  A file that is missing,
    that cannot be read or that [JSON.parse] rejects ends in the [catch]
    block and in [null]. *)
Definition get_file_on (flt : faults) (key : string) (optAge : option Z)
    (now : Z) (c : t) : option V * t :=
  if stat_fails flt || read_fails flt then (None, c)
  else
    match files c !! key with
    | Some (File (Json d fAge _) mtime) =>
        let age := or_else fAge optAge in
        if negb (isExpired c now mtime age)
        then (Some d, setMemoryCache key d age now c)
        else (None, unlink (unlink_fails flt) key c)
    | Some (File Garbage _) => (None, c)
    | None => (None, c)
    end.

Definition get_on (flt : faults) (key : string) (optAge : option Z)
    (now : Z) (c : t) : option V * t :=
  match get_memory key optAge now c with
  | inl (d, c') => (Some d, c')
  | inr c' => get_file_on flt key optAge now c'
  end.

(** [set]: the in-process tier first, then the file, written under a
    temporary name and renamed.  When that fails the [catch] logs the
    error and the file of the key is as it was (what is left under the
    temporary name is read by nobody: its name does not end in [.json]). *)
Definition set_on (flt : faults) (key : string) (d : V) (optAge : option Z)
    (now : Z) (c : t) : t :=
  let c := setMemoryCache key d optAge now c in
  Cache (memoryCache c) (accessOrder c)
        (if write_fails flt then files c
         else <[key := File (Json d optAge now) now]> (files c))
        (maxMemoryItems c) (maxFileAge c).

(** What the sweep decides for one file that it has read. *)
Definition sweeps (c : t) (now : Z) (f : file) : bool :=
  if (now - mtimeMs f >? maxFileAge c)%Z then true
  else
    match body f with
    | Json _ fAge fTimestamp =>
        match truthy fAge with
        | Some a => (now - fTimestamp >? a)%Z
        | None => false
        end
    | Garbage => true
    end.

(** Whether a file is still there after the sweep.  A failing [fs.stat]
    ends in the [catch] of the file; a file that cannot be read is taken
    for one in a wrong format and removed; a removal can fail. *)
Definition stays (c : t) (now : Z) (flt : faults) (f : file) : bool :=
  if stat_fails flt then true
  else if read_fails flt || sweeps c now f then unlink_fails flt
  else true.

(** [cleanup]; [readdir_fails] is the failure of [fs.readdir], and
    [flt key] what fails for the file of [key]. *)
Definition cleanup_on (readdir_fails : bool) (flt : string → faults)
    (now : Z) (c : t) : t :=
  if readdir_fails then c
  else
    Cache (memoryCache c) (accessOrder c)
          (filter (fun kf => stays c now (flt kf.1) kf.2 = true) (files c))
          (maxMemoryItems c) (maxFileAge c).

(** *** The methods on a disk where nothing fails *)

Definition get_file (key : string) (optAge : option Z) (now : Z) (c : t)
  : option V * t :=
  get_file_on calm key optAge now c.

Definition get (key : string) (optAge : option Z) (now : Z) (c : t)
  : option V * t :=
  get_on calm key optAge now c.

Definition set (key : string) (d : V) (optAge : option Z) (now : Z) (c : t)
  : t :=
  set_on calm key d optAge now c.

Definition cleanup (now : Z) (c : t) : t :=
  cleanup_on false (fun _ => calm) now c.

(** The max-age that governs an entry: its own when it has one, the
    cache-wide default otherwise. *)
Definition effectiveMaxAge (c : t) (own : option Z) : Z :=
  match truthy own with Some a => a | None => maxFileAge c end.

(** *** Histories *)

Inductive op : Type :=
| Get (key : string) (optAge : option Z) (now : Z) (flt : faults)
| Set_ (key : string) (d : V) (optAge : option Z) (now : Z) (flt : faults).

Definition exec (o : op) (c : t) : option V * t :=
  match o with
  | Get key a now flt => get_on flt key a now c
  | Set_ key d a now flt => (None, set_on flt key d a now c)
  end.

(** The key whose recency an operation refreshes: every [set], and every
    [get] that returns a value. *)
Definition touched (o : op) (r : option V) : option string :=
  match o, r with
  | Set_ key _ _ _ _, _ => Some key
  | Get key _ _ _, Some _ => Some key
  | Get _ _ _ _, None => None
  end.

(** The cache after a history, together with the position in the history
    at which each key was last touched. *)
Record traced : Type := Traced {
  cache : t;
  lastTouch : gmap string nat;
  clock : nat
}.

Definition trace_step (o : op) (tr : traced) : traced :=
  let '(r, c') := exec o (cache tr) in
  Traced c'
         (match touched o r with
          | Some key => <[key := clock tr]> (lastTouch tr)
          | None => lastTouch tr
          end)
         (S (clock tr)).

Definition trace (c0 : t) (ops : list op) : traced :=
  foldl (fun tr o => trace_step o tr) (Traced c0 ∅ 0) ops.

Definition run (c0 : t) (ops : list op) : t := cache (trace c0 ops).

End WithValue.
Arguments item V : clear implicits.
Arguments content V : clear implicits.
Arguments file V : clear implicits.
Arguments t V : clear implicits.
Arguments op V : clear implicits.
Arguments traced V : clear implicits.

End Cache.

(** ** The task queue ([class TaskQueue])

    The queue lives on one event loop, so its behaviour is a transition
    system: every event below is one uninterrupted run of JavaScript.  A task
    is named by a number; the promise that [add] returns for it, the timer of
    its enqueue timeout and the pending [await item.task()] are all indexed
    by that name. *)

Module TaskQueue.

Section WithValue.
Context {V : Type}.

Inductive promise (A : Type) : Type :=
| Pending
| Fulfilled (v : A)
| Rejected (e : jsError).
Arguments Pending {A}.
Arguments Fulfilled {A} v.
Arguments Rejected {A} e.

Record queueItem : Type := QueueItem {
  task : nat;
  priority : Z;
  cancelled : bool;
  timestamp : Z
}.

(** What [Promise.all] was called on, and the promise it returned. *)
Record batch : Type := Batch {
  members : list nat;
  outcome : promise (list V)
}.

Record t : Type := Queue {
  concurrency : Z;
  running : Z;
  queue : list queueItem;
  results : list V;
  errors : list jsError;
  isStopped : bool;
  maxStoredResults : Z;
  completedCount : Z;
  (* the event loop around the object *)
  inFlight : list nat;           (* tasks started and not yet settled *)
  immediates : nat;              (* callbacks queued by [setImmediate] *)
  timers : list nat;             (* enqueue timeouts still armed *)
  promises : gmap nat (promise V);
  settlements : list (nat * Result V); (* oldest first *)
  all : option batch
}.

Definition default_concurrency : Z := 32.

(** [new TaskQueue(concurrency)] *)
Definition create (c : Z) : t :=
  Queue c 0 [] [] [] false 1000 0 [] 0 [] ∅ [] None.

Definition stopped_error : jsError := Error "任务队列已停止接受新任务".
Definition timeout_error : jsError := Error "任务等待超时".
Definition cancelled_error : jsError := Error "任务已取消".
Definition stop_error : jsError := Error "任务队列已停止".

(** The comparator of [add]:
    [b.priority - a.priority || a.timestamp - b.timestamp]. *)
Definition compare (a b : queueItem) : Z :=
  if (priority b - priority a =? 0)%Z then timestamp a - timestamp b
  else priority b - priority a.

Fixpoint place (x : queueItem) (l : list queueItem) : list queueItem :=
  match l with
  | [] => [x]
  | y :: l' =>
      if (compare x y <=? 0)%Z then x :: y :: l' else y :: place x l'
  end.

(** [Array.prototype.sort], which is stable. *)
Definition sort (l : list queueItem) : list queueItem :=
  foldr place [] l.

Definition set_promises (f : gmap nat (promise V) → gmap nat (promise V))
    (q : t) : t :=
  Queue (concurrency q) (running q) (queue q) (results q) (errors q)
        (isStopped q) (maxStoredResults q) (completedCount q)
        (inFlight q) (immediates q) (timers q) (f (promises q))
        (settlements q) (all q).

Definition set_queue (l : list queueItem) (q : t) : t :=
  Queue (concurrency q) (running q) l (results q) (errors q)
        (isStopped q) (maxStoredResults q) (completedCount q)
        (inFlight q) (immediates q) (timers q) (promises q)
        (settlements q) (all q).

(** The value of a fulfilled promise. *)
Definition value_of (ps : gmap nat (promise V)) (id : nat) : option V :=
  match ps !! id with
  | Some (Fulfilled v) => Some v
  | _ => None
  end.

Definition fulfilled_value (q : t) (id : nat) : option V :=
  value_of (promises q) id.

(** The reaction of [Promise.all] to the settlement of one of its
    inputs; [ps] is the state of the inputs after that settlement. *)
Definition notify (ps : gmap nat (promise V)) (id : nat) (r : Result V)
    (b : batch) : batch :=
  match outcome b with
  | Pending =>
      if bool_decide (id ∈ members b) then
        match r with
        | Throw e => Batch (members b) (Rejected e)
        | Return _ =>
            match mapM (value_of ps) (members b) with
            | Some vs => Batch (members b) (Fulfilled vs)
            | None => b
            end
        end
      else b
  | _ => b
  end.

(** [resolve(v)] or [reject(e)] on the promise of task [id]; a promise
    that is already settled stays as it is. *)
Definition settle (id : nat) (r : Result V) (q : t) : t :=
  match promises q !! id with
  | Some Pending =>
      let ps := <[id := match r with
                        | Return v => Fulfilled v
                        | Throw e => Rejected e
                        end]> (promises q) in
      Queue (concurrency q) (running q) (queue q) (results q) (errors q)
            (isStopped q) (maxStoredResults q) (completedCount q)
            (inFlight q) (immediates q) (timers q) ps
            (settlements q ++ [(id, r)])
            (notify ps id r <$> all q)
  | _ => q
  end.

(** [process()], up to the [await]. *)
Definition process (q : t) : t :=
  if (running q >=? concurrency q)%Z || isStopped q then q
  else
    match queue q with
    | [] => q
    | item :: rest =>
        if cancelled item then
          Queue (concurrency q) (running q) rest (results q) (errors q)
                (isStopped q) (maxStoredResults q) (completedCount q)
                (inFlight q) (S (immediates q)) (timers q) (promises q)
                (settlements q) (all q)
        else
          Queue (concurrency q) (running q + 1) rest (results q) (errors q)
                (isStopped q) (maxStoredResults q) (completedCount q)
                (inFlight q ++ [task item]) (immediates q)
                (filter (fun i => i ≠ task item) (timers q)) (promises q)
                (settlements q) (all q)
    end.

(** [slice(-n)] *)
Definition slice_last {A} (n : Z) (l : list A) : list A :=
  drop (length l - Z.to_nat n) l.

Definition trim {A} (n : Z) (l : list A) : list A :=
  if (Z.of_nat (length l) >? n)%Z then slice_last n l else l.

(** [process()] from the [await] on: the promise of [item.task()] has
    settled with [r]. *)
Definition resume_process (id : nat) (r : Result V) (q : t) : t :=
  let q :=
    match r with
    | Return v =>
        settle id r
          (Queue (concurrency q) (running q) (queue q) (results q ++ [v])
                 (errors q) (isStopped q) (maxStoredResults q)
                 (completedCount q + 1) (inFlight q) (immediates q)
                 (timers q) (promises q) (settlements q) (all q))
    | Throw e =>
        settle id r
          (Queue (concurrency q) (running q) (queue q) (results q)
                 (errors q ++ [e]) (isStopped q) (maxStoredResults q)
                 (completedCount q) (inFlight q) (immediates q)
                 (timers q) (promises q) (settlements q) (all q))
    end in
  Queue (concurrency q) (running q - 1) (queue q)
        (trim (maxStoredResults q) (results q))
        (trim (maxStoredResults q) (errors q))
        (isStopped q) (maxStoredResults q) (completedCount q)
        (filter (fun i => i ≠ id) (inFlight q)) (S (immediates q))
        (timers q) (promises q) (settlements q) (all q).

(** [add(task, priority, timeout)] at time [now]. *)
Definition add (id : nat) (prio timeout now : Z) (q : t) : t :=
  if isStopped q then
    settle id (Throw stopped_error)
           (set_promises (insert id Pending) q)
  else
    let q := set_promises (insert id Pending) q in
    process
      (Queue (concurrency q) (running q)
             (sort (queue q ++ [QueueItem id prio false now]))
             (results q) (errors q) (isStopped q) (maxStoredResults q)
             (completedCount q) (inFlight q) (immediates q)
             (if (timeout >? 0)%Z then timers q ++ [id] else timers q)
             (promises q) (settlements q) (all q)).

(** The promise that [Promise.all] returns for inputs in the state
    [ps]: it takes the first rejection in the order of the inputs, and
    fulfils at once for no inputs at all. *)
Fixpoint all_of (ps : gmap nat (promise V)) (ids : list nat)
  : promise (list V) :=
  match ids with
  | [] => Fulfilled []
  | id :: ids' =>
      match ps !! id, all_of ps ids' with
      | Some (Rejected e), _ => Rejected e
      | _, Rejected e => Rejected e
      | Some (Fulfilled v), Fulfilled vs => Fulfilled (v :: vs)
      | _, _ => Pending
      end
  end.

(** [processAll(tasks, priority)] *)
Definition processAll (ids : list nat) (prio now : Z) (q : t) : t :=
  let q := foldl (fun q id => add id prio 0 now q) q ids in
  Queue (concurrency q) (running q) (queue q) (results q) (errors q)
        (isStopped q) (maxStoredResults q) (completedCount q)
        (inFlight q) (immediates q) (timers q) (promises q)
        (settlements q)
        (Some (Batch ids (all_of (promises q) ids))).

(** The callback of the enqueue timeout of task [id]. *)
Definition on_timeout (id : nat) (q : t) : t :=
  let q :=
    Queue (concurrency q) (running q)
          (map (fun it => if decide (task it = id)
                          then QueueItem (task it) (priority it) true
                                         (timestamp it)
                          else it) (queue q))
          (results q) (errors q) (isStopped q) (maxStoredResults q)
          (completedCount q) (inFlight q) (immediates q)
          (filter (fun i => i ≠ id) (timers q)) (promises q)
          (settlements q) (all q) in
  settle id (Throw timeout_error) q.

(** [cancel(predicate)] *)
Definition cancel (predicate : nat → bool) (q : t) : t :=
  let hit := filter (fun it => predicate (task it) = true) (queue q) in
  let q := foldl (fun q it => settle (task it) (Throw cancelled_error) q)
                 q hit in
  set_queue
    (filter (fun it => (cancelled it || predicate (task it)) = false)
            (queue q))
    q.

(** [stop()] *)
Definition stop (q : t) : t :=
  let q := foldl (fun q it => settle (task it) (Throw stop_error) q)
                 q (queue q) in
  Queue (concurrency q) (running q) [] (results q) (errors q)
        true (maxStoredResults q) (completedCount q)
        (inFlight q) (immediates q) (timers q) (promises q)
        (settlements q) (all q).

Definition resume (q : t) : t :=
  Queue (concurrency q) (running q) (queue q) (results q) (errors q)
        false (maxStoredResults q) (completedCount q)
        (inFlight q) (immediates q) (timers q) (promises q)
        (settlements q) (all q).

Definition clear (q : t) : t :=
  Queue (concurrency q) (running q) [] [] []
        (isStopped q) (maxStoredResults q) (completedCount q)
        (inFlight q) (immediates q) (timers q) (promises q)
        (settlements q) (all q).

Definition setConcurrency (c : Z) (q : t) : t :=
  Queue c (running q) (queue q) (results q) (errors q)
        (isStopped q) (maxStoredResults q) (completedCount q)
        (inFlight q) (S (immediates q)) (timers q) (promises q)
        (settlements q) (all q).

Inductive event : Type :=
| Add (id : nat) (prio timeout now : Z)
| ProcessAll (ids : list nat) (prio now : Z)
| Tick                                 (* a [setImmediate] callback *)
| Complete (id : nat) (r : Result V)   (* [item.task()] settles *)
| Timeout (id : nat)
| Cancel (predicate : nat → bool)
| Stop
| Resume
| Clear
| SetConcurrency (c : Z).

Definition fresh (q : t) (id : nat) : Prop := promises q !! id = None.

(** [step ev q] is [None] when [ev] cannot happen in [q]. *)
Definition step (ev : event) (q : t) : option t :=
  match ev with
  | Add id prio timeout now =>
      if decide (fresh q id) then Some (add id prio timeout now q) else None
  | ProcessAll ids prio now =>
      if decide (Forall (fresh q) ids ∧ NoDup ids ∧ all q = None)
      then Some (processAll ids prio now q) else None
  | Tick =>
      match immediates q with
      | O => None
      | S n =>
          Some (process
            (Queue (concurrency q) (running q) (queue q) (results q)
                   (errors q) (isStopped q) (maxStoredResults q)
                   (completedCount q) (inFlight q) n (timers q)
                   (promises q) (settlements q) (all q)))
      end
  | Complete id r =>
      if decide (id ∈ inFlight q) then Some (resume_process id r q)
      else None
  | Timeout id =>
      if decide (id ∈ timers q) then Some (on_timeout id q) else None
  | Cancel predicate => Some (cancel predicate q)
  | Stop => Some (stop q)
  | Resume => Some (resume q)
  | Clear => Some (clear q)
  | SetConcurrency c => Some (setConcurrency c q)
  end.

Inductive reaches (q0 : t) : list event → t → Prop :=
| reaches_nil : reaches q0 [] q0
| reaches_snoc evs ev q q' :
    reaches q0 evs q → step ev q = Some q' → reaches q0 (evs ++ [ev]) q'.

Definition changes_limit (ev : event) : bool :=
  match ev with SetConcurrency _ => true | _ => false end.

(** The first rejection among the promises of [ids], in the order in
    which the promises settled. *)
Fixpoint first_rejection (ids : list nat) (log : list (nat * Result V))
  : option (nat * jsError) :=
  match log with
  | [] => None
  | (id, Throw e) :: log' =>
      if bool_decide (id ∈ ids) then Some (id, e)
      else first_rejection ids log'
  | (_, Return _) :: log' => first_rejection ids log'
  end.

End WithValue.
Arguments t V : clear implicits.
Arguments batch V : clear implicits.
Arguments event V : clear implicits.
Arguments Pending {A}.
Arguments Fulfilled {A} v.
Arguments Rejected {A} e.

End TaskQueue.

(** ** Paths

    A path is the list of its segments below a fixed root.  [join] is the
    [path.join] of node for a second argument that is one plain segment: a
    name that is not empty, is neither [.] nor [..] and has no separator
    in it ([plain]).  For any other second argument [path.join] normalises
    the result (an empty segment and [.] are dropped, [..] climbs, a
    separator splits), which [join] does not do: what is stated below about
    a joined path is stated for plain segments. *)

Module Path.

Definition path : Type := list string.

Definition plain (name : string) : bool :=
  negb (bool_decide (name = EmptyString))
  && negb (bool_decide (name = "."))
  && negb (bool_decide (name = ".."))
  && negb (Str.mem "/"%char name).

Definition join (dir : path) (name : string) : path := (dir ++ [name])%list.
Definition dirname (p : path) : path := List.removelast p.
Definition basename (p : path) : string := List.last p EmptyString.

(** [q] is [p] or lies below it. *)
Definition under (p q : path) : bool := bool_decide (p `prefix_of` q).

(** The stem before the last dot of a name and the text from that dot on. *)
Fixpoint split_last_dot (s : string) : option (string * string) :=
  match s with
  | EmptyString => None
  | String a s' =>
      match split_last_dot s' with
      | Some (stem, ext) => Some (String a stem, ext)
      | None => if Ascii.eqb a "." then Some (EmptyString, s) else None
      end
  end.

(** [path.extname] on a file name: empty for a name without a dot, for a
    name whose only dot comes first, and for [..]. *)
Definition extname (name : string) : string :=
  match split_last_dot name with
  | Some (stem, ext) =>
      if String.eqb stem EmptyString || String.eqb name ".." then EmptyString
      else ext
  | None => EmptyString
  end.

(** [path.parse(name).name] *)
Definition stem (name : string) : string :=
  Str.take (String.length name - String.length (extname name)) name.

End Path.

Export Path(path).

(** ** The file system

    Directories and files below the root; a file has a content.  The order of
    [files] and [dirs] stands for the order in which the operating system
    lists a directory.  Permissions and device errors are not modelled: an
    operation fails only for a reason that the tree shows (a missing path,
    a file where a directory is needed, and so on), and [rm] with [force]
    does not fail at all. *)

Module Fs.
Import Path.

Record t : Type := Make {
  dirs : list path;
  files : list (path * string)
}.

Definition ENOENT : jsError := SystemError "ENOENT" "no such file or directory".
Definition EEXIST : jsError := SystemError "EEXIST" "file already exists".
Definition ENOTDIR : jsError := SystemError "ENOTDIR" "not a directory".
Definition EISDIR : jsError := SystemError "EISDIR" "illegal operation on a directory".
Definition EINVAL : jsError := SystemError "EINVAL" "invalid argument".
Definition ENOTEMPTY : jsError := SystemError "ENOTEMPTY" "directory not empty".

Fixpoint file_at (l : list (path * string)) (p : path) : option string :=
  match l with
  | [] => None
  | (q, c) :: l' => if decide (q = p) then Some c else file_at l' p
  end.

(** The content of the file at [p]; the root is a directory. *)
Definition read (fs : t) (p : path) : option string :=
  match p with
  | [] => None
  | _ :: _ => file_at (files fs) p
  end.

Definition is_file (fs : t) (p : path) : bool :=
  match read fs p with Some _ => true | None => false end.

Definition is_dir (fs : t) (p : path) : bool :=
  bool_decide (p = []) || bool_decide (p ∈ dirs fs).

Definition exists_ (fs : t) (p : path) : bool := is_file fs p || is_dir fs p.

Definition remove_file (p : path) (l : list (path * string))
  : list (path * string) :=
  filter (fun e => e.1 ≠ p) l.

(** The names of the entries of [d], files and directories alike. *)
Definition entries (fs : t) (d : path) : list string :=
  (map (fun e => basename e.1)
       (filter (fun e => e.1 ≠ [] ∧ dirname e.1 = d) (files fs))
   ++ map basename (filter (fun q => q ≠ [] ∧ dirname q = d) (dirs fs)))%list.

Definition access (p : path) : M t unit :=
  fun fs => if exists_ fs p then (Return tt, fs) else (Throw ENOENT, fs).

(** [p] and the directories above it, the root left out, outermost first. *)
Definition ancestry (p : path) : list path :=
  map (fun n => take n p) (seq 1 (length p)).

(** [fs.mkdir(p, { recursive: true })] *)
Definition mkdir (p : path) : M t unit :=
  fun fs =>
    if is_file fs p then (Throw EEXIST, fs)
    else if existsb (is_file fs) (ancestry p) then (Throw ENOTDIR, fs)
    else
      (Return tt,
       Make (dirs fs ++ filter (fun q => q ∉ dirs fs) (ancestry p))
            (files fs)).

Definition readdir (d : path) : M t (list string) :=
  fun fs =>
    if is_dir fs d then (Return (entries fs d), fs)
    else if is_file fs d then (Throw ENOTDIR, fs)
    else (Throw ENOENT, fs).

Definition writeFile (p : path) (c : string) : M t unit :=
  fun fs =>
    if is_dir fs p then (Throw EISDIR, fs)
    else if negb (is_dir fs (dirname p)) then (Throw ENOENT, fs)
    else (Return tt, Make (dirs fs) ((p, c) :: remove_file p (files fs))).

(** Move what is at or below [src] to the same place at or below [tgt]. *)
Definition rebase (src tgt q : path) : path :=
  if under src q then (tgt ++ drop (length src) q)%list else q.

Definition rename (src tgt : path) : M t unit :=
  fun fs =>
    match read fs src with
    | Some c =>
        if negb (is_dir fs (dirname tgt)) then (Throw ENOENT, fs)
        else if is_dir fs tgt then (Throw EISDIR, fs)
        else
          (Return tt,
           Make (dirs fs)
                ((tgt, c) :: remove_file tgt (remove_file src (files fs))))
    | None =>
        if negb (is_dir fs src) then (Throw ENOENT, fs)
        else if under src tgt then (Throw EINVAL, fs)
        else if negb (is_dir fs (dirname tgt)) then (Throw ENOENT, fs)
        else if is_file fs tgt then (Throw ENOTDIR, fs)
        else if is_dir fs tgt && negb (bool_decide (entries fs tgt = []))
        then (Throw ENOTEMPTY, fs)
        else
          (Return tt,
           Make (map (rebase src tgt) (filter (fun q => q ≠ tgt) (dirs fs)))
                (map (fun e => (rebase src tgt e.1, e.2)) (files fs)))
    end.

Definition copyFile (src tgt : path) : M t unit :=
  fun fs =>
    match read fs src with
    | Some c => writeFile tgt c fs
    | None => if is_dir fs src then (Throw EISDIR, fs) else (Throw ENOENT, fs)
    end.

Definition unlink (p : path) : M t unit :=
  fun fs =>
    if is_file fs p
    then (Return tt, Make (dirs fs) (remove_file p (files fs)))
    else if is_dir fs p then (Throw EISDIR, fs)
    else (Throw ENOENT, fs).

(** What is at [p] and everything below it leaves the tree. *)
Definition prune (p : path) (fs : t) : t :=
  Make (filter (fun q => under p q = false) (dirs fs))
       (filter (fun e => under p e.1 = false) (files fs)).

(** [fs.rm(p, { recursive: true, force: true })] *)
Definition rm (p : path) : M t unit :=
  fun fs => (Return tt, prune p fs).

(** The [trash] package: the file or directory goes to the recycle bin,
    which is outside the tree. *)
Definition trash (p : path) : M t unit :=
  fun fs =>
    if exists_ fs p then (Return tt, prune p fs) else (Throw ENOENT, fs).

End Fs.

(** ** [FileUtils.moveFile] *)

Module FileUtils.
Import Path.
Local Open Scope js_scope.

Record moveOptions : Type := MoveOptions {
  useSafeDelete : bool;
  overwrite : bool;
  createDir : bool
}.

Inductive moveResult : Type :=
| Moved (to : path)              (* [{ success: true, path }] *)
| NotMoved (error : string).     (* [{ success: false, error }] *)

Definition success (r : moveResult) : bool :=
  match r with Moved _ => true | NotMoved _ => false end.

Definition fileExists (fs : Fs.t) (p : path) : bool := Fs.exists_ fs p.

(** The name tried after [counter - 1] collisions. *)
Definition candidate (targetDir : path) (name ext : string) (counter : nat)
  : path :=
  join targetDir (name ++ " (" ++ pretty counter ++ ")" ++ ext).

(** The [while (await this.fileExists(targetPath))] loop, cut after [fuel]
    rounds. *)
Fixpoint freeTarget (fuel : nat) (fs : Fs.t) (targetDir : path)
    (name ext : string) (counter : nat) (targetPath : path) : path :=
  match fuel with
  | O => targetPath
  | S fuel' =>
      if fileExists fs targetPath
      then freeTarget fuel' fs targetDir name ext (S counter)
                      (candidate targetDir name ext counter)
      else targetPath
  end.

(** As many rounds as the tree has entries, and one more: enough for the
    loop to end by itself. *)
Definition rounds (fs : Fs.t) : nat :=
  S (length (Fs.files fs) + length (Fs.dirs fs)).

Section Move.
(** [stat(p).dev] *)
Variable dev : path → nat.

(** The [try] block around the move proper. *)
Definition transfer (useSafeDelete_ : bool) (sourcePath targetPath : path)
  : M Fs.t unit :=
  if decide (dev sourcePath ≠ dev (dirname targetPath)) then
    Fs.copyFile sourcePath targetPath ;;;
    (if useSafeDelete_ then Fs.trash sourcePath else Fs.unlink sourcePath)
  else Fs.rename sourcePath targetPath.

(** The directory of the target: created, or checked when [createDir] is
    off.  An [EEXIST] from [mkdir] is let through. *)
Definition ensureDir (createDir_ : bool) (targetDir : path) : M Fs.t unit :=
  fun fs =>
    if createDir_ then
      match Fs.mkdir targetDir fs with
      | (Throw e, fs') =>
          if bool_decide (Js.code e = Some "EEXIST")
          then (Return tt, fs')
          else (Throw (Error ("创建目标目录失败: " ++ Js.message e)), fs')
      | ok => ok
      end
    else
      match Fs.access targetDir fs with
      | (Throw e, fs') =>
          (Throw (Error ("目标目录不存在或无法写入: " ++ Js.message e)), fs')
      | ok => ok
      end.

(** The path the file will have: a name that is free in the target
    directory, or the name of the source when overwriting is allowed (the
    check that an existing target can be written has no counterpart here,
    permissions not being modelled). *)
Definition pickTarget (overwrite_ : bool) (fs : Fs.t) (targetDir : path)
    (fileName : string) : path :=
  if negb overwrite_
  then freeTarget (rounds fs) fs targetDir
                  (Path.stem fileName) (extname fileName) 1
                  (join targetDir fileName)
  else join targetDir fileName.

Definition moveFile (sourcePath targetDir : path) (o : moveOptions)
  : M Fs.t moveResult :=
  fun fs =>
    match Fs.access sourcePath fs with
    | (Throw e, fs) =>
        (Return (NotMoved ("源文件不存在或无法访问: " ++ Js.message e)), fs)
    | (Return _, fs) =>
        match ensureDir (createDir o) targetDir fs with
        | (Throw e, fs) => (Return (NotMoved (Js.message e)), fs)
        | (Return _, fs) =>
            let targetPath :=
              pickTarget (overwrite o) fs targetDir (basename sourcePath) in
            match transfer (useSafeDelete o) sourcePath targetPath fs with
            | (Throw e, fs) =>
                (Return (NotMoved ("移动文件失败: " ++ Js.message e)), fs)
            | (Return _, fs) => (Return (Moved targetPath), fs)
            end
        end
    end.

End Move.

End FileUtils.

(** ** The organizer: [images.downloadAndSaveCovers], [nfo.generateNfo] and
    [Organizer.processVideo] *)

Module Organizer.
Import Path.
Local Open Scope js_scope.

(** The metadata record, as far as the pipeline reads it. *)
Record metadata : Type := Metadata {
  md_code : string;
  coverUrl : string;
  details : string
}.

Record videoFile : Type := VideoFile {
  file_path : path;
  file_name : string
}.

Record videoInfo : Type := VideoInfo {
  code : string;
  file : videoFile
}.

(** [config.get('fileTypes.video')] of a loaded configuration. *)
Record config : Type := Config {
  fileTypes_video : list string
}.

(** The value [processVideo] resolves to. *)
Inductive outcome : Type :=
| Success (code : string) (path_ : path)      (* [{ success: true, code, path }] *)
| Failure (code : string) (error : string).   (* [{ success: false, code, error }] *)

Record world : Type := World {
  fs : Fs.t;
  cache : Cache.t metadata;
  now : Z;                 (* [Date.now()] *)
  requests : nat;          (* network requests made so far *)
  isAborting : bool        (* the flag of [retry.js] *)
}.

Definition on_fs {A} (c : M Fs.t A) : M world A :=
  fun w =>
    let '(r, fs') := c (fs w) in
    (r, World fs' (cache w) (now w) (requests w) (isAborting w)).

Definition sleep (d : Z) (w : world) : world :=
  World (fs w) (cache w) (now w + d) (requests w) (isAborting w).

(** [createRetryableFunction(fn, defaultOptions)] *)
Definition retryable {A} (o : Retry.options) (fn : M world A) : M world A :=
  Retry.retryOperation isAborting sleep fn o.

Section Pipeline.
(** The collaborators outside the repository: the remote site, the image
    library, URL parsing, the rendering of the description file, the
    digest of cache keys and the device a path is on.  The network
    answers as a function of the number of requests made before. *)
Variable getVideoInfo : string → nat → Result metadata.
Variable http_get : string → nat → Result (option string).
Variable splitCoverImage : string → Result string.
Variable url_extname : string → Result string.
Variable render : metadata → string.
Variable generateKey : string → string.
Variable dev : path → nat.

Definition request {A} (answer : nat → Result A) : M world A :=
  fun w =>
    (answer (requests w),
     World (fs w) (cache w) (now w) (S (requests w)) (isAborting w)).

Definition cache_get (key : string) : M world (option metadata) :=
  fun w =>
    let '(r, c') := Cache.get (generateKey key) None (now w) (cache w) in
    (Return r, World (fs w) c' (now w) (requests w) (isAborting w)).

Definition cache_set (key : string) (d : metadata) : M world unit :=
  fun w =>
    (Return tt,
     World (fs w) (Cache.set (generateKey key) d None (now w) (cache w))
           (now w) (requests w) (isAborting w)).

Definition of_result {A} (r : Result A) : M world A := fun w => (r, w).

(** [nfo.generateNfo(metadata, outputPath)] *)
Definition generateNfo (md : metadata) (outputPath : path) : M world unit :=
  on_fs (Fs.writeFile outputPath (render md)).

(** [Organizer._generateNfoFile] *)
Definition _generateNfoFile (md : metadata) (videoDir : path)
  : M world path :=
  let nfoPath := join videoDir (md_code md ++ ".nfo") in
  generateNfo md nfoPath ;;;
  Js.ret nfoPath.

Definition generateNfoFile (md : metadata) (videoDir : path)
  : M world path :=
  retryable (Retry.Options 3 1000 5000) (_generateNfoFile md videoDir).

(** [Images._downloadImage] *)
Definition _downloadImage (imageUrl : string) : M world string :=
  response <- request (http_get imageUrl) ;;
  match response with
  | Some buffer => Js.ret buffer
  | None => Js.throw (Error "下载封面失败：响应数据为空")
  end.

Definition downloadImage (imageUrl : string) : M world string :=
  retryable (Retry.Options 3 1000 10000) (_downloadImage imageUrl).

(** [Images._processAndSaveImages] *)
Definition _processAndSaveImages (imageBuffer : string) (outputDir : path)
    (extension : string) : M world (path * path) :=
  let fanartPath := join outputDir ("fanart" ++ extension) in
  let posterPath := join outputDir ("poster" ++ extension) in
  on_fs (Fs.writeFile fanartPath imageBuffer) ;;;
  splitCoverBuffer <- of_result (splitCoverImage imageBuffer) ;;
  on_fs (Fs.writeFile posterPath splitCoverBuffer) ;;;
  Js.ret (fanartPath, posterPath).

Definition processAndSaveImages (imageBuffer : string) (outputDir : path)
    (extension : string) : M world (path * path) :=
  retryable (Retry.Options 3 1000 10000)
            (_processAndSaveImages imageBuffer outputDir extension).

Definition startsWith (pre s : string) : bool := String.prefix pre s.

(** [Images.downloadAndSaveCovers] *)
Definition downloadAndSaveCovers (url : string) (outputDir : path)
  : M world (path * path) :=
  if negb (startsWith "http" url) then Js.throw (Error "无效的封面图片URL")
  else
    Js.try_catch (on_fs (Fs.access outputDir))
      (fun error =>
         Js.throw (Error ("输出目录不存在或无写入权限: " ++ Js.message error))) ;;;
    ext <- of_result (url_extname url) ;;
    let extension :=
      if String.eqb ext EmptyString then ".jpg" else ext in
    imageBuffer <- downloadImage url ;;
    processAndSaveImages imageBuffer outputDir extension.

Definition moveOptions_in : FileUtils.moveOptions :=
  FileUtils.MoveOptions true false true.

Definition moveOptions_back : FileUtils.moveOptions :=
  FileUtils.MoveOptions false false true.

(** [Organizer._moveVideoFile] *)
Definition _moveVideoFile (sourceVideoPath videoDir : path)
  : M world FileUtils.moveResult :=
  moveResult <-
    on_fs (FileUtils.moveFile dev sourceVideoPath videoDir moveOptions_in) ;;
  match moveResult with
  | FileUtils.NotMoved error =>
      Js.throw (Error ("移动视频文件失败: " ++ error))
  | FileUtils.Moved _ => Js.ret moveResult
  end.

Definition moveVideoFile (sourceVideoPath videoDir : path)
  : M world FileUtils.moveResult :=
  retryable (Retry.Options 3 1000 5000)
            (_moveVideoFile sourceVideoPath videoDir).

(** The metadata of the video: from the cache, else from the site and
    then into the cache. *)
Definition resolveMetadata (videoCode : string) : M world metadata :=
  cached <- cache_get ("metadata:" ++ videoCode) ;;
  match cached with
  | None =>
      md <- request (getVideoInfo videoCode) ;;
      cache_set ("metadata:" ++ videoCode) md ;;;
      Js.ret md
  | Some md => Js.ret md
  end.

(** The body of the inner [try]: description file, covers, move. *)
Definition produce (md : metadata) (sourceVideoPath videoDir : path)
  : M world outcome :=
  generateNfoFile md videoDir ;;;
  downloadAndSaveCovers (coverUrl md) videoDir ;;;
  moveVideoFile sourceVideoPath videoDir ;;;
  Js.ret (Success (md_code md) videoDir).

Definition isVideo (cfg : config) (name : string) : bool :=
  bool_decide (Str.toLowerCase (extname name) ∈ fileTypes_video cfg).

(** The [try] block of the inner [catch]: a video found in the
    destination goes back next to the source, then the destination is
    removed. *)
Definition restore (cfg : config) (sourceVideoPath videoDir : path)
  : M world unit :=
  videoFiles <- on_fs (Fs.readdir videoDir) ;;
  match List.find (isVideo cfg) videoFiles with
  | Some videoFile =>
      on_fs (FileUtils.moveFile dev (join videoDir videoFile)
                                (dirname sourceVideoPath) moveOptions_back) ;;;
      Js.ret tt
  | None => Js.ret tt
  end ;;;
  on_fs (Fs.rm videoDir).

(** The inner [catch]: whatever [restore] throws is logged and dropped,
    and the error that was caught is thrown again. *)
Definition compensate {A} (cfg : config) (sourceVideoPath videoDir : path)
    (error : jsError) : M world A :=
  Js.try_catch (restore cfg sourceVideoPath videoDir)
               (fun cleanupError => Js.ret tt) ;;;
  Js.throw error.

Definition videoDir_of (targetDir : path) (md : metadata) : path :=
  join targetDir (md_code md).

Definition processVideo (vi : videoInfo) (cfg : config) (targetDir : path)
  : M world outcome :=
  let videoCode := code vi in
  let sourceVideoPath := file_path (file vi) in
  Js.try_catch
    (md <- resolveMetadata videoCode ;;
     let videoDir := videoDir_of targetDir md in
     on_fs (Fs.mkdir videoDir) ;;;
     Js.try_catch
       (produce md sourceVideoPath videoDir)
       (compensate cfg sourceVideoPath videoDir))
    (fun error => Js.ret (Failure (code vi) (Js.message error))).

(** The closure that [processVideos] hands to the task queue for one
    video. *)
Definition task (vi : videoInfo) (cfg : config) (targetDir : path)
  : M world outcome :=
  result <- processVideo vi cfg targetDir ;;
  Js.ret result.

End Pipeline.

End Organizer.

(** ** What a match is

    The relation that the matcher implements: [matches r s s'] when [r]
    matches the text that leads from the position [s] to the position [s']
    (positions are given by the input that remains).  Upper bounds of
    repetitions are left out: the relation is only used to say what a match
    looks like. *)

Module RegexSpec.
Import Regex.

Inductive matches : re → string → string → Prop :=
| matches_cls p a s :
    p a = true → matches (Cls p) (String a s) s
| matches_cat r1 r2 s s1 s2 :
    matches r1 s s1 → matches r2 s1 s2 → matches (Cat r1 r2) s s2
| matches_rep_stop r hi s :
    matches (Rep r 0 hi) s s
| matches_rep_more r lo hi hi' s s1 s2 :
    matches r s s1 → matches (Rep r (pred lo) hi') s1 s2 →
    matches (Rep r lo hi) s s2
| matches_grp i r s s' :
    matches r s s' → matches (Grp i r) s s'
| matches_eos :
    matches Eos EmptyString EmptyString.

(** A final extension: a dot, then one character or more, none of them a
    dot or a slash. *)
Definition isExtension (ext : string) : Prop :=
  ∃ e, ext = String "." e ∧ e ≠ EmptyString
       ∧ Str.mem "." e = false ∧ Str.mem "/" e = false.

(** [name] is [fileName] without its final extension: [fileName] with
    that extension cut off, and [fileName] itself only when it does not
    end in an extension. *)
Definition withoutExtension (fileName name : string) : Prop :=
  (∃ ext, isExtension ext ∧ fileName = name ++ ext)
  ∨ (name = fileName
     ∧ ∀ stem ext, isExtension ext → fileName ≠ stem ++ ext).

End RegexSpec.

(** ** Watching a retried operation

    To count the invocations of an operation, the operation is wrapped so
    that every invocation leaves its result in a journal next to the
    state. *)

Module RetrySpec.

Section Journal.
Context {S A : Type}.
Variable isAborting : S → bool.
Variable sleep : Z → S → S.
Variable operation : M S A.

Definition journaled : M (S * list (Result A)) A :=
  fun sj =>
    let '(r, s') := operation sj.1 in
    (r, (s', (sj.2 ++ [r])%list)).

Definition isAborting_j (sj : S * list (Result A)) : bool :=
  isAborting sj.1.

Definition sleep_j (d : Z) (sj : S * list (Result A))
  : S * list (Result A) :=
  (sleep d sj.1, sj.2).

(** [retryOperation(operation, o)] with the journal switched on. *)
Definition watched (o : Retry.options) : M (S * list (Result A)) A :=
  Retry.retryOperation isAborting_j sleep_j journaled o.

Definition failed (r : Result A) : Prop :=
  match r with Throw _ => True | Return _ => False end.

(** The error most recently thrown in a journal, [init] if none. *)
Definition last_thrown (init : option jsError) (j : list (Result A))
  : option jsError :=
  foldl (fun acc r => match r with Throw e => Some e | Return _ => acc end)
        init j.

End Journal.

End RetrySpec.

(** ** Recency in the in-process tier *)

Module CacheSpec.

Section WithValue.
Context {V : Type}.

(** [k1] was last touched before [k2]. *)
Definition older (lastTouch : gmap string nat) (k1 k2 : string) : Prop :=
  ∃ n1 n2, lastTouch !! k1 = Some n1 ∧ lastTouch !! k2 = Some n2
           ∧ (n1 < n2)%nat.

(** What holds of the in-process tier after any history: the recency
    list holds each key of the map once, in the order of last touch. *)
Record consistent (c : Cache.t V) (lastTouch : gmap string nat)
    (clock : nat) : Prop := Consistent {
  order_nodup : NoDup (Cache.accessOrder c);
  order_keys :
    ∀ k, k ∈ Cache.accessOrder c ↔ is_Some (Cache.memoryCache c !! k);
  order_size :
    length (Cache.accessOrder c) = size (Cache.memoryCache c);
  order_sorted :
    StronglySorted (older lastTouch) (Cache.accessOrder c);
  order_stamped :
    ∀ k, k ∈ Cache.accessOrder c →
         ∃ n, lastTouch !! k = Some n ∧ (n < clock)%nat;
  within_bound :
    (Z.of_nat (size (Cache.memoryCache c)) ≤ Cache.maxMemoryItems c)%Z
}.

(** The in-process tier is full and [key] is not in it. *)
Definition at_capacity (c : Cache.t V) (key : string) : Prop :=
  (Cache.maxMemoryItems c ≤ Z.of_nat (size (Cache.memoryCache c)))%Z
  ∧ Cache.memoryCache c !! key = None.

End WithValue.

End CacheSpec.

(** ** What holds of the queue after any sequence of events *)

Module TaskQueueSpec.
Import TaskQueue.

Section WithValue.
Context {V : Type}.

(** The tasks the queue knows: waiting or in flight. *)
Definition known (q : TaskQueue.t V) : list nat :=
  (map task (queue q) ++ inFlight q)%list.

(** The counter [running] counts the tasks in flight, and no task waits
    or runs twice. *)
Record scheduled (q : TaskQueue.t V) : Prop := Scheduled {
  running_counts : running q = Z.of_nat (length (inFlight q));
  known_nodup : NoDup (known q);
  known_promised : ∀ id, id ∈ known q → is_Some (promises q !! id)
}.

(** What [Promise.all] has made of the promises of its inputs. *)
Definition aggregated (q : TaskQueue.t V) (b : batch V) : Prop :=
  match outcome b with
  | Pending => first_rejection (members b) (settlements q) = None
  | Fulfilled vs => mapM (fulfilled_value q) (members b) = Some vs
  | Rejected e =>
      ∃ id, first_rejection (members b) (settlements q) = Some (id, e)
  end.

Record promised (q : TaskQueue.t V) : Prop := Promised {
  settled_promised :
    ∀ id r, (id, r) ∈ settlements q → is_Some (promises q !! id);
  rejected_settled :
    ∀ id e, promises q !! id = Some (Rejected e) →
            (id, Throw e) ∈ settlements q;
  members_promised :
    ∀ b id, all q = Some b → id ∈ members b → is_Some (promises q !! id);
  all_aggregated : ∀ b, all q = Some b → aggregated q b
}.

Definition was_pending (q : TaskQueue.t V) (id : nat) : bool :=
  match promises q !! id with
  | Some Pending => true
  | _ => false
  end.

(** The state of a promise settled with [r]. *)
Definition settled_as (r : Result V) : promise V :=
  match r with Return v => Fulfilled v | Throw e => Rejected e end.

(** The state after a list of events, if each can happen in its turn. *)
Fixpoint run (evs : list (event V)) (q : TaskQueue.t V)
  : option (TaskQueue.t V) :=
  match evs with
  | [] => Some q
  | ev :: evs' =>
      match step ev q with
      | Some q' => run evs' q'
      | None => None
      end
  end.

(** Every task of the list has settled. *)
Definition all_settled (q : TaskQueue.t V) (ids : list nat) : Prop :=
  ∀ id, id ∈ ids →
    ∃ p, promises q !! id = Some p ∧ p ≠ Pending.

End WithValue.

End TaskQueueSpec.

(** ** What a computation keeps *)

Module Hoare.

Section WithState.
Context {S : Type}.

(** [c] keeps [P], however it ends. *)
Definition keeps {A} (P : S → Prop) (c : M S A) : Prop :=
  ∀ s r s', P s → c s = (r, s') → P s'.

(** [c] keeps [P] when it throws. *)
Definition keeps_on_throw {A} (P : S → Prop) (c : M S A) : Prop :=
  ∀ s e s', P s → c s = (Throw e, s') → P s'.

End WithState.

End Hoare.

(** ** The state of the tree around a pipeline run *)

Module OrganizerSpec.

(** Nothing is at [d] or below it. *)
Definition absent (fs : Fs.t) (d : path) : Prop :=
  ∀ p, Path.under d p = true → Fs.exists_ fs p = false.

(** The file at [sp] has the content [c], and [d] is a directory. *)
Definition intact (sp : path) (c : string) (d : path) (fs : Fs.t) : Prop :=
  Fs.read fs sp = Some c ∧ Fs.is_dir fs d = true.

End OrganizerSpec.

(** ** Two runs of the pipeline

    A metadata site that knows the video, a network on which every image
    request times out, one device, and two trees: one with the video in an
    input directory apart from the output, one with the video already in
    the directory that its code names under the output. *)
Module Scenario.
Import Js Path Organizer.

Definition getVideoInfo : string → nat → Result metadata :=
  fun _ _ => Return (Metadata "ABC-123" "http://img/cover.jpg" "<movie/>").

Definition http_get : string → nat → Result (option string) :=
  fun _ _ => Throw (Error "timeout").

Definition splitCoverImage : string → Result string := fun b => Return b.

Definition url_extname : string → Result string := fun _ => Return ".jpg".

Definition generateKey : string → string := fun k => k.

Definition dev : path → nat := fun _ => 0.

Definition cfg : config := Config [".mp4"; ".mkv"].

Definition targetDir : path := ["out"].

Definition md : metadata := Metadata "ABC-123" "http://img/cover.jpg" "<movie/>".

Definition world_of (f : Fs.t) : world :=
  World f (Cache.init 1000 86400000 ∅) 0 0 false.

Definition fs_apart : Fs.t :=
  Fs.Make [["in"]; ["out"]] [(["in"; "abc-123.mp4"], "VIDEO")].

Definition vi_apart : videoInfo :=
  VideoInfo "ABC-123" (VideoFile ["in"; "abc-123.mp4"] "abc-123.mp4").

Definition fs_inside : Fs.t :=
  Fs.Make [["out"]; ["out"; "ABC-123"]]
          [(["out"; "ABC-123"; "abc-123.mp4"], "VIDEO")].

Definition vi_inside : videoInfo :=
  VideoInfo "ABC-123"
            (VideoFile ["out"; "ABC-123"; "abc-123.mp4"] "abc-123.mp4").

Definition resolveMetadata : string → M world metadata :=
  Organizer.resolveMetadata getVideoInfo generateKey.

Definition produce : metadata → path → path → M world outcome :=
  Organizer.produce http_get splitCoverImage url_extname details dev.

Definition processVideo : videoInfo → config → path → M world outcome :=
  Organizer.processVideo getVideoInfo http_get splitCoverImage url_extname
                         details generateKey dev.

(** What the image fetch ends with after its three attempts. *)
Definition fetchError : jsError :=
  RetryError "操作在重试 3 次后仍然失败: timeout" (Error "timeout") 3.

End Scenario.

(** ** The order in which waiting tasks are dispatched *)

Module TaskQueueOrder.
Import TaskQueue.

(** [a] goes before [b]: a higher priority first, and the earlier enqueue
    time first among equal priorities. *)
Definition precedes (a b : queueItem) : Prop :=
  (priority b < priority a)%Z
  ∨ (priority a = priority b ∧ (timestamp a ≤ timestamp b)%Z).

End TaskQueueOrder.

(** ** [TaskQueue.getStats] *)

Module TaskQueueStats.
Import TaskQueue.

Section WithValue.
Context {V : Type}.

Record stats : Type := Stats {
  queued : nat;
  running_ : Z;
  completed : Z;
  errors_ : nat;
  isStopped_ : bool
}.

Definition getStats (q : TaskQueue.t V) : stats :=
  Stats (length (queue q)) (running q) (completedCount q)
        (length (errors q)) (isStopped q).

(** The event is a task that fulfils. *)
Definition fulfils (ev : event V) : bool :=
  match ev with
  | Complete _ (Return _) => true
  | _ => false
  end.

(** The number of tasks that fulfilled in a history. *)
Definition fulfilments (evs : list (event V)) : nat :=
  length (filter (fun ev => fulfils ev = true) evs).

End WithValue.

End TaskQueueStats.

(** ** Tasks that will not be started *)

Module TaskQueueFate.
Import TaskQueue.

Section WithValue.
Context {V : Type}.

(** The task [id] is known to the queue, is not in flight, and is marked
    cancelled wherever it still waits. *)
Definition dropped (q : TaskQueue.t V) (id : nat) : Prop :=
  is_Some (promises q !! id)
  ∧ (id ∉ inFlight q)
  ∧ ∀ item, item ∈ queue q → task item = id → cancelled item = true.

(** Nothing in the queue object or on the event loop refers to [id]. *)
Definition forgotten (q : TaskQueue.t V) (id : nat) : Prop :=
  (id ∉ map task (queue q)) ∧ (id ∉ inFlight q) ∧ (id ∉ timers q).

(** An armed enqueue timeout belongs to a known task that has not been
    started. *)
Definition timers_wait (q : TaskQueue.t V) : Prop :=
  ∀ id, id ∈ timers q → is_Some (promises q !! id) ∧ (id ∉ inFlight q).

End WithValue.

End TaskQueueFate.

(** ** Between [stop] and [resume] *)

Module TaskQueueStop.
Import TaskQueue.

Section WithValue.
Context {V : Type}.

Definition resumes (ev : event V) : bool :=
  match ev with Resume => true | _ => false end.

(** What holds of [q'] when [stop] was called on [q] and [resume] has not
    been called since: nothing waits, nothing new is in flight, the tasks
    that waited are rejected, and so is every task submitted since. *)
Definition halted (q q' : TaskQueue.t V) : Prop :=
  isStopped q' = true
  ∧ queue q' = []
  ∧ (∀ id, id ∈ inFlight q' → id ∈ inFlight q)
  ∧ (∀ item, item ∈ queue q → promises q !! task item = Some Pending →
       promises q' !! task item = Some (Rejected stop_error))
  ∧ (∀ id, promises q !! id = None →
       promises q' !! id = None
       ∨ promises q' !! id = Some (Rejected stopped_error)).

End WithValue.

End TaskQueueStop.

(** ** Free slots and pending calls of [process] *)

Module TaskQueueWake.
Import TaskQueue.

Section WithValue.
Context {V : Type}.

(** The number of waiting tasks that could be started at once: as many
    as wait, or as many as there are free slots. *)
Definition idle (q : TaskQueue.t V) : Z :=
  Z.min (Z.of_nat (length (queue q))) (concurrency q - running q).

(** A stopped queue holds no task, and for every task that could be
    started a call of [process] is on its way. *)
Definition awake (q : TaskQueue.t V) : Prop :=
  (isStopped q = true → queue q = [])
  ∧ (idle q ≤ Z.of_nat (immediates q))%Z.

End WithValue.

End TaskQueueWake.

(** ** What a call of [retryOperation] leaves behind

    For an observer of a call, every invocation of the operation records
    its outcome and every wait records its length. *)

Module RetryTrace.

Section Trace.
Context {S A : Type}.
Variable isAborting : S → bool.
Variable sleep : Z → S → S.
Variable operation : M S A.

Record trace : Type := Trace {
  invocations : list (Result A);   (* oldest first *)
  waits : list Z                   (* oldest first *)
}.

Definition nothing : trace := Trace [] [].

Definition traced_operation : M (S * trace) A :=
  fun st =>
    let '(r, s') := operation st.1 in
    (r, (s', Trace (invocations st.2 ++ [r])%list (waits st.2))).

Definition traced_isAborting (st : S * trace) : bool := isAborting st.1.

Definition traced_sleep (d : Z) (st : S * trace) : S * trace :=
  (sleep d st.1, Trace (invocations st.2) (waits st.2 ++ [d])%list).

(** [retryOperation(operation, o)] under observation. *)
Definition traced (o : Retry.options) : M (S * trace) A :=
  Retry.retryOperation traced_isAborting traced_sleep traced_operation o.

(** The same for the loop alone, from a given iteration on. *)
Definition traced_loop (o : Retry.options) (n : nat) (attempt : Z)
    (lastError : option jsError) : M (S * trace) A :=
  Retry.loop traced_isAborting traced_sleep traced_operation o n attempt
             lastError.

(** The waits before the attempts [from + 1], ..., [from + n]. *)
Definition schedule (o : Retry.options) (from : Z) (n : nat) : list Z :=
  map (fun i => Retry.delay o (from + Z.of_nat i)) (seq 0 n).

End Trace.
Arguments trace A : clear implicits.
Arguments Trace {A} _ _.
Arguments nothing {A}.

End RetryTrace.

(** ** The cleanup hooks of a call *)

Module RetryHooks.
Import Retry.

Section WithOperation.
Context {S A : Type}.

(** The timer the call is waiting for, if any. *)
Definition pending (c : call A) : list nat :=
  match at_ c with
  | Awaiting _ t => [t]
  | _ => []
  end.

Definition settled (c : call A) : bool :=
  match at_ c with Settled _ => true | _ => false end.

(** What holds of a call that started in the global state [g0], as long
    as the process has not exited: until it settles its hooks sit at the
    end of the global list and only the timer it waits for is armed; once
    it has settled the lists are what they were. *)
Definition accounted (g0 : global) (st : @state S A) : Prop :=
  let '(g, _, c) := st in
  exited g = false →
  (nextTimer g0 ≤ nextTimer g)%nat
  ∧ NoDup (localCleanupFunctions c)
  ∧ (∀ t, t ∈ localCleanupFunctions c →
       (nextTimer g0 ≤ t < nextTimer g)%nat)
  ∧ (∀ t, t ∈ pending c → t ∈ localCleanupFunctions c)
  ∧ cleanupFunctions g
    = (cleanupFunctions g0
       ++ if settled c then [] else localCleanupFunctions c)%list
  ∧ armed g = (armed g0 ++ pending c)%list.

End WithOperation.

End RetryHooks.

(** ** Histories with sweeps, and the values last set and last written *)

Module CacheHistory.
Import Cache.

Section WithValue.
Context {V : Type}.

Inductive action : Type :=
| Run (o : op V)
| Sweep (now : Z) (readdir_fails : bool) (flt : string → faults).
                                 (* [cleanup()] *)

Definition perform (a : action) (c : Cache.t V) : option V * Cache.t V :=
  match a with
  | Run o => exec o c
  | Sweep now readdir_fails flt => (None, cleanup_on readdir_fails flt now c)
  end.

Definition play (c0 : Cache.t V) (acts : list action) : Cache.t V :=
  foldl (fun c a => (perform a c).2) c0 acts.

(** The value a readable file holds. *)
Definition stored (f : file V) : option V :=
  match body f with
  | Json d _ _ => Some d
  | Garbage => None
  end.

Definition written (latest : gmap string V) (a : action) : gmap string V :=
  match a with
  | Run (Set_ key d _ _ _) => <[key := d]> latest
  | _ => latest
  end.

Definition landed (durable : gmap string V) (a : action) : gmap string V :=
  match a with
  | Run (Set_ key d _ _ flt) =>
      if write_fails flt then durable else <[key := d]> durable
  | _ => durable
  end.

(** For each key, the value of the last [set] of a history, or else the
    value found on disk when the cache was initialised. *)
Definition latest (disk : gmap string (file V)) (acts : list action)
  : gmap string V :=
  foldl written (omap stored disk) acts.

(** For each key, the value of the last [set] of a history whose file was
    written, or else the value found on disk when the cache was
    initialised. *)
Definition durable (disk : gmap string (file V)) (acts : list action)
  : gmap string V :=
  foldl landed (omap stored disk) acts.



(** The file is one that the sweep has no reason to remove. *)
Definition fresh (c : Cache.t V) (now : Z) (f : file V) : Prop :=
  (now - mtimeMs f ≤ maxFileAge c)%Z
  ∧ ∃ d own ts,
      body f = Json d own ts
      ∧ ∀ a, truthy own = Some a → (now - ts ≤ a)%Z.

End WithValue.
Arguments action V : clear implicits.

End CacheHistory.

(** ** The cache under another capacity *)

Module CacheCapacity.
Import Cache.

Section WithValue.
Context {V : Type}.

(** The same cache, configured with room for [n] entries. *)
Definition with_capacity (n : Z) (c : Cache.t V) : Cache.t V :=
  Cache (memoryCache c) (accessOrder c) (files c) n (maxFileAge c).

End WithValue.

End CacheCapacity.

(** ** The shape of a recognized video code *)

Module VideoCodeSpec.

Fixpoint all (p : ascii → bool) (s : string) : bool :=
  match s with
  | EmptyString => true
  | String a s' => p a && all p s'
  end.

(** Two to six capital letters, a hyphen, two to five digits. *)
Definition isStandardCode (code : string) : Prop :=
  ∃ letters digits,
    code = letters ++ "-" ++ digits
    ∧ all Char.isUpper letters = true
    ∧ (2 ≤ String.length letters ≤ 6)%nat
    ∧ all Char.isDigit digits = true
    ∧ (2 ≤ String.length digits ≤ 5)%nat.

(** [FC2-PPV-] and one digit or more. *)
Definition isFc2Code (code : string) : Prop :=
  ∃ digits,
    code = "FC2-PPV-" ++ digits
    ∧ digits ≠ EmptyString
    ∧ all Char.isDigit digits = true.

End VideoCodeSpec.

(** ** What a computation establishes when it returns *)

Module HoareReturn.

Section WithState.
Context {S : Type}.

(** Started where [P] holds, [c] returns only values and states that
    [Q] relates. *)
Definition yields {A} (P : S → Prop) (Q : A → S → Prop) (c : M S A) : Prop :=
  ∀ s v s', P s → c s = (Return v, s') → Q v s'.

End WithState.

End HoareReturn.

(** ** The destination directory while the pipeline fills it *)

Module OrganizerProgress.

(** The source file is in place with content [c], [d] is a directory and
    holds a file under each of [names]. *)
Definition stocked (sp : path) (c : string) (d : path) (names : list string)
    (fs : Fs.t) : Prop :=
  OrganizerSpec.intact sp c d fs
  ∧ ∀ n, n ∈ names → Fs.is_file fs (Path.join d n) = true.

End OrganizerProgress.

(** ** [Scanner.getVideoFiles]

    The recursive walk over the source directory.  The array [videoFiles]
    that the closure [scanDirectory] pushes to is threaded through the
    calls.

    The walk asks the disk two things, [fs.readdir] and [fs.stat], and
    either can fail on any path: a directory that may not be listed, a
    link that leads nowhere, an entry that goes away between the listing
    and the [stat].  The disk is therefore given by the answers to the
    two calls, whatever they are, and the order of a listing is the one
    the disk gives. *)

Module Scanner.
Import Path.

(** What the scanner reads of the configuration: [base.sourceDir],
    [base.skipHiddenFiles], [base.excludeDirs] and [fileTypes.video]. *)
Record config : Type := Config {
  sourceDir : path;
  skipHiddenFiles : bool;
  excludeDirs : list string;
  fileTypes_video : list string
}.

(** [fs.stat(p)], as far as the scanner looks at it. *)
Record stats : Type := Stats {
  isDirectory : bool;
  isFile : bool
}.

(** The answers of the disk.  No operating system resolves a path of
    more than a certain length; [path_max] is that limit, counted in
    segments.  It is what ends the walk on a disk where links lead back
    up. *)
Record disk : Type := Disk {
  listing : path → Result (list string);
  status : path → Result stats;
  path_max : nat
}.

Definition ENAMETOOLONG : jsError :=
  SystemError "ENAMETOOLONG" "name too long".

(** [fs.readdir(p)] *)
Definition readdir_on (dk : disk) (p : path) : Result (list string) :=
  if (path_max dk <? length p)%nat then Throw ENAMETOOLONG
  else listing dk p.

(** [fs.stat(p)] *)
Definition stat_on (dk : disk) (p : path) : Result stats :=
  if (path_max dk <? length p)%nat then Throw ENAMETOOLONG
  else status dk p.

Definition hidden (cfg : config) (item : string) : bool :=
  skipHiddenFiles cfg && Organizer.startsWith "." item.

Definition excluded (cfg : config) (dirName : string) : bool :=
  bool_decide (dirName ∈ excludeDirs cfg).

Definition isVideo (cfg : config) (item : string) : bool :=
  bool_decide (Str.toLowerCase (extname item) ∈ fileTypes_video cfg).

(** The [for (const item of items)] loop of [scanDirectory]; [scan] is
    the recursive call.  An error of [stat] ends the loop: it is caught
    by the [catch] around the body of [scanDirectory], and the items that
    come after it in the listing are not looked at. *)
Fixpoint scanItems
    (scan : path → list Organizer.videoFile → list Organizer.videoFile)
    (cfg : config) (dk : disk) (currentPath : path) (items : list string)
    (videoFiles : list Organizer.videoFile) : list Organizer.videoFile :=
  match items with
  | [] => videoFiles
  | item :: rest =>
      if hidden cfg item
      then scanItems scan cfg dk currentPath rest videoFiles
      else
        let fullPath := join currentPath item in
        match stat_on dk fullPath with
        | Throw _ => videoFiles
        | Return st =>
            if isDirectory st then
              if negb (excluded cfg item)
              then scanItems scan cfg dk currentPath rest
                             (scan fullPath videoFiles)
              else scanItems scan cfg dk currentPath rest videoFiles
            else if isFile st then
              if isVideo cfg item
              then scanItems scan cfg dk currentPath rest
                     (videoFiles ++ [Organizer.VideoFile fullPath item])%list
              else scanItems scan cfg dk currentPath rest videoFiles
            else scanItems scan cfg dk currentPath rest videoFiles
        end
  end.

(** [scanDirectory]; the recursion is cut at [depth] nested calls. *)
Fixpoint scanDirectory (depth : nat) (cfg : config) (dk : disk)
    (currentPath : path) (videoFiles : list Organizer.videoFile)
  : list Organizer.videoFile :=
  match depth with
  | O => videoFiles
  | S depth' =>
      match readdir_on dk currentPath with
      | Return items =>
          scanItems (scanDirectory depth' cfg dk) cfg dk currentPath items
                    videoFiles
      | Throw _ => videoFiles
      end
  end.

(** [getVideoFiles(config, dirPath)]; without [dirPath] the walk starts
    at the configured source directory.  No chain of calls is longer
    than the depth given here: a call one level further down has a path
    that the disk does not list. *)
Definition getVideoFiles_on (cfg : config) (dirPath : option path)
    (dk : disk) : list Organizer.videoFile :=
  let searchPath :=
    match dirPath with Some p => p | None => sourceDir cfg end in
  scanDirectory (S (path_max dk)) cfg dk searchPath [].

(** *** On a tree where nothing fails *)

Definition stat (p : path) : M Fs.t stats :=
  fun fs =>
    if Fs.exists_ fs p
    then (Return (Stats (Fs.is_dir fs p) (Fs.is_file fs p)), fs)
    else (Throw Fs.ENOENT, fs).

(** The length of the longest path of a directory of the tree. *)
Definition height (fs : Fs.t) : nat := max_list (map length (Fs.dirs fs)).

(** The disk that shows the tree [fs] as it is. *)
Definition of_tree (fs : Fs.t) : disk :=
  Disk (fun p => (Fs.readdir p fs).1) (fun p => (stat p fs).1)
       (S (height fs)).

Definition getVideoFiles (cfg : config) (dirPath : option path) (fs : Fs.t)
  : list Organizer.videoFile :=
  getVideoFiles_on cfg dirPath (of_tree fs).

End Scanner.

(** ** What the walk finds *)

Module ScannerSpec.
Import Path Scanner.

(** The loop over a listing gets past [item]: the item is skipped as
    hidden, or [fs.stat] answers for it. *)
Definition passable (cfg : config) (dk : disk) (d : path) (item : string)
  : Prop :=
  hidden cfg item = true ∨ ∃ st, stat_on dk (join d item) = Return st.

(** The walk looks at the entry [name] of the directory [d]: [d] can be
    listed, [name] is in the listing and is not hidden, and the loop gets
    past every item that the listing has before it. *)
Definition reached (cfg : config) (dk : disk) (d : path) (name : string)
  : Prop :=
  ∃ pre post,
    readdir_on dk d = Return (pre ++ name :: post)%list
    ∧ Forall (passable cfg dk d) pre
    ∧ hidden cfg name = false.

(** [found cfg dk d vf]: the walk that starts in the directory [d] comes
    across the video file [vf]. *)
Inductive found (cfg : config) (dk : disk)
  : path → Organizer.videoFile → Prop :=
| found_here d name st :
    reached cfg dk d name →
    stat_on dk (join d name) = Return st →
    isDirectory st = false →
    isFile st = true →
    isVideo cfg name = true →
    found cfg dk d (Organizer.VideoFile (join d name) name)
| found_below d name st vf :
    reached cfg dk d name →
    stat_on dk (join d name) = Return st →
    isDirectory st = true →
    excluded cfg name = false →
    found cfg dk (join d name) vf →
    found cfg dk d vf.

End ScannerSpec.

(** ** [Nfo.generateNfo]: the escaping of text

    The closure [escapeXML] that every field of the description file
    goes through.  The five characters of its class are ASCII, so
    replacing them byte by byte is replacing them character by
    character. *)

Module Nfo.

Definition lt : ascii := "<".
Definition gt : ascii := ">".
Definition amp : ascii := "&".
Definition apos : ascii := "'".
Definition quot : ascii := "034".

(** The character class of the pattern: the two angle brackets, the
    ampersand and the two quotes. *)
Definition special (char : ascii) : bool :=
  Ascii.eqb char lt || Ascii.eqb char gt || Ascii.eqb char amp
  || Ascii.eqb char apos || Ascii.eqb char quot.

(** The [switch] of the replacer. *)
Definition replacer (char : ascii) : string :=
  if Ascii.eqb char lt then "&lt;"
  else if Ascii.eqb char gt then "&gt;"
  else if Ascii.eqb char amp then "&amp;"
  else if Ascii.eqb char apos then "&apos;"
  else if Ascii.eqb char quot then "&quot;"
  else String char "".

(** [str.replace(pattern, replacer)], the pattern being global. *)
Fixpoint replace (str : string) : string :=
  match str with
  | "" => ""
  | String char rest =>
      (if special char then replacer char else String char "")
        ++ replace rest
  end.

(** [escapeXML(str)]; [None] is [undefined]. *)
Definition escapeXML (str : option string) : string :=
  match str with
  | None => ""
  | Some "" => ""
  | Some s => replace s
  end.

End Nfo.

(** ** Reading escaped text back *)

Module NfoSpec.

(** What an XML parser makes of character data: the five predefined
    entities stand for their characters.  [skip] bytes of an entity that
    has been recognised are still to be passed over. *)
Fixpoint unescape_from (skip : nat) (s : string) : string :=
  match s with
  | "" => ""
  | String a rest =>
      match skip with
      | S skip' => unescape_from skip' rest
      | O =>
          if Ascii.eqb a Nfo.amp then
            if String.prefix "lt;" rest
            then String Nfo.lt (unescape_from 3 rest)
            else if String.prefix "gt;" rest
            then String Nfo.gt (unescape_from 3 rest)
            else if String.prefix "amp;" rest
            then String Nfo.amp (unescape_from 4 rest)
            else if String.prefix "apos;" rest
            then String Nfo.apos (unescape_from 5 rest)
            else if String.prefix "quot;" rest
            then String Nfo.quot (unescape_from 5 rest)
            else String a (unescape_from 0 rest)
          else String a (unescape_from 0 rest)
      end
  end.

Definition unescape (s : string) : string := unescape_from 0 s.

(** The characters that open or close markup or an attribute value. *)
Definition markup (a : ascii) : bool :=
  Ascii.eqb a Nfo.lt || Ascii.eqb a Nfo.gt
  || Ascii.eqb a Nfo.apos || Ascii.eqb a Nfo.quot.

End NfoSpec.

(** ** [Images.splitCoverImage]: the region that is cut out

    What the function computes itself, between reading the size of the
    image and handing the region to the image library. *)

Module Images.

(** The argument of [image.extract]. *)
Record extractOptions : Type := ExtractOptions {
  left : Z;
  top : Z;
  width : Z;
  height : Z
}.

Definition no_size : jsError := Error "无法获取图片尺寸信息".

(** [Math.ceil(width / 2)]; the quotient of an integer by two is exact
    in floating point. *)
Definition halfWidth (width_ : Z) : Z := (- ((- width_) / 2))%Z.

(** From the size the library reports to the region asked of it;
    [rightHalf] is [options.rightHalf !== false].  A size of [0] stands
    for a size that is not reported as well. *)
Definition region (width_ height_ : Z) (rightHalf : bool)
  : Result extractOptions :=
  if ((width_ =? 0) || (height_ =? 0))%Z then Throw no_size
  else
    Return
      (if rightHalf
       then ExtractOptions (halfWidth width_) 0
                           (width_ - halfWidth width_) height_
       else ExtractOptions 0 0 (halfWidth width_) height_).

End Images.

(** * Properties *)

(** ** Identifier extraction *)

Example extractVideoCode_standard :
  VideoCode.extractVideoCode "abc-123.mp4" = "ABC-123".
Proof. reflexivity. Qed.

Example extractVideoCode_fc2 :
  VideoCode.extractVideoCode "fc2-ppv-1234567.mkv" = "FC2-PPV-1234567".
Proof. reflexivity. Qed.

Example extractVideoCode_no_hyphen :
  VideoCode.extractVideoCode "[site] mide123-c.avi" = "MIDE-123".
Proof. reflexivity. Qed.

Example extractVideoCode_long_prefix :
  VideoCode.extractVideoCode "abcdefgh-12345678" = "CDEFGH-12345".
Proof. reflexivity. Qed.

Lemma append_empty_r (s : string) : s ++ EmptyString = s.
Proof.
  induction s as [|a s IH]; [done|].
  change (String a (s ++ EmptyString) = String a s). by f_equal.
Qed.

Section RegexFacts.
Import Regex RegexSpec.

Lemma rep_sound body k r hi :
  (∀ s c k' res, body s c k' = Some res →
     ∃ s' c', matches r s s' ∧ k' s' c' = Some res) →
  ∀ n lo s c res, rep body k n lo s c = Some res →
    ∃ s' c', matches (Rep r lo hi) s s' ∧ k s' c' = Some res.
Proof.
  intros Hbody n. revert hi.
  induction n as [|n IH]; intros hi lo s c res H; simpl in H.
  - destruct lo; [|discriminate].
    exists s, c. split; [constructor | exact H].
  - destruct (body s c _) as [x|] eqn:Hb.
    + injection H as ->.
      apply Hbody in Hb as (s1 & c1 & Hm & Hrest).
      apply (IH hi) in Hrest as (s2 & c2 & Hm2 & Hk).
      exists s2, c2. split; [|exact Hk].
      eapply matches_rep_more; eauto.
    + destruct lo; [|discriminate].
      exists s, c. split; [constructor | exact H].
Qed.

Lemma m_sound r :
  ∀ s c k res, m r s c k = Some res →
    ∃ s' c', matches r s s' ∧ k s' c' = Some res.
Proof.
  induction r as [p | r1 IH1 r2 IH2 | r IH lo hi | i r IH |];
    intros s c k res H; simpl in H.
  - destruct s as [|a s]; [discriminate|].
    destruct (p a) eqn:Hp; [|discriminate].
    exists s, c. split; [by constructor | exact H].
  - apply IH1 in H as (s1 & c1 & Hm1 & H).
    apply IH2 in H as (s2 & c2 & Hm2 & H).
    exists s2, c2. split; [econstructor; eauto | exact H].
  - eapply rep_sound; eauto.
  - apply IH in H as (s1 & c1 & Hm & H).
    eexists _, _. split; [constructor; exact Hm | exact H].
  - destruct s; [|discriminate].
    exists EmptyString, c. split; [constructor | exact H].
Qed.

(** The leftmost match splits the input in three. *)
Lemma search_sound r s f :
  search r s = Some f →
  ∃ mid, s = before f ++ mid ∧ matches r mid (after f).
Proof.
  revert f. induction s as [|a s IH]; intros f H; simpl in H.
  - destruct (m r EmptyString [] accept) as [[rest c]|] eqn:Hm; [|discriminate].
    injection H as <-. simpl.
    apply m_sound in Hm as (s' & c' & Hm & Hk).
    injection Hk as -> ->. eauto.
  - destruct (m r (String a s) [] accept) as [[rest c]|] eqn:Hm.
    + injection H as <-. simpl.
      apply m_sound in Hm as (s' & c' & Hm & Hk).
      injection Hk as -> ->. eauto.
    + destruct (search r s) as [f'|] eqn:Hs; [|discriminate].
      injection H as <-. simpl.
      destruct (IH f' eq_refl) as (mid & -> & Hmid). eauto.
Qed.

Lemma matches_cls_inv p s s' :
  matches (Cls p) s s' → ∃ a, s = String a s' ∧ p a = true.
Proof. inversion 1; subst; eauto. Qed.

Lemma matches_cat_inv r1 r2 s s' :
  matches (Cat r1 r2) s s' → ∃ s1, matches r1 s s1 ∧ matches r2 s1 s'.
Proof. inversion 1; subst; eauto. Qed.

Lemma matches_eos_inv s s' :
  matches Eos s s' → s = EmptyString ∧ s' = EmptyString.
Proof. inversion 1; subst; eauto. Qed.

Lemma matches_rep_inv r lo hi s s' :
  matches (Rep r lo hi) s s' →
  (lo = 0%nat ∧ s = s')
  ∨ ∃ hi' s1, matches r s s1 ∧ matches (Rep r (pred lo) hi') s1 s'.
Proof. inversion 1; subst; eauto. Qed.

(** A run of characters of a class, up to the end of the input. *)
Lemma rep_cls_to_end p s :
  ∀ lo hi, matches (Rep (Cls p) lo hi) s EmptyString →
  ∀ a, Str.mem a s = true → p a = true.
Proof.
  induction s as [|b s IH]; intros lo hi H a Ha; [discriminate|].
  apply matches_rep_inv in H as [[_ ?] | (hi' & s1 & H1 & H2)];
    [discriminate|].
  apply matches_cls_inv in H1 as (b' & Heq & Hp).
  injection Heq as <- <-.
  simpl in Ha. apply orb_true_iff in Ha as [Ha | Ha].
  - apply Ascii.eqb_eq in Ha. by subst.
  - eapply IH; eauto.
Qed.

Lemma dot_run_eos p q mid s' :
  matches (Cat (Cls p) (Cat (Rep (Cls q) 1 None) Eos)) mid s' →
  s' = EmptyString
  ∧ ∃ a e, mid = String a e ∧ p a = true ∧ e ≠ EmptyString
           ∧ ∀ b, Str.mem b e = true → q b = true.
Proof.
  intros H.
  apply matches_cat_inv in H as (s1 & Hdot & H).
  apply matches_cat_inv in H as (s2 & Hrun & Hend).
  apply matches_eos_inv in Hend as [-> ->].
  apply matches_cls_inv in Hdot as (a & -> & Hp).
  split; [done|].
  exists a, s1. repeat split; try done.
  - intros ->.
    apply matches_rep_inv in Hrun as [[? _] | (hi' & s3 & H1 & _)];
      [discriminate|].
    apply matches_cls_inv in H1 as (? & ? & _). discriminate.
  - by eapply rep_cls_to_end.
Qed.

Lemma extension_shape mid s' :
  matches VideoCode.EXTENSION mid s' →
  s' = EmptyString ∧ isExtension mid.
Proof.
  intros H. apply dot_run_eos in H as (-> & a & e & -> & Ha & Hne & Hcls).
  split; [done|].
  apply Ascii.eqb_eq in Ha. subst a.
  exists e. repeat split; try done.
  - destruct (Str.mem "." e) eqn:Hm; [|done].
    apply Hcls in Hm. discriminate.
  - destruct (Str.mem "/" e) eqn:Hm; [|done].
    apply Hcls in Hm. discriminate.
Qed.

(** [nameWithoutExt] removes a final extension, or nothing. *)
Lemma nameWithoutExt_shape fileName :
  ∃ ext, fileName = VideoCode.nameWithoutExt fileName ++ ext
         ∧ (ext = EmptyString ∨ isExtension ext).
Proof.
  unfold VideoCode.nameWithoutExt, remove_first.
  destruct (search VideoCode.EXTENSION fileName) as [f|] eqn:Hs.
  - apply search_sound in Hs as (mid & Heq & Hm).
    apply extension_shape in Hm as [Hafter Hext].
    rewrite Hafter.
    exists mid. split; [|by right].
    rewrite Heq at 1. by rewrite append_empty_r.
  - exists EmptyString. split; [|by left].
    by rewrite append_empty_r.
Qed.

End RegexFacts.

Lemma unrecognized_by_search (name : string) :
  Regex.search VideoCode.FC2 name = None →
  Regex.search VideoCode.STANDARD name = None →
  Regex.search VideoCode.NO_HYPHEN name = None →
  VideoCode.unrecognized name.
Proof.
  intros H1 H2 H3 r format Hin. unfold VideoCode.patterns in Hin.
  repeat (apply elem_of_cons in Hin as [Hin | Hin];
          [injection Hin as -> _; assumption|]).
  by apply elem_of_nil in Hin.
Qed.

Lemma first_match_unrecognized (name : string) :
  VideoCode.unrecognized name →
  VideoCode.first_match VideoCode.patterns name = None.
Proof.
  unfold VideoCode.unrecognized. generalize VideoCode.patterns.
  intros ps. induction ps as [|[r format] ps IH]; intros H; [done|].
  simpl. rewrite (H r format) by apply list_elem_of_here.
  apply IH. intros r' format' Hin. apply (H r' format').
  by apply list_elem_of_further.
Qed.

(** *** The final extension *)

Section ExtensionFacts.
Import Regex RegexSpec VideoCode.

(** A character that [[^/.]] accepts. *)
Local Abbreviation plain := (fun a => negb (Char.eqb "/" a || Char.eqb "." a)).

Lemma mem_append a (s t : string) :
  Str.mem a (s ++ t) = Str.mem a s || Str.mem a t.
Proof.
  induction s as [|b s IH]; [done|].
  change (Str.mem a (String b (s ++ t))
          = Str.mem a (String b s) || Str.mem a t).
  simpl. rewrite IH. by rewrite orb_assoc.
Qed.

Lemma plain_spec a :
  plain a = true ↔ a ≠ "/"%char ∧ a ≠ "."%char.
Proof.
  unfold Char.eqb. rewrite negb_true_iff, orb_false_iff.
  rewrite !Ascii.eqb_neq. split; intros [H1 H2]; split; congruence.
Qed.

Lemma plain_of_mem (e : string) :
  Str.mem "." e = false → Str.mem "/" e = false →
  ∀ a, Str.mem a e = true → plain a = true.
Proof.
  intros Hdot Hslash a Ha. apply plain_spec. split; intros ->; congruence.
Qed.

(** The greedy run of [[^/.]+] over a text of such characters goes to
    the end of the input, where [$] holds. *)
Lemma rep_plain_run (e : string) :
  (∀ a, Str.mem a e = true → plain a = true) →
  ∀ n lo c,
    (String.length e ≤ n)%nat → (lo ≤ String.length e)%nat →
    rep (m (Cls plain)) (fun s' c' => m Eos s' c' accept) n lo e c
    = Some (EmptyString, c).
Proof.
  induction e as [|a e IH]; intros Hall n lo c Hn Hlo.
  - simpl in Hlo. assert (lo = 0)%nat as -> by lia.
    destruct n; simpl; done.
  - destruct n as [|n]; [simpl in Hn; lia|].
    cbn [rep m]. rewrite (Hall a) by (simpl; by rewrite Ascii.eqb_refl).
    rewrite IH; [done| |simpl in Hn; lia|simpl in Hlo; lia].
    intros b Hb. apply Hall. simpl. by rewrite Hb, orb_true_r.
Qed.

Lemma extension_matches (e : string) :
  e ≠ EmptyString →
  Str.mem "." e = false → Str.mem "/" e = false →
  m EXTENSION (String "." e) [] accept = Some (EmptyString, []).
Proof.
  intros Hne Hdot Hslash. unfold EXTENSION, chr. cbn [m].
  unfold Char.eqb at 1. rewrite Ascii.eqb_refl.
  apply rep_plain_run; [by apply plain_of_mem|done|].
  destruct e; [done|simpl; lia].
Qed.

Lemma extension_fails_before (u e : string) :
  u ≠ EmptyString →
  m EXTENSION (u ++ String "." e) [] accept = None.
Proof.
  intros Hu.
  destruct (m EXTENSION (u ++ String "." e) [] accept) as [[rest c]|] eqn:Hm;
    [|done].
  exfalso. apply m_sound in Hm as (s' & c' & Hm & _).
  apply extension_shape in Hm as [_ (e' & Heq & _ & Hdot & _)].
  destruct u as [|a u]; [done|].
  change (String a (u ++ String "." e) = String "." e') in Heq.
  injection Heq as -> <-.
  rewrite mem_append in Hdot. simpl in Hdot.
  by rewrite orb_true_r in Hdot.
Qed.

Lemma search_extension (stem e : string) :
  e ≠ EmptyString →
  Str.mem "." e = false → Str.mem "/" e = false →
  search EXTENSION (stem ++ String "." e)
  = Some (Found stem EmptyString []).
Proof.
  intros Hne Hdot Hslash. induction stem as [|a stem IH].
  - change (search EXTENSION (String "." e)
            = Some (Found EmptyString EmptyString [])).
    cbn [search]. by rewrite extension_matches.
  - change (search EXTENSION (String a (stem ++ String "." e))
            = Some (Found (String a stem) EmptyString [])).
    cbn [search].
    change (String a (stem ++ String "." e))
      with (String a stem ++ String "." e).
    rewrite extension_fails_before by done.
    by rewrite IH.
Qed.

Lemma search_extension_none (s : string) :
  Str.mem "." s = false → search EXTENSION s = None.
Proof.
  intros Hdot.
  destruct (search EXTENSION s) as [f|] eqn:Hs; [|done]. exfalso.
  apply search_sound in Hs as (mid & Heq & Hm).
  apply extension_shape in Hm as [_ (e' & -> & _)].
  rewrite Heq, mem_append in Hdot. simpl in Hdot.
  by rewrite orb_true_r in Hdot.
Qed.

(** The first step of [extractVideoCode] cuts the final extension off,
    and leaves a name without one as it is. *)
Lemma nameWithoutExt_spec (fileName name : string) :
  withoutExtension fileName name → nameWithoutExt fileName = name.
Proof.
  unfold nameWithoutExt, remove_first.
  intros [(ext & (e & -> & Hne & Hdot & Hslash) & ->) | [-> Hnone]].
  - rewrite search_extension by done. cbn [before after].
    apply append_empty_r.
  - destruct (search EXTENSION fileName) as [f|] eqn:Hs; [|done]. exfalso.
    apply search_sound in Hs as (mid & Heq & Hm).
    apply extension_shape in Hm as [_ Hext].
    by apply (Hnone (before f) mid).
Qed.

Lemma withoutExtension_nameWithoutExt (fileName : string) :
  withoutExtension fileName (nameWithoutExt fileName).
Proof.
  unfold nameWithoutExt, remove_first.
  destruct (search EXTENSION fileName) as [f|] eqn:Hs.
  - left. apply search_sound in Hs as (mid & Heq & Hm).
    apply extension_shape in Hm as [-> Hext].
    exists mid. split; [done|]. by rewrite append_empty_r.
  - right. split; [done|].
    intros stem ext (e & -> & Hne & Hdot & Hslash) Heq.
    rewrite Heq, search_extension in Hs by done. done.
Qed.

End ExtensionFacts.

(** C9, as amended.  [extractVideoCode] is a function of the file name
    alone, defined on every file name.  Every file name has a name
    without its final extension: the file name with the extension cut
    off when it ends in one (a dot followed by one or more characters
    other than dots and slashes), and the file name itself only when it
    does not.  When no recognized pattern occurs in that name, it is the
    result. *)
Theorem extractVideoCode_fallback (fileName : string) :
  (∃ name, RegexSpec.withoutExtension fileName name)
  ∧ ∀ name,
      RegexSpec.withoutExtension fileName name →
      VideoCode.unrecognized name →
      VideoCode.extractVideoCode fileName = name.
Proof.
  split.
  - exists (VideoCode.nameWithoutExt fileName).
    apply withoutExtension_nameWithoutExt.
  - intros name Hname Hnone. unfold VideoCode.extractVideoCode.
    rewrite (nameWithoutExt_spec fileName name Hname).
    by rewrite (first_match_unrecognized _ Hnone).
Qed.

(** ["movie.mkv"] ends in the extension [".mkv"], no pattern occurs in
    ["movie"], and ["movie"] is the result; ["README"] has no extension
    and is returned whole. *)
Lemma extractVideoCode_fallback_witness :
  VideoCode.extractVideoCode "movie.mkv" = "movie"
  ∧ VideoCode.extractVideoCode "README" = "README".
Proof.
  split.
  - apply (proj2 (extractVideoCode_fallback "movie.mkv")).
    + left. exists ".mkv". split; [|reflexivity].
      exists "mkv". by split_and!.
    + apply unrecognized_by_search; reflexivity.
  - apply (proj2 (extractVideoCode_fallback "README")).
    + right. split; [reflexivity|].
      intros stem ext (e & -> & _ & _ & _) Heq.
      assert (Str.mem "." "README" = true) as Hdot; [|done].
      rewrite Heq, mem_append. cbn. by rewrite orb_true_r.
    + apply unrecognized_by_search; reflexivity.
Defined.

(** C9, as stated, fails: no pattern occurs in ["movie.mkv"], with or without
    its extension, and the result is ["movie"], not the file name. *)
Lemma extractVideoCode_strips_extension :
  VideoCode.unrecognized "movie.mkv"
  ∧ VideoCode.unrecognized (VideoCode.nameWithoutExt "movie.mkv")
  ∧ VideoCode.extractVideoCode "movie.mkv" = "movie"
  ∧ VideoCode.extractVideoCode "movie.mkv" ≠ "movie.mkv".
Proof.
  repeat split; try (apply unrecognized_by_search; reflexivity).
  discriminate.
Qed.

(** ** Retry *)

Section RetryFacts.
Import Retry RetrySpec.
Context {S A : Type}.
Variable isAborting : S → bool.
Variable sleep : Z → S → S.
Variable operation : M S A.

Lemma validate_ok (o : options) :
  validate o = None ↔
  (1 ≤ maxRetries o ∧ 0 ≤ baseDelay o ∧ 0 ≤ maxDelay o)%Z.
Proof.
  unfold validate.
  destruct (Z.ltb_spec (maxRetries o) 1); [split; [done | lia]|].
  destruct (Z.ltb_spec (baseDelay o) 0); simpl; [split; [done | lia]|].
  destruct (Z.ltb_spec (maxDelay o) 0); simpl; [split; [done | lia]|].
  split; [lia | done].
Qed.

(** The abort flag is not raised by the operation or by waiting. *)
Hypothesis operation_quiet :
  ∀ s r s', isAborting s = false → operation s = (r, s') →
            isAborting s' = false.
Hypothesis sleep_quiet : ∀ d s, isAborting (sleep d s) = isAborting s.

Hypothesis always_fails : ∀ s, ∃ e s', operation s = (Throw e, s').

Lemma last_thrown_failed (init : option jsError) (j : list (Result A)) :
  Forall failed j → j ≠ [] →
  ∃ e, last j = Some (Throw e) ∧ last_thrown init j = Some e.
Proof.
  induction j as [|r j IH] using rev_ind; intros Hall Hne; [done|].
  rewrite Forall_app, Forall_singleton in Hall. destruct Hall as [_ Hr].
  destruct r as [v|e]; [done|].
  exists e. split; [apply last_snoc|].
  unfold last_thrown. by rewrite foldl_app.
Qed.

Lemma loop_exhausts (o : options) (n : nat) :
  ∀ attempt lastError s j,
    isAborting s = false →
    ∃ s' j',
      loop (isAborting_j isAborting) (sleep_j sleep) (journaled operation)
           o n attempt lastError (s, j)
      = (Throw (match last_thrown lastError j' with
                | Some e => enhancedError o e
                | None => undefined_lastError
                end),
         (s', (j ++ j')%list))
      ∧ length j' = n
      ∧ Forall failed j'.
Proof.
  induction n as [|n IH]; intros attempt lastError s j Hquiet.
  - exists s, []. rewrite app_nil_r. simpl.
    split; [by destruct lastError | by split].
  - destruct (always_fails s) as (e & s1 & Hop).
    assert (isAborting s1 = false) as Hquiet1 by eauto.
    set (j1 := (j ++ [Throw e])%list).
    assert (∀ w, isAborting w = false →
              ∃ s' j',
                loop (isAborting_j isAborting) (sleep_j sleep)
                     (journaled operation) o n (attempt + 1) (Some e) (w, j1)
                = (Throw (match last_thrown lastError (Throw e :: j') with
                          | Some e => enhancedError o e
                          | None => undefined_lastError
                          end),
                   (s', (j ++ Throw e :: j')%list))
                ∧ length (Throw e :: j' : list (Result A)) = Datatypes.S n
                ∧ Forall failed (Throw e :: j' : list (Result A))) as Hnext.
    { intros w Hw.
      destruct (IH (attempt + 1)%Z (Some e) w j1 Hw) as (s' & j' & Heq & Hlen & Hall).
      exists s', j'. rewrite Heq. unfold j1. rewrite <- app_assoc. simpl.
      split; [done|]. split; [by rewrite Hlen|].
      by constructor. }
    simpl. unfold isAborting_j at 1. simpl. rewrite Hquiet.
    unfold journaled at 1. simpl. rewrite Hop.
    unfold isAborting_j at 1 2. simpl. rewrite Hquiet1. simpl.
    destruct (attempt <? maxRetries o - 1)%Z; simpl.
    + destruct (Hnext (sleep (delay o attempt) s1)) as (s' & j' & Heq & Hrest);
        [by rewrite sleep_quiet|].
      exists s', (Throw e :: j'). split; [exact Heq | exact Hrest].
    + destruct (Hnext s1 Hquiet1) as (s' & j' & Heq & Hrest).
      exists s', (Throw e :: j'). split; [exact Heq | exact Hrest].
Qed.

(** C4.  An operation that fails on every invocation, retried under a
    valid configuration while no abort is signalled, is invoked exactly
    [maxRetries] times; [retryOperation] then throws an error whose
    [originalError] is the error of the last invocation and whose
    [attempts] is [maxRetries]. *)
Theorem retry_exhaustion (o : options) (s : S) :
  validate o = None →
  isAborting s = false →
  ∃ s' j lastError message,
    watched isAborting sleep operation o (s, [])
    = (Throw (RetryError message lastError (maxRetries o)), (s', j))
    ∧ Z.of_nat (length j) = maxRetries o
    ∧ Forall failed j
    ∧ last j = Some (Throw lastError)
    ∧ message = ("操作在重试 " ++ pretty (maxRetries o) ++ " 次后仍然失败: "
                   ++ Js.message lastError)%string.
Proof.
  intros Hvalid Hquiet.
  apply validate_ok in Hvalid as Hbounds.
  unfold watched, retryOperation. rewrite Hvalid.
  destruct (loop_exhausts o (Z.to_nat (maxRetries o)) 0 None s [] Hquiet)
    as (s' & j & Heq & Hlen & Hall).
  destruct (last_thrown_failed None j Hall) as (e & Hlast & Hthrown).
  { intros ->. simpl in Hlen. lia. }
  rewrite Hthrown in Heq. simpl in Heq.
  eexists s', j, e, _. split; [exact Heq|].
  split; [lia|]. by repeat split.
Qed.

End RetryFacts.

Lemma retry_exhaustion_witness :
  ∃ j lastError message,
    RetrySpec.watched (fun _ : unit => false) (fun _ s => s)
      (fun s => (Throw (Error "boom") : Result unit, s))
      (Retry.Options 3 1000 5000) (tt, [])
    = (Throw (RetryError message lastError 3), (tt, j))
    ∧ length j = 3%nat ∧ lastError = Error "boom".
Proof.
  destruct (retry_exhaustion (fun _ : unit => false) (fun _ s => s)
              (fun s => (Throw (Error "boom") : Result unit, s))
              (fun _ _ _ _ _ => eq_refl) (fun _ _ => eq_refl)
              (fun s => ex_intro _ (Error "boom") (ex_intro _ s eq_refl))
              (Retry.Options 3 1000 5000) tt eq_refl eq_refl)
    as (s' & j & lastError & message & Heq & Hlen & _ & Hlast & _).
  destruct s'. exists j, lastError, message.
  split; [exact Heq|].
  vm_compute in Heq. injection Heq as _ <- <-.
  split; reflexivity.
Defined.

Section RetryProcessFacts.
Import Retry.
Context {S A : Type}.
Variable operation : M S A.

Lemma remove_timer_not_elem (t : nat) (l : list nat) : t ∉ remove_timer t l.
Proof. unfold remove_timer. rewrite list_elem_of_filter. tauto. Qed.

Lemma remove_timer_subseteq (t x : nat) (l : list nat) :
  x ∈ remove_timer t l → x ∈ l.
Proof. unfold remove_timer. rewrite list_elem_of_filter. tauto. Qed.

Lemma clear_all_keeps_out (t : nat) (hooks l : list nat) :
  t ∉ l → t ∉ foldl (fun l t => remove_timer t l) l hooks.
Proof.
  revert l. induction hooks as [|h hooks IH]; intros l Hl; [done|].
  simpl. apply IH. intros Hin. by apply remove_timer_subseteq in Hin.
Qed.

Lemma clear_all_clears (t : nat) (hooks l : list nat) :
  t ∈ hooks → t ∉ foldl (fun l t => remove_timer t l) l hooks.
Proof.
  revert l. induction hooks as [|h hooks IH]; intros l Hin.
  - by apply elem_of_nil in Hin.
  - simpl. destruct (decide (h = t)) as [->|Hne].
    + apply clear_all_keeps_out, remove_timer_not_elem.
    + apply IH. apply elem_of_cons in Hin as [?|?]; [congruence | done].
Qed.

(** Once the process has exited, no event has any effect. *)
Lemma run_after_exit (evs : list (@event)) (g : global) (s : S) (c : call A) :
  exited g = true → run operation evs (g, s, c) = (g, s, c).
Proof.
  intros Hexit. induction evs as [|ev evs IH]; [done|].
  simpl. destruct ev; simpl; by rewrite Hexit.
Qed.

(** C5, what the code does.  A signal that arrives while the call waits
    for its backoff timer sets the abort flag and clears the timer, and
    that is all: the promise of the delay is neither resolved nor
    rejected, and the process exits.  Whatever happens next, the call is
    still waiting; it never settles, so it never fails with the
    interruption error. *)
Theorem abort_during_backoff (g : global) (s : S) (c : call A)
    (attempt : Z) (timer : nat) :
  exited g = false →
  at_ c = Awaiting attempt timer →
  timer ∈ cleanupFunctions g →
  ∃ g',
    signal (g, s, c) = Some (g', s, c)
    ∧ isAborting g' = true
    ∧ (timer ∉ armed g')
    ∧ ∀ evs, run operation evs (g', s, c) = (g', s, c)
            ∧ at_ ((run operation evs (g', s, c)).2) ≠ Settled (Throw interrupted).
Proof.
  intros Hexit Hat Hhook. exists (globalAbortHandler g).
  split; [unfold signal; by rewrite Hexit|].
  split; [done|]. split.
  - simpl. apply clear_all_clears. by apply elem_of_reverse.
  - intros evs. rewrite run_after_exit by done.
    split; [done|]. simpl. by rewrite Hat.
Qed.

(** While no signal arrives, the process computes what the call computes. *)
Lemma process_refines_call (o : options) (n : nat) :
  ∀ attempt lastError g s locals,
    (attempt + Z.of_nat n)%Z = maxRetries o →
    isAborting g = false →
    exited g = false →
    ∃ evs g' lastError' locals',
      Forall (fun ev => ev ≠ Signal) evs
      ∧ run operation evs (g, s, Call o lastError locals (AtLoopHead attempt))
        = (g',
           (loop (fun _ => false) (fun _ s => s) operation o n attempt
                 lastError s).2,
           Call o lastError' locals'
                (Settled (loop (fun _ => false) (fun _ s => s) operation o n
                               attempt lastError s).1)).
Proof.
  induction n as [|n IH]; intros attempt lastError g s locals Hn Hquiet Hexit.
  - exists [Advance]. eexists _, _, _. split; [by repeat constructor|].
    simpl. rewrite Hexit.
    destruct (Z.ltb_spec attempt (maxRetries o)); [lia|].
    by destruct lastError.
  - assert ((attempt <? maxRetries o)%Z = true) as Hlt
      by (apply Z.ltb_lt; lia).
    simpl. destruct (operation s) as [[v|e] s1] eqn:Hop.
    + exists [Advance]. eexists _, _, _. split; [by repeat constructor|].
      simpl. by rewrite Hexit, Hlt, Hquiet, Hop.
    + destruct (attempt <? maxRetries o - 1)%Z eqn:Hmore; simpl.
      * set (t := nextTimer g).
        set (g1 := Global false (cleanupFunctions g ++ [t])%list
                          (remove_timer t (armed g ++ [t])%list)
                          (Datatypes.S t) false).
        destruct (IH (attempt + 1)%Z (Some e) g1 s1 (locals ++ [t])%list)
          as (evs & g' & le & lo & Hevs & Hrun); [lia | done | done |].
        exists (Advance :: Fire :: evs). eexists _, _, _.
        split; [by repeat constructor|].
        simpl. rewrite Hexit, Hlt, Hquiet, Hop, Hmore. simpl.
        rewrite decide_True by set_solver.
        exact Hrun.
      * destruct (IH (attempt + 1)%Z (Some e) g s1 locals)
          as (evs & g' & le & lo & Hevs & Hrun); [lia | done | done |].
        exists (Advance :: evs). eexists _, _, _.
        split; [by repeat constructor|].
        simpl. rewrite Hexit, Hlt, Hquiet, Hop, Hmore. simpl.
        exact Hrun.
Qed.

End RetryProcessFacts.

(** The failing run: the operation fails, the call starts its first backoff,
    the signal arrives.  The timer never fires and the call is left waiting
    for it. *)
Example abort_during_backoff_run :
  let failing : M unit unit := fun s => (Throw (Error "boom"), s) in
  Retry.run failing
    [Retry.Advance; Retry.Signal; Retry.Fire; Retry.Advance]
    (Retry.start (Retry.Options 3 1000 5000) Retry.initial_global tt)
  = (Retry.Global true [] [] 1 true, tt,
     Retry.Call (Retry.Options 3 1000 5000) (Some (Error "boom")) [0%nat]
                (Retry.Awaiting 0 0)).
Proof. reflexivity. Qed.

Lemma abort_during_backoff_witness :
  let failing : M unit unit := fun s => (Throw (Error "boom"), s) in
  let o := Retry.Options 3 1000 5000 in
  let waiting := Retry.Call o (Some (Error "boom")) [0%nat] (Retry.Awaiting 0 0) in
  Retry.advance failing (Retry.start o Retry.initial_global tt)
  = Some (Retry.Global false [0%nat] [0%nat] 1 false, tt, waiting)
  ∧ ∃ g', Retry.signal (Retry.Global false [0%nat] [0%nat] 1 false, tt, waiting)
          = Some (g', tt, waiting)
          ∧ ∀ evs, Retry.run failing evs (g', tt, waiting) = (g', tt, waiting).
Proof.
  intros failing o waiting. split; [reflexivity|].
  destruct (abort_during_backoff failing
              (Retry.Global false [0%nat] [0%nat] 1 false) tt waiting 0 0%nat
              eq_refl eq_refl)
    as (g' & Hsig & _ & _ & Hrun).
  - apply list_elem_of_here.
  - exists g'. split; [exact Hsig|]. intros evs. apply (Hrun evs).
Defined.

(** ** Cache *)

Section CacheFacts.
Import Cache CacheSpec.
Local Open Scope list_scope.
Context {V : Type}.
Implicit Types (c : Cache.t V) (key k : string) (order : list string).

Lemma removeFromAccessOrder_absent key order :
  key ∉ order → removeFromAccessOrder key order = order.
Proof.
  induction order as [|k order IH]; intros Hnot; [done|].
  simpl. rewrite not_elem_of_cons in Hnot. destruct Hnot as [Hne Hnot].
  rewrite decide_False by done. by rewrite IH.
Qed.

Lemma removeFromAccessOrder_present key order :
  key ∈ order →
  ∃ l1 l2, order = l1 ++ key :: l2 ∧ (key ∉ l1)
           ∧ removeFromAccessOrder key order = l1 ++ l2.
Proof.
  induction order as [|k order IH]; intros Hin.
  - by apply elem_of_nil in Hin.
  - simpl. destruct (decide (k = key)) as [->|Hne].
    + exists [], order. split; [done|]. split; [apply not_elem_of_nil | done].
    + apply elem_of_cons in Hin as [?|Hin]; [congruence|].
      destruct (IH Hin) as (l1 & l2 & -> & Hnot & ->).
      exists (k :: l1), l2. split; [done|]. split; [|done].
      rewrite not_elem_of_cons. split; [congruence | done].
Qed.

Lemma StronglySorted_weaken (R R' : relation string) order :
  (∀ x y, x ∈ order → y ∈ order → R x y → R' x y) →
  StronglySorted R order → StronglySorted R' order.
Proof.
  induction order as [|k order IH]; intros Himp Hs; [constructor|].
  apply StronglySorted_cons in Hs as [Hall Hs].
  apply StronglySorted_cons. split.
  - rewrite Forall_forall in *. intros y Hy.
    apply Himp; [apply list_elem_of_here | by apply list_elem_of_further | auto].
  - apply IH; [|done]. intros x y Hx Hy.
    apply Himp; by apply list_elem_of_further.
Qed.

Lemma StronglySorted_remove_middle (R : relation string) (l1 l2 : list string) k :
  StronglySorted R (l1 ++ k :: l2) → StronglySorted R (l1 ++ l2).
Proof.
  rewrite !StronglySorted_app. intros (Hcross & H1 & H2).
  apply StronglySorted_cons in H2 as [_ H2].
  split; [|done]. intros x1 x2 Hx1 Hx2.
  apply Hcross; [done | by apply list_elem_of_further].
Qed.

Lemma older_insert_other lastTouch key n x y :
  x ≠ key → y ≠ key →
  older lastTouch x y → older (<[key := n]> lastTouch) x y.
Proof.
  intros Hx Hy (n1 & n2 & H1 & H2 & Hlt).
  exists n1, n2. by rewrite !lookup_insert_ne.
Qed.

(** *** The two moves of the in-process tier *)

(** Dropping a key that the tier holds. *)
Lemma consistent_drop c lastTouch clock key c' :
  consistent c lastTouch clock →
  is_Some (memoryCache c !! key) →
  memoryCache c' = delete key (memoryCache c) →
  accessOrder c' = removeFromAccessOrder key (accessOrder c) →
  maxMemoryItems c' = maxMemoryItems c →
  consistent c' lastTouch clock
  ∧ size (memoryCache c') = pred (size (memoryCache c)).
Proof.
  intros [Hnd Hkeys Hsize Hsorted Hstamped Hbound] Hin Hmem Hord Hmax.
  assert (key ∈ accessOrder c) as Hkey by by apply Hkeys.
  destruct (removeFromAccessOrder_present _ _ Hkey) as (l1 & l2 & Heq & Hl1 & Hrm).
  rewrite Hrm in Hord. rewrite Heq in *.
  apply NoDup_app in Hnd as (Hnd1 & Hcross & Hnd2).
  apply NoDup_cons in Hnd2 as [Hl2 Hnd2].
  destruct Hin as [it Hit].
  assert (size (memoryCache c') = pred (size (memoryCache c))) as Hsz.
  { rewrite Hmem. by erewrite map_size_delete_Some. }
  split; [|done]. split.
  - rewrite Hord. apply NoDup_app. split; [done|]. split; [|done].
    intros x Hx Hx2. apply (Hcross x Hx). by apply list_elem_of_further.
  - intros k. rewrite Hord, Hmem. rewrite lookup_delete_is_Some.
    rewrite <- Hkeys. rewrite !elem_of_app, elem_of_cons.
    split.
    + intros [H|H].
      * split; [|by left]. intros ->. done.
      * split; [|by right; right]. intros ->. done.
    + intros (Hne & [H|[H|H]]); [by left | congruence | by right].
  - rewrite Hord, Hsz, <- Hsize. rewrite !length_app. simpl. lia.
  - rewrite Hord. by eapply StronglySorted_remove_middle.
  - intros k Hk. apply Hstamped. rewrite Hord in Hk.
    rewrite elem_of_app in Hk. rewrite elem_of_app, elem_of_cons. tauto.
  - rewrite Hmax, Hsz. lia.
Qed.

(** Writing a key and moving it to the recent end, at the tick [clock]. *)
Lemma consistent_touch c lastTouch clock key it c' :
  consistent c lastTouch clock →
  (is_Some (memoryCache c !! key)
   ∨ (Z.of_nat (size (memoryCache c)) < maxMemoryItems c)%Z) →
  memoryCache c' = <[key := it]> (memoryCache c) →
  accessOrder c' = updateAccessOrder key (accessOrder c) →
  maxMemoryItems c' = maxMemoryItems c →
  consistent c' (<[key := clock]> lastTouch) (S clock).
Proof.
  intros [Hnd Hkeys Hsize Hsorted Hstamped Hbound] Hroom Hmem Hord Hmax.
  unfold updateAccessOrder in Hord.
  assert (∃ rest,
            removeFromAccessOrder key (accessOrder c) = rest
            ∧ NoDup rest ∧ (key ∉ rest)
            ∧ (∀ k, k ∈ rest ↔ k ≠ key ∧ k ∈ accessOrder c)
            ∧ StronglySorted (older lastTouch) rest
            ∧ length rest
              = (if decide (key ∈ accessOrder c)
                 then pred (length (accessOrder c))
                 else length (accessOrder c)))
    as (rest & Hrest & Hnd' & Hnot & Hiff & Hsorted' & Hlen).
  { destruct (decide (key ∈ accessOrder c)) as [Hin|Hout].
    - destruct (removeFromAccessOrder_present _ _ Hin)
        as (l1 & l2 & Heq & Hl1 & Hrm).
      exists (l1 ++ l2). rewrite Heq in *. clear Heq.
      apply NoDup_app in Hnd as (Hnd1 & Hcross & Hnd2).
      apply NoDup_cons in Hnd2 as [Hl2 Hnd2].
      split; [done|]. split.
      { apply NoDup_app. split; [done|]. split; [|done].
        intros x Hx Hx2. apply (Hcross x Hx). by apply list_elem_of_further. }
      split; [rewrite elem_of_app; tauto|]. split.
      { intros k. rewrite !elem_of_app, elem_of_cons. split.
        - intros [H|H]; (split; [intros ->; done | tauto]).
        - intros (Hne & [H|[H|H]]); [by left | congruence | by right]. }
      split; [by eapply StronglySorted_remove_middle|].
      rewrite !length_app. simpl. lia.
    - exists (accessOrder c).
      split; [by apply removeFromAccessOrder_absent|].
      repeat split; try done.
      + intros ->. done.
      + tauto. }
  rewrite Hrest in Hord.
  split.
  - rewrite Hord. apply NoDup_app. split; [done|]. split.
    + intros x Hx Hx2. apply list_elem_of_singleton in Hx2. by subst.
    + apply NoDup_singleton.
  - intros k. rewrite Hord, Hmem, elem_of_app, list_elem_of_singleton.
    rewrite lookup_insert_is_Some, Hiff, Hkeys.
    destruct (decide (key = k)); [subst; tauto|].
    split; [intros [[? ?]|?]; [right; done | congruence]
           | intros [?|[? ?]]; [congruence | left; done]].
  - rewrite Hord, Hmem, length_app, Hlen. simpl.
    destruct (memoryCache c !! key) as [it0|] eqn:Hlook.
    + rewrite decide_True by (apply Hkeys; eauto).
      erewrite map_size_insert_Some by done.
      assert (size (memoryCache c) ≠ 0%nat).
      { intros Hz. apply map_size_empty_inv in Hz. rewrite Hz in Hlook.
        by rewrite lookup_empty in Hlook. }
      lia.
    + rewrite decide_False.
      * rewrite map_size_insert_None by done. lia.
      * intros Hin. apply Hkeys in Hin. rewrite Hlook in Hin.
        by destruct Hin.
  - rewrite Hord. apply StronglySorted_app_2.
    + intros x1 x2 Hx1 Hx2. apply list_elem_of_singleton in Hx2. subst x2.
      assert (x1 ≠ key) as Hne by (intros ->; done).
      destruct (Hstamped x1) as (n & Hn & Hlt); [by apply Hiff|].
      exists n, clock. rewrite lookup_insert_ne by done.
      by rewrite lookup_insert_eq.
    + eapply StronglySorted_weaken; [|exact Hsorted'].
      intros x y Hx Hy. apply older_insert_other; by intros ->.
    + repeat constructor.
  - intros k. rewrite Hord, elem_of_app, list_elem_of_singleton.
    intros [Hk| ->].
    + assert (k ≠ key) as Hne by (intros ->; done).
      destruct (Hstamped k) as (n & Hn & Hlt); [by apply Hiff|].
      exists n. rewrite lookup_insert_ne by done. split; [done | lia].
    + exists clock. rewrite lookup_insert_eq. split; [done | lia].
  - rewrite Hmax, Hmem.
    destruct (memoryCache c !! key) as [it0|] eqn:Hlook.
    + erewrite map_size_insert_Some by done. done.
    + rewrite map_size_insert_None by done.
      destruct Hroom as [[? ?]|?]; [congruence | lia].
Qed.

Lemma consistent_tick c lastTouch clock :
  consistent c lastTouch clock → consistent c lastTouch (S clock).
Proof.
  intros [Hnd Hkeys Hsize Hsorted Hstamped Hbound]. split; try done.
  intros k Hk. destruct (Hstamped k Hk) as (n & ? & ?).
  exists n. split; [done | lia].
Qed.

Lemma consistent_same_memory c c' lastTouch clock :
  memoryCache c' = memoryCache c →
  accessOrder c' = accessOrder c →
  maxMemoryItems c' = maxMemoryItems c →
  consistent c lastTouch clock → consistent c' lastTouch clock.
Proof.
  intros Hmem Hord Hmax [Hnd Hkeys Hsize Hsorted Hstamped Hbound].
  split; rewrite ?Hmem, ?Hord, ?Hmax; done.
Qed.

Lemma has_true c key : has c key = true ↔ is_Some (memoryCache c !! key).
Proof. unfold has. apply bool_decide_eq_true. Qed.

Lemma has_false c key : has c key = false ↔ memoryCache c !! key = None.
Proof.
  unfold has. rewrite bool_decide_eq_false, <- eq_None_not_Some. done.
Qed.

(** *** The operations keep the tier consistent *)

Lemma evict_consistent c lastTouch clock key :
  consistent c lastTouch clock →
  (1 ≤ maxMemoryItems c)%Z →
  consistent (evict key c) lastTouch clock
  ∧ (is_Some (memoryCache (evict key c) !! key)
     ∨ (Z.of_nat (size (memoryCache (evict key c)))
        < maxMemoryItems (evict key c))%Z)
  ∧ maxMemoryItems (evict key c) = maxMemoryItems c
  ∧ maxFileAge (evict key c) = maxFileAge c
  ∧ files (evict key c) = files c.
Proof.
  intros Hc Hmax. unfold evict.
  destruct (Z.geb_spec (Z.of_nat (size (memoryCache c))) (maxMemoryItems c))
    as [Hfull|Hroom]; simpl.
  - destruct (has c key) eqn:Hhas; simpl.
    + split; [done|]. split; [|done]. left. by apply has_true.
    + destruct (accessOrder c) as [|oldestKey rest] eqn:Hord.
      { pose proof (order_size _ _ _ Hc) as Hsize.
        rewrite Hord in Hsize. simpl in Hsize. lia. }
      assert (is_Some (memoryCache c !! oldestKey)) as Hin.
      { apply (order_keys _ _ _ Hc). rewrite Hord. apply list_elem_of_here. }
      pose proof (within_bound _ _ _ Hc) as Hbound.
      edestruct (consistent_drop c lastTouch clock oldestKey
                   (Cache (delete oldestKey (memoryCache c)) rest (files c)
                          (maxMemoryItems c) (maxFileAge c)))
        as [Hc' Hsz]; try done.
      { simpl. rewrite Hord. simpl. by rewrite decide_True. }
      split; [done|]. split; [|done]. right. simpl in *. lia.
  - split; [done|]. split; [|done]. right. lia.
Qed.

Lemma setMemoryCache_consistent c lastTouch clock key d age now :
  consistent c lastTouch clock →
  (1 ≤ maxMemoryItems c)%Z →
  consistent (setMemoryCache key d age now c)
             (<[key := clock]> lastTouch) (S clock)
  ∧ maxMemoryItems (setMemoryCache key d age now c) = maxMemoryItems c
  ∧ maxFileAge (setMemoryCache key d age now c) = maxFileAge c
  ∧ files (setMemoryCache key d age now c) = files c.
Proof.
  intros Hc Hmax.
  destruct (evict_consistent c lastTouch clock key Hc Hmax)
    as (Hc1 & Hroom & Hmax1 & Hage1 & Hfiles1).
  unfold setMemoryCache. simpl. split; [|by rewrite Hmax1, Hage1, Hfiles1].
  eapply consistent_touch; [exact Hc1 | exact Hroom | done..].
Qed.

Lemma get_consistent flt c lastTouch clock key age now r c' :
  consistent c lastTouch clock →
  (1 ≤ maxMemoryItems c)%Z →
  get_on flt key age now c = (r, c') →
  consistent c'
             (match r with
              | Some _ => <[key := clock]> lastTouch
              | None => lastTouch
              end) (S clock)
  ∧ maxMemoryItems c' = maxMemoryItems c
  ∧ maxFileAge c' = maxFileAge c.
Proof.
  intros Hc Hmax Hget. unfold get_on, get_memory in Hget.
  assert (∀ c1, consistent c1 lastTouch clock →
                maxMemoryItems c1 = maxMemoryItems c →
                maxFileAge c1 = maxFileAge c →
                get_file_on flt key age now c1 = (r, c') →
                consistent c'
                  (match r with
                   | Some _ => <[key := clock]> lastTouch
                   | None => lastTouch
                   end) (S clock)
                ∧ maxMemoryItems c' = maxMemoryItems c
                ∧ maxFileAge c' = maxFileAge c) as Hfile.
  { intros c1 Hc1 Hmax1 Hage1 Hf. unfold get_file_on in Hf.
    destruct (stat_fails flt || read_fails flt).
    { injection Hf as <- <-. split; [|done]. by apply consistent_tick. }
    destruct (files c1 !! key) as [[[d fAge fTs|] mtime]|].
    - destruct (negb _).
      + injection Hf as <- <-.
        destruct (setMemoryCache_consistent c1 lastTouch clock key d
                    (or_else fAge age) now Hc1) as (? & ? & ? & ?);
          [lia|]. split; [done|]. split; congruence.
      + injection Hf as <- <-. unfold unlink.
        destruct (unlink_fails flt);
          [split; [|done]; by apply consistent_tick|].
        split; [|done]. apply consistent_tick.
        by eapply consistent_same_memory; [..|exact Hc1].
    - injection Hf as <- <-. split; [|done]. by apply consistent_tick.
    - injection Hf as <- <-. split; [|done]. by apply consistent_tick. }
  destruct (memoryCache c !! key) as [it|] eqn:Hlook.
  - destruct (negb _).
    + injection Hget as <- <-. split; [|done].
      eapply (consistent_touch c lastTouch clock key it);
        [exact Hc | left; eauto | simpl | done | done].
      by rewrite insert_id.
    + eapply Hfile; [| | |exact Hget]; [|done..].
      eapply consistent_drop; [exact Hc | eauto | done..].
  - by eapply Hfile; [exact Hc|..].
Qed.

Lemma set_consistent flt c lastTouch clock key d age now :
  consistent c lastTouch clock →
  (1 ≤ maxMemoryItems c)%Z →
  consistent (set_on flt key d age now c)
             (<[key := clock]> lastTouch) (S clock)
  ∧ maxMemoryItems (set_on flt key d age now c) = maxMemoryItems c
  ∧ maxFileAge (set_on flt key d age now c) = maxFileAge c.
Proof.
  intros Hc Hmax.
  destruct (setMemoryCache_consistent c lastTouch clock key d age now Hc Hmax)
    as (Hc1 & Hmax1 & Hage1 & _).
  unfold set_on. simpl. split; [|done].
  by eapply consistent_same_memory; [..|exact Hc1].
Qed.

Lemma trace_step_consistent (o : op V) (tr : traced V) :
  consistent (cache tr) (lastTouch tr) (clock tr) →
  (1 ≤ maxMemoryItems (cache tr))%Z →
  consistent (cache (trace_step o tr)) (lastTouch (trace_step o tr))
             (clock (trace_step o tr))
  ∧ maxMemoryItems (cache (trace_step o tr)) = maxMemoryItems (cache tr).
Proof.
  intros Hc Hmax. unfold trace_step.
  destruct o as [key age now flt | key d age now flt]; simpl.
  - destruct (get_on flt key age now (cache tr)) as [r c'] eqn:Hget. simpl.
    destruct (get_consistent _ _ _ _ _ _ _ _ _ Hc Hmax Hget)
      as (Hc' & Hmax' & _).
    split; [|done]. by destruct r.
  - destruct (set_consistent flt (cache tr) (lastTouch tr) (clock tr)
                key d age now Hc Hmax) as (Hc' & Hmax' & _).
    done.
Qed.

Lemma trace_from_consistent (ops : list (op V)) (tr : traced V) :
  consistent (cache tr) (lastTouch tr) (clock tr) →
  (1 ≤ maxMemoryItems (cache tr))%Z →
  let tr' := foldl (fun tr o => trace_step o tr) tr ops in
  consistent (cache tr') (lastTouch tr') (clock tr')
  ∧ maxMemoryItems (cache tr') = maxMemoryItems (cache tr).
Proof.
  revert tr. induction ops as [|o ops IH]; intros tr Hc Hmax; [done|].
  simpl. destruct (trace_step_consistent o tr Hc Hmax) as [Hc1 Hmax1].
  destruct (IH (trace_step o tr) Hc1) as [Hc' Hmax']; [lia|].
  split; [done | congruence].
Qed.

Lemma init_consistent maxItems maxAge_ (disk : gmap string (file V)) :
  (0 ≤ maxItems)%Z → consistent (init maxItems maxAge_ disk) ∅ 0.
Proof.
  intros Hmax. split; simpl.
  - constructor.
  - intros k. rewrite lookup_empty, elem_of_nil.
    split; [done | by intros [? ?]].
  - by rewrite map_size_empty.
  - constructor.
  - intros k Hk. by apply elem_of_nil in Hk.
  - rewrite map_size_empty. lia.
Qed.

(** An operation that touches a key puts it at the recent end of the
    recency list. *)
Lemma touched_last (o : op V) c key :
  touched o (exec o c).1 = Some key →
  ∃ l, accessOrder (exec o c).2 = l ++ [key].
Proof.
  destruct (exec o c) as [r c1] eqn:Hexec. cbn [fst snd].
  destruct o as [k age now flt | k d age now flt]; cbn [exec touched] in *.
  - destruct r as [d|]; [|done]. intros [= <-].
    assert (∀ c0, get_file_on flt k age now c0 = (Some d, c1) →
                  ∃ l, accessOrder c1 = l ++ [k]) as Hfile.
    { intros c0 Hf. unfold get_file_on in Hf.
      destruct (stat_fails flt || read_fails flt); [done|].
      destruct (files c0 !! k) as [[[d0 fAge fTs|] mtime]|]; [|done..].
      destruct (negb _); [|done]. injection Hf as _ <-.
      unfold setMemoryCache. cbn [accessOrder]. by eexists. }
    unfold get_on, get_memory in Hexec.
    destruct (memoryCache c !! k) as [it|]; [|by eapply Hfile].
    destruct (negb _); [|by eapply Hfile].
    injection Hexec as _ <-. cbn [accessOrder]. by eexists.
  - intros [= <-]. injection Hexec as _ <-.
    unfold set_on, setMemoryCache. cbn [accessOrder]. by eexists.
Qed.

(** C6, as amended.  With room for at least one entry, after any
    sequence of [get] and [set] operations, whatever fails of the disk
    meanwhile: the in-process tier holds at most [maxMemoryItems]
    entries; when a key that is not in the tier is inserted while the
    tier is full, exactly one key leaves it, the one whose last touch is
    the oldest among the keys held; a [get] of an entry that the tier
    holds and that has not expired returns its value; and every [set],
    and every [get] that returns a value, is a touch: right after it the
    key is held and every other key held was touched before it. *)
Theorem lru_bound_and_eviction (maxItems maxAge_ : Z)
    (disk : gmap string (file V)) (ops : list (op V)) :
  (1 ≤ maxItems)%Z →
  let tr := trace (init maxItems maxAge_ disk) ops in
  let c := cache tr in
  (Z.of_nat (size (memoryCache c)) ≤ maxItems)%Z
  ∧ (∀ key d age now,
      at_capacity c key →
      ∃ victim stamp,
        memoryCache (setMemoryCache key d age now c)
        = <[key := Item d now age]> (delete victim (memoryCache c))
        ∧ is_Some (memoryCache c !! victim)
        ∧ lastTouch tr !! victim = Some stamp
        ∧ ∀ k, is_Some (memoryCache c !! k) → k ≠ victim →
               ∃ n, lastTouch tr !! k = Some n ∧ (stamp < n)%nat)
  ∧ (∀ key it age now flt,
      memoryCache c !! key = Some it →
      isExpired c now (timestamp it) (or_else (maxAge it) age) = false →
      (get_on flt key age now c).1 = Some (data it))
  ∧ (∀ o key,
      touched o (exec o c).1 = Some key →
      let tr' := trace_step o tr in
      is_Some (memoryCache (cache tr') !! key)
      ∧ lastTouch tr' !! key = Some (clock tr)
      ∧ ∀ k, is_Some (memoryCache (cache tr') !! k) → k ≠ key →
             ∃ n, lastTouch tr' !! k = Some n ∧ (n < clock tr)%nat).
Proof.
  intros Hmax tr c.
  destruct (trace_from_consistent ops (Traced (init maxItems maxAge_ disk) ∅ 0))
    as [Hc Hcfg]; simpl; [apply init_consistent; lia | done |].
  fold (trace (init maxItems maxAge_ disk) ops) in Hc, Hcfg.
  fold tr in Hc, Hcfg. fold c in Hc, Hcfg. simpl in Hcfg.
  split; [rewrite <- Hcfg; apply (within_bound _ _ _ Hc)|].
  split; [|split].
  - intros key d age now [Hfull Hnew].
    unfold setMemoryCache, evict.
    destruct (Z.geb_spec (Z.of_nat (size (memoryCache c))) (maxMemoryItems c))
      as [_|?]; [|lia].
    rewrite (proj2 (has_false c key) Hnew). simpl.
    destruct (accessOrder c) as [|victim rest] eqn:Hord.
    { pose proof (order_size _ _ _ Hc) as Hsize.
      rewrite Hord in Hsize. simpl in Hsize. lia. }
    assert (victim ∈ accessOrder c) as Hv
      by (rewrite Hord; apply list_elem_of_here).
    destruct (order_stamped _ _ _ Hc victim Hv) as (stamp & Hstamp & _).
    exists victim, stamp. simpl. split; [done|].
    split; [by apply (order_keys _ _ _ Hc)|]. split; [done|].
    intros k Hk Hne.
    apply (order_keys _ _ _ Hc) in Hk. rewrite Hord in Hk.
    apply elem_of_cons in Hk as [?|Hk]; [congruence|].
    pose proof (order_sorted _ _ _ Hc) as Hsorted. rewrite Hord in Hsorted.
    apply StronglySorted_cons in Hsorted as [Hall _].
    rewrite Forall_forall in Hall.
    destruct (Hall k Hk) as (n1 & n2 & H1 & H2 & Hlt).
    exists n2. split; [done|]. congruence.
  - intros key it age now flt Hheld Hlive.
    unfold get_on, get_memory. by rewrite Hheld, Hlive.
  - intros o key Htouch. set (tr' := trace_step o tr).
    assert (1 ≤ maxMemoryItems c)%Z as Hmax' by lia.
    destruct (trace_step_consistent o tr Hc Hmax') as [Hc' _].
    fold tr' in Hc'.
    destruct (touched_last o c key Htouch) as [l Hl].
    assert (cache tr' = (exec o c).2
            ∧ lastTouch tr' = <[key := clock tr]> (lastTouch tr))
      as [Hcache Hstamps].
    { unfold tr', trace_step. fold c.
      destruct (exec o c) as [r c1] eqn:Hexec. cbn [fst snd] in *.
      by rewrite Htouch. }
    rewrite Hcache in Hc'. rewrite Hcache.
    assert (key ∈ accessOrder (exec o c).2) as Hin.
    { rewrite Hl. apply elem_of_app. right. apply list_elem_of_here. }
    split; [by apply (order_keys _ _ _ Hc')|].
    split; [by rewrite Hstamps, lookup_insert_eq|].
    intros k Hk Hne.
    apply (order_keys _ _ _ Hc') in Hk. rewrite Hl in Hk.
    apply elem_of_app in Hk as [Hk|Hk];
      [|apply list_elem_of_singleton in Hk; congruence].
    pose proof (order_sorted _ _ _ Hc') as Hsorted. rewrite Hl in Hsorted.
    apply StronglySorted_app in Hsorted as (Hcross & _ & _).
    destruct (Hcross k key Hk) as (n1 & n2 & H1 & H2 & Hlt);
      [apply list_elem_of_here|].
    exists n1. split; [done|].
    rewrite Hstamps, lookup_insert_eq in H2. injection H2 as <-. done.
Qed.

End CacheFacts.

(** Three operations on a tier of two: ["a"] is set first but read again
    before ["c"] arrives, so ["b"] is the key that leaves and ["a"]
    stays. *)
Lemma lru_bound_and_eviction_witness :
  let ops := [Cache.Set_ "a" 1%nat None 0 Cache.calm;
              Cache.Set_ "b" 2%nat None 1 Cache.calm;
              Cache.Get "a" None 2 Cache.calm] in
  let tr := Cache.trace (Cache.init 2 100 ∅) ops in
  let c := Cache.cache tr in
  let c' := Cache.setMemoryCache "c" 3%nat None 3 c in
  (Z.of_nat (size (Cache.memoryCache c)) ≤ 2)%Z
  ∧ CacheSpec.at_capacity c "c"
  ∧ (∃ stamp,
      Cache.memoryCache c'
      = <["c" := Cache.Item 3%nat 3 None]> (delete "b" (Cache.memoryCache c))
      ∧ Cache.lastTouch tr !! "b" = Some stamp
      ∧ ∀ k, is_Some (Cache.memoryCache c !! k) → k ≠ "b" →
             ∃ n, Cache.lastTouch tr !! k = Some n ∧ (stamp < n)%nat)
  ∧ Cache.memoryCache c' !! "a" = Some (Cache.Item 1%nat 0 None)
  ∧ Cache.memoryCache c' !! "b" = None
  ∧ (Cache.get "a" None 2
       (Cache.run (Cache.init 2 100 ∅)
          [Cache.Set_ "a" 1%nat None 0 Cache.calm;
           Cache.Set_ "b" 2%nat None 1 Cache.calm])).1 = Some 1%nat.
Proof.
  intros ops tr c c'.
  assert (1 ≤ 2)%Z as Hmax by lia.
  destruct (lru_bound_and_eviction 2 100 ∅ ops Hmax)
    as (Hbound & Hevict & _ & _).
  destruct (lru_bound_and_eviction 2 100 ∅
              [Cache.Set_ "a" 1%nat None 0 Cache.calm;
               Cache.Set_ "b" 2%nat None 1 Cache.calm] Hmax)
    as (_ & _ & Hhit & _).
  assert (CacheSpec.at_capacity c "c") as Hfull.
  { split; [vm_compute; discriminate | reflexivity]. }
  split; [exact Hbound|]. split; [exact Hfull|].
  destruct (Hevict "c" 3%nat None 3%Z Hfull)
    as (victim & stamp & Hmem & _ & Hstamp & Hold).
  assert (victim = "b") as ->.
  { destruct (decide (victim = "b")) as [|Hne]; [done|]. exfalso.
    apply (f_equal (fun m => m !! "b")) in Hmem.
    rewrite lookup_insert_ne, lookup_delete_ne in Hmem by done.
    vm_compute in Hmem. discriminate. }
  split; [exists stamp; split; [exact Hmem|]; split; [exact Hstamp|exact Hold]|].
  split; [reflexivity|]. split; [reflexivity|].
  apply (Hhit "a" (Cache.Item 1%nat 0 None) None 2%Z Cache.calm);
    reflexivity.
Defined.

(** C6, as stated, fails for a tier configured with no room: the first
    [set] finds nothing to evict and inserts, and the tier holds one
    entry. *)
Lemma tier_exceeds_zero_capacity :
  let c := Cache.run (Cache.init 0 100 ∅)
             [Cache.Set_ "a" 1%nat None 0 Cache.calm] in
  Cache.maxMemoryItems c = 0%Z
  ∧ size (Cache.memoryCache c) = 1%nat
  ∧ ¬ (Z.of_nat (size (Cache.memoryCache c)) ≤ Cache.maxMemoryItems c)%Z.
Proof. vm_compute. split; [done|]. split; [done|]. by intros H. Qed.

Example lru_evicts_least_recently_touched :
  let ops := [Cache.Set_ "a" 1%nat None 0 Cache.calm;
              Cache.Set_ "b" 2%nat None 1 Cache.calm;
              Cache.Get "a" None 2 Cache.calm;
              Cache.Set_ "c" 3%nat None 3 Cache.calm] in
  Cache.accessOrder (Cache.run (Cache.init 2 100 ∅) ops) = ["a"; "c"].
Proof. reflexivity. Qed.

Section CacheExpiryFacts.
Import Cache CacheSpec.
Context {V : Type}.
Implicit Types (c : Cache.t V) (key : string).

Lemma evict_config c key :
  maxFileAge (evict key c) = maxFileAge c
  ∧ maxMemoryItems (evict key c) = maxMemoryItems c
  ∧ files (evict key c) = files c.
Proof.
  unfold evict. destruct (_ && _); [|done].
  by destruct (accessOrder c).
Qed.

Lemma setMemoryCache_lookup c key d age now :
  memoryCache (setMemoryCache key d age now c) !! key = Some (Item d now age).
Proof. unfold setMemoryCache. simpl. apply lookup_insert_eq. Qed.

Lemma setMemoryCache_config c key d age now :
  maxFileAge (setMemoryCache key d age now c) = maxFileAge c
  ∧ files (setMemoryCache key d age now c) = files c.
Proof.
  unfold setMemoryCache. simpl.
  destruct (evict_config c key) as (? & _ & ?). done.
Qed.

Lemma truthy_or_else_None (a : option Z) : truthy (or_else a None) = truthy a.
Proof. unfold or_else. by destruct (truthy a) eqn:H. Qed.

Lemma isExpired_spec c now ts age :
  isExpired c now ts age = true ↔ (effectiveMaxAge c age < now - ts)%Z.
Proof.
  unfold isExpired, effectiveMaxAge.
  destruct (truthy age); rewrite Z.gtb_ltb, Z.ltb_lt; done.
Qed.

Lemma isExpired_false c now ts age :
  isExpired c now ts age = false ↔ (now - ts ≤ effectiveMaxAge c age)%Z.
Proof.
  rewrite <- not_true_iff_false, isExpired_spec. lia.
Qed.

Lemma effectiveMaxAge_config c c' age :
  maxFileAge c' = maxFileAge c →
  effectiveMaxAge c' age = effectiveMaxAge c age.
Proof. unfold effectiveMaxAge. by intros ->. Qed.

(** The methods on a disk where nothing fails, written out. *)
Lemma get_unfold c key age now :
  get key age now c
  = match get_memory key age now c with
    | inl (d, c') => (Some d, c')
    | inr c' => get_file key age now c'
    end.
Proof. done. Qed.

Lemma get_file_unfold c key age now :
  get_file key age now c
  = match files c !! key with
    | Some (File (Json d fAge _) mtime) =>
        if negb (isExpired c now mtime (or_else fAge age))
        then (Some d, setMemoryCache key d (or_else fAge age) now c)
        else (None,
              Cache (memoryCache c) (accessOrder c) (delete key (files c))
                    (maxMemoryItems c) (maxFileAge c))
    | Some (File Garbage _) => (None, c)
    | None => (None, c)
    end.
Proof. done. Qed.

Lemma set_unfold c key d age now :
  set key d age now c
  = Cache (memoryCache (setMemoryCache key d age now c))
          (accessOrder (setMemoryCache key d age now c))
          (<[key := File (Json d age now) now]>
             (files (setMemoryCache key d age now c)))
          (maxMemoryItems (setMemoryCache key d age now c))
          (maxFileAge (setMemoryCache key d age now c)).
Proof. done. Qed.

Lemma stays_calm c now (f : file V) :
  stays c now calm f = negb (sweeps c now f).
Proof. unfold stays. cbn. by destruct (sweeps c now f). Qed.

(** What [get] answers right after a [set], with nothing in between: the
    value up to the max-age of the entry, [null] beyond it. *)
Lemma get_right_after_set c key d age getAge now t :
  let T := effectiveMaxAge c (or_else age getAge) in
  ((t - now ≤ T)%Z →
     (get key getAge t (set key d age now c)).1 = Some d)
  ∧ ((T < t - now)%Z →
     (get key getAge t (set key d age now c)).1 = None).
Proof.
  intros T.
  destruct (setMemoryCache_config c key d age now) as [Hage Hfiles].
  set (c1 := set key d age now c).
  assert (memoryCache c1 !! key = Some (Item d now age)) as Hmem
    by apply setMemoryCache_lookup.
  assert (maxFileAge c1 = maxFileAge c) as Hage1 by done.
  assert (files c1 !! key = Some (File (Json d age now) now)) as Hfile
    by apply lookup_insert_eq.
  rewrite get_unfold. unfold get_memory. rewrite Hmem. simpl.
  split; intros Hrange.
  - rewrite (proj2 (isExpired_false c1 t now (or_else age getAge))); [done|].
    by rewrite (effectiveMaxAge_config c).
  - rewrite (proj2 (isExpired_spec c1 t now (or_else age getAge)));
      [|by rewrite (effectiveMaxAge_config c)].
    cbn [negb]. cbv beta iota. rewrite get_file_unfold. cbn [files].
    rewrite lookup_insert_eq.
    rewrite (proj2 (isExpired_spec _ t now (or_else age getAge))); [done|].
    rewrite (effectiveMaxAge_config c); [done|].
    apply evict_config.
Qed.

(** C7, what the code does.  A durable entry that is read back into the
    in-process tier before its max-age [T] has elapsed is stamped with the
    time of that read; a later [get] measures its age from there and
    returns the value, although the entry is older than [T]. *)
Theorem promoted_entry_outlives_max_age c key d own ts mtime now1 now2 :
  memoryCache c !! key = None →
  files c !! key = Some (File (Json d own ts) mtime) →
  let T := effectiveMaxAge c own in
  (now1 - mtime ≤ T)%Z →
  (now2 - now1 ≤ T)%Z →
  (T < now2 - mtime)%Z →
  ∃ c1, get key None now1 c = (Some d, c1)
        ∧ (get key None now2 c1).1 = Some d.
Proof.
  intros Hmiss Hfile T Hfresh Hstill Hold.
  assert (effectiveMaxAge c (or_else own None) = T) as HT.
  { unfold T, effectiveMaxAge. by rewrite truthy_or_else_None. }
  exists (setMemoryCache key d (or_else own None) now1 c). split.
  - rewrite get_unfold. unfold get_memory. rewrite Hmiss. rewrite get_file_unfold. rewrite Hfile.
    rewrite (proj2 (isExpired_false c now1 mtime (or_else own None)));
      [done | by rewrite HT].
  - destruct (setMemoryCache_config c key d (or_else own None) now1)
      as [Hage _].
    rewrite get_unfold. unfold get_memory. rewrite setMemoryCache_lookup. simpl.
    rewrite (proj2 (isExpired_false _ now2 now1 _)); [done|].
    rewrite (effectiveMaxAge_config c) by done.
    unfold or_else at 1. rewrite truthy_or_else_None.
    destruct (truthy own) eqn:Hown.
    + by rewrite HT.
    + unfold T, effectiveMaxAge in Hstill. rewrite Hown in Hstill.
      unfold effectiveMaxAge. simpl. done.
Qed.

(** *** The sweep *)

Lemma cleanup_lookup c now key :
  files (cleanup now c) !! key
  = match files c !! key with
    | Some f => if sweeps c now f then None else Some f
    | None => None
    end.
Proof.
  unfold cleanup, cleanup_on. cbn [files].
  destruct (files c !! key) as [f|] eqn:Hlook.
  - destruct (sweeps c now f) eqn:Hs.
    + apply map_lookup_filter_None. right. intros f' Hf'. cbn [fst snd].
      rewrite Hlook in Hf'. injection Hf' as <-.
      by rewrite stays_calm, Hs.
    + apply map_lookup_filter_Some. split; [done|]. cbn [fst snd].
      by rewrite stays_calm, Hs.
  - apply map_lookup_filter_None. by left.
Qed.

(** What the sweep does with an entry written by [set]. *)
Lemma sweeps_spec c now d own ts mtime :
  sweeps c now (File (Json d own ts) mtime) = true ↔
  (maxFileAge c < now - mtime)%Z
  ∨ ∃ a, truthy own = Some a ∧ (a < now - ts)%Z.
Proof.
  unfold sweeps. simpl.
  destruct (Z.gtb_spec (now - mtime) (maxFileAge c)).
  - split; [by left; lia | done].
  - destruct (truthy own) as [a|].
    + rewrite Z.gtb_ltb, Z.ltb_lt. split.
      * intros ?. right. eauto.
      * intros [?|(a' & Ha & ?)]; [lia|]. by injection Ha as <-.
    + split; [done|]. intros [?|(a' & Ha & ?)]; [lia | done].
Qed.

(** C8, what the code does.  The sweep first compares the age of the file
    with the cache-wide default, whatever the entry's own max-age: an
    entry whose own max-age is longer than the default and has not
    elapsed is deleted as soon as it is older than the default, while
    [get] at the same moment still returns it. *)
Theorem cleanup_ignores_longer_override c key d own ts mtime now :
  memoryCache c !! key = None →
  files c !! key = Some (File (Json d (Some own) ts) mtime) →
  own ≠ 0%Z →
  (maxFileAge c < now - mtime)%Z →
  (now - mtime ≤ own)%Z →
  (now - ts ≤ own)%Z →
  effectiveMaxAge c (Some own) = own
  ∧ files (cleanup now c) !! key = None
  ∧ (get key None now c).1 = Some d.
Proof.
  intros Hmiss Hfile Hown Hdefault Hmtime Hts.
  assert (truthy (Some own) = Some own) as Htruthy.
  { simpl. by rewrite (proj2 (Z.eqb_neq own 0)). }
  assert (effectiveMaxAge c (Some own) = own) as Heff.
  { unfold effectiveMaxAge. by rewrite Htruthy. }
  split; [done|]. split.
  - rewrite cleanup_lookup, Hfile.
    rewrite (proj2 (sweeps_spec c now d (Some own) ts mtime)); [done|].
    by left.
  - rewrite get_unfold. unfold get_memory. rewrite Hmiss. rewrite get_file_unfold. rewrite Hfile.
    assert (or_else (Some own) None = Some own) as ->
      by (unfold or_else; by rewrite Htruthy).
    rewrite (proj2 (isExpired_false c now mtime (Some own))); [done|].
    by rewrite Heff.
Qed.

End CacheExpiryFacts.

(** The failing run of C7, within one process: a tier of one entry and a
    default max-age of 100.  ["a"] is set at 0, pushed out of the tier by
    ["b"] at 1, read back from its file at 90, and still returned at 150. *)
Example expired_entry_returned :
  let c := Cache.run (Cache.init 1 100 ∅)
             [Cache.Set_ "a" "A" None 0 Cache.calm;
              Cache.Set_ "b" "B" None 1 Cache.calm;
              Cache.Get "a" None 90 Cache.calm] in
  (Cache.get "a" None 150 c).1 = Some "A".
Proof. reflexivity. Qed.

Lemma promoted_entry_outlives_max_age_witness :
  let c := Cache.run (Cache.init 1 100 ∅)
             [Cache.Set_ "a" "A" None 0 Cache.calm;
              Cache.Set_ "b" "B" None 1 Cache.calm] in
  ∃ c1, Cache.get "a" None 90 c = (Some "A", c1)
        ∧ (Cache.get "a" None 150 c1).1 = Some "A".
Proof.
  intros c.
  apply (promoted_entry_outlives_max_age c "a" "A" None 0 0 90 150);
    [reflexivity | reflexivity
    | vm_compute; first [discriminate | reflexivity]..].
Defined.

(** The failing input of C8: a default max-age of 100 and, on disk, an entry
    written at 0 with a max-age of 1000 of its own.  At 150 [get] returns
    it and the sweep deletes it. *)
Lemma cleanup_ignores_longer_override_witness :
  let entry := Cache.File (Cache.Json "v" (Some 1000%Z) 0) 0 in
  let c := Cache.init 1000 100 {[ "k" := entry ]} in
  Cache.files (Cache.cleanup 150 c) !! "k" = None
  ∧ (Cache.get "k" None 150 c).1 = Some "v".
Proof.
  intros entry c.
  destruct (cleanup_ignores_longer_override c "k" "v" 1000 0 0 150)
    as (_ & Hgone & Hget);
    [reflexivity | reflexivity | discriminate
    | vm_compute; first [discriminate | reflexivity]..|].
  split; [exact Hgone | exact Hget].
Defined.

(** ** Task queue *)

Section TaskQueueFacts.
Import TaskQueue TaskQueueSpec.
Context {V : Type}.
Implicit Types (q : TaskQueue.t V) (id : nat) (r : Result V).
Local Open Scope list_scope.

(** *** Sorting rearranges *)

Lemma place_perm (x : queueItem) (l : list queueItem) : place x l ≡ₚ x :: l.
Proof.
  induction l as [|y l IH]; [done|]. simpl.
  destruct (_ <=? _)%Z; [done|]. rewrite IH. apply Permutation_swap.
Qed.

Lemma sort_perm (l : list queueItem) : sort l ≡ₚ l.
Proof.
  induction l as [|x l IH]; [done|]. simpl.
  by rewrite place_perm, IH.
Qed.

(** *** [settle] *)

Lemma settle_unfold q id r :
  settle id r q
  = if was_pending q id then
      Queue (concurrency q) (running q) (queue q) (results q) (errors q)
            (isStopped q) (maxStoredResults q) (completedCount q)
            (inFlight q) (immediates q) (timers q)
            (<[id := settled_as r]> (promises q))
            (settlements q ++ [(id, r)])
            (notify (<[id := settled_as r]> (promises q)) id r <$> all q)
    else q.
Proof.
  unfold settle, was_pending.
  by destruct (promises q !! id) as [[| |]|].
Qed.

Lemma settle_sched q id r :
  concurrency (settle id r q) = concurrency q
  ∧ running (settle id r q) = running q
  ∧ queue (settle id r q) = queue q
  ∧ inFlight (settle id r q) = inFlight q
  ∧ isStopped (settle id r q) = isStopped q
  ∧ immediates (settle id r q) = immediates q
  ∧ timers (settle id r q) = timers q.
Proof. rewrite settle_unfold. by destruct (was_pending q id). Qed.

Lemma settle_promises_is_Some q id r id' :
  is_Some (promises (settle id r q) !! id') ↔ is_Some (promises q !! id').
Proof.
  rewrite settle_unfold. destruct (was_pending q id) eqn:Hp; [|done].
  simpl. unfold was_pending in Hp. rewrite lookup_insert_is_Some.
  destruct (decide (id = id')) as [<-|Hne].
  - destruct (promises q !! id); [|done]. split; eauto.
  - split; [by intros [?|[_ ?]] | by right].
Qed.

Lemma settle_promises_None q id r id' :
  promises (settle id r q) !! id' = None ↔ promises q !! id' = None.
Proof. rewrite !eq_None_not_Some. by rewrite settle_promises_is_Some. Qed.

Lemma scheduled_ext q q' :
  running q' = running q →
  queue q' = queue q →
  inFlight q' = inFlight q →
  (∀ id, is_Some (promises q !! id) → is_Some (promises q' !! id)) →
  scheduled q → scheduled q'.
Proof.
  intros Hr Hq Hf Hp [H1 H2 H3].
  split; unfold known in *; rewrite ?Hr, ?Hq, ?Hf; auto.
Qed.

Lemma settle_scheduled q id r : scheduled q → scheduled (settle id r q).
Proof.
  destruct (settle_sched q id r) as (_ & ? & ? & ? & _).
  apply scheduled_ext; try done.
  intros id'. by rewrite settle_promises_is_Some.
Qed.

Lemma foldl_settle_sched {B} (f : B → nat) (e : jsError) (l : list B) q :
  let q' := foldl (fun q x => settle (f x) (Throw e) q) q l in
  concurrency q' = concurrency q
  ∧ running q' = running q
  ∧ queue q' = queue q
  ∧ inFlight q' = inFlight q
  ∧ isStopped q' = isStopped q
  ∧ ∀ id, is_Some (promises q' !! id) ↔ is_Some (promises q !! id).
Proof.
  revert q. induction l as [|x l IH]; intros q; simpl; [done|].
  destruct (IH (settle (f x) (Throw e) q)) as (-> & -> & -> & -> & -> & Hp).
  destruct (settle_sched q (f x) (Throw e)) as (-> & -> & -> & -> & -> & _).
  split_and!; try done.
  intros id. by rewrite Hp, settle_promises_is_Some.
Qed.

(** *** The scheduling side of every operation *)

Lemma process_sched q :
  concurrency (process q) = concurrency q
  ∧ isStopped (process q) = isStopped q
  ∧ promises (process q) = promises q
  ∧ settlements (process q) = settlements q
  ∧ all (process q) = all q.
Proof.
  unfold process. destruct (_ || _); [done|].
  destruct (queue q) as [|item rest]; [done|]. by destruct (cancelled item).
Qed.

Lemma process_scheduled q : scheduled q → scheduled (process q).
Proof.
  intros [H1 H2 H3]. unfold process. destruct (_ || _); [done|].
  destruct (queue q) as [|item rest] eqn:Hq; [done|].
  unfold known in *. rewrite Hq in *. simpl in H2, H3.
  destruct (cancelled item).
  - split; unfold known; cbn [running inFlight queue promises]; [done | |].
    + by apply NoDup_cons in H2 as [_ ?].
    + intros id Hid. apply H3. by apply list_elem_of_further.
  - split; unfold known; cbn [running inFlight queue promises].
    + rewrite length_app, H1. simpl. lia.
    + assert (map task rest ++ inFlight q ++ [task item]
              ≡ₚ task item :: map task rest ++ inFlight q) as ->; [|done].
      by rewrite app_assoc, <- Permutation_cons_append.
    + intros id Hid. apply H3.
      rewrite app_assoc, elem_of_app, list_elem_of_singleton in Hid.
      rewrite elem_of_cons. tauto.
Qed.

Lemma process_bound q :
  (running q ≤ concurrency q)%Z →
  (running (process q) ≤ concurrency (process q))%Z.
Proof.
  intros Hb. unfold process.
  destruct (Z.geb_spec (running q) (concurrency q)); simpl; [done|].
  destruct (isStopped q); [done|].
  destruct (queue q) as [|item rest]; [done|].
  destruct (cancelled item); cbn [running concurrency]; lia.
Qed.

Lemma filter_ne_length (l : list nat) id :
  NoDup l → id ∈ l →
  length (filter (fun i => i ≠ id) l) = pred (length l).
Proof.
  induction l as [|x l IH]; intros Hnd Hin; [by apply elem_of_nil in Hin|].
  apply NoDup_cons in Hnd as [Hx Hnd].
  destruct (decide (x = id)) as [->|Hne].
  - rewrite filter_cons_False by (intros ?; done).
    simpl. clear IH Hin. induction l as [|y l IH]; [done|].
    apply not_elem_of_cons in Hx as [? ?]. apply NoDup_cons in Hnd as [_ ?].
    rewrite filter_cons_True by done. simpl. by rewrite IH.
  - rewrite filter_cons_True by done. simpl.
    apply elem_of_cons in Hin as [?|Hin]; [congruence|].
    rewrite IH by done. destruct l; [by apply elem_of_nil in Hin | done].
Qed.

Lemma NoDup_app_filter_r (l1 l2 : list nat) (P : nat → Prop)
    `{∀ x, Decision (P x)} :
  NoDup (l1 ++ l2) → NoDup (l1 ++ filter P l2).
Proof.
  rewrite !NoDup_app. intros (H1 & Hcross & H2).
  split; [done|]. split; [|by apply NoDup_filter].
  intros x Hx Hf. apply list_elem_of_filter in Hf as [_ Hf]. by eapply Hcross.
Qed.

Lemma NoDup_app_filter_l {B} (g : B → nat) (l1 : list B) (l2 : list nat)
    (P : B → Prop) `{∀ x, Decision (P x)} :
  NoDup (map g l1 ++ l2) → NoDup (map g (filter P l1) ++ l2).
Proof.
  rewrite !NoDup_app. intros (H1 & Hcross & H2).
  assert (∀ x, x ∈ map g (filter P l1) → x ∈ map g l1) as Hsub.
  { intros x. rewrite !list_elem_of_fmap.
    intros (y & -> & Hy). apply list_elem_of_filter in Hy as [_ ?]. eauto. }
  split; [|split; [|done]].
  - clear Hcross Hsub. induction l1 as [|y l1 IH]; [constructor|].
    simpl in H1. apply NoDup_cons in H1 as [Hy H1].
    destruct (decide (P y)).
    + rewrite filter_cons_True by done. simpl. apply NoDup_cons.
      split; [|by apply IH]. intros Hin. apply Hy.
      rewrite list_elem_of_fmap in Hin. destruct Hin as (z & -> & Hz).
      apply list_elem_of_filter in Hz as [_ ?].
      apply list_elem_of_fmap. eauto.
    + rewrite filter_cons_False by done. by apply IH.
  - intros x Hx. apply Hcross. by apply Hsub.
Qed.

Lemma resume_process_scheduled q id r :
  scheduled q → id ∈ inFlight q → scheduled (resume_process id r q).
Proof.
  intros [H1 H2 H3] Hin. unfold resume_process.
  set (q0 := match r with
             | Return v => settle id r _
             | Throw e => settle id r _
             end).
  assert (running q0 = running q ∧ queue q0 = queue q
          ∧ inFlight q0 = inFlight q
          ∧ ∀ id', is_Some (promises q0 !! id') ↔ is_Some (promises q !! id'))
    as (Hr & Hq & Hf & Hp).
  { unfold q0. destruct r as [v|e];
      (match goal with |- context [settle id ?r ?q1] =>
         destruct (settle_sched q1 id r) as (_ & -> & -> & -> & _);
         split_and!; try done;
         intros id'; by rewrite settle_promises_is_Some
       end). }
  unfold known in *.
  assert (NoDup (inFlight q)) as Hnd by by apply NoDup_app in H2 as (_ & _ & ?).
  split; cbn [running inFlight queue promises].
  - rewrite Hr, Hf, H1, filter_ne_length by done.
    destruct (inFlight q); [by apply elem_of_nil in Hin | simpl; lia].
  - unfold known. cbn [queue inFlight]. rewrite Hq, Hf.
    by apply NoDup_app_filter_r.
  - unfold known. cbn [queue inFlight]. rewrite Hq, Hf.
    intros id' Hid'. apply Hp, H3.
    rewrite elem_of_app in *. destruct Hid' as [?|Hid']; [by left|].
    apply list_elem_of_filter in Hid' as [_ ?]. by right.
Qed.

Lemma resume_process_bound q id r :
  (running q ≤ concurrency q)%Z →
  (running (resume_process id r q) ≤ concurrency (resume_process id r q))%Z
  ∧ concurrency (resume_process id r q) = concurrency q.
Proof.
  intros Hb. unfold resume_process. cbn [running concurrency].
  destruct r as [v|e];
    (match goal with |- context [settle id ?r ?q1] =>
       destruct (settle_sched q1 id r) as (-> & -> & _)
     end); cbn [running concurrency]; split; (lia || done).
Qed.

Lemma insert_pending_is_Some (ps : gmap nat (promise V)) id id' :
  is_Some (<[id := Pending]> ps !! id') ↔ id' = id ∨ is_Some (ps !! id').
Proof.
  rewrite lookup_insert_is_Some.
  destruct (decide (id = id')) as [->|?]; [intuition | intuition congruence].
Qed.

Lemma add_sched q id prio timeout now :
  concurrency (add id prio timeout now q) = concurrency q
  ∧ isStopped (add id prio timeout now q) = isStopped q
  ∧ ∀ id', is_Some (promises (add id prio timeout now q) !! id')
           ↔ id' = id ∨ is_Some (promises q !! id').
Proof.
  unfold add. destruct (isStopped q) eqn:Hs.
  - destruct (settle_sched (set_promises (insert id Pending) q) id
                           (Throw stopped_error))
      as (-> & _ & _ & _ & -> & _).
    split_and!; try done. intros id'.
    rewrite settle_promises_is_Some. cbn [set_promises promises].
    apply insert_pending_is_Some.
  - match goal with |- context [process ?q0] =>
      destruct (process_sched q0) as (-> & -> & -> & _) end.
    cbn [concurrency isStopped promises set_promises].
    split_and!; try done. intros id'.
    apply insert_pending_is_Some.
Qed.

Lemma add_fresh q id prio timeout now id' :
  fresh (add id prio timeout now q) id' ↔ id' ≠ id ∧ fresh q id'.
Proof.
  unfold fresh. rewrite !eq_None_not_Some.
  destruct (add_sched q id prio timeout now) as (_ & _ & ->). tauto.
Qed.

Lemma add_scheduled q id prio timeout now :
  scheduled q → fresh q id → scheduled (add id prio timeout now q).
Proof.
  intros Hq Hfresh. unfold add.
  assert (id ∉ known q) as Hnew.
  { intros Hin. apply (known_promised _ Hq) in Hin.
    unfold fresh in Hfresh. rewrite Hfresh in Hin. by destruct Hin. }
  destruct (isStopped q).
  - apply settle_scheduled. eapply scheduled_ext; [..|exact Hq]; try done.
    intros id' ?. cbn [set_promises promises].
    apply insert_pending_is_Some. by right.
  - apply process_scheduled. destruct Hq as [H1 H2 H3].
    assert (map task (sort (queue q ++ [QueueItem id prio false now]))
            ≡ₚ id :: map task (queue q)) as Hperm.
    { rewrite sort_perm, map_app. simpl.
      by rewrite <- Permutation_cons_append. }
    split; unfold known;
      cbn [running inFlight queue promises set_promises].
    + done.
    + rewrite Hperm. simpl. apply NoDup_cons. split; done.
    + intros id'. rewrite Hperm. simpl. rewrite elem_of_cons.
      rewrite lookup_insert_is_Some.
      intros [->|Hin]; [by left|].
      destruct (decide (id = id')); [by left | right].
      split; [done | by apply H3].
Qed.

Lemma add_bound q id prio timeout now :
  (running q ≤ concurrency q)%Z →
  (running (add id prio timeout now q)
   ≤ concurrency (add id prio timeout now q))%Z.
Proof.
  intros Hb. unfold add. destruct (isStopped q).
  - by destruct (settle_sched (set_promises (insert id Pending) q) id
                              (Throw stopped_error)) as (-> & -> & _).
  - by apply process_bound.
Qed.

Lemma foldl_add_bound (ids : list nat) prio now q :
  (running q ≤ concurrency q)%Z →
  let q' := foldl (fun q id => add id prio 0 now q) q ids in
  (running q' ≤ concurrency q')%Z ∧ concurrency q' = concurrency q.
Proof.
  revert q. induction ids as [|id ids IH]; intros q Hb; simpl; [done|].
  destruct (add_sched q id prio 0 now) as (Hc & _).
  destruct (IH (add id prio 0 now q)) as [? ?]; [by apply add_bound|].
  split; [done | congruence].
Qed.

Lemma foldl_add_scheduled (ids : list nat) prio now q :
  scheduled q → Forall (fresh q) ids → NoDup ids →
  let q' := foldl (fun q id => add id prio 0 now q) q ids in
  scheduled q'
  ∧ concurrency q' = concurrency q
  ∧ isStopped q' = isStopped q
  ∧ ((running q ≤ concurrency q)%Z → (running q' ≤ concurrency q')%Z)
  ∧ ∀ id', is_Some (promises q' !! id')
           ↔ id' ∈ ids ∨ is_Some (promises q !! id').
Proof.
  revert q. induction ids as [|id ids IH]; intros q Hq Hfresh Hnd; simpl.
  - split_and!; try done. intros id'. rewrite elem_of_nil. tauto.
  - apply Forall_cons in Hfresh as [Hid Hfresh].
    apply NoDup_cons in Hnd as [Hnew Hnd].
    destruct (add_sched q id prio 0 now) as (Hc & Hs & Hp).
    destruct (IH (add id prio 0 now q)) as (Hq' & Hc' & Hs' & Hb' & Hp');
      [by apply add_scheduled | | done |].
    { rewrite Forall_forall in *. intros id' Hin. apply add_fresh.
      split; [|by apply Hfresh]. intros ->. done. }
    split_and!; try done; try congruence.
    + intros Hb. by apply Hb', add_bound.
    + intros id'. rewrite Hp', Hp, elem_of_cons. tauto.
Qed.

Lemma processAll_scheduled (ids : list nat) prio now q :
  scheduled q → Forall (fresh q) ids → NoDup ids →
  scheduled (processAll ids prio now q)
  ∧ concurrency (processAll ids prio now q) = concurrency q
  ∧ ((running q ≤ concurrency q)%Z →
     (running (processAll ids prio now q)
      ≤ concurrency (processAll ids prio now q))%Z).
Proof.
  intros Hq Hfresh Hnd.
  destruct (foldl_add_scheduled ids prio now q Hq Hfresh Hnd)
    as (Hq' & Hc & _ & Hb & _).
  unfold processAll. cbn [concurrency running]. split_and!; try done.
  by eapply scheduled_ext; [..|exact Hq'].
Qed.

Lemma on_timeout_scheduled q id : scheduled q → scheduled (on_timeout id q).
Proof.
  intros [H1 H2 H3]. unfold on_timeout. apply settle_scheduled.
  assert (∀ l : list queueItem,
            map task (map (fun it => if decide (task it = id)
                                     then QueueItem (task it) (priority it)
                                                    true (timestamp it)
                                     else it) l)
            = map task l) as Hmap.
  { induction l as [|it l IH]; [done|]. simpl. rewrite IH.
    by destruct (decide (task it = id)). }
  split; unfold known in *; cbn [running inFlight queue promises];
    rewrite ?Hmap; done.
Qed.

Lemma cancel_scheduled q predicate : scheduled q → scheduled (cancel predicate q).
Proof.
  intros [H1 H2 H3]. unfold cancel.
  match goal with |- context [foldl ?f q ?l] =>
    destruct (foldl_settle_sched task cancelled_error l q)
      as (_ & Hr & Hq & Hf & _ & Hp) end.
  cbn zeta in *.
  split; unfold known in *;
    cbn [set_queue running inFlight queue promises]; rewrite ?Hr, ?Hq, ?Hf.
  - done.
  - by apply NoDup_app_filter_l.
  - intros id Hid. apply Hp, H3.
    rewrite elem_of_app in *. destruct Hid as [Hid|?]; [left | by right].
    rewrite list_elem_of_fmap in *. destruct Hid as (it & -> & Hit).
    apply list_elem_of_filter in Hit as [_ ?]. eauto.
Qed.

Lemma stop_scheduled q : scheduled q → scheduled (stop q).
Proof.
  intros [H1 H2 H3]. unfold stop.
  destruct (foldl_settle_sched task stop_error (queue q) q)
    as (_ & Hr & _ & Hf & _ & Hp).
  cbn zeta in *.
  split; unfold known in *; cbn [running inFlight queue promises];
    rewrite ?Hr, ?Hf.
  - done.
  - by apply NoDup_app in H2 as (_ & _ & ?).
  - intros id Hid. apply Hp, H3. simpl in Hid.
    rewrite elem_of_app. by right.
Qed.

Lemma clear_scheduled q : scheduled q → scheduled (clear q).
Proof.
  intros [H1 H2 H3]. unfold clear.
  split; unfold known in *; cbn [running inFlight queue promises].
  - done.
  - by apply NoDup_app in H2 as (_ & _ & ?).
  - intros id Hid. apply H3. simpl in Hid. rewrite elem_of_app. by right.
Qed.

Lemma step_scheduled (ev : event V) q q' :
  scheduled q → step ev q = Some q' → scheduled q'.
Proof.
  intros Hq Hstep. destruct ev; simpl in Hstep.
  - destruct (decide (fresh q id)); [|done]. injection Hstep as <-.
    by apply add_scheduled.
  - destruct (decide _) as [(? & ? & ?)|]; [|done]. injection Hstep as <-.
    by apply processAll_scheduled.
  - destruct (immediates q); [done|]. injection Hstep as <-.
    apply process_scheduled. by eapply scheduled_ext; [..|exact Hq].
  - destruct (decide (id ∈ inFlight q)); [|done]. injection Hstep as <-.
    by apply resume_process_scheduled.
  - destruct (decide (id ∈ timers q)); [|done]. injection Hstep as <-.
    by apply on_timeout_scheduled.
  - injection Hstep as <-. by apply cancel_scheduled.
  - injection Hstep as <-. by apply stop_scheduled.
  - injection Hstep as <-. by eapply scheduled_ext; [..|exact Hq].
  - injection Hstep as <-. by apply clear_scheduled.
  - injection Hstep as <-. by eapply scheduled_ext; [..|exact Hq].
Qed.

Lemma step_bound (ev : event V) q q' :
  changes_limit ev = false →
  step ev q = Some q' →
  (running q ≤ concurrency q)%Z →
  (running q' ≤ concurrency q')%Z ∧ concurrency q' = concurrency q.
Proof.
  intros Hev Hstep Hb. destruct ev; simpl in Hstep; try discriminate Hev.
  - destruct (decide (fresh q id)); [|done]. injection Hstep as <-.
    split; [by apply add_bound | apply add_sched].
  - destruct (decide _) as [(Hfresh & Hnd & _)|]; [|done].
    injection Hstep as <-.
    unfold processAll. cbn [running concurrency].
    by apply foldl_add_bound.
  - destruct (immediates q); [done|]. injection Hstep as <-.
    match goal with |- context [process ?q0] =>
      split; [by apply (process_bound q0) | apply (process_sched q0)] end.
  - destruct (decide (id ∈ inFlight q)); [|done]. injection Hstep as <-.
    by apply resume_process_bound.
  - destruct (decide (id ∈ timers q)); [|done]. injection Hstep as <-.
    unfold on_timeout.
    match goal with |- context [settle id ?r ?q0] =>
      by destruct (settle_sched q0 id r) as (-> & -> & _) end.
  - injection Hstep as <-. unfold cancel. cbn [set_queue running concurrency].
    match goal with |- context [foldl ?f q ?l] =>
      by destruct (foldl_settle_sched task cancelled_error l q)
        as (-> & -> & _) end.
  - injection Hstep as <-. unfold stop. cbn [running concurrency].
    by destruct (foldl_settle_sched task stop_error (queue q) q)
      as (-> & -> & _).
  - by injection Hstep as <-.
  - by injection Hstep as <-.
Qed.

Lemma reaches_cons (ev : event V) evs q0 q1 q :
  step ev q0 = Some q1 → reaches q1 evs q → reaches q0 (ev :: evs) q.
Proof.
  intros Hstep Hreach. induction Hreach as [|evs ev' q q' _ IH Hstep'].
  - apply (reaches_snoc q0 [] ev q0 q1); [constructor | done].
  - rewrite app_comm_cons. by eapply reaches_snoc.
Qed.

Lemma run_reaches evs q0 q : run evs q0 = Some q → reaches q0 evs q.
Proof.
  revert q0. induction evs as [|ev evs IH]; intros q0 Hrun; simpl in Hrun.
  - injection Hrun as <-. constructor.
  - destruct (step ev q0) as [q1|] eqn:Hstep; [|done].
    eapply reaches_cons; eauto.
Qed.

Lemma create_scheduled (c : Z) : scheduled (create (V := V) c).
Proof.
  split; unfold known; simpl; [done | constructor |].
  intros id Hid. by apply elem_of_nil in Hid.
Qed.

Lemma reaches_scheduled (c : Z) evs q :
  reaches (create c) evs q → scheduled q.
Proof.
  induction 1 as [|evs ev q q' _ IH Hstep]; [apply create_scheduled|].
  by eapply step_scheduled.
Qed.

(** C3.  Under a concurrency limit that is set once (no call of
    [setConcurrency]) and is not negative, after any sequence of
    submissions, dispatches, completions, timeouts, cancellations, stops
    and resumptions the counter [running] is the number of tasks in
    flight, and that number does not exceed the limit. *)
Theorem bounded_concurrency (c : Z) (evs : list (event V)) q :
  (0 ≤ c)%Z →
  reaches (create c) evs q →
  Forall (fun ev => changes_limit ev = false) evs →
  concurrency q = c
  ∧ running q = Z.of_nat (length (inFlight q))
  ∧ (Z.of_nat (length (inFlight q)) ≤ c)%Z.
Proof.
  intros Hc Hreach Hfixed.
  assert (concurrency q = c ∧ (running q ≤ concurrency q)%Z) as [Hlimit Hb].
  { induction Hreach as [|evs ev q q' Hreach IH Hstep]; [by simpl|].
    rewrite Forall_app, Forall_singleton in Hfixed.
    destruct Hfixed as [Hfixed Hev].
    destruct (IH Hfixed) as [Hlimit Hb].
    destruct (step_bound ev q q' Hev Hstep Hb) as [? ?].
    split; [congruence | done]. }
  pose proof (running_counts _ (reaches_scheduled c evs q Hreach)) as Hcount.
  split_and!; try done. lia.
Qed.

End TaskQueueFacts.

(** The default limit of 32, and forty tasks submitted at once: thirty-two
    are started, eight wait; one completes and the next is started. *)
Lemma bounded_concurrency_witness :
  let evs := [TaskQueue.ProcessAll (seq 0 40) 0 0;
              TaskQueue.Complete 3 (Return "done"); TaskQueue.Tick] in
  ∃ q, TaskQueueSpec.run evs (TaskQueue.create TaskQueue.default_concurrency)
       = Some q
       ∧ TaskQueue.running q = 32%Z
       ∧ length (TaskQueue.inFlight q) = 32%nat
       ∧ length (TaskQueue.queue q) = 7%nat.
Proof.
  intros evs.
  destruct (TaskQueueSpec.run evs (TaskQueue.create TaskQueue.default_concurrency))
    as [q|] eqn:Hrun; [|by vm_compute in Hrun].
  exists q. split; [done|].
  destruct (bounded_concurrency 32 evs q) as (_ & Hcount & _).
  - lia.
  - by apply run_reaches.
  - by repeat constructor.
  - vm_compute in Hrun. injection Hrun as <-.
    split; [reflexivity|]. split; reflexivity.
Defined.

Section TaskQueuePromiseFacts.
Import TaskQueue TaskQueueSpec.
Context {V : Type}.
Implicit Types (q : TaskQueue.t V) (id : nat) (r : Result V)
               (ps : gmap nat (promise V)) (log : list (nat * Result V)).
Local Open Scope list_scope.

(** *** The first rejection of a log *)

Lemma first_rejection_app_Some ids log log' x :
  first_rejection ids log = Some x →
  first_rejection ids (log ++ log') = Some x.
Proof.
  induction log as [|[id [v|e]] log IH]; simpl; [done | auto |].
  destruct (bool_decide (id ∈ ids)); auto.
Qed.

Lemma first_rejection_app_None ids log log' :
  first_rejection ids log = None →
  first_rejection ids (log ++ log') = first_rejection ids log'.
Proof.
  induction log as [|[id [v|e]] log IH]; simpl; [done | auto |].
  destruct (bool_decide (id ∈ ids)); [done | auto].
Qed.

Lemma first_rejection_None ids log :
  (∀ id r, (id, r) ∈ log → id ∉ ids) → first_rejection ids log = None.
Proof.
  induction log as [|[id [v|e]] log IH]; intros Hout; simpl; [done | |].
  - apply IH. intros id' r' Hin. eapply Hout. by apply list_elem_of_further.
  - rewrite bool_decide_eq_false_2
      by (eapply Hout; apply list_elem_of_here).
    apply IH. intros id' r' Hin. eapply Hout. by apply list_elem_of_further.
Qed.

Lemma first_rejection_is_Some ids log id e :
  (id, Throw e) ∈ log → id ∈ ids → is_Some (first_rejection ids log).
Proof.
  induction log as [|[id' [v|e']] log IH]; intros Hin Hid; simpl.
  - by apply elem_of_nil in Hin.
  - apply elem_of_cons in Hin as [?|Hin]; [done | auto].
  - destruct (bool_decide (id' ∈ ids)) eqn:Hmem; [eauto|].
    apply elem_of_cons in Hin as [Heq|Hin]; [|auto].
    injection Heq as <- <-. by apply bool_decide_eq_false in Hmem.
Qed.

(** *** The values of fulfilled promises *)

Lemma mapM_value_of_fulfilled ps ids vs :
  mapM (value_of ps) ids = Some vs →
  ∀ id, id ∈ ids → ∃ v, ps !! id = Some (Fulfilled v).
Proof.
  intros Hm id Hid. apply mapM_Some_1 in Hm.
  apply list_elem_of_lookup in Hid as [i Hi].
  destruct (Forall2_lookup_l _ _ _ _ _ Hm Hi) as (v & _ & Hv).
  unfold value_of in Hv.
  destruct (ps !! id) as [[| v' |]|]; try done. eauto.
Qed.

Lemma mapM_value_of_ext ps ps' ids :
  (∀ id, id ∈ ids → ps' !! id = ps !! id) →
  mapM (value_of ps') ids = mapM (value_of ps) ids.
Proof.
  intros Hsame. apply Forall_mapM_ext. apply Forall_forall.
  intros id Hid. unfold value_of. by rewrite Hsame.
Qed.

(** *** [settle] keeps the promises in order *)

Lemma promised_ext q q' :
  promises q' = promises q →
  settlements q' = settlements q →
  all q' = all q →
  promised q → promised q'.
Proof.
  intros Hp Hl Ha [H1 H2 H3 H4].
  split; unfold aggregated, fulfilled_value in *;
    rewrite ?Hp, ?Hl, ?Ha; done.
Qed.

Lemma notify_members ps id r (b : batch V) :
  members (notify ps id r b) = members b.
Proof.
  unfold notify. destruct (outcome b); try done.
  destruct (bool_decide _); [|done]. destruct r; [|done].
  by destruct (mapM _ _).
Qed.

Lemma settle_promised q id r : promised q → promised (settle id r q).
Proof.
  intros [H1 H2 H3 H4]. rewrite settle_unfold.
  destruct (was_pending q id) eqn:Hp; [|done].
  unfold was_pending in Hp.
  assert (promises q !! id = Some Pending) as Hpending.
  { destruct (promises q !! id) as [[| |]|]; done. }
  clear Hp. split; cbn [promises settlements all].
  - intros id' r'. rewrite elem_of_app, list_elem_of_singleton.
    rewrite lookup_insert_is_Some.
    intros [Hin|Heq]; [|injection Heq as -> _; by left].
    destruct (decide (id = id')); [by left | right]. split; [done | eauto].
  - intros id' e. rewrite elem_of_app, list_elem_of_singleton.
    destruct (decide (id = id')) as [<-|Hne].
    + rewrite lookup_insert_eq. intros Heq. right.
      destruct r; simpl in Heq; [done | by injection Heq as ->].
    + rewrite lookup_insert_ne by done. intros ?. left. auto.
  - intros b' id'. destruct (all q) as [b|] eqn:Hall; [|done].
    simpl. intros Hb' Hin. injection Hb' as <-.
    rewrite notify_members in Hin. rewrite lookup_insert_is_Some.
    destruct (decide (id = id')); [by left | right]. split; [done | eauto].
  - intros b'. destruct (all q) as [b|] eqn:Hall; [|done].
    simpl. intros Hb'. injection Hb' as <-.
    specialize (H4 b eq_refl). unfold aggregated in *.
    unfold notify. cbn [settlements promises].
    destruct (outcome b) as [|vs|e0] eqn:Hout.
    + destruct (bool_decide (id ∈ members b)) eqn:Hmem.
      * apply bool_decide_eq_true in Hmem.
        destruct r as [v|e]; simpl.
        -- destruct (mapM _ (members b)) as [vs|] eqn:Hm; simpl.
           ++ done.
           ++ rewrite Hout. by rewrite first_rejection_app_None.
        -- exists id. rewrite first_rejection_app_None by done.
           simpl. by rewrite bool_decide_eq_true_2.
      * rewrite Hout. rewrite first_rejection_app_None by done.
        destruct r; simpl; [done|]. by rewrite Hmem.
    + rewrite Hout. unfold fulfilled_value in *. cbn [promises].
      rewrite <- H4. apply mapM_value_of_ext. intros id' Hid'.
      destruct (mapM_value_of_fulfilled _ _ _ H4 id' Hid') as [v Hv].
      rewrite lookup_insert_ne; [done | congruence].
    + rewrite Hout. destruct H4 as [id0 H4]. exists id0.
      by apply first_rejection_app_Some.
Qed.

Lemma foldl_settle_promised {B} (f : B → nat) (e : jsError) (l : list B) q :
  promised q → promised (foldl (fun q x => settle (f x) (Throw e) q) q l).
Proof.
  revert q. induction l as [|x l IH]; intros q Hq; [done|].
  simpl. by apply IH, settle_promised.
Qed.

(** A new promise for a task that was not known. *)
Lemma insert_pending_promised q id :
  promised q → fresh q id →
  promised (set_promises (insert id Pending) q).
Proof.
  intros [H1 H2 H3 H4] Hfresh. unfold fresh in Hfresh.
  split; cbn [set_promises promises settlements all].
  - intros id' r' Hin. apply insert_pending_is_Some. right. eauto.
  - intros id' e. destruct (decide (id = id')) as [<-|Hne].
    + by rewrite lookup_insert_eq.
    + rewrite lookup_insert_ne by done. auto.
  - intros b id' Hall Hin. apply insert_pending_is_Some. right. eauto.
  - intros b Hall. specialize (H4 b Hall). unfold aggregated in *.
    cbn [settlements]. destruct (outcome b); try done.
    unfold fulfilled_value in *. cbn [set_promises promises].
    rewrite <- H4. apply mapM_value_of_ext. intros id' Hid'.
    rewrite lookup_insert_ne; [done|]. intros <-.
    destruct (H3 b id Hall Hid') as [? Hsome]. congruence.
Qed.

Lemma add_promised q id prio timeout now :
  promised q → fresh q id → promised (add id prio timeout now q).
Proof.
  intros Hq Hfresh. unfold add. destruct (isStopped q).
  - by apply settle_promised, insert_pending_promised.
  - match goal with |- context [process ?q0] =>
      destruct (process_sched q0) as (_ & _ & Hp & Hl & Ha) end.
    eapply promised_ext; [exact Hp | exact Hl | exact Ha |].
    eapply promised_ext; [..|exact (insert_pending_promised q id Hq Hfresh)];
      done.
Qed.

(** *** [processAll] *)

Lemma add_promises q id prio timeout now :
  fresh q id →
  promises (add id prio timeout now q)
  = <[id := if isStopped q then Rejected stopped_error else Pending]>
      (promises q)
  ∧ settlements (add id prio timeout now q)
    = settlements q
      ++ (if isStopped q then [(id, Throw stopped_error)] else [])
  ∧ (all q = None → all (add id prio timeout now q) = None).
Proof.
  intros Hfresh. unfold add. destruct (isStopped q).
  - rewrite settle_unfold. unfold was_pending.
    cbn [set_promises promises]. rewrite lookup_insert_eq.
    cbn [promises settlements all set_promises].
    split_and!; [by rewrite insert_insert_eq | done | by intros ->].
  - match goal with |- context [process ?q0] =>
      destruct (process_sched q0) as (_ & _ & -> & -> & ->) end.
    cbn [promises settlements all set_promises].
    split_and!; [done | by rewrite app_nil_r | done].
Qed.

Lemma foldl_add_promises (ids : list nat) prio now q :
  promised q → Forall (fresh q) ids → NoDup ids → all q = None →
  let q' := foldl (fun q id => add id prio 0 now q) q ids in
  promised q'
  ∧ all q' = None
  ∧ settlements q'
    = settlements q
      ++ (if isStopped q
          then map (fun id => (id, Throw stopped_error)) ids else [])
  ∧ ∀ id, id ∈ ids →
      promises q' !! id
      = Some (if isStopped q then Rejected stopped_error else Pending).
Proof.
  revert q. induction ids as [|id ids IH]; intros q Hq Hfresh Hnd Hall; simpl.
  - split_and!; try done.
    + by destruct (isStopped q); rewrite app_nil_r.
    + intros id Hid. by apply elem_of_nil in Hid.
  - apply Forall_cons in Hfresh as [Hid Hfresh].
    apply NoDup_cons in Hnd as [Hnew Hnd].
    destruct (add_promises q id prio 0 now Hid) as (Hps & Hlog & Hall1).
    destruct (add_sched q id prio 0 now) as (_ & Hstop & _).
    destruct (IH (add id prio 0 now q)) as (Hq' & Hall' & Hlog' & Hps');
      [by apply add_promised | | done | by apply Hall1 |].
    { rewrite Forall_forall in *. intros id' Hin. apply add_fresh.
      split; [|by apply Hfresh]. intros ->. done. }
    rewrite Hstop in Hlog', Hps'.
    split_and!; try done.
    + rewrite Hlog', Hlog, <- app_assoc. by destruct (isStopped q).
    + intros id' Hin. apply elem_of_cons in Hin as [->|Hin]; [|by apply Hps'].
      (* the promise of the first task is not touched by the later ones *)
      clear IH Hq' Hall' Hlog' Hps'.
      assert (∀ q0, promises q0 !! id
                    = Some (if isStopped q then Rejected stopped_error
                            else Pending) →
                    promises (foldl (fun q id => add id prio 0 now q) q0 ids)
                      !! id
                    = Some (if isStopped q then Rejected stopped_error
                            else Pending)) as Hkeep.
      { clear Hfresh Hnd. induction ids as [|id2 ids IH]; intros q0 H0; [done|].
        simpl. apply not_elem_of_cons in Hnew as [Hne Hnew].
        apply IH; [done|].
        unfold add. destruct (isStopped q0).
        - rewrite settle_unfold.
          destruct (was_pending _ id2); [|cbn [set_promises promises]];
            cbn [set_promises promises]; by rewrite !lookup_insert_ne.
        - match goal with |- context [process ?q1] =>
            destruct (process_sched q1) as (_ & _ & -> & _) end.
          cbn [set_promises promises]. by rewrite lookup_insert_ne. }
      apply Hkeep. rewrite Hps. apply lookup_insert_eq.
Qed.

Lemma all_of_pending ps (ids : list nat) :
  (∀ id, id ∈ ids → ps !! id = Some Pending) →
  all_of ps ids = match ids with [] => Fulfilled [] | _ => Pending end.
Proof.
  induction ids as [|id ids IH]; intros Hp; [done|].
  simpl. rewrite (Hp id) by apply list_elem_of_here.
  rewrite IH by (intros ? ?; by apply Hp, list_elem_of_further).
  by destruct ids.
Qed.

Lemma processAll_promised (ids : list nat) prio now q :
  promised q → Forall (fresh q) ids → NoDup ids → all q = None →
  promised (processAll ids prio now q).
Proof.
  intros Hq Hfresh Hnd Hall.
  destruct (foldl_add_promises ids prio now q Hq Hfresh Hnd Hall)
    as ([H1 H2 H3 H4] & Hall' & Hlog & Hps).
  assert (first_rejection ids (settlements q) = None) as Hnone.
  { apply first_rejection_None. intros id r Hin Hid.
    apply (settled_promised _ Hq) in Hin.
    rewrite Forall_forall in Hfresh. specialize (Hfresh id Hid).
    unfold fresh in Hfresh. rewrite Hfresh in Hin. by destruct Hin. }
  unfold processAll. cbn zeta in *.
  set (q' := foldl (fun q id => add id prio 0 now q) q ids) in *.
  clearbody q'.
  split; cbn [promises settlements all]; try done.
  - intros b id Hb Hin. injection Hb as <-. cbn [members] in Hin.
    rewrite (Hps id Hin). eauto.
  - intros b Hb. injection Hb as <-. unfold aggregated.
    cbn [outcome members settlements]. rewrite Hlog.
    destruct (isStopped q).
    + destruct ids as [|id1 ids']; [done|].
      cbn [all_of]. rewrite (Hps id1) by apply list_elem_of_here.
      exists id1. rewrite first_rejection_app_None by done.
      simpl. rewrite bool_decide_eq_true_2 by apply list_elem_of_here. done.
    + rewrite all_of_pending by done. rewrite app_nil_r.
      by destruct ids.
Qed.

Lemma create_promised (c : Z) : promised (create (V := V) c).
Proof.
  split; simpl; try done.
  intros id r Hin. by apply elem_of_nil in Hin.
Qed.

Lemma step_promised (ev : event V) q q' :
  promised q → step ev q = Some q' → promised q'.
Proof.
  intros Hq Hstep. destruct ev; simpl in Hstep.
  - destruct (decide (fresh q id)); [|done]. injection Hstep as <-.
    by apply add_promised.
  - destruct (decide _) as [(? & ? & ?)|]; [|done]. injection Hstep as <-.
    by apply processAll_promised.
  - destruct (immediates q); [done|]. injection Hstep as <-.
    match goal with |- context [process ?q0] =>
      destruct (process_sched q0) as (_ & _ & Hp & Hl & Ha) end.
    eapply promised_ext; [exact Hp | exact Hl | exact Ha |].
    by eapply promised_ext; [..|exact Hq].
  - destruct (decide (id ∈ inFlight q)); [|done]. injection Hstep as <-.
    unfold resume_process.
    destruct r as [val|err]; cbn zeta;
      (match goal with |- context [settle id ?r0 ?q0] =>
         apply (promised_ext (settle id r0 q0)); [reflexivity..|];
         apply settle_promised;
         apply (promised_ext q); [reflexivity..|exact Hq]
       end).
  - destruct (decide (id ∈ timers q)); [|done]. injection Hstep as <-.
    unfold on_timeout. apply settle_promised.
    apply (promised_ext q); [reflexivity..|exact Hq].
  - injection Hstep as <-. unfold cancel. cbn zeta.
    match goal with |- context [foldl ?f q ?l] =>
      apply (promised_ext (foldl f q l)); [reflexivity..|] end.
    by apply (foldl_settle_promised task).
  - injection Hstep as <-. unfold stop. cbn zeta.
    match goal with |- context [foldl ?f q ?l] =>
      apply (promised_ext (foldl f q l)); [reflexivity..|] end.
    by apply (foldl_settle_promised task).
  - injection Hstep as <-. by eapply promised_ext; [..|exact Hq].
  - injection Hstep as <-. by eapply promised_ext; [..|exact Hq].
  - injection Hstep as <-. by eapply promised_ext; [..|exact Hq].
Qed.

Lemma reaches_promised (c : Z) evs q :
  reaches (create c) evs q → promised q.
Proof.
  induction 1 as [|evs ev q q' _ IH Hstep]; [apply create_promised|].
  by eapply step_promised.
Qed.

End TaskQueuePromiseFacts.

Section TaskQueueAggregation.
Import TaskQueue TaskQueueSpec.
Context {V : Type}.
Implicit Types (q : TaskQueue.t V) (id : nat) (r : Result V).
Local Open Scope list_scope.

(** *** No task in flight is ever taken out *)

Lemma process_inFlight q id : id ∈ inFlight q → id ∈ inFlight (process q).
Proof.
  intros Hin. unfold process. destruct (_ || _); [done|].
  destruct (queue q) as [|item rest]; [done|].
  destruct (cancelled item); cbn [inFlight]; [done|].
  rewrite elem_of_app. by left.
Qed.

Lemma add_inFlight q id0 prio timeout now id :
  id ∈ inFlight q → id ∈ inFlight (add id0 prio timeout now q).
Proof.
  intros Hin. unfold add. destruct (isStopped q).
  - by destruct (settle_sched (set_promises (insert id0 Pending) q) id0
                              (Throw stopped_error))
      as (_ & _ & _ & -> & _).
  - by apply process_inFlight.
Qed.

Lemma step_inFlight (ev : event V) q q' id :
  step ev q = Some q' → id ∈ inFlight q →
  id ∈ inFlight q' ∨ ∃ r, ev = Complete id r.
Proof.
  intros Hstep Hin. destruct ev as [id0 ? ? ?|ids ? ?| |id0 r0|id0|p| | | |c];
    simpl in Hstep.
  - destruct (decide (fresh q id0)); [|done]. injection Hstep as <-.
    left. by apply add_inFlight.
  - destruct (decide _); [|done]. injection Hstep as <-. left.
    unfold processAll. cbn [inFlight]. clear -Hin.
    revert q Hin. induction ids as [|id0 ids IH]; intros q Hin; [done|].
    simpl. by apply IH, add_inFlight.
  - destruct (immediates q); [done|]. injection Hstep as <-.
    left. by apply process_inFlight.
  - destruct (decide (id0 ∈ inFlight q)); [|done]. injection Hstep as <-.
    destruct (decide (id = id0)) as [->|Hne]; [right; eauto | left].
    unfold resume_process. cbn [inFlight].
    apply list_elem_of_filter. split; [done|].
    destruct r0 as [val|err];
      (match goal with |- context [settle id0 ?r1 ?q1] =>
         by destruct (settle_sched q1 id0 r1) as (_ & _ & _ & -> & _)
       end).
  - destruct (decide (id0 ∈ timers q)); [|done]. injection Hstep as <-.
    left. unfold on_timeout.
    match goal with |- context [settle id0 ?r1 ?q1] =>
      by destruct (settle_sched q1 id0 r1) as (_ & _ & _ & -> & _) end.
  - injection Hstep as <-. left. unfold cancel. cbn [set_queue inFlight].
    match goal with |- context [foldl ?f q ?l] =>
      by destruct (foldl_settle_sched task cancelled_error l q)
        as (_ & _ & _ & -> & _) end.
  - injection Hstep as <-. left. unfold stop. cbn [inFlight].
    by destruct (foldl_settle_sched task stop_error (queue q) q)
      as (_ & _ & _ & -> & _).
  - injection Hstep as <-. by left.
  - injection Hstep as <-. by left.
  - injection Hstep as <-. by left.
Qed.

(** C2.  At any moment after [processAll] was called: if the promise it
    returned is fulfilled, then every task of the batch has settled, in
    fact fulfilled, and the values are theirs in the order of submission;
    if a task of the batch was rejected, the promise is rejected, with the
    error of the first rejection in time; and whatever the state of that
    promise, a task in flight stays in flight under every event except its
    own completion, which the queue accepts at any time. *)
Theorem processAll_aggregation (c : Z) (evs : list (event V)) q (b : batch V) :
  reaches (create c) evs q →
  all q = Some b →
  (∀ vs, outcome b = Fulfilled vs →
     all_settled q (members b)
     ∧ mapM (fulfilled_value q) (members b) = Some vs)
  ∧ (∀ e, outcome b = Rejected e →
       ∃ id, first_rejection (members b) (settlements q) = Some (id, e))
  ∧ (∀ id e, id ∈ members b → promises q !! id = Some (Rejected e) →
       ∃ id0 e0, outcome b = Rejected e0
                 ∧ first_rejection (members b) (settlements q)
                   = Some (id0, e0))
  ∧ (∀ id, id ∈ inFlight q →
       (∀ r, is_Some (step (Complete id r) q))
       ∧ ∀ ev q', step ev q = Some q' →
                  id ∈ inFlight q' ∨ ∃ r, ev = Complete id r).
Proof.
  intros Hreach Hall.
  pose proof (reaches_promised c evs q Hreach) as [H1 H2 H3 H4].
  specialize (H4 b Hall). unfold aggregated in H4.
  split_and!.
  - intros vs Hout. rewrite Hout in H4. split; [|done].
    intros id Hid.
    destruct (mapM_value_of_fulfilled _ _ _ H4 id Hid) as [v Hv].
    exists (Fulfilled v). split; [done | discriminate].
  - intros e Hout. by rewrite Hout in H4.
  - intros id e Hid Hrej.
    destruct (first_rejection_is_Some (members b) (settlements q) id e)
      as [[id0 e0] Hfirst]; [by apply H2 | done |].
    exists id0, e0. split; [|done].
    destruct (outcome b) as [|vs|e1].
    + congruence.
    + destruct (mapM_value_of_fulfilled _ _ _ H4 id Hid) as [v Hv].
      unfold fulfilled_value in *. congruence.
    + destruct H4 as [id1 H4]. congruence.
  - intros id Hid. split.
    + intros r. simpl. rewrite decide_True by done. eauto.
    + intros ev q' Hstep. by eapply step_inFlight.
Qed.

End TaskQueueAggregation.

(** Three tasks under a limit of two.  The first to finish rejects: the
    promise of [processAll] is rejected there and then, with that error,
    while the second task is still in flight and the third still waits;
    both go on to complete. *)
Lemma processAll_aggregation_witness :
  let boom := Error "boom" in
  let evs := [TaskQueue.ProcessAll [0; 1; 2]%nat 0 0;
              TaskQueue.Complete 0 (Throw boom)] in
  let rest := [TaskQueue.Tick; TaskQueue.Complete 1 (Return "one");
               TaskQueue.Complete 2 (Return "two")] in
  ∃ q b q',
    TaskQueueSpec.run evs (TaskQueue.create 2) = Some q
    ∧ TaskQueue.all q = Some b
    ∧ TaskQueue.outcome b = TaskQueue.Rejected boom
    ∧ TaskQueue.first_rejection (TaskQueue.members b) (TaskQueue.settlements q)
      = Some (0%nat, boom)
    ∧ TaskQueue.inFlight q = [1%nat]
    ∧ TaskQueueSpec.run rest q = Some q'
    ∧ TaskQueue.results q' = ["one"; "two"]
    ∧ TaskQueue.inFlight q' = [].
Proof.
  intros boom evs rest.
  destruct (TaskQueueSpec.run evs (TaskQueue.create 2)) as [q|] eqn:Hrun;
    [|by vm_compute in Hrun].
  destruct (TaskQueue.all q) as [b|] eqn:Hall;
    [|vm_compute in Hrun; injection Hrun as <-; by vm_compute in Hall].
  destruct (processAll_aggregation 2 evs q b (run_reaches _ _ _ Hrun) Hall)
    as (_ & Hrejected & _ & _).
  vm_compute in Hrun. injection Hrun as <-.
  vm_compute in Hall. injection Hall as <-.
  destruct (Hrejected boom eq_refl) as [id Hfirst].
  eexists _, _, _. split; [reflexivity|]. split; [reflexivity|].
  split; [reflexivity|]. split; [reflexivity|]. split; [reflexivity|].
  split; [vm_compute; reflexivity|]. split; reflexivity.
Defined.

(** ** The pipeline *)

Section PipelineResolves.
Import Organizer.
Variable getVideoInfo : string → nat → Result metadata.
Variable http_get : string → nat → Result (option string).
Variable splitCoverImage : string → Result string.
Variable url_extname : string → Result string.
Variable render : metadata → string.
Variable generateKey : string → string.
Variable dev : path → nat.

Local Abbreviation resolveMetadata :=
  (Organizer.resolveMetadata getVideoInfo generateKey).
Local Abbreviation produce :=
  (Organizer.produce http_get splitCoverImage url_extname render dev).
Local Abbreviation restore := (Organizer.restore dev).
Local Abbreviation processVideo :=
  (Organizer.processVideo getVideoInfo http_get splitCoverImage url_extname
                          render generateKey dev).
Local Abbreviation task :=
  (Organizer.task getVideoInfo http_get splitCoverImage url_extname render
                  generateKey dev).

(** Whatever the cleanup does, and even when it throws, the inner [catch]
    throws the error it caught. *)
Lemma compensate_rethrows {A} cfg sourceVideoPath videoDir error w :
  ∃ w', Organizer.compensate dev (A := A) cfg sourceVideoPath videoDir
          error w
        = (Throw error, w').
Proof.
  unfold Organizer.compensate, Js.bind, Js.try_catch.
  destruct (restore cfg sourceVideoPath videoDir w) as [[[]|e] w']; eauto.
Qed.

(** [processVideo] stage by stage. *)
Lemma processVideo_unfold vi cfg targetDir w :
  processVideo vi cfg targetDir w
  = match resolveMetadata (code vi) w with
    | (Throw e, w1) => (Return (Failure (code vi) (Js.message e)), w1)
    | (Return md, w1) =>
        let videoDir := videoDir_of targetDir md in
        match on_fs (Fs.mkdir videoDir) w1 with
        | (Throw e, w2) => (Return (Failure (code vi) (Js.message e)), w2)
        | (Return _, w2) =>
            match produce md (file_path (file vi)) videoDir w2 with
            | (Return r, w3) => (Return r, w3)
            | (Throw e, w3) =>
                (Return (Failure (code vi) (Js.message e)),
                 (Organizer.compensate dev (A := outcome) cfg
                    (file_path (file vi)) videoDir e w3).2)
            end
        end
    end.
Proof.
  unfold Organizer.processVideo, Js.try_catch, Js.bind at 1 2.
  destruct (resolveMetadata (code vi) w) as [[md|e] w1]; [|done].
  cbv zeta.
  destruct (on_fs (Fs.mkdir (videoDir_of targetDir md)) w1) as [[[]|e] w2];
    [|done].
  destruct (produce md (file_path (file vi)) (videoDir_of targetDir md) w2)
    as [[r|e] w3]; [done|].
  destruct (compensate_rethrows (A := outcome) cfg (file_path (file vi))
              (videoDir_of targetDir md) e w3) as [w4 ->].
  done.
Qed.

Lemma produce_returns md sourceVideoPath videoDir w r w' :
  produce md sourceVideoPath videoDir w = (Return r, w') →
  r = Success (md_code md) videoDir.
Proof.
  unfold Organizer.produce, Js.bind, Js.ret. intros H.
  destruct (generateNfoFile _ _ _ _) as [[?|?] ?]; [|done].
  destruct (downloadAndSaveCovers _ _ _ _ _ _) as [[?|?] ?]; [|done].
  destruct (moveVideoFile _ _ _ _) as [[?|?] ?]; [|done].
  by injection H as <- _.
Qed.

(** C10.  [processVideo] resolves for every video, configuration, target
    directory and state of the world, and never rejects: the value is
    [{ success: true, code, path }] with the code of the metadata and the
    destination directory, or [{ success: false, code, error }] with the
    code of the video and the message of the error that made the pipeline
    fail, never that of an error raised while cleaning up.  The closure
    handed to the task queue resolves to the same value. *)
Theorem processVideo_always_resolves vi cfg targetDir w :
  ∃ r w',
    processVideo vi cfg targetDir w = (Return r, w')
    ∧ task vi cfg targetDir w = (Return r, w')
    ∧ ((∃ md, r = Success (md_code md) (videoDir_of targetDir md))
       ∨ (∃ error, r = Failure (code vi) error))
    ∧ (∀ md w1 w2 e w3,
         resolveMetadata (code vi) w = (Return md, w1) →
         on_fs (Fs.mkdir (videoDir_of targetDir md)) w1 = (Return tt, w2) →
         produce md (file_path (file vi)) (videoDir_of targetDir md) w2
         = (Throw e, w3) →
         r = Failure (code vi) (Js.message e)).
Proof.
  assert (∃ r w', processVideo vi cfg targetDir w = (Return r, w')
                  ∧ ((∃ md, r = Success (md_code md) (videoDir_of targetDir md))
                     ∨ (∃ error, r = Failure (code vi) error)))
    as (r & w' & Heq & Hshape).
  { rewrite processVideo_unfold.
    destruct (resolveMetadata (code vi) w) as [[md|e] w1]; [|eauto 6].
    cbv zeta.
    destruct (on_fs (Fs.mkdir (videoDir_of targetDir md)) w1)
      as [[[]|e] w2]; [|eauto 6].
    destruct (produce md (file_path (file vi)) (videoDir_of targetDir md) w2)
      as [[r|e] w3] eqn:Hp; [|eauto 6].
    apply produce_returns in Hp as ->. eauto 6. }
  exists r, w'. split; [done|]. split; [|split; [done|]].
  - unfold Organizer.task, Js.bind. by rewrite Heq.
  - intros md w1 w2 e w3 H1 H2 H3.
    rewrite processVideo_unfold, H1 in Heq. cbv zeta in Heq.
    rewrite H2, H3 in Heq. by injection Heq as <- _.
Qed.

End PipelineResolves.

(** ** The file system *)

Section FsFacts.
Import Path Fs.
Local Open Scope list_scope.
Implicit Types (fs : Fs.t) (p q sp src tgt d : path) (c : string).

Lemma under_true p q : under p q = true ↔ p `prefix_of` q.
Proof. apply bool_decide_eq_true. Qed.

Lemma under_false p q : under p q = false ↔ ¬ p `prefix_of` q.
Proof. apply bool_decide_eq_false. Qed.

Lemma under_join d name : under d (join d name) = true.
Proof. apply under_true. by exists [name]. Qed.

Lemma under_trans p q sp : under p q = true → under q sp = true → under p sp = true.
Proof. rewrite !under_true. by intros ? ?; etrans. Qed.

Lemma under_refl p : under p p = true.
Proof. by apply under_true. Qed.

Lemma not_under_ne d p sp : under d p = true → under d sp = false → p ≠ sp.
Proof. intros Hp Hsp ->. congruence. Qed.

Lemma not_under_below d p sp :
  under d p = true → under d sp = false → under p sp = false.
Proof.
  intros Hp Hsp. destruct (under p sp) eqn:H; [|done].
  by rewrite (under_trans d p sp) in Hsp.
Qed.

Lemma file_at_remove_ne p q (l : list (path * string)) :
  p ≠ q → file_at (remove_file p l) q = file_at l q.
Proof.
  intros Hne. unfold remove_file. induction l as [|[x c] l IH]; [done|].
  destruct (decide (x = p)) as [->|Hx].
  - rewrite filter_cons_False by (simpl; tauto). simpl.
    by rewrite decide_False.
  - rewrite filter_cons_True by done. simpl. by rewrite IH.
Qed.

Lemma file_at_prune_keep p (l : list (path * string)) q :
  under p q = false →
  file_at (filter (fun e => under p e.1 = false) l) q = file_at l q.
Proof.
  intros Hq. induction l as [|[x c] l IH]; [done|].
  destruct (under p x) eqn:Hx.
  - rewrite filter_cons_False by (simpl; congruence). simpl.
    rewrite decide_False by (intros ->; congruence). done.
  - rewrite filter_cons_True by done. simpl. by rewrite IH.
Qed.

Lemma file_at_prune_drop p (l : list (path * string)) q :
  under p q = true →
  file_at (filter (fun e => under p e.1 = false) l) q = None.
Proof.
  intros Hq. induction l as [|[x c] l IH]; [done|].
  destruct (under p x) eqn:Hx.
  - by rewrite filter_cons_False by (simpl; congruence).
  - rewrite filter_cons_True by done. simpl.
    rewrite decide_False by (intros ->; congruence). done.
Qed.

Lemma file_at_elem (l : list (path * string)) q c :
  file_at l q = Some c → q ∈ map fst l.
Proof.
  induction l as [|[x c'] l IH]; [done|]. simpl.
  destruct (decide (x = q)) as [->|?]; intros H.
  - apply list_elem_of_here.
  - apply list_elem_of_further. auto.
Qed.

Lemma read_nonempty fs p c : read fs p = Some c → p ≠ [].
Proof. by destruct p. Qed.

Lemma read_files fs fs' p : files fs' = files fs → read fs' p = read fs p.
Proof. unfold read. by intros ->. Qed.

Lemma read_exists fs p c : read fs p = Some c → exists_ fs p = true.
Proof. unfold exists_, is_file. by intros ->. Qed.

(** A path that exists is listed, the root apart. *)
Lemma exists_listed fs p :
  exists_ fs p = true → p ≠ [] → p ∈ map fst (files fs) ++ dirs fs.
Proof.
  unfold exists_, is_file, is_dir, read. intros H Hne.
  rewrite elem_of_app.
  destruct p as [|x p]; [done|].
  destruct (file_at (files fs) (x :: p)) eqn:Hf.
  - left. by eapply file_at_elem.
  - right. simpl in H. by apply bool_decide_eq_true in H.
Qed.

(** *** What the operations leave alone *)

Lemma access_state p fs r fs' : access p fs = (r, fs') → fs' = fs.
Proof. unfold access. destruct (exists_ fs p); by intros [= _ <-]. Qed.

Lemma readdir_state d fs r fs' : readdir d fs = (r, fs') → fs' = fs.
Proof.
  unfold readdir. destruct (is_dir fs d); [by intros [= _ <-]|].
  destruct (is_file fs d); by intros [= _ <-].
Qed.

Lemma is_dir_dirs fs fs' d :
  (∀ q, q ∈ dirs fs → q ∈ dirs fs') → is_dir fs d = true → is_dir fs' d = true.
Proof.
  unfold is_dir. intros Hsub. rewrite !orb_true_iff, !bool_decide_eq_true.
  intros [?|?]; [by left | right; auto].
Qed.

Lemma mkdir_keeps p fs r fs' :
  mkdir p fs = (r, fs') →
  files fs' = files fs
  ∧ (∀ d, is_dir fs d = true → is_dir fs' d = true)
  ∧ (r = Return tt → is_dir fs' p = true).
Proof.
  unfold mkdir. destruct (is_file fs p); [by intros [= <- <-]|].
  destruct (existsb _ _); [by intros [= <- <-]|].
  intros [= <- <-]. simpl. split; [done|]. split.
  - intros d. apply is_dir_dirs. intros q Hq. simpl.
    rewrite elem_of_app. by left.
  - intros _. unfold is_dir. simpl.
    destruct (decide (p = [])) as [->|Hne]; [done|].
    apply orb_true_iff. right. apply bool_decide_eq_true.
    destruct (decide (p ∈ dirs fs)) as [?|Hnew];
      [apply elem_of_app; by left|].
    apply elem_of_app. right. apply list_elem_of_filter. split; [done|].
    unfold ancestry. apply list_elem_of_fmap. exists (length p).
    split; [by rewrite take_ge|].
    apply elem_of_seq. destruct p; [done | simpl; lia].
Qed.

Lemma writeFile_keeps p c fs r fs' sp :
  writeFile p c fs = (r, fs') → p ≠ sp →
  read fs' sp = read fs sp ∧ dirs fs' = dirs fs.
Proof.
  unfold writeFile. intros H Hne.
  destruct (is_dir fs p); [by injection H as _ <-|].
  destruct (negb _); [by injection H as _ <-|].
  injection H as _ <-. split; [|done]. unfold read. simpl.
  destruct sp; [done|]. rewrite decide_False by done.
  by apply file_at_remove_ne.
Qed.

Lemma unlink_keeps p fs r fs' sp :
  unlink p fs = (r, fs') → p ≠ sp →
  read fs' sp = read fs sp ∧ dirs fs' = dirs fs.
Proof.
  unfold unlink. intros H Hne.
  destruct (is_file fs p).
  - injection H as _ <-. split; [|done]. unfold read. simpl.
    destruct sp; [done|]. by apply file_at_remove_ne.
  - destruct (is_dir fs p); by injection H as _ <-.
Qed.

Lemma prune_keeps p fs sp :
  under p sp = false → read (prune p fs) sp = read fs sp.
Proof.
  intros Hout. unfold read, prune. simpl. destruct sp; [done|].
  by apply file_at_prune_keep.
Qed.

Lemma prune_absent d fs : d ≠ [] → OrganizerSpec.absent (prune d fs) d.
Proof.
  intros Hd p Hp. unfold exists_, is_file, is_dir, read, prune. simpl.
  assert (p ≠ []) as Hne.
  { intros ->. apply under_true in Hp. by apply prefix_nil_inv in Hp. }
  destruct p as [|x p]; [done|].
  rewrite file_at_prune_drop by done.
  simpl. apply bool_decide_eq_false. rewrite list_elem_of_filter.
  intros [? _]. congruence.
Qed.

Lemma trash_keeps p fs r fs' sp :
  trash p fs = (r, fs') → under p sp = false → read fs' sp = read fs sp.
Proof.
  unfold trash. intros H Hout.
  destruct (exists_ fs p); injection H as _ <-; [|done].
  by apply prune_keeps.
Qed.

Lemma copyFile_keeps src tgt fs r fs' sp :
  copyFile src tgt fs = (r, fs') → tgt ≠ sp →
  read fs' sp = read fs sp ∧ dirs fs' = dirs fs.
Proof.
  unfold copyFile. intros H Hne. destruct (read fs src).
  - by eapply writeFile_keeps.
  - destruct (is_dir fs src); by injection H as _ <-.
Qed.

Lemma file_at_rebase src tgt (l : list (path * string)) sp :
  under src sp = false → under tgt sp = false →
  file_at (map (fun e => (rebase src tgt e.1, e.2)) l) sp = file_at l sp.
Proof.
  intros Hsrc Htgt. induction l as [|[x c] l IH]; [done|].
  simpl. rewrite IH. destruct (under src x) eqn:Hx.
  - assert (rebase src tgt x ≠ sp) as Hne.
    { unfold rebase. rewrite Hx. intros <-.
      apply under_false in Htgt. apply Htgt. by eexists. }
    rewrite decide_False by done.
    rewrite decide_False; [done|]. intros ->. congruence.
  - assert (rebase src tgt x = x) as -> by (unfold rebase; by rewrite Hx).
    done.
Qed.

Lemma rename_keeps src tgt fs r fs' sp :
  rename src tgt fs = (r, fs') →
  src ≠ sp → under src sp = false → under tgt sp = false →
  read fs' sp = read fs sp.
Proof.
  unfold rename. intros H Hne Hsrc Htgt.
  assert (tgt ≠ sp) as Htne by (intros ->; by rewrite under_refl in Htgt).
  destruct (read fs src) as [c|].
  - destruct (negb _); [by injection H as _ <-|].
    destruct (is_dir fs tgt); [by injection H as _ <-|].
    injection H as _ <-. unfold read. simpl. destruct sp; [done|].
    rewrite decide_False by done.
    by rewrite !file_at_remove_ne.
  - repeat (match type of H with
            | (if ?b then _ else _) = _ =>
                destruct b; [by injection H as _ <-|]
            end).
    injection H as _ <-. unfold read. simpl. destruct sp; [done|].
    by apply file_at_rebase.
Qed.

End FsFacts.

(** ** [moveFile] *)

Section MoveFacts.
Import Path Fs FileUtils.
Local Open Scope list_scope.
Implicit Types (fs : Fs.t) (p q sp src tgt d dir : path) (c : string).

Lemma append_cons a (s t : string) :
  (String a s ++ t)%string = String a (s ++ t)%string.
Proof. reflexivity. Qed.

Lemma length_append (s t : string) :
  String.length (s ++ t)%string = (String.length s + String.length t)%nat.
Proof.
  induction s as [|a s IH]; [done|].
  rewrite append_cons. simpl. by rewrite IH.
Qed.

Lemma append_inj_r (t s1 s2 : string) :
  (s1 ++ t)%string = (s2 ++ t)%string → s1 = s2.
Proof.
  revert s2. induction s1 as [|a s1 IH]; intros [|b s2] H; [done | | |].
  - apply (f_equal String.length) in H.
    rewrite !length_append in H. simpl in H. lia.
  - apply (f_equal String.length) in H.
    rewrite !length_append in H. simpl in H. lia.
  - rewrite !append_cons in H. injection H as -> H. f_equal. by apply IH.
Qed.

Lemma candidate_inj dir name ext (k k' : nat) :
  candidate dir name ext k = candidate dir name ext k' → k = k'.
Proof.
  unfold candidate, join. intros H.
  apply app_inj_tail in H as [_ H].
  apply String.app_inj in H. apply String.app_inj in H.
  apply append_inj_r in H. by apply pretty_nat_inj in H.
Qed.

(** If the loop ends on a name that is taken, every name it tried was
    taken. *)
Lemma freeTarget_taken fuel fs dir name ext :
  ∀ counter target,
    fileExists fs (freeTarget fuel fs dir name ext counter target) = true →
    ∀ k, (counter ≤ k < counter + fuel)%nat →
         fileExists fs (candidate dir name ext k) = true.
Proof.
  induction fuel as [|fuel IH]; intros counter target Hres k Hk; [lia|].
  simpl in Hres. destruct (fileExists fs target) eqn:Htarget; [|congruence].
  destruct (decide (k = counter)) as [->|Hne].
  - clear IH Hk. revert Hres.
    generalize (S counter). generalize (candidate dir name ext counter).
    induction fuel as [|fuel IH]; intros t n Hres; [done|].
    simpl in Hres. destruct (fileExists fs t) eqn:Ht; [done | congruence].
  - eapply IH; [exact Hres | lia].
Qed.

(** The loop of [moveFile] ends on a name that is free. *)
Lemma freeTarget_free fs dir name ext target :
  fileExists fs (freeTarget (rounds fs) fs dir name ext 1 target) = false.
Proof.
  destruct (fileExists fs (freeTarget _ _ _ _ _ _ _)) eqn:Hres; [|done].
  exfalso.
  pose proof (freeTarget_taken _ _ _ _ _ _ _ Hres) as Htaken.
  set (tried := map (candidate dir name ext) (seq 1 (rounds fs))).
  assert (NoDup tried) as Hnd.
  { apply NoDup_fmap_2; [|apply NoDup_seq].
    intros k k'. apply candidate_inj. }
  assert (tried ⊆+ map fst (files fs) ++ dirs fs) as Hsub.
  { apply NoDup_submseteq; [done|]. intros p Hp.
    apply list_elem_of_fmap in Hp as (k & -> & Hk).
    apply elem_of_seq in Hk.
    apply exists_listed; [apply Htaken; lia|].
    unfold candidate, join. by destruct dir. }
  apply submseteq_length in Hsub.
  unfold tried in Hsub.
  rewrite length_map, length_seq, length_app, length_map in Hsub.
  unfold rounds in Hsub. lia.
Qed.

Lemma freeTarget_shape fuel fs dir name ext :
  ∀ counter fileName,
    ∃ n, freeTarget fuel fs dir name ext counter (join dir fileName)
         = join dir n.
Proof.
  induction fuel as [|fuel IH]; intros counter fileName; simpl; [eauto|].
  destruct (fileExists fs (join dir fileName)); [|eauto].
  apply (IH (S counter)).
Qed.

Lemma join_dirname sp : sp ≠ [] → sp = join (dirname sp) (basename sp).
Proof. intros H. by apply app_removelast_last. Qed.

(** A free name next to [sp] is neither [sp] nor above it. *)
Lemma free_sibling fs sp n c :
  read fs sp = Some c →
  fileExists fs (join (dirname sp) n) = false →
  under (join (dirname sp) n) sp = false.
Proof.
  intros Hsp Hfree. apply under_false. intros Hpre.
  assert (sp ≠ []) as Hne by by eapply read_nonempty.
  assert (join (dirname sp) n = sp) as Heq.
  { apply prefix_length_eq; [done|].
    pose proof (f_equal length (join_dirname sp Hne)) as Hlen.
    unfold join in *. rewrite length_app in *. simpl in *. lia. }
  unfold fileExists in Hfree. rewrite Heq in Hfree.
  by rewrite (read_exists _ _ _ Hsp) in Hfree.
Qed.

Variable dev : path → nat.

Lemma ensureDir_keeps b dir fs r fs' :
  ensureDir b dir fs = (r, fs') →
  files fs' = files fs ∧ ∀ d, is_dir fs d = true → is_dir fs' d = true.
Proof.
  unfold ensureDir. intros H. destruct b.
  - destruct (mkdir dir fs) as [[[]|e] fs1] eqn:Hm;
      apply mkdir_keeps in Hm as (Hf & Hd & _).
    + by injection H as _ <-.
    + destruct (bool_decide _); by injection H as _ <-.
  - destruct (access dir fs) as [[[]|e] fs1] eqn:Ha;
      apply access_state in Ha as ->; by injection H as _ <-.
Qed.

Lemma rename_throws_state src tgt fs e fs' :
  rename src tgt fs = (Throw e, fs') → fs' = fs.
Proof.
  unfold rename. intros H. destruct (read fs src).
  - destruct (negb _); [by injection H as _ <-|].
    destruct (is_dir fs tgt); [by injection H as _ <-|]. done.
  - repeat (match type of H with
            | (if ?b then _ else _) = _ =>
                destruct b; [by injection H as _ <-|]
            end).
    done.
Qed.

Lemma delete_keeps (safe : bool) src fs r fs' sp :
  (if safe then trash src else unlink src) fs = (r, fs') →
  src ≠ sp → under src sp = false →
  read fs' sp = read fs sp.
Proof.
  intros H Hne Hout. destruct safe.
  - by eapply trash_keeps.
  - by eapply unlink_keeps.
Qed.

Lemma delete_throws_state (safe : bool) src fs e fs' :
  (if safe then trash src else unlink src) fs = (Throw e, fs') → fs' = fs.
Proof.
  destruct safe.
  - unfold trash. destruct (exists_ fs src); [done | by intros [= _ <-]].
  - unfold unlink. destruct (is_file fs src); [done|].
    destruct (is_dir fs src); by intros [= _ <-].
Qed.

(** A move of something else to a place that is not [sp] leaves [sp]. *)
Lemma transfer_keeps safe src tgt fs r fs' sp :
  transfer dev safe src tgt fs = (r, fs') →
  src ≠ sp → under src sp = false → under tgt sp = false →
  read fs' sp = read fs sp.
Proof.
  unfold transfer. intros H Hne Hsrc Htgt.
  assert (tgt ≠ sp) as Htne by (intros ->; by rewrite under_refl in Htgt).
  destruct (decide _); [|by eapply rename_keeps].
  unfold Js.bind in H.
  destruct (copyFile src tgt fs) as [[[]|e] fs1] eqn:Hc;
    apply copyFile_keeps with (sp := sp) in Hc as [Hc _]; try done.
  - rewrite <- Hc. by eapply delete_keeps.
  - by injection H as _ <-.
Qed.

(** A move that fails leaves its source where it was. *)
Lemma transfer_failed_keeps safe sp tgt fs e fs' :
  transfer dev safe sp tgt fs = (Throw e, fs') →
  tgt ≠ sp →
  read fs' sp = read fs sp ∧ dirs fs' = dirs fs.
Proof.
  unfold transfer. intros H Hne.
  destruct (decide _); [|by apply rename_throws_state in H as ->].
  unfold Js.bind in H.
  destruct (copyFile sp tgt fs) as [[[]|e1] fs1] eqn:Hc;
    apply copyFile_keeps with (sp := sp) in Hc as [Hr Hd]; try done.
  - by apply delete_throws_state in H as ->.
  - by injection H as _ <-.
Qed.

Lemma pickTarget_shape b fs dir fileName :
  ∃ n, pickTarget b fs dir fileName = join dir n.
Proof.
  unfold pickTarget. destruct (negb b); [apply freeTarget_shape | eauto].
Qed.

(** Moving something else into the directory of [sp], without overwriting,
    leaves [sp] as it was, whether the move succeeds or not. *)
Lemma moveFile_beside src sp o fs r fs' c :
  moveFile dev src (dirname sp) o fs = (r, fs') →
  overwrite o = false →
  read fs sp = Some c →
  src ≠ sp → under src sp = false →
  read fs' sp = Some c.
Proof.
  unfold moveFile. intros H Hover Hsp Hne Hout.
  destruct (access src fs) as [[[]|e] fs0] eqn:Ha;
    apply access_state in Ha as ->; [|by injection H as _ <-].
  destruct (ensureDir (createDir o) (dirname sp) fs) as [[[]|e] fs1] eqn:He;
    apply ensureDir_keeps in He as [Hfiles _];
    [|injection H as _ <-; by rewrite (read_files fs)].
  rewrite <- (read_files fs fs1 sp Hfiles) in Hsp.
  cbv zeta in H.
  set (tgt := pickTarget (overwrite o) fs1 (dirname sp) (basename src)) in *.
  assert (under tgt sp = false) as Htgt.
  { unfold tgt, pickTarget. rewrite Hover. cbn [negb].
    destruct (freeTarget_shape (rounds fs1) fs1 (dirname sp)
                (stem (basename src)) (extname (basename src)) 1
                (basename src)) as [n Hn].
    pose proof (freeTarget_free fs1 (dirname sp) (stem (basename src))
                  (extname (basename src))
                  (join (dirname sp) (basename src))) as Hfree.
    rewrite Hn in *. by eapply free_sibling. }
  destruct (transfer dev (useSafeDelete o) src tgt fs1) as [[[]|e] fs2] eqn:Ht;
    apply transfer_keeps with (sp := sp) in Ht; try done;
    injection H as _ <-; congruence.
Qed.

(** A move of [sp] into a directory it is not in, when it fails, leaves
    [sp] where it was and removes no directory. *)
Lemma moveFile_failed sp dir o fs error fs' c :
  moveFile dev sp dir o fs = (Return (NotMoved error), fs') →
  under dir sp = false →
  read fs sp = Some c →
  read fs' sp = Some c ∧ ∀ d, is_dir fs d = true → is_dir fs' d = true.
Proof.
  unfold moveFile. intros H Hout Hsp.
  destruct (access sp fs) as [[[]|e] fs0] eqn:Ha;
    apply access_state in Ha as ->; [|by injection H as _ <-].
  destruct (ensureDir (createDir o) dir fs) as [[[]|e] fs1] eqn:He;
    apply ensureDir_keeps in He as [Hfiles Hdirs];
    [|injection H as _ <-; by rewrite (read_files fs)].
  cbv zeta in H.
  set (tgt := pickTarget (overwrite o) fs1 dir (basename sp)) in *.
  assert (tgt ≠ sp) as Htgt.
  { destruct (pickTarget_shape (overwrite o) fs1 dir (basename sp)) as [n Hn].
    unfold tgt. rewrite Hn. eapply not_under_ne; [apply under_join | done]. }
  destruct (transfer dev (useSafeDelete o) sp tgt fs1) as [[[]|e] fs2] eqn:Ht;
    [done|].
  apply transfer_failed_keeps in Ht as [Hr Hd]; [|done].
  injection H as _ <-. split.
  - by rewrite Hr, (read_files fs).
  - intros d Hdir. eapply is_dir_dirs; [|by apply Hdirs]. by rewrite Hd.
Qed.

End MoveFacts.

(** ** What computations keep *)

Section HoareFacts.
Import Hoare.
Context {S : Type}.
Variable P : S → Prop.

Lemma keeps_ret {A} (v : A) : keeps P (Js.ret v).
Proof. by intros s r s' HP [= _ <-]. Qed.

Lemma keeps_throw {A} (e : jsError) : keeps P (Js.throw (A := A) e).
Proof. by intros s r s' HP [= _ <-]. Qed.

Lemma keeps_bind {A B} (c : M S A) (k : A → M S B) :
  keeps P c → (∀ a, keeps P (k a)) → keeps P (Js.bind c k).
Proof.
  intros Hc Hk s r s' HP H. unfold Js.bind in H.
  destruct (c s) as [[a|e] s1] eqn:Hcs.
  - eapply Hk; [|exact H]. by eapply Hc.
  - injection H as _ <-. by eapply Hc.
Qed.

Lemma keeps_try_catch {A} (c : M S A) (h : jsError → M S A) :
  keeps P c → (∀ e, keeps P (h e)) → keeps P (Js.try_catch c h).
Proof.
  intros Hc Hh s r s' HP H. unfold Js.try_catch in H.
  destruct (c s) as [[a|e] s1] eqn:Hcs.
  - injection H as _ <-. by eapply Hc.
  - eapply Hh; [|exact H]. by eapply Hc.
Qed.

Lemma keeps_weaken {A} (c : M S A) : keeps P c → keeps_on_throw P c.
Proof. intros Hc s e s' HP H. by eapply Hc. Qed.

Lemma keeps_on_throw_bind {A B} (c : M S A) (k : A → M S B) :
  keeps P c → (∀ a, keeps_on_throw P (k a)) →
  keeps_on_throw P (Js.bind c k).
Proof.
  intros Hc Hk s e s' HP H. unfold Js.bind in H.
  destruct (c s) as [[a|e1] s1] eqn:Hcs.
  - eapply Hk; [|exact H]. by eapply Hc.
  - injection H as _ <-. by eapply Hc.
Qed.

Lemma keeps_on_throw_then_ret {A B} (c : M S A) (f : A → B) :
  keeps_on_throw P c →
  keeps_on_throw P (Js.bind c (fun a => Js.ret (f a))).
Proof.
  intros Hc s e s' HP H. unfold Js.bind, Js.ret in H.
  destruct (c s) as [[a|e1] s1] eqn:Hcs; [done|].
  injection H as _ <-. by eapply Hc.
Qed.

Variable isAborting : S → bool.
Variable sleep : Z → S → S.
Hypothesis sleep_keeps : ∀ d s, P s → P (sleep d s).

Lemma retry_loop_keeps {A} (operation : M S A) o n :
  keeps P operation →
  ∀ attempt lastError,
    keeps P (Retry.loop isAborting sleep operation o n attempt lastError).
Proof.
  intros Hop. induction n as [|n IH]; intros attempt lastError s r s' HP H;
    simpl in H.
  - destruct lastError; by injection H as _ <-.
  - destruct (isAborting s); [by injection H as _ <-|].
    destruct (operation s) as [[v|e] s1] eqn:Hs.
    + injection H as _ <-. by eapply Hop.
    + assert (P s1) as HP1 by by eapply Hop.
      destruct (_ && _).
      * destruct (isAborting s1); [by injection H as _ <-|].
        eapply IH; [|exact H]. by apply sleep_keeps.
      * by eapply IH.
Qed.

Lemma retry_keeps {A} (operation : M S A) o :
  keeps P operation →
  keeps P (Retry.retryOperation isAborting sleep operation o).
Proof.
  intros Hop. unfold Retry.retryOperation.
  destruct (Retry.validate o); [apply keeps_throw|].
  by apply retry_loop_keeps.
Qed.

Lemma retry_loop_keeps_on_throw {A} (operation : M S A) o n :
  keeps_on_throw P operation →
  ∀ attempt lastError,
    keeps_on_throw P
      (Retry.loop isAborting sleep operation o n attempt lastError).
Proof.
  intros Hop. induction n as [|n IH]; intros attempt lastError s e s' HP H;
    simpl in H.
  - destruct lastError; by injection H as _ <-.
  - destruct (isAborting s); [by injection H as _ <-|].
    destruct (operation s) as [[v|e1] s1] eqn:Hs; [done|].
    assert (P s1) as HP1 by by eapply Hop.
    destruct (_ && _).
    + destruct (isAborting s1); [by injection H as _ <-|].
      eapply IH; [|exact H]. by apply sleep_keeps.
    + by eapply IH.
Qed.

Lemma retry_keeps_on_throw {A} (operation : M S A) o :
  keeps_on_throw P operation →
  keeps_on_throw P (Retry.retryOperation isAborting sleep operation o).
Proof.
  intros Hop. unfold Retry.retryOperation.
  destruct (Retry.validate o); [apply keeps_weaken, keeps_throw|].
  by apply retry_loop_keeps_on_throw.
Qed.

End HoareFacts.

(** ** The pipeline and the tree *)

Section DestinationWrites.
Import Path Fs FileUtils Organizer OrganizerSpec Hoare.
Variable getVideoInfo : string → nat → Result metadata.
Variable http_get : string → nat → Result (option string).
Variable splitCoverImage : string → Result string.
Variable url_extname : string → Result string.
Variable render : metadata → string.
Variable generateKey : string → string.
Variable dev : path → nat.

(** The source file, its content, and the destination directory. *)
Variables (sp : path) (c : string) (vd : path).
Hypothesis outside : under vd sp = false.

Local Abbreviation kept := (fun w : world => intact sp c vd (fs w)).

Lemma on_fs_keeps {A} (cf : M Fs.t A) :
  (∀ f r f', intact sp c vd f → cf f = (r, f') → intact sp c vd f') →
  keeps kept (on_fs cf).
Proof.
  intros Hcf w r w' HP H. unfold on_fs in H.
  destruct (cf (fs w)) as [r1 f'] eqn:Hf. injection H as _ <-. simpl.
  by eapply Hcf.
Qed.

(** Writing a file of the destination directory. *)
Lemma write_inside_keeps name content :
  keeps kept (on_fs (writeFile (join vd name) content)).
Proof.
  apply on_fs_keeps. intros f r f' [Hsp Hdir] H.
  eapply writeFile_keeps with (sp := sp) in H as [Hr Hd].
  - split; [by rewrite Hr|]. eapply is_dir_dirs; [|exact Hdir].
    by rewrite Hd.
  - eapply not_under_ne; [apply under_join | exact outside].
Qed.

End DestinationWrites.

Section MetadataLookup.
Import Path Fs Organizer OrganizerSpec.
Variable getVideoInfo : string → nat → Result metadata.
Variable http_get : string → nat → Result (option string).
Variable splitCoverImage : string → Result string.
Variable url_extname : string → Result string.
Variable render : metadata → string.
Variable generateKey : string → string.
Variable dev : path → nat.

Local Abbreviation resolveMetadata :=
  (Organizer.resolveMetadata getVideoInfo generateKey).
Local Abbreviation produce :=
  (Organizer.produce http_get splitCoverImage url_extname render dev).
Local Abbreviation processVideo :=
  (Organizer.processVideo getVideoInfo http_get splitCoverImage url_extname
                          render generateKey dev).

(** Looking up the metadata does not touch the tree. *)
Lemma resolveMetadata_fs videoCode w r w' :
  resolveMetadata videoCode w = (r, w') → fs w' = fs w.
Proof.
  unfold Organizer.resolveMetadata, Js.bind, cache_get, cache_set, request,
    Js.ret.
  destruct (Cache.get _ _ _ _) as [[md|] c']; [by intros [= _ <-]|].
  simpl. destruct (getVideoInfo _ _); by intros [= _ <-].
Qed.

End MetadataLookup.

(** C1, on a video that already lies in the directory named after its
    code.  The output directory is [out], the video is at
    [out/ABC-123/abc-123.mp4], its metadata is resolved with the code
    [ABC-123], and every image request times out.  When the inner [catch]
    begins the video is still at its path.  The cleanup then finds it in
    the destination and moves it to the directory of the source, which is
    the destination itself: [moveFile] has no [newName] option, so the file
    gets the free name [abc-123 (1).mp4] there, and the removal of the
    destination takes it away.  The run reports the failure; nothing is
    left at the path of the source, and no file is left in the tree. *)
Theorem rollback_destroys_source_in_destination :
  let w := Scenario.world_of Scenario.fs_inside in
  let sourceVideoPath := Organizer.file_path (Organizer.file Scenario.vi_inside) in
  let videoDir := Organizer.videoDir_of Scenario.targetDir Scenario.md in
  let w1 := (Scenario.resolveMetadata "ABC-123" w).2 in
  let failed :=
    Scenario.produce Scenario.md sourceVideoPath videoDir
                     (Organizer.on_fs (Fs.mkdir videoDir) w1).2 in
  let run := Scenario.processVideo Scenario.vi_inside Scenario.cfg
                                   Scenario.targetDir w in
  Path.plain (Organizer.md_code Scenario.md) = true
  ∧ (Scenario.resolveMetadata "ABC-123" w).1 = Js.Return Scenario.md
  ∧ Fs.read (Organizer.fs w) sourceVideoPath = Some "VIDEO"
  ∧ failed.1 = Js.Throw Scenario.fetchError
  ∧ Fs.read (Organizer.fs failed.2) sourceVideoPath = Some "VIDEO"
  ∧ (FileUtils.moveFile Scenario.dev sourceVideoPath
                        (Path.dirname sourceVideoPath)
                        Organizer.moveOptions_back (Organizer.fs failed.2)).1
    = Js.Return (FileUtils.Moved ["out"; "ABC-123"; "abc-123 (1).mp4"])
  ∧ run.1 = Js.Return (Organizer.Failure "ABC-123"
                         "操作在重试 3 次后仍然失败: timeout")
  ∧ Fs.read (Organizer.fs run.2) sourceVideoPath = None
  ∧ Fs.files (Organizer.fs run.2) = [].
Proof. vm_compute. done. Qed.

Section TaskQueueOrderFacts.
Import TaskQueue TaskQueueSpec TaskQueueOrder.
Context {V : Type}.
Implicit Types (q : TaskQueue.t V) (id : nat) (r : Result V).
Local Open Scope list_scope.

Lemma compare_precedes (a b : queueItem) :
  (compare a b ≤ 0)%Z ↔ precedes a b.
Proof.
  unfold compare, precedes.
  destruct (Z.eqb_spec (priority b - priority a) 0); lia.
Qed.

Lemma precedes_trans (a b c : queueItem) :
  precedes a b → precedes b c → precedes a c.
Proof. unfold precedes. lia. Qed.

Lemma precedes_total (a b : queueItem) : precedes a b ∨ precedes b a.
Proof. unfold precedes. lia. Qed.

Lemma place_sorted (x : queueItem) (l : list queueItem) :
  StronglySorted precedes l → StronglySorted precedes (place x l).
Proof.
  induction 1 as [|y l Hl IH Hy]; simpl.
  - repeat constructor.
  - destruct (Z.leb_spec (compare x y) 0) as [Hxy|Hxy].
    + apply compare_precedes in Hxy.
      constructor; [by constructor|]. constructor; [done|].
      eapply Forall_impl; [exact Hy|]. intros z Hz. by eapply precedes_trans.
    + constructor; [done|]. rewrite place_perm. constructor; [|done].
      destruct (precedes_total x y) as [H|H]; [|done].
      apply compare_precedes in H. lia.
Qed.

Lemma sort_sorted (l : list queueItem) : StronglySorted precedes (sort l).
Proof.
  induction l as [|x l IH]; simpl; [constructor|]. by apply place_sorted.
Qed.

Lemma StronglySorted_filter_items (P : queueItem → Prop)
    `{∀ x, Decision (P x)} (l : list queueItem) :
  StronglySorted precedes l → StronglySorted precedes (filter P l).
Proof.
  induction 1 as [|y l Hl IH Hy]; [constructor|].
  rewrite filter_cons. destruct (decide (P y)); [|done].
  constructor; [done|]. apply Forall_forall.
  intros z [_ Hz]%list_elem_of_filter. rewrite Forall_forall in Hy. auto.
Qed.

Lemma StronglySorted_map_items (f : queueItem → queueItem)
    (l : list queueItem) :
  (∀ a, priority (f a) = priority a ∧ timestamp (f a) = timestamp a) →
  StronglySorted precedes l → StronglySorted precedes (map f l).
Proof.
  intros Hf. induction 1 as [|y l Hl IH Hy]; simpl; [constructor|].
  constructor; [done|]. apply Forall_map.
  eapply Forall_impl; [exact Hy|]. intros z Hz. cbn.
  unfold precedes in *.
  destruct (Hf y) as [-> ->], (Hf z) as [-> ->]. done.
Qed.

Lemma process_queue_sorted q :
  StronglySorted precedes (queue q) →
  StronglySorted precedes (queue (process q)).
Proof.
  intros Hs. unfold process.
  destruct (_ || _); [done|].
  destruct (queue q) as [|item rest] eqn:Hq; [by rewrite Hq|].
  apply StronglySorted_inv in Hs as [Hrest _].
  by destruct (cancelled item).
Qed.

Lemma add_queue_sorted q id prio timeout now :
  StronglySorted precedes (queue q) →
  StronglySorted precedes (queue (add id prio timeout now q)).
Proof.
  intros Hs. unfold add. destruct (isStopped q) eqn:Hstop.
  - by rewrite (proj1 (proj2 (proj2 (settle_sched _ _ _)))).
  - apply process_queue_sorted. simpl. apply sort_sorted.
Qed.

Lemma foldl_add_queue_sorted (ids : list nat) prio now q :
  StronglySorted precedes (queue q) →
  StronglySorted precedes
    (queue (foldl (fun q id => add id prio 0 now q) q ids)).
Proof.
  revert q. induction ids as [|id ids IH]; intros q Hs; [done|].
  simpl. apply IH. by apply add_queue_sorted.
Qed.

Lemma step_queue_sorted (ev : event V) q q' :
  step ev q = Some q' →
  StronglySorted precedes (queue q) → StronglySorted precedes (queue q').
Proof.
  intros Hstep Hs. destruct ev; simpl in Hstep.
  - destruct (decide _); [|done]. injection Hstep as <-.
    by apply add_queue_sorted.
  - destruct (decide _); [|done]. injection Hstep as <-.
    unfold processAll. simpl. by apply foldl_add_queue_sorted.
  - destruct (immediates q); [done|]. injection Hstep as <-.
    by apply process_queue_sorted.
  - destruct (decide _); [|done]. injection Hstep as <-.
    unfold resume_process. simpl.
    destruct r; by rewrite (proj1 (proj2 (proj2 (settle_sched _ _ _)))).
  - destruct (decide _); [|done]. injection Hstep as <-.
    unfold on_timeout. rewrite (proj1 (proj2 (proj2 (settle_sched _ _ _)))).
    simpl. apply StronglySorted_map_items; [|done].
    intros a. by destruct (decide _).
  - injection Hstep as <-. unfold cancel, set_queue. simpl.
    apply StronglySorted_filter_items.
    by rewrite (proj1 (proj2 (proj2 (foldl_settle_sched _ _ _ _)))).
  - injection Hstep as <-. simpl. constructor.
  - by injection Hstep as <-.
  - injection Hstep as <-. simpl. constructor.
  - by injection Hstep as <-.
Qed.

(** X1.  After any sequence of events the waiting tasks are in dispatch
    order: each goes before all that follow it.  So the task that
    [process] takes next, the head of the queue, has the highest priority
    of all waiting tasks, and the earliest enqueue time among those of
    that priority. *)
Theorem queue_in_dispatch_order (c : Z) (evs : list (event V)) q :
  reaches (create c) evs q →
  StronglySorted precedes (queue q)
  ∧ ∀ item rest, queue q = item :: rest →
      ∀ other, other ∈ rest →
        (priority other ≤ priority item)%Z
        ∧ (priority other = priority item →
           (timestamp item ≤ timestamp other)%Z).
Proof.
  intros Hreach.
  assert (StronglySorted precedes (queue q)) as Hs.
  { induction Hreach as [|evs ev q q' _ IH Hstep]; [constructor|].
    by eapply step_queue_sorted. }
  split; [done|]. intros item rest Hq other Hin. rewrite Hq in Hs.
  apply StronglySorted_inv in Hs as [_ Hall].
  rewrite Forall_forall in Hall. specialize (Hall other Hin).
  unfold precedes in Hall. lia.
Qed.

End TaskQueueOrderFacts.

(** Under a limit of one, a first task is started at once; of the three
    that then wait, the one of priority 5 is at the head although it came
    last, and the two of priority 0 follow in the order of their arrival. *)
Lemma queue_in_dispatch_order_witness :
  let evs := [TaskQueue.Add 0 0 0 10; TaskQueue.Add 1 0 0 11;
              TaskQueue.Add 2 0 0 12; TaskQueue.Add 3 5 0 13] in
  ∃ q : TaskQueue.t string,
    TaskQueueSpec.run evs (TaskQueue.create 1) = Some q
    ∧ map TaskQueue.task (TaskQueue.queue q) = [3; 1; 2]%nat
    ∧ StronglySorted TaskQueueOrder.precedes (TaskQueue.queue q).
Proof.
  intros evs.
  assert (∃ q : TaskQueue.t string,
            TaskQueueSpec.run evs (TaskQueue.create 1) = Some q
            ∧ map TaskQueue.task (TaskQueue.queue q) = [3; 1; 2]%nat)
    as (q & Hrun & Hq) by (eexists; split; vm_compute; reflexivity).
  exists q. split; [exact Hrun|]. split; [exact Hq|].
  exact (proj1 (queue_in_dispatch_order 1 evs q
                  (run_reaches evs _ q Hrun))).
Defined.

Section TaskQueueStatsFacts.
Import TaskQueue TaskQueueSpec TaskQueueStats.
Context {V : Type}.
Implicit Types (q : TaskQueue.t V) (id : nat) (r : Result V).
Local Open Scope list_scope.

Lemma settle_store q id r :
  results (settle id r q) = results q
  ∧ errors (settle id r q) = errors q
  ∧ completedCount (settle id r q) = completedCount q
  ∧ maxStoredResults (settle id r q) = maxStoredResults q.
Proof. rewrite settle_unfold. by destruct (was_pending q id). Qed.

Lemma foldl_settle_store {B} (f : B → nat) (e : jsError) (l : list B) q :
  let q' := foldl (fun q x => settle (f x) (Throw e) q) q l in
  results q' = results q
  ∧ errors q' = errors q
  ∧ completedCount q' = completedCount q
  ∧ maxStoredResults q' = maxStoredResults q.
Proof.
  revert q. induction l as [|x l IH]; intros q; [done|]. simpl.
  destruct (IH (settle (f x) (Throw e) q)) as (-> & -> & -> & ->).
  apply settle_store.
Qed.

Lemma process_store q :
  results (process q) = results q
  ∧ errors (process q) = errors q
  ∧ completedCount (process q) = completedCount q
  ∧ maxStoredResults (process q) = maxStoredResults q.
Proof.
  unfold process. destruct (_ || _); [done|].
  destruct (queue q) as [|item rest]; [done|]. by destruct (cancelled item).
Qed.

Lemma add_store q id prio timeout now :
  results (add id prio timeout now q) = results q
  ∧ errors (add id prio timeout now q) = errors q
  ∧ completedCount (add id prio timeout now q) = completedCount q
  ∧ maxStoredResults (add id prio timeout now q) = maxStoredResults q.
Proof.
  unfold add. destruct (isStopped q).
  - destruct (settle_store (set_promises (insert id Pending) q) id
                (Throw stopped_error)) as (-> & -> & -> & ->). done.
  - match goal with |- context [process ?x] =>
      destruct (process_store x) as (-> & -> & -> & ->) end. done.
Qed.

Lemma foldl_add_store (ids : list nat) prio now q :
  let q' := foldl (fun q id => add id prio 0 now q) q ids in
  results q' = results q
  ∧ errors q' = errors q
  ∧ completedCount q' = completedCount q
  ∧ maxStoredResults q' = maxStoredResults q.
Proof.
  revert q. induction ids as [|id ids IH]; intros q; [done|]. simpl.
  destruct (IH (add id prio 0 now q)) as (-> & -> & -> & ->).
  apply add_store.
Qed.

Lemma length_trim {A} (n : Z) (l : list A) :
  (0 ≤ n)%Z → (Z.of_nat (length (trim n l)) ≤ n)%Z.
Proof.
  intros Hn. unfold trim, slice_last.
  destruct (Z.gtb_spec (Z.of_nat (length l)) n); [|done].
  rewrite length_drop. lia.
Qed.

Lemma length_trim_le {A} (n : Z) (l : list A) :
  (length (trim n l) ≤ length l)%nat.
Proof.
  unfold trim, slice_last. destruct (_ >? _)%Z; [|done].
  rewrite length_drop. lia.
Qed.

(** What one event does to the counters and the stored lists. *)
Lemma step_store (ev : event V) q q' :
  step ev q = Some q' →
  (0 ≤ maxStoredResults q)%Z →
  (Z.of_nat (length (results q)) ≤ maxStoredResults q)%Z →
  (Z.of_nat (length (errors q)) ≤ maxStoredResults q)%Z →
  maxStoredResults q' = maxStoredResults q
  ∧ completedCount q'
    = (completedCount q + if fulfils ev then 1 else 0)%Z
  ∧ (Z.of_nat (length (results q')) ≤ maxStoredResults q)%Z
  ∧ (Z.of_nat (length (errors q')) ≤ maxStoredResults q)%Z.
Proof.
  intros Hstep Hn Hr He. destruct ev; simpl in Hstep.
  - destruct (decide _); [|done]. injection Hstep as <-.
    destruct (add_store q id prio timeout now) as (-> & -> & -> & ->).
    simpl. split_and!; [done|lia|done|done].
  - destruct (decide _); [|done]. injection Hstep as <-.
    unfold processAll. simpl.
    destruct (foldl_add_store ids prio now q) as (-> & -> & -> & ->).
    split_and!; [done|lia|done|done].
  - destruct (immediates q); [done|]. injection Hstep as <-.
    match goal with |- context [process ?x] =>
      destruct (process_store x) as (-> & -> & -> & ->) end.
    simpl. split_and!; [done|lia|done|done].
  - destruct (decide _); [|done]. injection Hstep as <-.
    unfold resume_process. destruct r as [v|err]; simpl.
    + match goal with |- context [settle id (Return v) ?x] =>
        destruct (settle_store x id (Return v)) as (-> & -> & -> & ->) end.
      simpl. split_and!; [done|done| |].
      * by apply length_trim.
      * etrans; [|exact He]. apply inj_le, length_trim_le.
    + match goal with |- context [settle id (Throw err) ?x] =>
        destruct (settle_store x id (Throw err)) as (-> & -> & -> & ->) end.
      simpl. split_and!; [done|lia| |].
      * etrans; [|exact Hr]. apply inj_le, length_trim_le.
      * by apply length_trim.
  - destruct (decide _); [|done]. injection Hstep as <-.
    unfold on_timeout.
    match goal with |- context [settle id ?r ?x] =>
      destruct (settle_store x id r) as (-> & -> & -> & ->) end.
    simpl. split_and!; [done|lia|done|done].
  - injection Hstep as <-. unfold cancel, set_queue. simpl.
    match goal with |- context [foldl ?f q ?l] =>
      destruct (foldl_settle_store task cancelled_error l q)
        as (-> & -> & -> & ->) end.
    split_and!; [done|lia|done|done].
  - injection Hstep as <-. unfold stop. simpl.
    destruct (foldl_settle_store task stop_error (queue q) q)
      as (-> & -> & -> & ->).
    split_and!; [done|lia|done|done].
  - injection Hstep as <-. simpl. split_and!; [done|lia|done|done].
  - injection Hstep as <-. simpl. split_and!; [done|lia|lia|lia].
  - injection Hstep as <-. simpl. split_and!; [done|lia|done|done].
Qed.

(** X2.  The figures of [getStats] after any sequence of events:
    [completed] is the number of tasks that fulfilled since the queue was
    made, whatever [clear] and the cap on stored results did in between;
    the stored results and the stored errors, and so the figure [errors],
    never exceed 1000. *)
Theorem stats_after_events (c : Z) (evs : list (event V)) q :
  reaches (create c) evs q →
  completed (getStats q) = Z.of_nat (fulfilments evs)
  ∧ (errors_ (getStats q) ≤ 1000)%nat
  ∧ (length (results q) ≤ 1000)%nat.
Proof.
  intros Hreach.
  assert (maxStoredResults q = 1000%Z
          ∧ completedCount q = Z.of_nat (fulfilments evs)
          ∧ (Z.of_nat (length (results q)) ≤ 1000)%Z
          ∧ (Z.of_nat (length (errors q)) ≤ 1000)%Z) as (_ & Hc & Hr & He).
  { induction Hreach as [|evs ev q q' _ IH Hstep]; [by simpl|].
    destruct IH as (Hn & Hc & Hr & He).
    destruct (step_store ev q q' Hstep) as (Hn' & Hc' & Hr' & He');
      [lia..|].
    rewrite Hn', Hc', Hc, Hn in *. split_and!; [done| |done|done].
    unfold fulfilments. rewrite filter_app, length_app.
    rewrite filter_cons, filter_nil.
    destruct (decide (fulfils ev = true)) as [Hf|Hf];
      [|apply not_true_is_false in Hf]; rewrite Hf; simpl; lia. }
  simpl. split_and!; [done|lia|lia].
Qed.

End TaskQueueStatsFacts.

(** Two tasks fulfil and one rejects; [clear] empties the stored results,
    and [completed] still says two. *)
Lemma stats_after_events_witness :
  let evs := [TaskQueue.ProcessAll [0; 1; 2]%nat 0 0;
              TaskQueue.Complete 0 (Return "a");
              TaskQueue.Complete 1 (Throw (Error "boom"));
              TaskQueue.Complete 2 (Return "c");
              TaskQueue.Clear] in
  ∃ q : TaskQueue.t string,
    TaskQueueSpec.run evs (TaskQueue.create 32) = Some q
    ∧ TaskQueue.results q = []
    ∧ TaskQueueStats.completed (TaskQueueStats.getStats q) = 2%Z
    ∧ (TaskQueueStats.errors_ (TaskQueueStats.getStats q) ≤ 1000)%nat.
Proof.
  intros evs.
  assert (∃ q : TaskQueue.t string,
            TaskQueueSpec.run evs (TaskQueue.create 32) = Some q
            ∧ TaskQueue.results q = [])
    as (q & Hrun & Hq) by (eexists; split; vm_compute; reflexivity).
  exists q. split; [exact Hrun|]. split; [exact Hq|].
  destruct (stats_after_events 32 evs q (run_reaches evs _ q Hrun))
    as (Hc & He & _).
  split; [exact Hc | exact He].
Defined.

Section TaskQueueFateFacts.
Import TaskQueue TaskQueueSpec TaskQueueFate.
Context {V : Type}.
Implicit Types (q : TaskQueue.t V) (id : nat) (r : Result V).
Local Open Scope list_scope.

(** *** Promises under [settle] *)

Lemma settle_lookup_ne q id id' r :
  id ≠ id' → promises (settle id' r q) !! id = promises q !! id.
Proof.
  intros Hne. rewrite settle_unfold. destruct (was_pending q id'); [|done].
  simpl. by rewrite lookup_insert_ne.
Qed.

Lemma settle_lookup_settled q id id' r p :
  promises q !! id = Some p → p ≠ Pending →
  promises (settle id' r q) !! id = Some p.
Proof.
  intros Hp Hne. destruct (decide (id = id')) as [<-|Hid].
  - rewrite settle_unfold. unfold was_pending. rewrite Hp.
    by destruct p.
  - by rewrite settle_lookup_ne.
Qed.

Lemma settle_lookup_pending q id r :
  promises q !! id = Some Pending →
  promises (settle id r q) !! id = Some (settled_as r).
Proof.
  intros Hp. rewrite settle_unfold. unfold was_pending. rewrite Hp. simpl.
  by rewrite lookup_insert_eq.
Qed.

Lemma settle_timers_etc q id r :
  queue (settle id r q) = queue q
  ∧ inFlight (settle id r q) = inFlight q
  ∧ timers (settle id r q) = timers q.
Proof. destruct (settle_sched q id r) as (_ & _ & ? & ? & _ & _ & ?). done. Qed.

Lemma foldl_settle_lookup_kept {B} (f : B → nat) (e : jsError) (l : list B)
    q id p :
  promises q !! id = Some p →
  p ≠ Pending ∨ id ∉ map f l →
  promises (foldl (fun q x => settle (f x) (Throw e) q) q l) !! id = Some p.
Proof.
  revert q. induction l as [|x l IH]; intros q Hp Hor; [done|]. simpl.
  apply IH.
  - destruct Hor as [Hne|Hnot].
    + by apply settle_lookup_settled.
    + rewrite settle_lookup_ne; [done|]. intros ->. apply Hnot. simpl. left.
  - destruct Hor as [Hne|Hnot]; [by left|right].
    intros Hin. apply Hnot. simpl. by right.
Qed.

Lemma foldl_settle_lookup_hit {B} (f : B → nat) (e : jsError) (l : list B)
    q id :
  promises q !! id = Some Pending → id ∈ map f l →
  promises (foldl (fun q x => settle (f x) (Throw e) q) q l) !! id
  = Some (Rejected e).
Proof.
  revert q. induction l as [|x l IH]; intros q Hp Hin.
  - by apply elem_of_nil in Hin.
  - simpl. destruct (decide (f x = id)) as [Hx|Hx].
    + apply (foldl_settle_lookup_kept f e l _ id (Rejected e)); [|by left].
      rewrite Hx. by apply (settle_lookup_pending q id (Throw e)).
    + apply IH.
      * by rewrite settle_lookup_ne.
      * simpl in Hin. apply elem_of_cons in Hin as [Hin|Hin]; [|done].
        by subst.
Qed.

Lemma foldl_settle_timers_etc {B} (f : B → nat) (e : jsError) (l : list B) q :
  let q' := foldl (fun q x => settle (f x) (Throw e) q) q l in
  queue q' = queue q ∧ inFlight q' = inFlight q ∧ timers q' = timers q.
Proof.
  revert q. induction l as [|x l IH]; intros q; [done|]. simpl.
  destruct (IH (settle (f x) (Throw e) q)) as (-> & -> & ->).
  apply settle_timers_etc.
Qed.

(** *** What [process] starts *)

Lemma process_parts q :
  (∀ item, item ∈ queue (process q) → item ∈ queue q)
  ∧ (∀ id, id ∈ inFlight (process q) →
       id ∈ inFlight q
       ∨ ∃ item, item ∈ queue q ∧ task item = id ∧ cancelled item = false)
  ∧ (∀ id, id ∈ timers (process q) → id ∈ timers q ∧ (id ∈ inFlight (process q) → id ∈ inFlight q)).
Proof.
  unfold process. destruct (_ || _); [by eauto|].
  destruct (queue q) as [|item rest] eqn:Hq; [rewrite Hq; by eauto|].
  destruct (cancelled item) eqn:Hc; simpl.
  - split_and!; [intros; by right|by eauto|by eauto].
  - split_and!.
    + intros; by right.
    + intros id [Hin|Hin%list_elem_of_singleton]%elem_of_app; [by left|].
      right. exists item. split_and!; [left|done|done].
    + intros id [Hne Hin]%list_elem_of_filter. split; [done|].
      intros [?|?%list_elem_of_singleton]%elem_of_app; done.
Qed.

Lemma sort_elem (x : queueItem) (l : list queueItem) : x ∈ sort l ↔ x ∈ l.
Proof. by rewrite sort_perm. Qed.

(** *** One event *)

Lemma add_lookup_ne q id0 prio timeout now id :
  id ≠ id0 →
  promises (add id0 prio timeout now q) !! id = promises q !! id.
Proof.
  intros Hne. unfold add. destruct (isStopped q).
  - rewrite settle_lookup_ne by done. simpl. by rewrite lookup_insert_ne.
  - rewrite (proj1 (proj2 (proj2 (process_sched _)))). simpl.
    by rewrite lookup_insert_ne.
Qed.

Lemma foldl_add_lookup_ne (ids : list nat) prio now q id :
  id ∉ ids →
  promises (foldl (fun q id => add id prio 0 now q) q ids) !! id
  = promises q !! id.
Proof.
  revert q. induction ids as [|id0 ids IH]; intros q Hnot; [done|]. simpl.
  rewrite IH.
  - apply add_lookup_ne. intros ->. apply Hnot. left.
  - intros Hin. apply Hnot. by right.
Qed.

Lemma fresh_not_Some q id id' :
  fresh q id' → is_Some (promises q !! id) → id ≠ id'.
Proof. intros Hf [p Hp] ->. unfold fresh in Hf. congruence. Qed.

Lemma Forall_fresh_not_elem q (ids : list nat) id :
  Forall (fresh q) ids → is_Some (promises q !! id) → id ∉ ids.
Proof.
  intros Hall Hp Hin. rewrite Forall_forall in Hall.
  by apply (fresh_not_Some q id id (Hall id Hin) Hp).
Qed.

(** A promise that has settled stays as it is, and so does a pending
    promise that nothing refers to any more. *)
Lemma step_promise_kept (ev : event V) q q' id p :
  step ev q = Some q' →
  promises q !! id = Some p →
  p ≠ Pending ∨ forgotten q id →
  promises q' !! id = Some p.
Proof.
  intros Hstep Hp Hor. destruct ev; simpl in Hstep.
  - destruct (decide _) as [Hf|]; [|done]. injection Hstep as <-.
    rewrite add_lookup_ne; [done|]. by eapply fresh_not_Some.
  - destruct (decide _) as [(Hf & _ & _)|]; [|done]. injection Hstep as <-.
    unfold processAll. simpl. rewrite foldl_add_lookup_ne; [done|].
    by eapply Forall_fresh_not_elem.
  - destruct (immediates q); [done|]. injection Hstep as <-.
    by rewrite (proj1 (proj2 (proj2 (process_sched _)))).
  - destruct (decide _) as [Hin|]; [|done]. injection Hstep as <-.
    unfold resume_process. simpl.
    destruct Hor as [Hne|(_ & Hfl & _)].
    + destruct r; by apply settle_lookup_settled.
    + assert (id ≠ id0) by (by intros ->).
      destruct r; by rewrite settle_lookup_ne.
  - destruct (decide _) as [Hin|]; [|done]. injection Hstep as <-.
    unfold on_timeout. destruct Hor as [Hne|(_ & _ & Ht)].
    + by apply settle_lookup_settled.
    + assert (id ≠ id0) by (by intros ->).
      by rewrite settle_lookup_ne.
  - injection Hstep as <-. unfold cancel, set_queue. simpl.
    apply foldl_settle_lookup_kept; [done|].
    destruct Hor as [Hne|(Hq & _ & _)]; [by left|right].
    intros Hin. apply Hq. apply list_elem_of_fmap in Hin as (it & -> & Hit).
    apply list_elem_of_filter in Hit as [_ Hit].
    apply list_elem_of_fmap. by exists it.
  - injection Hstep as <-. unfold stop. simpl.
    apply foldl_settle_lookup_kept; [done|].
    destruct Hor as [Hne|(Hq & _ & _)]; [by left|by right].
  - by injection Hstep as <-.
  - by injection Hstep as <-.
  - by injection Hstep as <-.
Qed.

Lemma add_dropped q id0 prio timeout now id :
  fresh q id0 → dropped q id → dropped (add id0 prio timeout now q) id.
Proof.
  intros Hf (Hp & Hfl & Hq).
  assert (id ≠ id0) as Hne by (by eapply fresh_not_Some).
  split; [by rewrite add_lookup_ne|].
  unfold add. destruct (isStopped q).
  - destruct (settle_timers_etc (set_promises (insert id0 Pending) q) id0
                (Throw stopped_error)) as (-> & -> & _). done.
  - match goal with |- context [process ?x] =>
      destruct (process_parts x) as (Hq' & Hfl' & _) end.
    simpl in *. split.
    + intros Hin. apply Hfl' in Hin as [Hin|(item & Hin & Hid & Hc)]; [done|].
      apply sort_elem, elem_of_app in Hin
        as [Hin|Hin%list_elem_of_singleton].
      * rewrite (Hq item Hin Hid) in Hc. done.
      * subst item. simpl in Hid. done.
    + intros item Hin Hid. apply Hq', sort_elem, elem_of_app in Hin
        as [Hin|Hin%list_elem_of_singleton]; [by apply Hq|].
      subst item. simpl in Hid. done.
Qed.

Lemma foldl_add_dropped (ids : list nat) prio now q id :
  Forall (fresh q) ids → NoDup ids → dropped q id →
  dropped (foldl (fun q id => add id prio 0 now q) q ids) id.
Proof.
  revert q. induction ids as [|id0 ids IH]; intros q Hall Hnd Hd; [done|].
  simpl. apply Forall_cons in Hall as [Hf Hall].
  apply NoDup_cons in Hnd as [Hnot Hnd].
  apply IH; [|done|by apply add_dropped].
  rewrite Forall_forall in Hall |- *. intros x Hx.
  apply add_fresh. split; [|by apply Hall]. by intros ->.
Qed.

(** A task that is [dropped] stays so: no event starts it. *)
Lemma step_dropped (ev : event V) q q' id :
  step ev q = Some q' → dropped q id → dropped q' id.
Proof.
  intros Hstep Hd. destruct ev; simpl in Hstep.
  - destruct (decide _) as [Hf|]; [|done]. injection Hstep as <-.
    by apply add_dropped.
  - destruct (decide _) as [(Hf & Hnd & _)|]; [|done]. injection Hstep as <-.
    apply (foldl_add_dropped ids prio now q id Hf Hnd) in Hd.
    by destruct Hd.
  - destruct (immediates q) as [|n]; [done|]. injection Hstep as <-.
    destruct Hd as (Hp & Hfl & Hq).
    match goal with |- dropped (process ?x) _ =>
      destruct (process_parts x) as (Hq' & Hfl' & _) end.
    split_and!.
    + by rewrite (proj1 (proj2 (proj2 (process_sched _)))).
    + intros Hin. apply Hfl' in Hin as [Hin|(item & Hin & Hid & Hc)]; [done|].
      simpl in Hin. rewrite (Hq item Hin Hid) in Hc. done.
    + intros item Hin Hid. apply Hq' in Hin. by apply Hq.
  - destruct (decide _) as [Hin|]; [|done]. injection Hstep as <-.
    destruct Hd as (Hp & Hfl & Hq). unfold resume_process.
    split_and!; simpl.
    + destruct r; by apply settle_promises_is_Some.
    + intros [_ Hin']%list_elem_of_filter. revert Hin'.
      destruct r; by rewrite (proj1 (proj2 (settle_timers_etc _ _ _))).
    + destruct r; by rewrite (proj1 (settle_timers_etc _ _ _)).
  - destruct (decide _) as [Hin|]; [|done]. injection Hstep as <-.
    destruct Hd as (Hp & Hfl & Hq). unfold on_timeout.
    destruct (settle_timers_etc
      (Queue (concurrency q) (running q)
          (map (fun it => if decide (task it = id0)
                          then QueueItem (task it) (priority it) true
                                         (timestamp it)
                          else it) (queue q))
          (results q) (errors q) (isStopped q) (maxStoredResults q)
          (completedCount q) (inFlight q) (immediates q)
          (filter (fun i => i ≠ id0) (timers q)) (promises q)
          (settlements q) (all q)) id0 (Throw timeout_error))
      as (Hq' & Hfl' & _).
    split_and!.
    + by apply settle_promises_is_Some.
    + by rewrite Hfl'.
    + rewrite Hq'. simpl. intros item Hitem Hid.
      apply list_elem_of_fmap in Hitem as (it & -> & Hit).
      destruct (decide (task it = id0)); [done|]. by apply Hq.
  - injection Hstep as <-. destruct Hd as (Hp & Hfl & Hq).
    unfold cancel, set_queue.
    match goal with |- context [foldl ?f q ?l] =>
      destruct (foldl_settle_timers_etc task cancelled_error l q)
        as (Hq' & Hfl' & _);
      pose proof (proj2 (proj2 (proj2 (proj2 (proj2
        (foldl_settle_sched task cancelled_error l q))))) id) as Hp'
    end.
    split_and!; simpl.
    + by apply Hp'.
    + by rewrite Hfl'.
    + rewrite Hq'. intros item [_ Hin]%list_elem_of_filter. by apply Hq.
  - injection Hstep as <-. destruct Hd as (Hp & Hfl & Hq). unfold stop.
    destruct (foldl_settle_timers_etc task stop_error (queue q) q)
      as (_ & Hfl' & _).
    pose proof (proj2 (proj2 (proj2 (proj2 (proj2
      (foldl_settle_sched task stop_error (queue q) q))))) id) as Hp'.
    split_and!; simpl.
    + by apply Hp'.
    + by rewrite Hfl'.
    + intros item Hin. by apply elem_of_nil in Hin.
  - injection Hstep as <-. by destruct Hd.
  - injection Hstep as <-. destruct Hd as (Hp & Hfl & Hq).
    split_and!; simpl; [done|done|].
    intros item Hin. by apply elem_of_nil in Hin.
  - injection Hstep as <-. by destruct Hd.
Qed.

Lemma reaches_dropped (evs : list (event V)) q q' id :
  reaches q evs q' → dropped q id → dropped q' id.
Proof.
  induction 1 as [|evs ev q1 q2 _ IH Hstep]; [done|].
  intros Hd. eapply step_dropped; [exact Hstep|]. by apply IH.
Qed.

Lemma reaches_promise_settled (evs : list (event V)) q q' id p :
  reaches q evs q' → promises q !! id = Some p → p ≠ Pending →
  promises q' !! id = Some p.
Proof.
  induction 1 as [|evs ev q1 q2 _ IH Hstep]; [done|].
  intros Hp Hne. eapply step_promise_kept; [exact Hstep| |by left].
  by apply IH.
Qed.

(** *** Armed timeouts *)

Lemma add_timers_wait q id prio timeout now :
  scheduled q → fresh q id → timers_wait q →
  timers_wait (add id prio timeout now q).
Proof.
  intros Hs Hf Ht id' Hin.
  assert (id ∉ inFlight q) as Hnew.
  { intros Hfl. destruct (known_promised q Hs id) as [p Hp].
    - apply elem_of_app. by right.
    - unfold fresh in Hf. congruence. }
  destruct (add_sched q id prio timeout now) as (_ & _ & Hdom).
  rewrite Hdom. revert Hin. unfold add. destruct (isStopped q).
  - destruct (settle_timers_etc (set_promises (insert id Pending) q) id
                (Throw stopped_error)) as (_ & -> & ->). simpl.
    intros Hin. destruct (Ht id' Hin). by auto.
  - match goal with |- context [process ?x] =>
      destruct (process_parts x) as (_ & _ & Htm) end.
    intros Hin. apply Htm in Hin as [Hin Hfl]. simpl in Hin, Hfl.
    assert (id' = id ∨ id' ∈ timers q) as [->|Hold].
    { destruct (timeout >? 0)%Z; [|by right].
      apply elem_of_app in Hin as [?|?%list_elem_of_singleton]; by auto. }
    + split; [by left|]. intros Hfl'. by apply Hfl in Hfl'.
    + destruct (Ht id' Hold) as [Hp Hnot]. split; [by right|].
      intros Hfl'. by apply Hfl in Hfl'.
Qed.

Lemma foldl_add_timers_wait (ids : list nat) prio now q :
  scheduled q → Forall (fresh q) ids → NoDup ids → timers_wait q →
  timers_wait (foldl (fun q id => add id prio 0 now q) q ids).
Proof.
  revert q. induction ids as [|id ids IH]; intros q Hs Hall Hnd Ht; [done|].
  simpl. apply Forall_cons in Hall as [Hf Hall].
  apply NoDup_cons in Hnd as [Hnot Hnd].
  apply IH; [by apply add_scheduled| |done|by apply add_timers_wait].
  rewrite Forall_forall in Hall |- *. intros x Hx.
  apply add_fresh. split; [|by apply Hall]. by intros ->.
Qed.

Lemma step_timers_wait (ev : event V) q q' :
  step ev q = Some q' → scheduled q → timers_wait q → timers_wait q'.
Proof.
  intros Hstep Hs Ht. destruct ev; simpl in Hstep.
  - destruct (decide _) as [Hf|]; [|done]. injection Hstep as <-.
    by apply add_timers_wait.
  - destruct (decide _) as [(Hf & Hnd & _)|]; [|done]. injection Hstep as <-.
    intros id Hin. by apply (foldl_add_timers_wait ids prio now q Hs Hf Hnd Ht).
  - destruct (immediates q) as [|n]; [done|]. injection Hstep as <-.
    match goal with |- timers_wait (process ?x) =>
      destruct (process_parts x) as (_ & _ & Htm) end.
    intros id Hin. apply Htm in Hin as [Hin Hfl]. simpl in Hin, Hfl.
    destruct (Ht id Hin) as [Hp Hnot].
    split; [by rewrite (proj1 (proj2 (proj2 (process_sched _))))|].
    intros Hfl'. by apply Hfl in Hfl'.
  - destruct (decide _) as [Hin|]; [|done]. injection Hstep as <-.
    unfold resume_process. intros id' Hin'. simpl in Hin'.
    assert (id' ∈ timers q) as Hold
      by (revert Hin'; destruct r;
          by rewrite (proj2 (proj2 (settle_timers_etc _ _ _)))).
    destruct (Ht id' Hold) as [Hp Hnot]. split; simpl.
    + destruct r; by apply settle_promises_is_Some.
    + intros [_ Hfl]%list_elem_of_filter. revert Hfl.
      destruct r; by rewrite (proj1 (proj2 (settle_timers_etc _ _ _))).
  - destruct (decide _) as [Hin|]; [|done]. injection Hstep as <-.
    unfold on_timeout. intros id' Hin'.
    rewrite (proj2 (proj2 (settle_timers_etc _ _ _))) in Hin'.
    rewrite (proj1 (proj2 (settle_timers_etc _ _ _))).
    simpl in *. apply list_elem_of_filter in Hin' as [_ Hold].
    destruct (Ht id' Hold) as [Hp Hnot].
    split; [by apply settle_promises_is_Some|done].
  - injection Hstep as <-. unfold cancel, set_queue. intros id' Hin'.
    simpl in *.
    match goal with |- context [foldl ?f q ?l] =>
      destruct (foldl_settle_timers_etc task cancelled_error l q)
        as (_ & Hfl' & Htm');
      pose proof (proj2 (proj2 (proj2 (proj2 (proj2
        (foldl_settle_sched task cancelled_error l q))))) id') as Hp'
    end.
    rewrite Htm' in Hin'. rewrite Hfl'. destruct (Ht id' Hin').
    split; [by apply Hp'|done].
  - injection Hstep as <-. unfold stop. intros id' Hin'. simpl in *.
    destruct (foldl_settle_timers_etc task stop_error (queue q) q)
      as (_ & Hfl' & Htm').
    pose proof (proj2 (proj2 (proj2 (proj2 (proj2
      (foldl_settle_sched task stop_error (queue q) q))))) id') as Hp'.
    rewrite Htm' in Hin'. rewrite Hfl'. destruct (Ht id' Hin').
    split; [by apply Hp'|done].
  - injection Hstep as <-. exact Ht.
  - injection Hstep as <-. exact Ht.
  - injection Hstep as <-. exact Ht.
Qed.

Lemma reaches_timers_wait (c : Z) (evs : list (event V)) q :
  reaches (create c) evs q → timers_wait q.
Proof.
  intros Hreach.
  assert (scheduled q ∧ timers_wait q) as [_ ?]; [|done].
  induction Hreach as [|evs ev q q' _ IH Hstep].
  - split; [apply create_scheduled|]. intros id Hin. simpl in Hin.
    by apply elem_of_nil in Hin.
  - destruct IH as [Hs Ht].
    split; [by eapply step_scheduled|by eapply step_timers_wait].
Qed.

(** X3.  When the enqueue timeout of a task fires, the task has not been
    started and it never will be: whatever happens afterwards, it is not
    among the tasks in flight.  Its promise is settled from then on and
    keeps its state; it is rejected with the timeout error if it was
    still pending when the timeout fired. *)
Theorem timed_out_task_never_runs (c : Z) (evs : list (event V)) q id q1 :
  reaches (create c) evs q →
  step (Timeout id) q = Some q1 →
  ∃ p, promises q1 !! id = Some p
       ∧ p ≠ Pending
       ∧ (promises q !! id = Some Pending → p = Rejected timeout_error)
       ∧ ∀ evs' q2, reaches q1 evs' q2 →
           (id ∉ inFlight q2) ∧ promises q2 !! id = Some p.
Proof.
  intros Hreach Hstep. simpl in Hstep.
  destruct (decide _) as [Hin|]; [|done]. injection Hstep as <-.
  destruct (reaches_timers_wait c evs q Hreach id Hin) as [[p0 Hp0] Hfl].
  set (q0 := Queue (concurrency q) (running q)
          (map (fun it => if decide (task it = id)
                          then QueueItem (task it) (priority it) true
                                         (timestamp it)
                          else it) (queue q))
          (results q) (errors q) (isStopped q) (maxStoredResults q)
          (completedCount q) (inFlight q) (immediates q)
          (filter (fun i => i ≠ id) (timers q)) (promises q)
          (settlements q) (all q)).
  assert (on_timeout id q = settle id (Throw timeout_error) q0) as Hq1
    by done.
  assert (∃ p, promises (on_timeout id q) !! id = Some p ∧ p ≠ Pending
               ∧ (promises q !! id = Some Pending → p = Rejected timeout_error))
    as (p & Hp & Hne & Hwas).
  { rewrite Hq1. destruct p0 as [|v|e].
    - exists (Rejected timeout_error). split_and!; [|done|done].
      by apply (settle_lookup_pending q0 id (Throw timeout_error)).
    - exists (Fulfilled v). split_and!; [|done|intros; congruence].
      by apply settle_lookup_settled.
    - exists (Rejected e). split_and!; [|done|intros; congruence].
      by apply settle_lookup_settled. }
  exists p. split_and!; [done..|]. intros evs' q2 Hreach2.
  assert (dropped (on_timeout id q) id) as Hd.
  { split_and!.
    - by rewrite Hp.
    - rewrite Hq1. by rewrite (proj1 (proj2 (settle_timers_etc _ _ _))).
    - rewrite Hq1, (proj1 (settle_timers_etc _ _ _)). simpl.
      intros item Hitem Hid.
      apply list_elem_of_fmap in Hitem as (it & -> & Hit).
      destruct (decide (task it = id)); [done|]. done. }
  split.
  - by destruct (reaches_dropped evs' _ q2 id Hreach2 Hd) as (_ & ? & _).
  - by eapply reaches_promise_settled.
Qed.

Lemma add_queue_elem q id0 prio timeout now (item : queueItem) :
  item ∈ queue (add id0 prio timeout now q) →
  item ∈ queue q ∨ task item = id0.
Proof.
  unfold add. destruct (isStopped q).
  - rewrite (proj1 (settle_timers_etc _ _ _)). by left.
  - match goal with |- context [process ?x] =>
      destruct (process_parts x) as (Hq' & _ & _) end.
    intros Hit%Hq'. simpl in Hit.
    apply sort_elem, elem_of_app in Hit as [Hit|Hit%list_elem_of_singleton];
      [by left|right]. by subst item.
Qed.

Lemma add_timers_elem q id0 prio timeout now id :
  id ∈ timers (add id0 prio timeout now q) → id ∈ timers q ∨ id = id0.
Proof.
  unfold add. destruct (isStopped q).
  - rewrite (proj2 (proj2 (settle_timers_etc _ _ _))). by left.
  - match goal with |- context [process ?x] =>
      destruct (process_parts x) as (_ & _ & Htm) end.
    intros [Hin _]%Htm. simpl in Hin. destruct (timeout >? 0)%Z; [|by left].
    apply elem_of_app in Hin as [?|?%list_elem_of_singleton]; by auto.
Qed.

Lemma foldl_add_elem (ids : list nat) prio now q :
  let q' := foldl (fun q id => add id prio 0 now q) q ids in
  (∀ item : queueItem, item ∈ queue q' → item ∈ queue q ∨ task item ∈ ids)
  ∧ (∀ id, id ∈ timers q' → id ∈ timers q ∨ id ∈ ids).
Proof.
  revert q. induction ids as [|id0 ids IH]; intros q; [by auto|]. simpl.
  destruct (IH (add id0 prio 0 now q)) as [Hq Ht]. split.
  - intros item [Hin|Hin]%Hq.
    + apply add_queue_elem in Hin as [?|Heq]; [by left|right; rewrite <- ?Heq; subst; left].
    + right. by right.
  - intros id [Hin|Hin]%Ht.
    + apply add_timers_elem in Hin as [?|Heq]; [by left|right; rewrite <- ?Heq; subst; left].
    + right. by right.
Qed.

(** Nothing brings back a task that the queue has forgotten. *)
Lemma step_forgotten (ev : event V) q q' id :
  step ev q = Some q' → is_Some (promises q !! id) → forgotten q id →
  forgotten q' id.
Proof.
  intros Hstep Hp (Hq & Hfl & Ht).
  assert (dropped q id) as Hd.
  { split_and!; [done|done|]. intros item Hin Hid. exfalso. apply Hq.
    apply list_elem_of_fmap. by exists item. }
  destruct (step_dropped ev q q' id Hstep Hd) as (_ & Hfl' & _).
  assert (∀ item : queueItem, item ∈ queue q → task item ≠ id) as Hq0.
  { intros item Hin Hid. apply Hq, list_elem_of_fmap. by exists item. }
  cut ((∀ item : queueItem, item ∈ queue q' → task item ≠ id)
       ∧ (id ∉ timers q')).
  { intros [Hq' Ht']. split_and!; [|done|done].
    intros (item & Hid & Hin)%list_elem_of_fmap. by apply (Hq' item). }
  destruct ev; simpl in Hstep.
  - destruct (decide _) as [Hf|]; [|done]. injection Hstep as <-.
    assert (id ≠ id0) as Hne by (by eapply fresh_not_Some). split.
    + intros item [Hin| ->]%add_queue_elem; [by apply Hq0|done].
    + intros [?| ->]%add_timers_elem; done.
  - destruct (decide _) as [(Hf & Hnd & _)|]; [|done]. injection Hstep as <-.
    assert (id ∉ ids) as Hnot by (by eapply Forall_fresh_not_elem).
    destruct (foldl_add_elem ids prio now q) as [Hq1 Ht1].
    unfold processAll. simpl. split.
    + intros item [Hin|Hin]%Hq1; [by apply Hq0|]. by intros <-.
    + intros [?|?]%Ht1; done.
  - destruct (immediates q) as [|n]; [done|]. injection Hstep as <-.
    match goal with |- context [process ?x] =>
      destruct (process_parts x) as (Hq1 & _ & Ht1) end.
    split.
    + intros item Hin%Hq1. by apply Hq0.
    + by intros [? _]%Ht1.
  - destruct (decide _) as [Hin|]; [|done]. injection Hstep as <-.
    unfold resume_process. simpl.
    destruct r; rewrite (proj1 (settle_timers_etc _ _ _)),
      (proj2 (proj2 (settle_timers_etc _ _ _))); done.
  - destruct (decide _) as [Hin|]; [|done]. injection Hstep as <-.
    unfold on_timeout.
    rewrite (proj1 (settle_timers_etc _ _ _)),
      (proj2 (proj2 (settle_timers_etc _ _ _))). simpl. split.
    + intros item (it & -> & Hit)%list_elem_of_fmap.
      destruct (decide (task it = id0)); simpl; by apply Hq0.
    + by intros [_ ?]%list_elem_of_filter.
  - injection Hstep as <-. unfold cancel, set_queue. simpl.
    match goal with |- context [foldl ?f q ?l] =>
      destruct (foldl_settle_timers_etc task cancelled_error l q)
        as (Hq1 & _ & Ht1) end.
    rewrite Hq1, Ht1. split; [|done].
    intros item [_ Hin]%list_elem_of_filter. by apply Hq0.
  - injection Hstep as <-. unfold stop. simpl.
    destruct (foldl_settle_timers_etc task stop_error (queue q) q)
      as (_ & _ & Ht1).
    rewrite Ht1. split; [|done]. intros item Hin. by apply elem_of_nil in Hin.
  - by injection Hstep as <-.
  - injection Hstep as <-. simpl. split; [|done].
    intros item Hin. by apply elem_of_nil in Hin.
  - by injection Hstep as <-.
Qed.

(** X4.  [clear] drops the waiting tasks without settling their promises:
    a task that waited with no enqueue timeout is left with a promise
    that stays pending whatever happens afterwards. *)
Theorem cleared_task_never_settles q id (evs : list (event V)) q' :
  promises q !! id = Some Pending →
  id ∉ inFlight q →
  id ∉ timers q →
  reaches (clear q) evs q' →
  promises q' !! id = Some Pending ∧ (id ∉ inFlight q').
Proof.
  intros Hp Hfl Ht Hreach.
  assert (promises q' !! id = Some Pending ∧ forgotten q' id)
    as (? & _ & ? & _); [|done].
  induction Hreach as [|evs ev q1 q2 _ IH Hstep].
  - split; [done|]. split_and!; simpl; [|done|done].
    intros Hin. by apply elem_of_nil in Hin.
  - destruct IH as [Hp1 Hf1]. split.
    + eapply step_promise_kept; [exact Hstep|exact Hp1|by right].
    + eapply step_forgotten; [exact Hstep|by rewrite Hp1|done].
Qed.

End TaskQueueFateFacts.

(** A task is added with a timeout while another occupies the only slot;
    the timeout fires; the slot becomes free and the queue is processed:
    the task is skipped, and its promise stays rejected. *)
Lemma timed_out_task_never_runs_witness :
  let evs := [TaskQueue.Add 0 0 0 10; TaskQueue.Add 1 0 500 11] in
  let later := [TaskQueue.Complete 0 (Return "a"); TaskQueue.Tick;
                TaskQueue.Tick] in
  ∃ q q1 q2 : TaskQueue.t string,
    TaskQueueSpec.run evs (TaskQueue.create 1) = Some q
    ∧ TaskQueue.step (TaskQueue.Timeout 1) q = Some q1
    ∧ TaskQueueSpec.run later q1 = Some q2
    ∧ TaskQueue.queue q2 = []
    ∧ (1%nat ∉ TaskQueue.inFlight q2)
    ∧ TaskQueue.promises q2 !! 1%nat
      = Some (TaskQueue.Rejected TaskQueue.timeout_error).
Proof.
  intros evs later.
  assert (∃ q q1 q2 : TaskQueue.t string,
    TaskQueueSpec.run evs (TaskQueue.create 1) = Some q
    ∧ TaskQueue.step (TaskQueue.Timeout 1) q = Some q1
    ∧ TaskQueueSpec.run later q1 = Some q2
    ∧ TaskQueue.queue q2 = []
    ∧ TaskQueue.promises q !! 1%nat = Some TaskQueue.Pending)
    as (q & q1 & q2 & Hrun & Hstep & Hlater & Hq & Hpend)
    by (do 3 eexists; split_and!; vm_compute; reflexivity).
  exists q, q1, q2. split_and!; [done..| |].
  - destruct (timed_out_task_never_runs 1 evs q 1 q1
                (run_reaches evs _ q Hrun) Hstep)
      as (p & _ & _ & _ & Hnever).
    exact (proj1 (Hnever later q2 (run_reaches later q1 q2 Hlater))).
  - destruct (timed_out_task_never_runs 1 evs q 1 q1
                (run_reaches evs _ q Hrun) Hstep)
      as (p & _ & _ & Hwas & Hnever).
    rewrite <- (Hwas Hpend).
    exact (proj2 (Hnever later q2 (run_reaches later q1 q2 Hlater))).
Defined.

(** Two tasks under a limit of one: the second waits.  [clear] drops it;
    the first completes and the queue is processed, and the promise of the
    second is still pending. *)
Lemma cleared_task_never_settles_witness :
  let evs := [TaskQueue.Add 0 0 0 10; TaskQueue.Add 1 0 0 11] in
  let later := [TaskQueue.Complete 0 (Return "a"); TaskQueue.Tick] in
  ∃ q q' : TaskQueue.t string,
    TaskQueueSpec.run evs (TaskQueue.create 1) = Some q
    ∧ map TaskQueue.task (TaskQueue.queue q) = [1%nat]
    ∧ TaskQueueSpec.run later (TaskQueue.clear q) = Some q'
    ∧ TaskQueue.promises q' !! 1%nat = Some TaskQueue.Pending.
Proof.
  intros evs later.
  assert (∃ q q' : TaskQueue.t string,
    TaskQueueSpec.run evs (TaskQueue.create 1) = Some q
    ∧ map TaskQueue.task (TaskQueue.queue q) = [1%nat]
    ∧ TaskQueueSpec.run later (TaskQueue.clear q) = Some q'
    ∧ TaskQueue.promises q !! 1%nat = Some TaskQueue.Pending
    ∧ TaskQueue.inFlight q = [0%nat]
    ∧ TaskQueue.timers q = [])
    as (q & q' & Hrun & Hq & Hlater & Hpend & Hfl & Ht)
    by (do 2 eexists; split_and!; vm_compute; reflexivity).
  exists q, q'. split_and!; [done..|].
  refine (proj1 (cleared_task_never_settles q 1 later q' Hpend _ _
                   (run_reaches later _ q' Hlater))).
  - rewrite Hfl. by intros ?%list_elem_of_singleton.
  - rewrite Ht. by intros ?%elem_of_nil.
Defined.

Section TaskQueueStopFacts.
Import TaskQueue TaskQueueSpec TaskQueueFate TaskQueueStop.
Context {V : Type}.
Implicit Types (q : TaskQueue.t V) (id : nat) (r : Result V).
Local Open Scope list_scope.

Lemma process_stopped q : isStopped q = true → process q = q.
Proof. intros Hs. unfold process. rewrite Hs. by rewrite orb_true_r. Qed.

Lemma add_stopped_parts q id prio timeout now :
  isStopped q = true →
  isStopped (add id prio timeout now q) = true
  ∧ queue (add id prio timeout now q) = queue q
  ∧ inFlight (add id prio timeout now q) = inFlight q
  ∧ promises (add id prio timeout now q) !! id
    = Some (Rejected stopped_error)
  ∧ ∀ id', id' ≠ id →
      promises (add id prio timeout now q) !! id' = promises q !! id'.
Proof.
  intros Hs. unfold add. rewrite Hs.
  set (q0 := set_promises (insert id Pending) q).
  destruct (settle_sched q0 id (Throw stopped_error))
    as (_ & _ & -> & -> & -> & _). split_and!; [done..| |].
  - apply (settle_lookup_pending q0 id (Throw stopped_error)).
    subst q0. simpl. by rewrite lookup_insert_eq.
  - intros id' Hne. rewrite settle_lookup_ne by done.
    subst q0. simpl. by rewrite lookup_insert_ne.
Qed.

Lemma foldl_add_stopped_parts (ids : list nat) prio now q :
  isStopped q = true → NoDup ids →
  ∃ q', q' = foldl (fun q id => add id prio 0 now q) q ids
  ∧ isStopped q' = true ∧ queue q' = queue q ∧ inFlight q' = inFlight q
  ∧ (∀ id, id ∈ ids → promises q' !! id = Some (Rejected stopped_error))
  ∧ ∀ id, id ∉ ids → promises q' !! id = promises q !! id.
Proof.
  intros Hs Hnd. eexists. split; [reflexivity|]. revert q Hs Hnd. induction ids as [|id0 ids IH]; intros q Hs Hnd.
  - split_and!; [done..| |done]. intros id Hin. by apply elem_of_nil in Hin.
  - apply NoDup_cons in Hnd as [Hnot Hnd]. simpl.
    destruct (add_stopped_parts q id0 prio 0 now Hs)
      as (Hs1 & Hq1 & Hfl1 & Hp1 & Hother1).
    destruct (IH (add id0 prio 0 now q) Hs1 Hnd)
      as (Hs2 & Hq2 & Hfl2 & Hp2 & Hother2).
    rewrite Hq1 in Hq2. rewrite Hfl1 in Hfl2.
    split_and!; [done|done|done| |].
    + intros id [->|Hin]%elem_of_cons; [|by apply Hp2].
      by rewrite Hother2.
    + intros id [Hne Hnin]%not_elem_of_cons.
      rewrite Hother2 by done. by apply Hother1.
Qed.

Lemma step_halted (ev : event V) q q1 q2 :
  resumes ev = false → step ev q1 = Some q2 →
  halted q q1 → halted q q2.
Proof.
  intros Hev Hstep (Hs & Hq & Hfl & Hwait & Hnew).
  assert (∀ item, item ∈ queue q → promises q !! task item = Some Pending →
            promises q2 !! task item = Some (Rejected stop_error)) as Hwait2.
  { intros item Hin Hp. eapply step_promise_kept;
      [exact Hstep|by apply Hwait|by left]. }
  assert (∀ id, promises q1 !! id = Some (Rejected stopped_error) →
            promises q2 !! id = Some (Rejected stopped_error)) as Hkeep.
  { intros id Hp. eapply step_promise_kept; [exact Hstep|exact Hp|by left]. }
  destruct ev; simpl in Hstep; try discriminate Hev.
  - destruct (decide _) as [Hf|]; [|done]. injection Hstep as <-.
    destruct (add_stopped_parts q1 id prio timeout now Hs)
      as (Hs1 & Hq1 & Hfl1 & Hp1 & Hother1).
    split_and!; [done|by rewrite Hq1|by rewrite Hfl1|done|].
    intros id' Hnone. destruct (decide (id' = id)) as [->|Hne]; [by right|].
    rewrite Hother1 by done. by apply Hnew.
  - destruct (decide _) as [(Hf & Hnd & _)|]; [|done]. injection Hstep as <-.
    destruct (foldl_add_stopped_parts ids prio now q1 Hs Hnd)
      as (q3 & Hq3 & Hs1 & Hq1 & Hfl1 & Hp1 & Hother1).
    unfold processAll in *. rewrite <- Hq3 in *. simpl in *.
    split_and!; [done|by rewrite Hq1|by rewrite Hfl1|done|].
    intros id' Hnone. destruct (decide (id' ∈ ids)) as [Hin|Hnin].
    + right. by apply Hp1.
    + rewrite Hother1 by done. by apply Hnew.
  - destruct (immediates q1) as [|n]; [done|]. injection Hstep as <-.
    rewrite process_stopped in * by done. simpl in *.
    split_and!; [done..|]. intros id Hnone.
    destruct (Hnew id Hnone) as [?|?]; by auto.
  - destruct (decide _) as [Hin|]; [|done]. injection Hstep as <-.
    unfold resume_process in *. simpl in *.
    split_and!.
    + destruct r; rewrite (proj1 (proj2 (proj2 (proj2 (proj2
        (settle_sched _ _ _)))))); done.
    + destruct r; rewrite (proj1 (proj2 (proj2 (settle_sched _ _ _)))); done.
    + intros id' [_ Hin']%list_elem_of_filter. apply Hfl. revert Hin'.
      destruct r; rewrite (proj1 (proj2 (proj2 (proj2
        (settle_sched _ _ _))))); done.
    + done.
    + intros id' Hnone. destruct (Hnew id' Hnone) as [Hn|Hr].
      * left. destruct r; by apply settle_promises_None.
      * right. by apply Hkeep.
  - destruct (decide _) as [Hin|]; [|done]. injection Hstep as <-.
    unfold on_timeout in *.
    split_and!.
    + by rewrite (proj1 (proj2 (proj2 (proj2 (proj2 (settle_sched _ _ _)))))).
    + rewrite (proj1 (proj2 (proj2 (settle_sched _ _ _)))). simpl.
      by rewrite Hq.
    + intros id' Hin'. apply Hfl. revert Hin'.
      by rewrite (proj1 (proj2 (proj2 (proj2 (settle_sched _ _ _))))).
    + done.
    + intros id' Hnone. destruct (Hnew id' Hnone) as [Hn|Hr].
      * left. by apply settle_promises_None.
      * right. by apply Hkeep.
  - injection Hstep as <-.
    assert (cancel predicate q1 = set_queue [] q1) as Hc
      by (unfold cancel; rewrite Hq, filter_nil; simpl; by rewrite Hq).
    rewrite Hc in *. simpl in *. split_and!; [done..|].
    intros id Hnone. destruct (Hnew id Hnone) as [?|?]; by auto.
  - injection Hstep as <-.
    assert (stop q1 = set_queue [] q1) as Hc.
    { unfold stop, set_queue. rewrite Hq. simpl. by rewrite Hs. }
    rewrite Hc in *. simpl in *. split_and!; [done..|].
    intros id Hnone. destruct (Hnew id Hnone) as [?|?]; by auto.
  - injection Hstep as <-. simpl in *. split_and!; [done..|].
    intros id Hnone. destruct (Hnew id Hnone) as [?|?]; by auto.
  - injection Hstep as <-. simpl in *. split_and!; [done..|].
    intros id Hnone. destruct (Hnew id Hnone) as [?|?]; by auto.
Qed.

Lemma stop_halted q : halted q (stop q).
Proof.
  unfold stop.
  destruct (foldl_settle_timers_etc task stop_error (queue q) q)
    as (_ & Hfl & _).
  split_and!; simpl; [done|done|by rewrite Hfl| |].
  - intros item Hin Hp. apply foldl_settle_lookup_hit; [done|].
    apply list_elem_of_fmap. by exists item.
  - intros id Hnone. left.
    destruct (promises (foldl (fun q0 it => settle (task it)
                (Throw stop_error) q0) q (queue q)) !! id) eqn:Hp; [|done].
    assert (is_Some (promises q !! id)) as [? ?]; [|congruence].
    apply (proj2 (proj2 (proj2 (proj2 (proj2
      (foldl_settle_sched task stop_error (queue q) q))))) id).
    by rewrite Hp.
Qed.

(** X5.  [stop] rejects every task that waits and empties the queue.
    From then on, and until [resume] is called, nothing is started (the
    tasks in flight are tasks that were in flight at the stop), nothing
    waits, and every task submitted is rejected with the error of a
    stopped queue. *)
Theorem stop_until_resume q (evs : list (event V)) q' :
  reaches (stop q) evs q' →
  Forall (fun ev => resumes ev = false) evs →
  halted q q'.
Proof.
  induction 1 as [|evs ev q1 q2 _ IH Hstep]; intros Hall.
  - apply stop_halted.
  - rewrite Forall_app, Forall_singleton in Hall. destruct Hall as [Hall Hev].
    eapply step_halted; [exact Hev|exact Hstep|by apply IH].
Qed.

End TaskQueueStopFacts.

(** One task in flight and one waiting when [stop] is called; then a
    third task is submitted, the first completes and the queue is
    processed.  The task that waited is rejected by the stop, the third by
    the stopped queue, and nothing was started. *)
Lemma stop_until_resume_witness :
  let evs := [TaskQueue.Add 0 0 0 10; TaskQueue.Add 1 0 0 11] in
  let later := [TaskQueue.Add 2 0 0 12; TaskQueue.Complete 0 (Return "a");
                TaskQueue.Tick] in
  ∃ q q' : TaskQueue.t string,
    TaskQueueSpec.run evs (TaskQueue.create 1) = Some q
    ∧ TaskQueueSpec.run later (TaskQueue.stop q) = Some q'
    ∧ TaskQueue.inFlight q' = []
    ∧ TaskQueue.promises q' !! 2%nat
      = Some (TaskQueue.Rejected TaskQueue.stopped_error)
    ∧ TaskQueueStop.halted q q'.
Proof.
  intros evs later.
  assert (∃ q q' : TaskQueue.t string,
    TaskQueueSpec.run evs (TaskQueue.create 1) = Some q
    ∧ TaskQueueSpec.run later (TaskQueue.stop q) = Some q'
    ∧ TaskQueue.inFlight q' = []
    ∧ TaskQueue.promises q' !! 2%nat
      = Some (TaskQueue.Rejected TaskQueue.stopped_error))
    as (q & q' & Hrun & Hlater & Hfl & Hp)
    by (do 2 eexists; split_and!; vm_compute; reflexivity).
  exists q, q'. split_and!; [done..|].
  apply (stop_until_resume q later q' (run_reaches later _ q' Hlater)).
  repeat constructor.
Defined.

Section TaskQueueCancelFacts.
Import TaskQueue TaskQueueSpec TaskQueueFate.
Context {V : Type}.
Implicit Types (q : TaskQueue.t V) (id : nat) (r : Result V).
Local Open Scope list_scope.

(** X6.  [cancel] acts on waiting tasks only.  A waiting task that the
    predicate selects leaves the queue and is never started, whatever
    happens afterwards; its promise, if it was pending, is rejected with
    the cancellation error and stays so.  The tasks in flight are the
    same before and after the call. *)
Theorem cancelled_task_never_runs (c : Z) (evs : list (event V)) q
    (predicate : nat → bool) (item : queueItem) (evs' : list (event V)) q2 :
  reaches (create c) evs q →
  item ∈ queue q →
  predicate (task item) = true →
  reaches (cancel predicate q) evs' q2 →
  inFlight (cancel predicate q) = inFlight q
  ∧ (task item ∉ inFlight q2)
  ∧ (promises q !! task item = Some Pending →
     promises q2 !! task item = Some (Rejected cancelled_error)).
Proof.
  intros Hreach Hin Hpred Hreach2.
  pose proof (reaches_scheduled c evs q Hreach) as Hs.
  assert (task item ∈ map task (queue q)) as Hin'
    by (apply list_elem_of_fmap; by exists item).
  assert (task item ∉ inFlight q) as Hfl.
  { intros Hfl. pose proof (known_nodup q Hs) as Hnd.
    apply NoDup_app in Hnd as (_ & Hdisj & _). by apply (Hdisj (task item)). }
  assert (is_Some (promises q !! task item)) as Hp.
  { apply (known_promised q Hs). apply elem_of_app. by left. }
  set (hit := filter (fun it => predicate (task it) = true) (queue q)).
  destruct (foldl_settle_timers_etc task cancelled_error hit q)
    as (Hq1 & Hfl1 & _).
  assert (inFlight (cancel predicate q) = inFlight q) as Hsame
    by (unfold cancel, set_queue; simpl; exact Hfl1).
  assert (dropped (cancel predicate q) (task item)) as Hd.
  { split_and!.
    - unfold cancel, set_queue. simpl.
      by apply (proj2 (proj2 (proj2 (proj2 (proj2
        (foldl_settle_sched task cancelled_error hit q))))) (task item)).
    - by rewrite Hsame.
    - unfold cancel, set_queue. simpl. fold hit. rewrite Hq1.
      intros it [Hkeep _]%list_elem_of_filter Hid.
      rewrite Hid, Hpred, orb_true_r in Hkeep. done. }
  split_and!; [done| |].
  - by destruct (reaches_dropped evs' _ q2 _ Hreach2 Hd) as (_ & ? & _).
  - intros Hpend.
    eapply reaches_promise_settled; [exact Hreach2| |done].
    unfold cancel, set_queue. simpl. fold hit.
    apply foldl_settle_lookup_hit; [done|].
    apply list_elem_of_fmap. exists item. split; [done|].
    by apply list_elem_of_filter.
Qed.

End TaskQueueCancelFacts.

(** Three tasks under a limit of one; the tasks with an odd name are
    cancelled while task 1 waits.  The queue then runs dry without
    task 1 being started. *)
Lemma cancelled_task_never_runs_witness :
  let evs := [TaskQueue.ProcessAll [0; 1; 2]%nat 0 0] in
  let later := [TaskQueue.Complete 0 (Return "a"); TaskQueue.Tick;
                TaskQueue.Complete 2 (Return "c"); TaskQueue.Tick] in
  ∃ q q2 : TaskQueue.t string,
    TaskQueueSpec.run evs (TaskQueue.create 1) = Some q
    ∧ TaskQueueSpec.run later (TaskQueue.cancel Nat.odd q) = Some q2
    ∧ TaskQueue.results q2 = ["a"; "c"]
    ∧ (1%nat ∉ TaskQueue.inFlight q2)
    ∧ TaskQueue.promises q2 !! 1%nat
      = Some (TaskQueue.Rejected TaskQueue.cancelled_error).
Proof.
  intros evs later.
  assert (∃ q q2 : TaskQueue.t string,
    TaskQueueSpec.run evs (TaskQueue.create 1) = Some q
    ∧ TaskQueueSpec.run later (TaskQueue.cancel Nat.odd q) = Some q2
    ∧ TaskQueue.results q2 = ["a"; "c"]
    ∧ TaskQueue.queue q
      = [TaskQueue.QueueItem 1 0 false 0; TaskQueue.QueueItem 2 0 false 0]
    ∧ TaskQueue.promises q !! 1%nat = Some TaskQueue.Pending)
    as (q & q2 & Hrun & Hlater & Hres & Hq & Hpend)
    by (do 2 eexists; split_and!; vm_compute; reflexivity).
  exists q, q2. split_and!; [done..| |].
  - refine (proj1 (proj2 (cancelled_task_never_runs 1 evs q Nat.odd
      (TaskQueue.QueueItem 1 0 false 0) later q2
      (run_reaches evs _ q Hrun) _ eq_refl
      (run_reaches later _ q2 Hlater)))).
    rewrite Hq. left.
  - refine (proj2 (proj2 (cancelled_task_never_runs 1 evs q Nat.odd
      (TaskQueue.QueueItem 1 0 false 0) later q2
      (run_reaches evs _ q Hrun) _ eq_refl
      (run_reaches later _ q2 Hlater))) Hpend).
    rewrite Hq. left.
Defined.

Section TaskQueueWakeFacts.
Import TaskQueue TaskQueueSpec TaskQueueWake.
Context {V : Type}.
Implicit Types (q : TaskQueue.t V).
Local Open Scope Z_scope.

Lemma awake_same q q' :
  concurrency q' = concurrency q → running q' = running q →
  queue q' = queue q → isStopped q' = isStopped q →
  immediates q' = immediates q →
  awake q → awake q'.
Proof.
  unfold awake, idle. by intros -> -> -> -> ->.
Qed.

Lemma settle_awake q id r : awake q → awake (settle id r q).
Proof.
  destruct (settle_sched q id r) as (? & ? & ? & _ & ? & ? & _).
  by apply awake_same.
Qed.

Lemma foldl_settle_awake {B} (f : B → nat) (e : jsError) (l : list B) q :
  awake q → awake (foldl (fun q x => settle (f x) (Throw e) q) q l).
Proof.
  revert q. induction l as [|x l IH]; intros q Hq; [done|].
  cbn [foldl]. by apply IH, settle_awake.
Qed.

(** One call of [process] makes up for one task that could be started. *)
Lemma process_awake q :
  (isStopped q = true → queue q = []) →
  idle q ≤ Z.of_nat (immediates q) + 1 →
  awake (process q).
Proof.
  destruct q as [c r waiting res err st m cc fl imm tm ps se al].
  unfold awake, idle, process.
  cbn [isStopped queue concurrency running immediates].
  intros Hstop Hidle.
  destruct (r >=? c) eqn:Hfull; cbn [orb].
  { apply Z.geb_le in Hfull.
    cbn [isStopped queue concurrency running immediates]. split; [done|lia]. }
  destruct st.
  { cbn [isStopped queue concurrency running immediates].
    rewrite Hstop in * by done. split; [done|]. cbn [length]. lia. }
  destruct waiting as [|item rest].
  { cbn [isStopped queue concurrency running immediates length].
    split; [done|lia]. }
  cbn [length] in Hidle.
  destruct (cancelled item);
    cbn [isStopped queue concurrency running immediates];
    (split; [done|lia]).
Qed.

Lemma add_awake q id prio timeout now :
  awake q → awake (add id prio timeout now q).
Proof.
  intros Hq. unfold add. destruct (isStopped q) eqn:Hs.
  - apply settle_awake. revert Hq. by apply awake_same.
  - destruct Hq as [Hstop Hidle]. unfold idle in Hidle.
    apply process_awake.
    + cbn [isStopped set_promises]. by rewrite Hs.
    + unfold idle. cbn [queue concurrency running immediates set_promises].
      rewrite (Permutation_length (sort_perm _)), length_app. cbn [length].
      lia.
Qed.

Lemma foldl_add_awake (ids : list nat) prio timeout now q :
  awake q → awake (foldl (fun q id => add id prio timeout now q) q ids).
Proof.
  revert q. induction ids as [|id ids IH]; intros q Hq; [done|].
  cbn [foldl]. by apply IH, add_awake.
Qed.

Lemma step_awake (ev : event V) q q' :
  changes_limit ev = false →
  step ev q = Some q' →
  awake q → awake q'.
Proof.
  intros Hev Hstep Hq. destruct ev; simpl in Hstep; try discriminate Hev.
  - destruct (decide (fresh q id)); [|done]. injection Hstep as <-.
    by apply add_awake.
  - destruct (decide _); [|done]. injection Hstep as <-.
    unfold processAll.
    eapply awake_same; [..|by apply (foldl_add_awake ids prio 0 now q)];
      done.
  - destruct (immediates q) as [|n] eqn:Hn; [done|]. injection Hstep as <-.
    destruct Hq as [Hstop Hidle]. unfold idle in Hidle.
    apply process_awake; [done|]. unfold idle.
    cbn [queue concurrency running immediates]. lia.
  - destruct (decide (id ∈ inFlight q)); [|done]. injection Hstep as <-.
    destruct Hq as [Hstop Hidle]. unfold idle in Hidle.
    unfold resume_process. cbv zeta.
    assert (∀ q0, concurrency q0 = concurrency q → running q0 = running q →
                  queue q0 = queue q → isStopped q0 = isStopped q →
                  immediates q0 = immediates q →
                  awake (Queue (concurrency q0) (running q0 - 1) (queue q0)
                           (trim (maxStoredResults q0) (results q0))
                           (trim (maxStoredResults q0) (errors q0))
                           (isStopped q0) (maxStoredResults q0)
                           (completedCount q0)
                           (filter (fun i => i ≠ id) (inFlight q0))
                           (S (immediates q0)) (timers q0) (promises q0)
                           (settlements q0) (all q0))) as Hgen.
    { intros q0 Hc Hr Hqu Hs Hi. unfold awake, idle.
      cbn [queue concurrency running immediates isStopped].
      rewrite Hc, Hr, Hqu, Hs, Hi. split; [done|lia]. }
    destruct r as [v|err]; apply Hgen;
      match goal with |- _ (settle ?i ?r ?q0) = _ =>
        destruct (settle_sched q0 i r) as (H1 & H2 & H3 & _ & H4 & H5 & _)
      end;
      first [exact H1 | exact H2 | exact H3 | exact H4 | exact H5].
  - destruct (decide (id ∈ timers q)); [|done]. injection Hstep as <-.
    unfold on_timeout. apply settle_awake.
    destruct Hq as [Hstop Hidle]. unfold awake, idle in *.
    cbn [queue concurrency running immediates isStopped].
    rewrite length_map. split; [|done].
    intros Hs. by rewrite Hstop.
  - injection Hstep as <-. unfold cancel. cbv zeta.
    pose proof (foldl_settle_awake task cancelled_error
                  (filter (fun it => predicate (task it) = true) (queue q))
                  q Hq) as [Hstop Hidle].
    unfold awake, idle in *.
    cbn [set_queue queue concurrency running immediates isStopped].
    split.
    + intros Hs. by rewrite Hstop.
    + pose proof (length_filter
                    (fun it => (cancelled it || predicate (task it)) = false)
                    (queue (foldl (fun q it =>
                                     settle (task it) (Throw cancelled_error) q)
                                  q (filter (fun it =>
                                               predicate (task it) = true)
                                            (queue q))))).
      lia.
  - injection Hstep as <-. unfold stop. cbv zeta.
    pose proof (foldl_settle_awake task stop_error (queue q) q Hq)
      as [Hstop Hidle].
    unfold awake, idle in *.
    cbn [queue concurrency running immediates isStopped length].
    split; [done|lia].
  - injection Hstep as <-. destruct Hq as [Hstop Hidle].
    unfold awake, idle, resume in *.
    cbn [queue concurrency running immediates isStopped]. done.
  - injection Hstep as <-. destruct Hq as [Hstop Hidle].
    unfold awake, idle, clear in *.
    cbn [queue concurrency running immediates isStopped length].
    split; [done|lia].
Qed.

(** X27.  No wake-up is lost.  As long as the limit is not changed,
    after any sequence of events a call of [process] is pending for
    every waiting task that a free slot could take: the number of tasks
    that could be started at once, the smaller of the number of waiting
    tasks and the number of free slots, never exceeds the number of
    [setImmediate] callbacks that are queued.  In particular, when a
    task waits and a slot is free, a callback is queued; and a stopped
    queue holds no waiting task. *)
Theorem no_lost_wakeup (c : Z) (evs : list (event V)) q :
  reaches (create c) evs q →
  Forall (fun ev => changes_limit ev = false) evs →
  (Z.min (Z.of_nat (length (queue q))) (concurrency q - running q)
   ≤ Z.of_nat (immediates q))
  ∧ (queue q ≠ [] → running q < concurrency q → immediates q ≠ 0%nat)
  ∧ (isStopped q = true → queue q = []).
Proof.
  intros Hreach Hfixed.
  assert (awake q) as [Hstop Hidle].
  { induction Hreach as [|evs ev q q' Hreach IH Hstep].
    - unfold awake, idle. cbn. split; [done|lia].
    - rewrite Forall_app, Forall_singleton in Hfixed.
      destruct Hfixed as [Hfixed Hev].
      eapply step_awake; [exact Hev|exact Hstep|by apply IH]. }
  unfold idle in Hidle. split_and!; [done| |done].
  intros Hq Hfree Himm. rewrite Himm in Hidle.
  destruct (queue q); [done|]. cbn [length] in Hidle. lia.
Qed.

End TaskQueueWakeFacts.

(** One slot and three tasks: the first is started, two wait; when the
    first completes, a callback is queued that will start the next. *)
Lemma no_lost_wakeup_witness :
  let evs : list (TaskQueue.event string) :=
    [TaskQueue.ProcessAll [0; 1; 2]%nat 0 0;
     TaskQueue.Complete 0 (Return "a")] in
  ∃ q, TaskQueueSpec.run evs (TaskQueue.create 1) = Some q
       ∧ length (TaskQueue.queue q) = 2%nat
       ∧ TaskQueue.running q = 0%Z
       ∧ TaskQueue.immediates q ≠ 0%nat.
Proof.
  intros evs.
  destruct (TaskQueueSpec.run evs (TaskQueue.create 1)) as [q|] eqn:Hrun;
    [|by vm_compute in Hrun].
  exists q. split; [done|].
  destruct (no_lost_wakeup 1 evs q) as (_ & Hwake & _).
  - by apply run_reaches.
  - by repeat constructor.
  - assert (length (TaskQueue.queue q) = 2%nat ∧ TaskQueue.running q = 0%Z
            ∧ TaskQueue.concurrency q = 1%Z) as (Hlen & Hrunning & Hc).
    { vm_compute in Hrun. injection Hrun as <-. by split_and!. }
    split_and!; [done|done|]. apply Hwake.
    + intros Hq. by rewrite Hq in Hlen.
    + lia.
Defined.

Section RetryTraceFacts.
Import Retry RetrySpec RetryTrace.
Context {S A : Type}.
Variable isAborting : S → bool.
Variable sleep : Z → S → S.
Variable operation : M S A.
Local Open Scope list_scope.

Lemma delay_bounds (o : options) (attempt : Z) :
  validate o = None → (0 ≤ attempt)%Z →
  (0 ≤ delay o attempt ≤ maxDelay o)%Z.
Proof.
  intros (H1 & H2 & H3)%validate_ok Ha. unfold delay.
  assert (0 ≤ 2 ^ attempt)%Z by (apply Z.pow_nonneg; lia).
  assert (0 ≤ baseDelay o * 2 ^ attempt)%Z by lia. lia.
Qed.

Lemma schedule_bounds (o : options) (from : Z) (n : nat) :
  validate o = None → (0 ≤ from)%Z →
  Forall (fun d => (0 ≤ d ≤ maxDelay o)%Z) (schedule o from n).
Proof.
  intros Hv Hfrom. unfold schedule. apply Forall_map, Forall_forall.
  intros i _. simpl. apply delay_bounds; [done|lia].
Qed.

Lemma schedule_cons (o : options) (from : Z) (n : nat) :
  schedule o from (Datatypes.S n) = delay o from :: schedule o (from + 1) n.
Proof.
  unfold schedule. simpl. rewrite Z.add_0_r. f_equal.
  rewrite <- seq_shift, map_map. apply map_ext. intros i. f_equal. lia.
Qed.

Lemma removelast_cons_ne {B} (x : B) (l : list B) :
  l ≠ [] → removelast (x :: l) = x :: removelast l.
Proof. by destruct l. Qed.

Lemma last_cons_ne {B} (x : B) (l : list B) : l ≠ [] → last (x :: l) = last l.
Proof. by destruct l. Qed.

(** The operation and the waits leave the abort flag down. *)
Hypothesis operation_quiet :
  ∀ s r s', isAborting s = false → operation s = (r, s') →
            isAborting s' = false.
Hypothesis sleep_quiet : ∀ d s, isAborting (sleep d s) = isAborting s.

Lemma traced_loop_runs (o : options) (n : nat) :
  ∀ attempt lastError s j0 w0,
    (attempt + Z.of_nat (Datatypes.S n))%Z = maxRetries o →
    isAborting s = false →
    ∃ r s' j,
      traced_loop isAborting sleep operation o (Datatypes.S n) attempt
                  lastError (s, Trace j0 w0)
      = (r, (s', Trace (j0 ++ j)
                       (w0 ++ schedule o attempt (length j - 1))))
      ∧ j ≠ []
      ∧ (length j ≤ Datatypes.S n)%nat
      ∧ Forall failed (removelast j)
      ∧ match r with
        | Return v => last j = Some (Return v)
        | Throw err =>
            length j = Datatypes.S n
            ∧ ∃ e, last j = Some (Throw e) ∧ err = enhancedError o e
        end.
Proof.
  induction n as [|n IH]; intros attempt lastError s j0 w0 Hatt Hquiet.
  - unfold traced_loop. simpl. unfold traced_isAborting at 1. simpl.
    rewrite Hquiet. unfold traced_operation at 1. simpl.
    destruct (operation s) as [[v|e] s1] eqn:Hop.
    + exists (Return v), s1, [Return v]. simpl. rewrite app_nil_r.
      split_and!; [done|done|lia|constructor|done].
    + assert ((attempt <? maxRetries o - 1)%Z = false) as ->
        by (apply Z.ltb_ge; lia).
      simpl. exists (Throw (enhancedError o e)), s1, [Throw e]. simpl.
      rewrite app_nil_r.
      split_and!; [done|done|lia|constructor|done|by exists e].
  - unfold traced_loop.
    change (loop ?a ?b ?c o (Datatypes.S (Datatypes.S n)) attempt lastError
                 (s, Trace j0 w0))
      with (if a (s, Trace j0 w0) then (Throw interrupted, (s, Trace j0 w0))
            else
              match c (s, Trace j0 w0) with
              | (Return v, s') => (Return v, s')
              | (Throw e, s') =>
                  if (attempt <? maxRetries o - 1)%Z && negb (a s')
                  then
                    if a s' then (Throw interrupted, s')
                    else loop a b c o (Datatypes.S n) (attempt + 1) (Some e)
                           (b (delay o attempt) s')
                  else loop a b c o (Datatypes.S n) (attempt + 1) (Some e) s'
              end).
    unfold traced_isAborting at 1. cbn [fst]. rewrite Hquiet.
    unfold traced_operation at 1. cbn [fst snd invocations waits].
    destruct (operation s) as [[v|e] s1] eqn:Hop.
    + exists (Return v), s1, [Return v]. cbn [length Nat.sub schedule].
      rewrite app_nil_r.
      split_and!; [done|done|simpl; lia|constructor|done].
    + assert (isAborting s1 = false) as Hquiet1 by eauto.
      assert ((attempt <? maxRetries o - 1)%Z = true) as ->
        by (apply Z.ltb_lt; lia).
      unfold traced_isAborting at 1 2. cbn [fst]. rewrite Hquiet1.
      cbn [negb andb].
      change (traced_sleep sleep (delay o attempt)
                (s1, Trace (j0 ++ [Throw e]) w0))
        with (sleep (delay o attempt) s1,
              Trace (j0 ++ [Throw e]) (w0 ++ [delay o attempt])).
      destruct (IH (attempt + 1)%Z (Some e) (sleep (delay o attempt) s1)
                   (j0 ++ [Throw e]) (w0 ++ [delay o attempt]))
        as (r & s' & j & Heq & Hne & Hlen & Hall & Hr);
        [lia|by rewrite sleep_quiet|].
      unfold traced_loop in Heq. rewrite Heq.
      exists r, s', (Throw e :: j). split_and!.
      * rewrite <- !app_assoc. simpl.
        replace (length j - 0)%nat with (Datatypes.S (length j - 1))
          by (destruct j; [done|simpl; lia]).
        by rewrite schedule_cons.
      * done.
      * simpl. lia.
      * rewrite removelast_cons_ne by done. by constructor.
      * rewrite last_cons_ne by done. destruct r as [v|err]; [done|].
        destruct Hr as [Hl He]. split; [simpl; lia|done].
Qed.

(** X7.  A call under valid options during which the abort flag stays
    down.  The operation is invoked at least once and at most
    [maxRetries] times, and every invocation but the last has failed.
    If the last one succeeds its value is the result.  If it fails there
    have been [maxRetries] invocations and the error thrown wraps the
    error of the last.  Between two invocations the call waits
    [min(baseDelay * 2^i, maxDelay)], [i] counting the failures from 0:
    there is no wait after the last invocation, and no wait is longer
    than [maxDelay]. *)
Theorem retry_schedule (o : options) (s : S) :
  validate o = None →
  isAborting s = false →
  ∃ r s' j,
    traced isAborting sleep operation o (s, nothing)
    = (r, (s', Trace j (schedule o 0 (length j - 1))))
    ∧ (1 ≤ length j)%nat
    ∧ (Z.of_nat (length j) ≤ maxRetries o)%Z
    ∧ Forall failed (removelast j)
    ∧ match r with
      | Return v => last j = Some (Return v)
      | Throw err =>
          Z.of_nat (length j) = maxRetries o
          ∧ ∃ e, last j = Some (Throw e) ∧ err = enhancedError o e
      end
    ∧ Forall (fun d => (0 ≤ d ≤ maxDelay o)%Z)
             (schedule o 0 (length j - 1)).
Proof.
  intros Hvalid Hquiet. apply validate_ok in Hvalid as Hbounds.
  unfold traced, retryOperation. rewrite Hvalid.
  destruct (Z.to_nat (maxRetries o)) as [|n] eqn:Hn; [lia|].
  destruct (traced_loop_runs o n 0 None s [] [])
    as (r & s' & j & Heq & Hne & Hlen & Hall & Hr); [lia|done|].
  unfold traced_loop in Heq. simpl in Heq.
  exists r, s', j. split_and!; [exact Heq| |lia|done| |].
  - destruct j; [done|simpl; lia].
  - destruct r as [v|err]; [done|]. destruct Hr as [Hl He].
    split; [lia|done].
  - by apply schedule_bounds.
Qed.

End RetryTraceFacts.

(** The operation fails twice and then succeeds: three invocations, and
    waits of 1000 and 2000 between them. *)
Lemma retry_schedule_witness :
  let operation : M nat string :=
    fun n => if (n <? 2)%nat then (Throw (Error "busy"), S n)
             else (Return "ok", S n) in
  let o := Retry.Options 5 1000 10000 in
  ∃ r s' j,
    RetryTrace.traced (fun _ => false) (fun _ s => s) operation o
                      (0%nat, RetryTrace.nothing)
    = (r, (s', RetryTrace.Trace j (RetryTrace.schedule o 0 (length j - 1))))
    ∧ r = Return "ok"
    ∧ j = [Throw (Error "busy"); Throw (Error "busy"); Return "ok"]
    ∧ RetryTrace.schedule o 0 (length j - 1) = [1000; 2000]%Z.
Proof.
  intros operation o.
  destruct (retry_schedule (fun _ => false) (fun _ s => s) operation
              (fun _ _ _ _ _ => eq_refl) (fun _ _ => eq_refl)
              o 0%nat eq_refl eq_refl)
    as (r & s' & j & Heq & _).
  exists r, s', j. split; [exact Heq|].
  vm_compute in Heq. injection Heq as <- _ <- _.
  split_and!; reflexivity.
Defined.

Section RetryGuardFacts.
Import Retry RetrySpec RetryTrace.
Context {S A : Type}.
Variable isAborting : S → bool.
Variable sleep : Z → S → S.
Variable operation : M S A.

(** X8.  What [retryOperation] refuses before it tries anything: a
    [maxRetries] below 1 and a negative delay.  The error is the one
    named, the operation has not been invoked and there has been no
    wait. *)
Theorem retry_refuses (o : options) (s : S) :
  ((maxRetries o < 1)%Z →
     traced isAborting sleep operation o (s, nothing)
     = (Throw bad_maxRetries, (s, nothing)))
  ∧ ((1 ≤ maxRetries o)%Z → (baseDelay o < 0 ∨ maxDelay o < 0)%Z →
     traced isAborting sleep operation o (s, nothing)
     = (Throw bad_delay, (s, nothing))).
Proof.
  unfold traced, retryOperation, validate. split_and!.
  - intros H. apply Z.ltb_lt in H. by rewrite H.
  - intros H1 H2. apply Z.ltb_ge in H1. rewrite H1.
    assert (((baseDelay o <? 0) || (maxDelay o <? 0))%Z = true) as ->; [|done].
    apply orb_true_iff. destruct H2 as [H2|H2]; [left|right];
      by apply Z.ltb_lt.
Qed.

End RetryGuardFacts.

Section RetryHooksFacts.
Import Retry RetryHooks.
Context {S A : Type}.
Variable operation : M S A.
Local Open Scope list_scope.

Lemma remove_first_app_r (t : nat) (l1 l2 : list nat) :
  t ∉ l1 → remove_first t (l1 ++ t :: l2) = l1 ++ l2.
Proof.
  induction l1 as [|x l1 IH]; intros Hnot; simpl.
  - by rewrite decide_True.
  - apply not_elem_of_cons in Hnot as [Hne Hnot].
    rewrite decide_False by done. by rewrite IH.
Qed.

Lemma remove_all_hooks (l0 locals : list nat) :
  (∀ t, t ∈ locals → t ∉ l0) →
  foldl (fun l t => remove_first t l) (l0 ++ locals) locals = l0.
Proof.
  revert l0. induction locals as [|t locals IH]; intros l0 Hnot; simpl.
  - by rewrite app_nil_r.
  - rewrite remove_first_app_r by (apply Hnot; left).
    apply IH. intros x Hx. apply Hnot. by right.
Qed.

Lemma remove_timer_absent (t : nat) (l : list nat) :
  t ∉ l → remove_timer t l = l.
Proof.
  intros Hnot. unfold remove_timer. induction l as [|x l IH]; [done|].
  apply not_elem_of_cons in Hnot as [Hne Hnot].
  rewrite filter_cons, decide_True by done. by rewrite IH.
Qed.

Lemma clear_no_timers (l0 locals : list nat) :
  (∀ t, t ∈ locals → t ∉ l0) →
  foldl (fun l t => remove_timer t l) l0 locals = l0.
Proof.
  induction locals as [|t locals IH]; intros Hnot; simpl; [done|].
  rewrite remove_timer_absent by (apply Hnot; left).
  apply IH. intros x Hx. apply Hnot. by right.
Qed.

Lemma remove_timer_app_last (t : nat) (l : list nat) :
  t ∉ l → remove_timer t (l ++ [t]) = l.
Proof.
  intros Hnot. unfold remove_timer. rewrite filter_app.
  fold (remove_timer t l). rewrite remove_timer_absent by done.
  rewrite filter_cons, decide_False by (intros H; by apply H).
  by rewrite filter_nil, app_nil_r.
Qed.

Section From.
Variable g0 : global.
Hypothesis hooks_old : ∀ t, t ∈ cleanupFunctions g0 → (t < nextTimer g0)%nat.
Hypothesis armed_old : ∀ t, t ∈ armed g0 → (t < nextTimer g0)%nat.

Lemma settle_accounted r g (s : S) (c : call A) :
  accounted g0 (g, s, c) → pending c = [] → settled c = false →
  accounted g0 (settle r g s c).
Proof.
  intros Hacc Hpend Hset. unfold settle, accounted in *. simpl.
  intros Hex. destruct (Hacc Hex) as (Hle & Hnd & Hrange & _ & Hhooks & Harmed).
  rewrite Hset in Hhooks. rewrite Hpend in Harmed.
  unfold pending, settled. simpl.
  split_and!; [done|done|done| | |].
  - intros t Ht. by apply elem_of_nil in Ht.
  - rewrite Hhooks, app_nil_r. apply remove_all_hooks.
    intros t Ht Hold. apply Hrange in Ht. apply hooks_old in Hold. lia.
  - rewrite Harmed, !app_nil_r. apply clear_no_timers.
    intros t Ht Hold. apply Hrange in Ht. apply armed_old in Hold. lia.
Qed.

Lemma advance_accounted st st' :
  advance operation st = Some st' → accounted g0 st → accounted g0 st'.
Proof.
  destruct st as [[g s] c]. unfold advance.
  destruct (exited g) eqn:Hex; [done|].
  destruct (at_ c) as [attempt|attempt t|r] eqn:Hat; [|done|done].
  assert (pending c = []) as Hpend by (unfold pending; by rewrite Hat).
  assert (settled c = false) as Hset by (unfold settled; by rewrite Hat).
  intros Hstep Hacc.
  destruct (attempt <? maxRetries (opts c))%Z.
  - destruct (isAborting g) eqn:Hab.
    + injection Hstep as <-. by apply settle_accounted.
    + destruct (operation s) as [[v|e] s1].
      * injection Hstep as <-. by apply settle_accounted.
      * rewrite andb_true_r in Hstep.
        destruct (attempt <? maxRetries (opts c) - 1)%Z.
        -- injection Hstep as <-. unfold accounted in *. simpl.
           intros _. destruct (Hacc Hex)
             as (Hle & Hnd & Hrange & _ & Hhooks & Harmed).
           rewrite Hset in Hhooks. rewrite Hpend, app_nil_r in Harmed.
           unfold pending, settled. simpl.
           split_and!.
           ++ lia.
           ++ apply NoDup_app. split_and!; [done| |apply NoDup_singleton].
              intros t Ht ->%list_elem_of_singleton. apply Hrange in Ht. lia.
           ++ intros t [Ht| ->%list_elem_of_singleton]%elem_of_app.
              ** apply Hrange in Ht. lia.
              ** lia.
           ++ intros t ->%list_elem_of_singleton. apply elem_of_app.
              right. by apply list_elem_of_singleton.
           ++ by rewrite Hhooks, app_assoc.
           ++ by rewrite Harmed.
        -- injection Hstep as <-. unfold accounted in *. simpl.
           intros _. destruct (Hacc Hex)
             as (Hle & Hnd & Hrange & _ & Hhooks & Harmed).
           rewrite Hset in Hhooks. rewrite Hpend in Harmed.
           unfold pending, settled. simpl.
           split_and!; [done|done|done| |done|done].
           intros t Ht. by apply elem_of_nil in Ht.
  - assert (accounted g0 (g, s, c)) as Hacc' by done.
    destruct (lastError c); injection Hstep as <-;
      by apply settle_accounted.
Qed.

Lemma fire_accounted st st' :
  fire st = Some st' → accounted g0 st → accounted (S := S) (A := A) g0 st'.
Proof.
  destruct st as [[g s] c]. unfold fire.
  destruct (exited g) eqn:Hex; [done|].
  destruct (at_ c) as [attempt|attempt t|r] eqn:Hat; [done| |done].
  destruct (decide (t ∈ armed g)) as [Hin|]; [|done].
  intros Hstep Hacc. injection Hstep as <-. unfold accounted in *. simpl.
  intros _. destruct (Hacc Hex) as (Hle & Hnd & Hrange & Hp & Hhooks & Harmed).
  unfold pending, settled in *. rewrite Hat in *. simpl.
  split_and!; [done|done|done| |done|].
  - intros x Hx. by apply elem_of_nil in Hx.
  - rewrite Harmed, app_nil_r. apply remove_timer_app_last.
    intros Hold. apply armed_old in Hold.
    assert (t ∈ localCleanupFunctions c) as Ht
      by (apply Hp; by apply list_elem_of_singleton).
    apply Hrange in Ht. lia.
Qed.

Lemma step_accounted ev st st' :
  step operation ev st = Some st' → accounted g0 st → accounted g0 st'.
Proof.
  destruct ev; simpl.
  - apply advance_accounted.
  - apply fire_accounted.
  - destruct st as [[g s] c]. unfold signal.
    destruct (exited g); [done|]. intros [= <-] _.
    unfold accounted. simpl. done.
Qed.

Lemma run_accounted evs st :
  accounted g0 st → accounted g0 (run operation evs st).
Proof.
  revert st. induction evs as [|ev evs IH]; intros st Hacc; [done|].
  simpl. destruct (step operation ev st) as [st'|] eqn:Hstep.
  - apply IH. by eapply step_accounted.
  - by apply IH.
Qed.

Lemma start_accounted o (s : S) : accounted g0 (start (A := A) o g0 s).
Proof.
  unfold start, accounted, pending, settled. simpl. intros _.
  split_and!; [done|constructor| | |by rewrite app_nil_r|by rewrite app_nil_r];
    intros t Ht; by apply elem_of_nil in Ht.
Qed.

End From.

(** X9.  The hooks and timers of a call are its own business.  A call
    starts in a global state whose hooks and timers are older than the
    next timer, and runs through any sequence of turns, timer firings
    and signals.  If the process has not exited, then: while the call
    waits, its timer is armed and the hook that clears it is registered;
    and once the call has settled, the [finally] block has left the
    global list of hooks and the set of armed timers exactly as they
    were when the call started. *)
Theorem hooks_released (o : options) (g0 : global) (s : S)
    (evs : list event) :
  (∀ t, t ∈ cleanupFunctions g0 → (t < nextTimer g0)%nat) →
  (∀ t, t ∈ armed g0 → (t < nextTimer g0)%nat) →
  let '(g, _, c) := run operation evs (start o g0 s) in
  exited g = false →
  (∀ attempt t, at_ c = Awaiting attempt t →
     t ∈ cleanupFunctions g ∧ t ∈ armed g)
  ∧ (∀ r, at_ c = Settled r →
       cleanupFunctions g = cleanupFunctions g0 ∧ armed g = armed g0).
Proof.
  intros Hhooks Harmed.
  pose proof (run_accounted g0 Hhooks Harmed evs _
                (start_accounted g0 o s)) as Hacc.
  destruct (run operation evs (start o g0 s)) as [[g s'] c].
  intros Hex. destruct (Hacc Hex) as (_ & _ & _ & Hp & Hh & Ha).
  unfold pending, settled in *. split.
  - intros attempt t Hat. rewrite Hat in *. split.
    + rewrite Hh. apply elem_of_app. right. apply Hp.
      by apply list_elem_of_singleton.
    + rewrite Ha. apply elem_of_app. right. by apply list_elem_of_singleton.
  - intros r Hat. rewrite Hat in *. by rewrite Hh, Ha, !app_nil_r.
Qed.

End RetryHooksFacts.

(** Another call's hook 7 is registered when this call starts.  The
    operation fails once and then succeeds; the call waits once and
    settles.  Hook 7 is all that is left. *)
Lemma hooks_released_witness :
  let operation : M nat string :=
    fun n => if (n <? 1)%nat then (Throw (Error "busy"), S n)
             else (Return "ok", S n) in
  let g0 := Retry.Global false [7%nat] [7%nat] 8 false in
  let evs := [Retry.Advance; Retry.Fire; Retry.Advance] in
  let '(g, _, c) :=
    Retry.run operation evs
              (Retry.start (Retry.Options 3 1000 5000) g0 0%nat) in
  Retry.at_ c = Retry.Settled (Return "ok")
  ∧ Retry.cleanupFunctions g = [7%nat]
  ∧ Retry.armed g = [7%nat].
Proof.
  intros operation g0 evs.
  pose proof (hooks_released operation (Retry.Options 3 1000 5000) g0
                0%nat evs) as H.
  destruct (Retry.run operation evs
              (Retry.start (Retry.Options 3 1000 5000) g0 0%nat))
    as [[g s] c] eqn:Hrun.
  vm_compute in Hrun. injection Hrun as <- _ <-.
  split; [reflexivity|].
  refine (proj2 (H _ _ eq_refl) (Return "ok") eq_refl);
    intros t ->%list_elem_of_singleton; simpl; lia.
Defined.

Section CacheHistoryFacts.
Import Cache CacheSpec CacheHistory.
Context {V : Type}.
Implicit Types (c : Cache.t V) (key k : string) (l m : gmap string V).













(** *** Misses *)



(** *** The sweep *)



(** *** Across eviction *)



End CacheHistoryFacts.

(** A [set] whose file write fails, then an eviction: the next [get]
    returns the value of the [set] before it, not the value last set. *)
Example get_returns_overwritten_value :
  let quiet := Cache.calm in
  let no_write := Cache.Faults false false true false in
  let acts :=
    [CacheHistory.Run (Cache.Set_ "a" "v1" None 0 quiet);
     CacheHistory.Run (Cache.Set_ "a" "v2" None 1 no_write);
     CacheHistory.Run (Cache.Set_ "b" "w" None 2 quiet)] in
  let c := CacheHistory.play (Cache.init 1 100 ∅) acts in
  (Cache.get_on quiet "a" None 3 c).1 = Some "v1"
  ∧ CacheHistory.latest ∅ acts !! "a" = Some "v2"
  ∧ CacheHistory.durable ∅ acts !! "a" = Some "v1".
Proof. vm_compute. done. Qed.




Section CapacityFacts.
Import Cache CacheSpec CacheHistory CacheCapacity.
Local Open Scope list_scope.
Context {V : Type}.
Implicit Types (c : Cache.t V) (key k : string).

Local Abbreviation paired :=
  (fun c => length (accessOrder c) = size (memoryCache c)).

Lemma evict_capacity c key :
  paired c → (maxMemoryItems c ≤ 1)%Z →
  evict key (with_capacity 1 c) = with_capacity 1 (evict key c).
Proof.
  intros Hlen Hmax. unfold evict.
  change (has (with_capacity 1 c) key) with (has c key).
  change (memoryCache (with_capacity 1 c)) with (memoryCache c).
  change (accessOrder (with_capacity 1 c)) with (accessOrder c).
  change (maxMemoryItems (with_capacity 1 c)) with 1%Z.
  destruct (accessOrder c) as [|oldestKey rest] eqn:Horder.
  - by do 2 destruct (_ && _).
  - cbn in Hlen. rewrite Horder in Hlen. cbn in Hlen.
    rewrite (proj2 (Z.geb_le (Z.of_nat (size (memoryCache c))) 1)) by lia.
    rewrite (proj2 (Z.geb_le (Z.of_nat (size (memoryCache c)))
                     (maxMemoryItems c))) by lia.
    cbn [andb]. by destruct (negb (has c key)).
Qed.

Lemma setMemoryCache_capacity c key d age now :
  paired c → (maxMemoryItems c ≤ 1)%Z →
  setMemoryCache key d age now (with_capacity 1 c)
  = with_capacity 1 (setMemoryCache key d age now c).
Proof.
  intros Hlen Hmax. unfold setMemoryCache. cbv zeta.
  by rewrite evict_capacity.
Qed.

Lemma evict_maxMemoryItems c key :
  maxMemoryItems (evict key c) = maxMemoryItems c.
Proof.
  unfold evict. destruct (_ && _); [|done]. by destruct (accessOrder c).
Qed.

Lemma get_file_capacity flt c key age now :
  paired c → (maxMemoryItems c ≤ 1)%Z →
  get_file_on flt key age now (with_capacity 1 c)
  = ((get_file_on flt key age now c).1,
     with_capacity 1 (get_file_on flt key age now c).2)
  ∧ maxMemoryItems (get_file_on flt key age now c).2 = maxMemoryItems c.
Proof.
  intros Hlen Hmax. unfold get_file_on. cbn [files with_capacity].
  destruct (_ || _); [done|].
  destruct (files c !! key) as [[[d fAge fTs|] mtime]|]; [|done..].
  change (isExpired (with_capacity 1 c)) with (isExpired c).
  cbv zeta. destruct (negb _).
  - rewrite setMemoryCache_capacity by done. split; [done|].
    cbn. apply evict_maxMemoryItems.
  - unfold unlink. by destruct (unlink_fails flt).
Qed.

Lemma get_capacity flt c key age now lastTouch clock :
  consistent (with_capacity 1 c) lastTouch clock →
  (maxMemoryItems c ≤ 1)%Z →
  get_on flt key age now (with_capacity 1 c)
  = ((get_on flt key age now c).1,
     with_capacity 1 (get_on flt key age now c).2)
  ∧ maxMemoryItems (get_on flt key age now c).2 = maxMemoryItems c.
Proof.
  intros Hc Hmax. unfold get_on, get_memory.
  cbn [memoryCache with_capacity].
  change (isExpired (with_capacity 1 c)) with (isExpired c).
  destruct (memoryCache c !! key) as [it|] eqn:Hlook.
  - destruct (negb _); [done|].
    set (c' := Cache (delete key (memoryCache c))
                     (removeFromAccessOrder key (accessOrder c))
                     (files c) (maxMemoryItems c) (maxFileAge c)).
    change (Cache (delete key (memoryCache c)) _ _ 1 _)
      with (with_capacity 1 c').
    destruct (consistent_drop (with_capacity 1 c) lastTouch clock key
                (with_capacity 1 c') Hc) as [Hc' _]; [by eexists|done..|].
    apply (get_file_capacity flt c'); [apply (order_size _ _ _ Hc')|done].
  - apply get_file_capacity; [apply (order_size _ _ _ Hc)|done].
Qed.

Lemma set_capacity flt c key d age now :
  paired c → (maxMemoryItems c ≤ 1)%Z →
  set_on flt key d age now (with_capacity 1 c)
  = with_capacity 1 (set_on flt key d age now c)
  ∧ maxMemoryItems (set_on flt key d age now c) = maxMemoryItems c.
Proof.
  intros Hlen Hmax. unfold set_on. cbv zeta.
  rewrite setMemoryCache_capacity by done. split; [done|].
  cbn. apply evict_maxMemoryItems.
Qed.

Lemma perform_capacity c (a : action V) lastTouch clock :
  consistent (with_capacity 1 c) lastTouch clock →
  (maxMemoryItems c ≤ 1)%Z →
  perform a (with_capacity 1 c)
  = ((perform a c).1, with_capacity 1 (perform a c).2)
  ∧ (maxMemoryItems (perform a c).2 ≤ 1)%Z
  ∧ ∃ lastTouch' clock',
      consistent (with_capacity 1 (perform a c).2) lastTouch' clock'.
Proof.
  intros Hc Hmax.
  destruct a as [[key age now flt|key d age now flt]|now rf flt].
  - cbn [perform exec].
    destruct (get_capacity flt c key age now lastTouch clock Hc Hmax)
      as [Heq Hm].
    split_and!; [done|lia|].
    destruct (get_consistent flt (with_capacity 1 c) lastTouch clock key age
                now _ _ Hc ltac:(cbn; lia) Heq) as [Hc' _].
    eauto.
  - cbn [perform exec fst snd].
    destruct (set_capacity flt c key d age now (order_size _ _ _ Hc) Hmax)
      as [Heq Hm].
    split_and!; [by rewrite Heq|lia|].
    destruct (set_consistent flt (with_capacity 1 c) lastTouch clock key d
                age now Hc ltac:(cbn; lia)) as [Hc' _].
    rewrite Heq in Hc'. eauto.
  - cbn [perform fst snd]. unfold cleanup_on.
    destruct rf; [split_and!; [done|done|eauto]|].
    split_and!; [done|done|].
    exists lastTouch, clock.
    by eapply consistent_same_memory; [..|exact Hc].
Qed.

Lemma play_capacity (acts : list (action V)) c lastTouch clock :
  consistent (with_capacity 1 c) lastTouch clock →
  (maxMemoryItems c ≤ 1)%Z →
  play (with_capacity 1 c) acts = with_capacity 1 (play c acts)
  ∧ (maxMemoryItems (play c acts) ≤ 1)%Z
  ∧ ∃ lastTouch' clock',
      consistent (with_capacity 1 (play c acts)) lastTouch' clock'.
Proof.
  revert c lastTouch clock.
  induction acts as [|a acts IH]; intros c lastTouch clock Hc Hmax.
  - split_and!; [done|done|eauto].
  - unfold play. cbn [foldl].
    destruct (perform_capacity c a lastTouch clock Hc Hmax)
      as (Heq & Hmax' & lastTouch' & clock' & Hc').
    rewrite Heq. cbn [snd]. by eapply IH.
Qed.

(** X24.  A capacity below one gives room for one entry.  A cache whose
    [cache.maxMemoryItems] is one, zero or negative goes, through any history
    of [get], [set] and [cleanup], through the same states as a cache
    with capacity one: the same in-process tier, recency list and files,
    and every [get] returns the same.  Its in-process tier holds at most
    one entry. *)
Theorem capacity_floor (maxItems maxAge_ : Z)
    (disk : gmap string (file V)) (acts : list (action V)) :
  (maxItems ≤ 1)%Z →
  let c := play (init maxItems maxAge_ disk) acts in
  let c1 := play (init 1 maxAge_ disk) acts in
  memoryCache c = memoryCache c1
  ∧ accessOrder c = accessOrder c1
  ∧ files c = files c1
  ∧ (size (memoryCache c) ≤ 1)%nat
  ∧ ∀ key age now, (get key age now c).1 = (get key age now c1).1.
Proof.
  intros Hmax c c1.
  assert (consistent (with_capacity 1 (init maxItems maxAge_ disk)) ∅ 0)
    as Hinit by (apply (init_consistent 1); lia).
  destruct (play_capacity acts (init maxItems maxAge_ disk) ∅ 0 Hinit Hmax)
    as (Heq & Hmax' & lastTouch & clock & Hc).
  change (with_capacity 1 (init maxItems maxAge_ disk))
    with (init 1 maxAge_ disk) in Heq.
  fold c in Heq, Hc, Hmax'. fold c1 in Heq.
  rewrite Heq. split_and!; [done..| |].
  - pose proof (within_bound _ _ _ Hc) as Hb. cbn in Hb. lia.
  - intros key age now.
    unfold get.
    destruct (get_capacity calm c key age now lastTouch clock Hc Hmax')
      as [-> _].
    done.
Qed.

End CapacityFacts.

(** A cache configured with no room at all still keeps the entry set
    last. *)
Lemma capacity_floor_witness :
  let acts : list (CacheHistory.action nat) :=
    [CacheHistory.Run (Cache.Set_ "a" 1%nat None 0 Cache.calm);
     CacheHistory.Run (Cache.Set_ "b" 2%nat None 1 Cache.calm)] in
  let c := CacheHistory.play (Cache.init 0 1000 ∅) acts in
  let c1 := CacheHistory.play (Cache.init 1 1000 ∅) acts in
  Cache.accessOrder c1 = ["b"]
  ∧ Cache.accessOrder c = Cache.accessOrder c1
  ∧ (size (Cache.memoryCache c) ≤ 1)%nat.
Proof.
  intros acts c c1.
  pose proof (capacity_floor 0 1000 ∅ acts ltac:(lia))
    as (_ & Horder & _ & Hsize & _).
  split; [vm_compute; reflexivity|]. split; [exact Horder | exact Hsize].
Defined.

Section MoveResultFacts.
Import Path Fs FileUtils.
Local Open Scope list_scope.
Implicit Types (fs : Fs.t) (p q sp src tgt d dir : path) (c : string).

Lemma file_at_remove_eq p (l : list (path * string)) :
  file_at (remove_file p l) p = None.
Proof.
  unfold remove_file. induction l as [|[x c] l IH]; [done|].
  destruct (decide (x = p)) as [->|Hx].
  - by rewrite filter_cons_False by (simpl; tauto).
  - rewrite filter_cons_True by done. simpl. by rewrite decide_False.
Qed.

Lemma read_cons fs p c l q :
  p ≠ [] →
  read (Make (dirs fs) ((p, c) :: l)) q
  = if decide (p = q) then Some c else read (Make (dirs fs) l) q.
Proof.
  intros Hne. unfold read. simpl. destruct q as [|x q].
  - by rewrite decide_False.
  - done.
Qed.

(** A file that is renamed. *)
Lemma rename_file src tgt fs fs' c :
  read fs src = Some c →
  rename src tgt fs = (Return tt, fs') →
  read fs' tgt = Some c
  ∧ (src ≠ tgt → read fs' src = None)
  ∧ (∀ p, p ≠ src → p ≠ tgt → read fs' p = read fs p)
  ∧ dirs fs' = dirs fs.
Proof.
  intros Hsrc. unfold rename. rewrite Hsrc.
  destruct (negb _); [done|].
  destruct (is_dir fs tgt) eqn:Htgt; [done|]. intros [= <-].
  assert (tgt ≠ []) as Hne by (intros ->; done).
  assert (src ≠ []) as Hsne by by eapply read_nonempty.
  split_and!; [| | |done].
  - rewrite read_cons by done. by rewrite decide_True.
  - intros Hd. rewrite read_cons by done.
    rewrite decide_False by done. unfold read. simpl.
    destruct src as [|x src]; [done|].
    rewrite file_at_remove_ne by done. apply file_at_remove_eq.
  - intros p Hp1 Hp2. rewrite read_cons by done.
    rewrite decide_False by done. unfold read. simpl.
    destruct p as [|x p]; [done|].
    by rewrite !file_at_remove_ne.
Qed.

Lemma writeFile_written p c fs fs' :
  writeFile p c fs = (Return tt, fs') →
  read fs' p = Some c
  ∧ (∀ q, q ≠ p → read fs' q = read fs q)
  ∧ dirs fs' = dirs fs.
Proof.
  unfold writeFile. destruct (is_dir fs p) eqn:Hp; [done|].
  destruct (negb _); [done|]. intros [= <-].
  assert (p ≠ []) as Hne by (intros ->; done).
  split_and!; [| |done].
  - rewrite read_cons by done. by rewrite decide_True.
  - intros q Hq. rewrite read_cons by done.
    rewrite decide_False by done. unfold read. simpl.
    destruct q as [|x q]; [done|]. by rewrite file_at_remove_ne.
Qed.

Lemma delete_file (safe : bool) src fs fs' c :
  read fs src = Some c →
  (if safe then trash src else unlink src) fs = (Return tt, fs') →
  read fs' src = None.
Proof.
  intros Hsrc. assert (src ≠ []) as Hne by by eapply read_nonempty.
  destruct safe.
  - unfold trash. destruct (exists_ fs src); [|done]. intros [= <-].
    unfold read, prune. simpl. destruct src as [|x src]; [done|].
    apply file_at_prune_drop, under_refl.
  - unfold unlink. unfold is_file. rewrite Hsrc. intros [= <-].
    unfold read. simpl. destruct src as [|x src]; [done|].
    apply file_at_remove_eq.
Qed.

Variable dev : path → nat.

(** A file that is moved, by renaming or by copying and deleting. *)
Lemma transfer_file safe src tgt fs fs' c :
  read fs src = Some c →
  transfer dev safe src tgt fs = (Return tt, fs') →
  src ≠ tgt → under src tgt = false →
  read fs' tgt = Some c
  ∧ read fs' src = None
  ∧ ∀ p, under src p = false → p ≠ tgt → read fs' p = read fs p.
Proof.
  intros Hsrc Ht Hne Hout. unfold transfer in Ht.
  destruct (decide _).
  - unfold Js.bind in Ht.
    destruct (copyFile src tgt fs) as [[[]|e] fs1] eqn:Hc; [|done].
    unfold copyFile in Hc. rewrite Hsrc in Hc.
    apply writeFile_written in Hc as (H1 & H2 & H3).
    assert (read fs1 src = Some c) as Hsrc1 by (by rewrite H2).
    split_and!.
    + rewrite <- H1. eapply delete_keeps; [exact Ht|done|done].
    + by eapply delete_file.
    + intros p Hp1 Hp2. rewrite <- (H2 p Hp2).
      eapply delete_keeps; [exact Ht| |done].
      intros ->. by rewrite under_refl in Hp1.
  - destruct (rename_file src tgt fs fs' c Hsrc Ht) as (H1 & H2 & H3 & _).
    split_and!; [done|by apply H2|].
    intros p Hp1 Hp2. apply H3; [|done].
    intros ->. by rewrite under_refl in Hp1.
Qed.

Lemma prefix_snoc_cases {B} (l1 l2 : list B) (x : B) :
  l1 `prefix_of` l2 ++ [x] → l1 = l2 ++ [x] ∨ l1 `prefix_of` l2.
Proof.
  intros [k Hk]. destruct k as [|y k _] using rev_ind.
  - left. by rewrite app_nil_r in Hk.
  - right. rewrite app_assoc in Hk. apply app_inj_tail in Hk as [-> _].
    by exists k.
Qed.

Lemma exists_before fs fs' p :
  files fs' = files fs →
  (∀ d, is_dir fs d = true → is_dir fs' d = true) →
  exists_ fs' p = false → exists_ fs p = false.
Proof.
  intros Hf Hd. unfold exists_, is_file.
  rewrite (read_files fs fs' p Hf).
  destruct (read fs p); [done|]. simpl.
  destruct (is_dir fs p) eqn:Hp; [|done]. by rewrite (Hd p Hp).
Qed.

(** X14.  A regular file moved without overwriting.  When [moveFile]
    reports success for a file that is not above the target directory,
    the path it returns is a name in the target directory that was free
    before the call; after the call that path holds the content of the
    source, the source path holds no file, and every file elsewhere in
    the tree has the content it had: nothing was overwritten. *)
Theorem moveFile_moved src dir o fs to fs' c :
  moveFile dev src dir o fs = (Return (Moved to), fs') →
  overwrite o = false →
  read fs src = Some c →
  under src dir = false →
  (∃ name, to = join dir name)
  ∧ fileExists fs to = false
  ∧ read fs' to = Some c
  ∧ read fs' src = None
  ∧ ∀ p, under src p = false → p ≠ to → read fs' p = read fs p.
Proof.
  unfold moveFile. intros H Hover Hsrc Hout.
  destruct (access src fs) as [[[]|e] fs0] eqn:Ha;
    apply access_state in Ha as ->; [|done].
  destruct (ensureDir (createDir o) dir fs) as [[[]|e] fs1] eqn:He;
    apply ensureDir_keeps in He as [Hfiles Hdirs]; [|done].
  cbv zeta in H.
  set (tgt := pickTarget (overwrite o) fs1 dir (basename src)) in *.
  destruct (transfer dev (useSafeDelete o) src tgt fs1)
    as [[[]|e] fs2] eqn:Ht; [|done].
  injection H as <- <-.
  assert (read fs1 src = Some c) as Hsrc1 by (by rewrite (read_files fs)).
  destruct (pickTarget_shape (overwrite o) fs1 dir (basename src))
    as [name Hname]. fold tgt in Hname.
  assert (fileExists fs1 tgt = false) as Hfree.
  { unfold tgt, pickTarget. rewrite Hover. cbn [negb].
    apply freeTarget_free. }
  assert (src ≠ tgt) as Hne.
  { intros Heq. unfold fileExists in Hfree. rewrite <- Heq in Hfree.
    by rewrite (read_exists _ _ _ Hsrc1) in Hfree. }
  assert (under src tgt = false) as Hout'.
  { apply under_false. intros Hpre. apply under_false in Hout.
    apply Hout. rewrite Hname in Hpre. unfold join in Hpre.
    destruct (prefix_snoc_cases src dir name Hpre) as [Heq|?]; [|done].
    rewrite Hname in Hne. done. }
  destruct (transfer_file (useSafeDelete o) src tgt fs1 fs2 c Hsrc1 Ht
              Hne Hout') as (H1 & H2 & H3).
  split_and!; [by exists name| |done|done|].
  - by eapply exists_before.
  - intros p Hp1 Hp2. rewrite (H3 p Hp1 Hp2). by apply read_files.
Qed.

(** *** The name that is chosen *)

Lemma freeTarget_first fuel fs dir name ext :
  ∀ counter target,
    let t := freeTarget fuel fs dir name ext counter target in
    t = target
    ∨ ∃ k, (counter ≤ k)%nat
           ∧ t = candidate dir name ext k
           ∧ fileExists fs target = true
           ∧ ∀ j, (counter ≤ j < k)%nat →
                  fileExists fs (candidate dir name ext j) = true.
Proof.
  induction fuel as [|fuel IH]; intros counter target; cbv zeta; simpl;
    [by left|].
  destruct (fileExists fs target) eqn:Htarget; [|by left].
  right.
  destruct (IH (S counter) (candidate dir name ext counter))
    as [->|(k & Hk & -> & Hc & Hall)].
  - exists counter. split_and!; [done|done|done|]. intros j Hj. lia.
  - exists k. split_and!; [lia|done|done|]. intros j Hj.
    destruct (decide (j = counter)) as [->|?]; [done|]. apply Hall. lia.
Qed.

(** X15.  The name [moveFile] gives a file when it must not overwrite:
    the name of the source if that is free in the target directory, and
    otherwise the first free name among [name (1).ext], [name (2).ext],
    ...  The name chosen is always free. *)
Theorem pickTarget_first_free fs dir fileName :
  let name := stem fileName in
  let ext := extname fileName in
  let t := pickTarget false fs dir fileName in
  fileExists fs t = false
  ∧ (t = join dir fileName
     ∨ ∃ k, (1 ≤ k)%nat
            ∧ t = candidate dir name ext k
            ∧ fileExists fs (join dir fileName) = true
            ∧ ∀ j, (1 ≤ j < k)%nat →
                   fileExists fs (candidate dir name ext j) = true).
Proof.
  cbv zeta. unfold pickTarget. cbn [negb]. split.
  - apply freeTarget_free.
  - apply freeTarget_first.
Qed.

Lemma moveFile_answers src dir o fs :
  ∃ r fs', moveFile dev src dir o fs = (Return r, fs').
Proof.
  unfold moveFile.
  destruct (access src fs) as [[[]|?] ?]; [|eauto].
  destruct (ensureDir _ _ _) as [[[]|?] ?]; [|eauto].
  cbv zeta. destruct (transfer _ _ _ _ _) as [[[]|?] ?]; eauto.
Qed.

(** X16.  [moveFile] reports, it does not throw: every call returns a
    result object.  When the source does not exist the result is a
    failure and the tree is as it was.  When the result is a failure for
    a file that is not in the target directory or below it, the file is
    still at its path with its content. *)
Theorem moveFile_reports src dir o fs :
  ∃ r fs',
    moveFile dev src dir o fs = (Return r, fs')
    ∧ (fileExists fs src = false → success r = false ∧ fs' = fs)
    ∧ (∀ c, success r = false → read fs src = Some c →
            under dir src = false → read fs' src = Some c).
Proof.
  destruct (moveFile_answers src dir o fs) as (r & fs' & Hm).
  exists r, fs'. split_and!; [done| |].
  - intros Hno. unfold moveFile, access in Hm.
    unfold fileExists in Hno. rewrite Hno in Hm. by injection Hm as <- <-.
  - intros c Hfail Hsrc Hout. destruct r as [to|error]; [done|].
    by destruct (moveFile_failed dev src dir o fs error fs' c Hm Hout Hsrc).
Qed.

End MoveResultFacts.

(** [in/a.mp4] is moved to [out], where an [a.mp4] already is: it
    arrives as [a (1).mp4], and the file that was there is as before. *)
Lemma moveFile_moved_witness :
  let fs := Fs.Make [["in"]; ["out"]]
                    [(["in"; "a.mp4"], "NEW"); (["out"; "a.mp4"], "OLD")] in
  ∃ fs',
    FileUtils.moveFile (fun _ => 0%nat) ["in"; "a.mp4"] ["out"]
                       (FileUtils.MoveOptions true false true) fs
    = (Return (FileUtils.Moved ["out"; "a (1).mp4"]), fs')
    ∧ Fs.read fs' ["out"; "a (1).mp4"] = Some "NEW"
    ∧ Fs.read fs' ["in"; "a.mp4"] = None
    ∧ Fs.read fs' ["out"; "a.mp4"] = Some "OLD".
Proof.
  intros fs.
  assert (∃ fs',
    FileUtils.moveFile (fun _ => 0%nat) ["in"; "a.mp4"] ["out"]
                       (FileUtils.MoveOptions true false true) fs
    = (Return (FileUtils.Moved ["out"; "a (1).mp4"]), fs'))
    as [fs' Hm] by (eexists; vm_compute; reflexivity).
  exists fs'. split; [exact Hm|].
  destruct (moveFile_moved (fun _ => 0%nat) ["in"; "a.mp4"] ["out"]
              (FileUtils.MoveOptions true false true) fs
              ["out"; "a (1).mp4"] fs' "NEW" Hm eq_refl eq_refl eq_refl)
    as (_ & _ & Hto & Hsrc & Hrest).
  split_and!; [exact Hto|exact Hsrc|].
  rewrite (Hrest ["out"; "a.mp4"]); [reflexivity|reflexivity|discriminate].
Defined.

Section ExtensionStripFacts.
Import Regex RegexSpec VideoCode.

(** X17.  What the first step of [extractVideoCode] removes.  From a
    name that ends in a dot followed by one or more characters other
    than dots and slashes, it removes exactly that ending, whatever
    comes before (nothing at all, or a text with more dots).  A name
    without a dot is left whole.  So the code extracted from a file name
    does not depend on the extension of the file. *)
Theorem nameWithoutExt_strips (stem e e' : string) :
  e ≠ EmptyString → Str.mem "." e = false → Str.mem "/" e = false →
  e' ≠ EmptyString → Str.mem "." e' = false → Str.mem "/" e' = false →
  nameWithoutExt (stem ++ String "." e) = stem
  ∧ extractVideoCode (stem ++ String "." e)
    = extractVideoCode (stem ++ String "." e')
  ∧ (Str.mem "." stem = false →
     nameWithoutExt stem = stem
     ∧ extractVideoCode (stem ++ String "." e) = extractVideoCode stem).
Proof.
  intros He1 He2 He3 He1' He2' He3'.
  assert (∀ x, x ≠ EmptyString → Str.mem "." x = false →
               Str.mem "/" x = false →
               nameWithoutExt (stem ++ String "." x) = stem) as Hstrip.
  { intros x Hx1 Hx2 Hx3. unfold nameWithoutExt, remove_first.
    rewrite search_extension by done. simpl. apply append_empty_r. }
  split_and!.
  - by apply Hstrip.
  - unfold extractVideoCode. by rewrite !Hstrip.
  - intros Hdot.
    assert (nameWithoutExt stem = stem) as Hwhole.
    { unfold nameWithoutExt, remove_first.
      by rewrite search_extension_none. }
    split; [done|]. unfold extractVideoCode. by rewrite Hstrip, Hwhole.
Qed.

End ExtensionStripFacts.

(** The same code for [abc-123.mp4] and [abc-123.mkv], and a name that is
    nothing but an extension loses everything. *)
Lemma nameWithoutExt_strips_witness :
  VideoCode.nameWithoutExt ".mp4" = EmptyString
  ∧ VideoCode.extractVideoCode "abc-123.mp4"
    = VideoCode.extractVideoCode "abc-123.mkv".
Proof.
  split.
  - exact (proj1 (nameWithoutExt_strips "" "mp4" "mkv"
             ltac:(discriminate) eq_refl eq_refl
             ltac:(discriminate) eq_refl eq_refl)).
  - exact (proj1 (proj2 (nameWithoutExt_strips "abc-123" "mp4" "mkv"
             ltac:(discriminate) eq_refl eq_refl
             ltac:(discriminate) eq_refl eq_refl))).
Defined.

Section CodeShapeFacts.
Import Regex VideoCode VideoCodeSpec.

Lemma consumed_app (t s' : string) : Str.consumed (t ++ s') s' = t.
Proof.
  unfold Str.consumed. rewrite length_append.
  replace (String.length t + String.length s' - String.length s')%nat
    with (String.length t) by lia.
  induction t as [|a t IH]; [by destruct s'|].
  rewrite append_cons. cbn [String.length Str.take]. by rewrite IH.
Qed.

(** A greedy run over a character class: what it consumed, and how the
    rest was continued. *)
Lemma rep_cls_inv p (k : cont) n :
  ∀ lo s c res,
    rep (m (Cls p)) k n lo s c = Some res →
    ∃ t s', s = t ++ s' ∧ all p t = true
            ∧ (lo ≤ String.length t ≤ n)%nat
            ∧ k s' c = Some res.
Proof.
  induction n as [|n IH]; intros lo s c res H; cbn [rep] in H.
  - destruct lo; [|done]. exists "", s. split_and!; try done; cbn; lia.
  - assert (lo = 0%nat → k s c = Some res →
            ∃ t s', s = t ++ s' ∧ all p t = true
                    ∧ (lo ≤ String.length t ≤ S n)%nat
                    ∧ k s' c = Some res) as Hstop.
    { intros -> Hk. exists "", s. split_and!; try done; cbn; lia. }
    destruct s as [|a s].
    + change (m (Cls p) "" c ?k') with (@None (string * captures)) in H.
      destruct lo; [|done]. by apply Hstop.
    + change (m (Cls p) (String a s) c ?k')
        with (if p a then k' s c else None) in H. cbv beta in H.
      destruct (p a) eqn:Hp.
      * destruct (rep (m (Cls p)) k n (pred lo) s c) as [x|] eqn:Hrest.
        -- injection H as ->.
           apply IH in Hrest as (t & s' & -> & Hall & Hlen & Hk).
           exists (String a t), s'. rewrite append_cons.
           split_and!; [done|cbn; by rewrite Hp|cbn; lia|cbn; lia|done].
        -- destruct lo; [|done]. by apply Hstop.
      * destruct lo; [|done]. by apply Hstop.
Qed.

Lemma group_rep_cls_inv i p lo hi s c (k : cont) res :
  m (Grp i (Rep (Cls p) lo hi)) s c k = Some res →
  ∃ t s', s = t ++ s' ∧ all p t = true
          ∧ (lo ≤ String.length t)%nat
          ∧ (∀ h, hi = Some h → (String.length t ≤ h)%nat)
          ∧ k s' ((i, t) :: c) = Some res.
Proof.
  cbn [m]. intros H.
  apply rep_cls_inv in H as (t & s' & -> & Hall & Hlen & Hk).
  exists t, s'. rewrite consumed_app in Hk.
  split_and!; [done|done|lia| |done].
  intros h ->. lia.
Qed.

Lemma cls_inv p s c (k : cont) res :
  m (Cls p) s c k = Some res →
  ∃ a s', s = String a s' ∧ p a = true ∧ k s' c = Some res.
Proof.
  cbn [m]. destruct s as [|a s]; [done|]. destruct (p a) eqn:Hp; [|done].
  eauto.
Qed.

(** The optional suffix captures nothing. *)
Lemma suffix_keeps_groups s c rest c' :
  m (opt (Cat (chr "-") letter)) s c accept = Some (rest, c') → c' = c.
Proof.
  unfold opt, chr, letter. cbn [m rep]. unfold accept.
  destruct s as [|a [|b s]]; cbn [pred].
  - by intros [= _ <-].
  - destruct (Char.eqb "-" a); by intros [= _ <-].
  - destruct (Char.eqb "-" a); [|by intros [= _ <-]].
    destruct (Char.isLetter b); by intros [= _ <-].
Qed.

Local Ltac step_cat H :=
  change (m (Cat ?r1 ?r2) ?s ?c ?k)
    with (m r1 s c (fun s' c' => m r2 s' c' k)) in H.

Lemma STANDARD_inv s rest c :
  m STANDARD s [] accept = Some (rest, c) →
  ∃ letters digits,
    c = [(2%nat, digits); (1%nat, letters)]
    ∧ all Char.isLetter letters = true
    ∧ (2 ≤ String.length letters ≤ 6)%nat
    ∧ all Char.isDigit digits = true
    ∧ (2 ≤ String.length digits ≤ 5)%nat.
Proof.
  unfold STANDARD. intros H. step_cat H.
  apply group_rep_cls_inv in H as (L & s1 & _ & HL & HL2 & HL6 & H).
  step_cat H. apply cls_inv in H as (a & s2 & _ & _ & H).
  step_cat H.
  apply group_rep_cls_inv in H as (D & s3 & _ & HD & HD2 & HD5 & H).
  apply suffix_keeps_groups in H as ->.
  exists L, D. split_and!; try done.
  - by apply HL6.
  - by apply HD5.
Qed.

Lemma NO_HYPHEN_inv s rest c :
  m NO_HYPHEN s [] accept = Some (rest, c) →
  ∃ letters digits,
    c = [(2%nat, digits); (1%nat, letters)]
    ∧ all Char.isLetter letters = true
    ∧ (2 ≤ String.length letters ≤ 6)%nat
    ∧ all Char.isDigit digits = true
    ∧ (2 ≤ String.length digits ≤ 5)%nat.
Proof.
  unfold NO_HYPHEN. intros H. step_cat H.
  apply group_rep_cls_inv in H as (L & s1 & _ & HL & HL2 & HL6 & H).
  step_cat H.
  apply group_rep_cls_inv in H as (D & s3 & _ & HD & HD2 & HD5 & H).
  apply suffix_keeps_groups in H as ->.
  exists L, D. split_and!; try done.
  - by apply HL6.
  - by apply HD5.
Qed.

Lemma FC2_inv s rest c :
  m FC2 s [] accept = Some (rest, c) →
  ∃ digits,
    c = [(1%nat, digits)]
    ∧ digits ≠ EmptyString
    ∧ all Char.isDigit digits = true.
Proof.
  unfold FC2. intros H.
  step_cat H. apply cls_inv in H as (a1 & s1 & _ & _ & H).
  step_cat H. apply cls_inv in H as (a2 & s2 & _ & _ & H).
  step_cat H. apply cls_inv in H as (a3 & s3 & _ & _ & H).
  step_cat H.
  change (m (Rep (Cls ?p) ?lo None) ?s ?c ?k)
    with (rep (m (Cls p)) k (String.length s) lo s c) in H.
  apply rep_cls_inv in H as (t & s4 & _ & _ & _ & H).
  apply group_rep_cls_inv in H as (D & s5 & _ & HD & HD1 & _ & H).
  injection H as _ <-. exists D. split_and!; [done| |done].
  intros ->. cbn in HD1. lia.
Qed.

Lemma search_m r s f :
  search r s = Some f →
  ∃ mid, m r mid [] accept = Some (after f, groups f).
Proof.
  revert f. induction s as [|a s IH]; intros f H; cbn [search] in H.
  - destruct (m r "" [] accept) as [[rest c]|] eqn:Hm; [|done].
    injection H as <-. eauto.
  - destruct (m r (String a s) [] accept) as [[rest c]|] eqn:Hm.
    + injection H as <-. eauto.
    + destruct (search r s) as [f'|] eqn:Hs; [|done].
      injection H as <-. cbn. by apply IH.
Qed.

(** *** Upper case *)

Lemma str_map_append f (s t : string) :
  Str.map f (s ++ t) = Str.map f s ++ Str.map f t.
Proof.
  induction s as [|a s IH]; [done|].
  rewrite append_cons. cbn [Str.map]. by rewrite append_cons, IH.
Qed.

Lemma str_length_map f (s : string) :
  String.length (Str.map f s) = String.length s.
Proof. induction s as [|a s IH]; [done|]. cbn. by rewrite IH. Qed.

Lemma toUpper_letter a :
  Char.isLetter a = true → Char.isUpper (Char.toUpper a) = true.
Proof.
  unfold Char.isLetter, Char.toUpper. intros H.
  destruct (Char.isLower a) eqn:Hl; [|by rewrite orb_false_r in H].
  unfold Char.isLower, Char.isUpper, Char.code in *.
  apply andb_true_iff in Hl as [H1 H2].
  apply Nat.leb_le in H1, H2.
  rewrite nat_ascii_embedding by lia.
  apply andb_true_iff. split; apply Nat.leb_le; lia.
Qed.

Lemma toUpper_digit a : Char.isDigit a = true → Char.toUpper a = a.
Proof.
  unfold Char.isDigit, Char.toUpper, Char.isLower. intros H.
  apply andb_true_iff in H as [H1 H2]. apply Nat.leb_le in H1, H2.
  destruct (_ && _) eqn:Hl; [|done].
  apply andb_true_iff in Hl as [H3 H4]. apply Nat.leb_le in H3, H4. lia.
Qed.

Lemma toUpperCase_letters s :
  all Char.isLetter s = true → all Char.isUpper (Str.toUpperCase s) = true.
Proof.
  induction s as [|a s IH]; [done|]. cbn [all].
  intros [Ha Hs]%andb_true_iff.
  change (Char.isUpper (Char.toUpper a)
          && all Char.isUpper (Str.toUpperCase s) = true).
  by rewrite toUpper_letter, IH.
Qed.

Lemma toUpperCase_digits s :
  all Char.isDigit s = true → Str.toUpperCase s = s.
Proof.
  induction s as [|a s IH]; [done|]. cbn [all].
  intros [Ha Hs]%andb_true_iff.
  change (String (Char.toUpper a) (Str.toUpperCase s) = String a s).
  by rewrite toUpper_digit, IH.
Qed.

Lemma pair_code letters digits :
  all Char.isLetter letters = true →
  (2 ≤ String.length letters ≤ 6)%nat →
  all Char.isDigit digits = true →
  (2 ≤ String.length digits ≤ 5)%nat →
  isStandardCode
    (Str.toUpperCase (format_pair [(2%nat, digits); (1%nat, letters)])).
Proof.
  intros HL HLn HD HDn. unfold format_pair. cbn [group Nat.eqb].
  exists (Str.toUpperCase letters), digits.
  unfold Str.toUpperCase at 1. rewrite !str_map_append.
  fold (Str.toUpperCase letters). fold (Str.toUpperCase digits).
  rewrite (toUpperCase_digits digits HD).
  split_and!; [done|by apply toUpperCase_letters| | |done|lia|lia];
    unfold Str.toUpperCase; rewrite str_length_map; lia.
Qed.

(** X25.  What [extractVideoCode] returns is a normalized code or the
    name itself.  Either a pattern is found in the name without its
    extension, and the result is [FC2-PPV-] followed by digits, or two to
    six capital letters, a hyphen and two to five digits; or none of the
    three patterns occurs in it, and the result is the name without its
    extension. *)
Theorem extractVideoCode_normalizes (fileName : string) :
  isFc2Code (extractVideoCode fileName)
  ∨ isStandardCode (extractVideoCode fileName)
  ∨ (unrecognized (nameWithoutExt fileName)
     ∧ extractVideoCode fileName = nameWithoutExt fileName).
Proof.
  unfold extractVideoCode. cbv zeta.
  set (name := nameWithoutExt fileName).
  unfold patterns. cbn [first_match].
  destruct (search FC2 name) as [f|] eqn:H1.
  { left. apply search_m in H1 as (mid & Hm).
    apply FC2_inv in Hm as (D & -> & Hne & HD).
    exists D. split_and!; [|done|done].
    unfold format_fc2. cbn [group Nat.eqb].
    unfold Str.toUpperCase. rewrite str_map_append.
    fold (Str.toUpperCase D). by rewrite (toUpperCase_digits D HD). }
  destruct (search STANDARD name) as [f|] eqn:H2.
  { right; left. apply search_m in H2 as (mid & Hm).
    apply STANDARD_inv in Hm as (L & D & -> & HL & HLn & HD & HDn).
    by apply pair_code. }
  destruct (search NO_HYPHEN name) as [f|] eqn:H3.
  { right; left. apply search_m in H3 as (mid & Hm).
    apply NO_HYPHEN_inv in Hm as (L & D & -> & HL & HLn & HD & HDn).
    by apply pair_code. }
  right; right. split; [|done]. by apply unrecognized_by_search.
Qed.

End CodeShapeFacts.

Section CodeFixpointFacts.
Import Regex RegexSpec VideoCode VideoCodeSpec.

Lemma all_mem p s a : all p s = true → Str.mem a s = true → p a = true.
Proof.
  induction s as [|b s IH]; [done|]. cbn.
  intros [Hb Hs]%andb_true_iff [Ha|Ha]%orb_true_iff; [|by apply IH].
  by apply Ascii.eqb_eq in Ha as ->.
Qed.

Lemma all_not_mem p s a : all p s = true → p a = false → Str.mem a s = false.
Proof.
  intros Hall Hp. destruct (Str.mem a s) eqn:Hm; [|done].
  apply (all_mem p s a Hall) in Hm. congruence.
Qed.

(** A greedy run takes all of [t] when what follows is not in the class
    and the continuation accepts. *)
Lemma rep_cls_run p (k : cont) (t rest : string) c x :
  all p t = true →
  match rest with String a _ => p a = false | EmptyString => True end →
  k rest c = Some x →
  ∀ n lo, (String.length t ≤ n)%nat → (lo ≤ String.length t)%nat →
          rep (m (Cls p)) k n lo (t ++ rest) c = Some x.
Proof.
  intros Hall Hrest Hk. induction t as [|a t IH]; intros n lo Hn Hlo.
  - cbn in Hlo. assert (lo = 0%nat) as -> by lia.
    change ("" ++ rest) with rest.
    destruct n as [|n]; [done|]. cbn [rep].
    destruct rest as [|b rest]; [done|].
    change (m (Cls p) (String b rest) c ?k')
      with (if p b then k' rest c else None).
    by rewrite Hrest.
  - cbn in Hall. apply andb_true_iff in Hall as [Ha Ht].
    destruct n as [|n]; [cbn in Hn; lia|].
    rewrite append_cons. cbn [rep].
    change (m (Cls p) (String a (t ++ rest)) c ?k')
      with (if p a then k' (t ++ rest) c else None).
    rewrite Ha. cbv beta.
    rewrite IH; [done|done|cbn in Hn; lia|cbn in Hlo; lia].
Qed.

Lemma group_run i p lo hi (k : cont) (t rest : string) c x :
  all p t = true →
  match rest with String a _ => p a = false | EmptyString => True end →
  (lo ≤ String.length t)%nat →
  (∀ h, hi = Some h → (String.length t ≤ h)%nat) →
  k rest ((i, t) :: c) = Some x →
  m (Grp i (Rep (Cls p) lo hi)) (t ++ rest) c k = Some x.
Proof.
  intros Hall Hrest Hlo Hhi Hk. cbn [m].
  apply rep_cls_run; [done|done| | |done].
  - by rewrite consumed_app.
  - destruct hi as [h|]; [by apply Hhi|]. rewrite length_append. lia.
Qed.

Lemma isUpper_toUpper a : Char.isUpper a = true → Char.toUpper a = a.
Proof.
  unfold Char.isUpper, Char.toUpper, Char.isLower. intros H.
  apply andb_true_iff in H as [H1 H2]. apply Nat.leb_le in H1, H2.
  destruct (_ && _) eqn:Hl; [|done].
  apply andb_true_iff in Hl as [H3 H4]. apply Nat.leb_le in H3, H4. lia.
Qed.

Lemma toUpperCase_upper s :
  all Char.isUpper s = true → Str.toUpperCase s = s.
Proof.
  induction s as [|a s IH]; [done|]. cbn [all].
  intros [Ha Hs]%andb_true_iff.
  change (String (Char.toUpper a) (Str.toUpperCase s) = String a s).
  by rewrite isUpper_toUpper, IH.
Qed.

Lemma all_weaken (p q : ascii → bool) s :
  (∀ a, p a = true → q a = true) → all p s = true → all q s = true.
Proof.
  intros Hpq. induction s as [|a s IH]; [done|]. cbn.
  intros [Ha Hs]%andb_true_iff. by rewrite (Hpq a Ha), IH.
Qed.

Lemma upper_not_digit a : Char.isUpper a = true → Char.isDigit a = false.
Proof.
  unfold Char.isUpper, Char.isDigit. intros H.
  apply andb_true_iff in H as [H1 H2]. apply Nat.leb_le in H1, H2.
  apply andb_false_iff. right. apply Nat.leb_gt. lia.
Qed.

Lemma digit_not_letter a : Char.isDigit a = true → Char.isLetter a = false.
Proof.
  unfold Char.isLetter, Char.isUpper, Char.isLower, Char.isDigit. intros H.
  apply andb_true_iff in H as [H1 H2]. apply Nat.leb_le in H1, H2.
  apply orb_false_iff. split; apply andb_false_iff; left; apply Nat.leb_gt; lia.
Qed.

(** In a standard code a [2] never follows a [C]: what precedes a digit
    is a digit or the hyphen. *)
Lemma before_digit letters digits :
  all Char.isUpper letters = true → all Char.isDigit digits = true →
  ∀ pre a b tail,
    letters ++ "-" ++ digits = pre ++ String a (String b tail) →
    Char.isDigit b = true →
    Char.isDigit a = true ∨ a = "-"%char.
Proof.
  intros HL HD. induction letters as [|l letters IH];
    intros pre a b tail Heq Hb.
  - change ("" ++ "-" ++ digits) with (String "-" digits) in Heq.
    destruct pre as [|x pre].
    + change ("" ++ String a (String b tail))
        with (String a (String b tail)) in Heq.
      injection Heq as <- _. by right.
    + rewrite append_cons in Heq. injection Heq as _ Heq. left.
      apply (all_mem _ digits a HD). rewrite Heq, mem_append. cbn.
      by rewrite Ascii.eqb_refl, orb_true_r.
  - cbn in HL. apply andb_true_iff in HL as [Hl HL].
    rewrite append_cons in Heq. destruct pre as [|x pre].
    + change ("" ++ String a (String b tail))
        with (String a (String b tail)) in Heq.
      injection Heq as _ Heq. exfalso.
      destruct letters as [|l' letters].
      * change ("" ++ "-" ++ digits) with (String "-" digits) in Heq.
        injection Heq as <- _. done.
      * rewrite append_cons in Heq. injection Heq as <- _.
        cbn in HL. apply andb_true_iff in HL as [Hl' _].
        apply upper_not_digit in Hl'. congruence.
    + rewrite append_cons in Heq. injection Heq as _ Heq.
      by eapply IH.
Qed.

Lemma eqb_ci_C a :
  Char.eqb_ci "C" a = true → Char.isDigit a = false ∧ a ≠ "-"%char.
Proof.
  intros H. split.
  - destruct (Char.isDigit a) eqn:Hd; [|done].
    unfold Char.eqb_ci in H. rewrite (toUpper_digit a Hd) in H.
    apply Ascii.eqb_eq in H. by subst a.
  - by intros ->.
Qed.

Lemma append_assoc3 (s t u : string) : s ++ t ++ u = (s ++ t) ++ u.
Proof.
  induction s as [|x s IH]; [done|]. rewrite !append_cons. by rewrite IH.
Qed.

Lemma FC2_absent letters digits :
  all Char.isUpper letters = true → all Char.isDigit digits = true →
  search FC2 (letters ++ "-" ++ digits) = None.
Proof.
  intros HL HD.
  destruct (search FC2 (letters ++ "-" ++ digits)) as [f|] eqn:Hs; [|done].
  exfalso. apply search_sound in Hs as (mid & Heq & Hm).
  unfold FC2 in Hm.
  apply matches_cat_inv in Hm as (s1 & H1 & Hm).
  apply matches_cls_inv in H1 as (a1 & -> & _).
  apply matches_cat_inv in Hm as (s2 & H2 & Hm).
  apply matches_cls_inv in H2 as (a2 & -> & Ha2).
  apply matches_cat_inv in Hm as (s3 & H3 & Hm).
  apply matches_cls_inv in H3 as (a3 & -> & Ha3).
  apply Ascii.eqb_eq in Ha3. subst a3.
  change (before f ++ String a1 (String a2 (String "2" s3)))
    with (before f ++ String a1 ("" ++ String a2 (String "2" s3))) in Heq.
  change (before f ++ String a1 ("" ++ String a2 (String "2" s3)))
    with (before f ++ (String a1 "" ++ String a2 (String "2" s3))) in Heq.
  assert (before f ++ String a1 "" ++ String a2 (String "2" s3)
          = (before f ++ String a1 "") ++ String a2 (String "2" s3)) as Hassoc.
  { apply append_assoc3. }
  rewrite Hassoc in Heq.
  destruct (before_digit letters digits HL HD _ _ _ _ Heq eq_refl)
    as [Hd | Hh]; apply eqb_ci_C in Ha2 as [? ?]; congruence.
Qed.

Lemma suffix_at_end c :
  m (opt (Cat (chr "-") letter)) "" c accept = Some ("", c).
Proof. done. Qed.

Lemma STANDARD_run letters digits :
  all Char.isUpper letters = true →
  (2 ≤ String.length letters ≤ 6)%nat →
  all Char.isDigit digits = true →
  (2 ≤ String.length digits ≤ 5)%nat →
  m STANDARD (letters ++ "-" ++ digits) [] accept
  = Some ("", [(2%nat, digits); (1%nat, letters)]).
Proof.
  intros HL HLn HD HDn. unfold STANDARD.
  change (m (Cat ?r1 ?r2) ?s ?c ?k)
    with (m r1 s c (fun s' c' => m r2 s' c' k)).
  apply group_run.
  - eapply all_weaken; [|exact HL]. intros a Ha.
    unfold Char.isLetter. by rewrite Ha.
  - done.
  - lia.
  - intros h [= <-]. lia.
  - change (m (Cat ?r1 ?r2) ?s ?c ?k)
      with (m r1 s c (fun s' c' => m r2 s' c' k)).
    change (m (chr "-") ("-" ++ digits) ?c ?k) with (k digits c).
    cbv beta.
    change (m (Cat ?r1 ?r2) ?s ?c ?k)
      with (m r1 s c (fun s' c' => m r2 s' c' k)).
    rewrite <- (append_empty_r digits) at 1.
    apply group_run; [done|done|lia| |apply suffix_at_end].
    intros h [= <-]. lia.
Qed.

Lemma search_at_start r s rest c :
  m r s [] accept = Some (rest, c) →
  search r s = Some (Found "" rest c).
Proof. intros H. destruct s; cbn [search]; by rewrite H. Qed.

Lemma FC2_run digits :
  digits ≠ "" → all Char.isDigit digits = true →
  m FC2 ("FC2-PPV-" ++ digits) [] accept = Some ("", [(1%nat, digits)]).
Proof.
  intros Hne HD. unfold FC2.
  change ("FC2-PPV-" ++ digits)
    with (String "F" (String "C" (String "2" ("-PPV-" ++ digits)))).
  change (m (Cat ?r1 ?r2) ?s ?c ?k)
    with (m r1 s c (fun s' c' => m r2 s' c' k)).
  change (m (chr_ci "F") (String "F" ?s) ?c ?k) with (k s c). cbv beta.
  change (m (Cat ?r1 ?r2) ?s ?c ?k)
    with (m r1 s c (fun s' c' => m r2 s' c' k)).
  change (m (chr_ci "C") (String "C" ?s) ?c ?k) with (k s c). cbv beta.
  change (m (Cat ?r1 ?r2) ?s ?c ?k)
    with (m r1 s c (fun s' c' => m r2 s' c' k)).
  change (m (chr "2") (String "2" ?s) ?c ?k) with (k s c). cbv beta.
  change (m (Cat ?r1 ?r2) ?s ?c ?k)
    with (m r1 s c (fun s' c' => m r2 s' c' k)).
  change (m (Rep (Cls ?p) ?lo None) ?s ?c ?k)
    with (rep (m (Cls p)) k (String.length s) lo s c).
  apply rep_cls_run; [done| | |rewrite length_append; lia|cbn; lia].
  - destruct digits as [|d digits]; [done|].
    cbn in HD. apply andb_true_iff in HD as [Hd _]. by rewrite Hd.
  - rewrite <- (append_empty_r digits) at 1.
    apply group_run; [done|done| |done|done].
    destruct digits; [done|cbn; lia].
Qed.

(** X26.  A normalized code is left as it is: [extractVideoCode] applied
    to [FC2-PPV-] followed by digits, or to two to six capital letters, a
    hyphen and two to five digits, returns its argument.  Hence
    extracting the code from a code that was recognized changes
    nothing. *)
Theorem extractVideoCode_fixes_codes (code : string) :
  isFc2Code code ∨ isStandardCode code →
  extractVideoCode code = code.
Proof.
  intros [(D & -> & Hne & HD) | (L & D & -> & HL & HLn & HD & HDn)].
  - unfold extractVideoCode, nameWithoutExt, remove_first. cbv zeta.
    rewrite search_extension_none.
    2:{ rewrite mem_append. rewrite (all_not_mem Char.isDigit D "." HD) by done.
        done. }
    unfold patterns. cbn [first_match].
    rewrite (search_at_start FC2 _ _ _ (FC2_run D Hne HD)).
    cbn [groups]. unfold format_fc2. cbn [group Nat.eqb].
    unfold Str.toUpperCase. rewrite str_map_append.
    fold (Str.toUpperCase D). by rewrite (toUpperCase_digits D HD).
  - unfold extractVideoCode, nameWithoutExt, remove_first. cbv zeta.
    rewrite search_extension_none.
    2:{ rewrite !mem_append.
        rewrite (all_not_mem Char.isDigit D "." HD) by done.
        rewrite (all_not_mem Char.isUpper L "." HL) by done. done. }
    unfold patterns. cbn [first_match].
    rewrite (FC2_absent L D HL HD).
    rewrite (search_at_start STANDARD _ _ _ (STANDARD_run L D HL HLn HD HDn)).
    cbn [groups]. unfold format_pair. cbn [group Nat.eqb].
    unfold Str.toUpperCase. rewrite !str_map_append.
    fold (Str.toUpperCase D). fold (Str.toUpperCase L).
    by rewrite (toUpperCase_digits D HD), (toUpperCase_upper L HL).
Qed.

End CodeFixpointFacts.

Lemma extractVideoCode_fixes_codes_witness :
  VideoCode.extractVideoCode "MIDE-123" = "MIDE-123".
Proof.
  apply extractVideoCode_fixes_codes. right.
  exists "MIDE", "123". split_and!; [done|done|cbn; lia|cbn; lia|done|cbn; lia|cbn; lia].
Defined.

Section MetadataFacts.
Import Path Fs Organizer.
Variable getVideoInfo : string → nat → Result metadata.
Variable http_get : string → nat → Result (option string).
Variable splitCoverImage : string → Result string.
Variable url_extname : string → Result string.
Variable render : metadata → string.
Variable generateKey : string → string.
Variable dev : path → nat.

Local Abbreviation resolveMetadata :=
  (Organizer.resolveMetadata getVideoInfo generateKey).
Local Abbreviation processVideo :=
  (Organizer.processVideo getVideoInfo http_get splitCoverImage url_extname
                          render generateKey dev).

Lemma get_maxFileAge {V} key age now (c : Cache.t V) :
  Cache.maxFileAge (Cache.get key age now c).2 = Cache.maxFileAge c.
Proof.
  rewrite get_unfold. unfold Cache.get_memory.
  assert (∀ c0 : Cache.t V,
            Cache.maxFileAge (Cache.get_file key age now c0).2
            = Cache.maxFileAge c0) as Hfile.
  { intros c0. rewrite get_file_unfold.
    destruct (Cache.files c0 !! key) as [[[d fAge ts|] mt]|]; [|done|done].
    destruct (negb _); cbn [snd]; [|done].
    apply (setMemoryCache_config c0 key d). }
  destruct (Cache.memoryCache c !! key) as [it|].
  - destruct (negb _); [done|]. by rewrite Hfile.
  - by rewrite Hfile.
Qed.

(** X18.  Metadata fetched from the site is cached.  When
    [processVideo] had to ask the site for the metadata of a code and got
    an answer, then in any later state with the same cache, up to the
    cache's max-age after the fetch, the metadata of that code comes from
    the cache: it is the same record, and the site is not asked again. *)
Theorem metadata_cached_after_fetch videoCode w md w1 w2 :
  resolveMetadata videoCode w = (Return md, w1) →
  requests w1 ≠ requests w →
  cache w2 = cache w1 →
  (0 ≤ now w2 - now w1 ≤ Cache.maxFileAge (cache w1))%Z →
  ∃ w2',
    resolveMetadata videoCode w2 = (Return md, w2')
    ∧ requests w2' = requests w2
    ∧ fs w2' = fs w2.
Proof.
  unfold Organizer.resolveMetadata, Js.bind, cache_get, cache_set, request,
    Js.ret.
  intros H Hreq Hcache Hnow.
  set (key := generateKey ("metadata:" ++ videoCode)) in *.
  destruct (Cache.get key None (now w) (cache w)) as [[md0|] c0] eqn:Hget.
  { injection H as _ <-. simpl in Hreq. done. }
  simpl in H. destruct (getVideoInfo videoCode (requests w)) as [md1|e];
    [|done].
  injection H as -> <-. cbn [now cache requests fs] in *.
  destruct (get_right_after_set c0 key md None None (now w) (now w2))
    as [Hhit _].
  assert (Cache.maxFileAge c0 = Cache.maxFileAge (cache w)) as Hage
    by (pose proof (get_maxFileAge key None (now w) (cache w)) as Hg;
        by rewrite Hget in Hg).
  assert (Cache.maxFileAge (Cache.set key md None (now w) c0)
          = Cache.maxFileAge c0) as Hage'.
  { rewrite set_unfold. cbn [Cache.maxFileAge].
    apply (setMemoryCache_config c0 key md None (now w)). }
  rewrite Hcache.
  destruct (Cache.get key None (now w2) (Cache.set key md None (now w) c0))
    as [r c2] eqn:Hget2.
  simpl in Hhit. rewrite Hhit.
  - eexists. split; [reflexivity|]. by split.
  - rewrite Hage' in Hnow. unfold Cache.effectiveMaxAge. simpl. lia.
Qed.

(** X19.  A failed fetch leaves no trace in the tree.  When the metadata
    cannot be resolved, [processVideo] reports the error of the fetch as
    the failure of the item, and the file system is as it was: no
    directory has been made and the source has not been touched. *)
Theorem fetch_failure_leaves_tree vi cfg targetDir w e w1 :
  resolveMetadata (code vi) w = (Throw e, w1) →
  processVideo vi cfg targetDir w
  = (Return (Failure (code vi) (Js.message e)), w1)
  ∧ fs w1 = fs w.
Proof.
  intros H. rewrite processVideo_unfold, H. split; [done|].
  by eapply resolveMetadata_fs.
Qed.

End MetadataFacts.

(** The metadata of a code is fetched at time 0; a thousand milliseconds
    later it comes from the cache, and the count of requests stays where
    it is. *)
Lemma metadata_cached_after_fetch_witness :
  let w := Scenario.world_of Scenario.fs_apart in
  let w1 := (Scenario.resolveMetadata "ABC-123" w).2 in
  let w2 := Organizer.World Scenario.fs_apart (Organizer.cache w1) 1000 5
                            false in
  ∃ w2',
    Scenario.resolveMetadata "ABC-123" w2 = (Return Scenario.md, w2')
    ∧ Organizer.requests w2' = 5%nat.
Proof.
  intros w w1 w2.
  destruct (metadata_cached_after_fetch Scenario.getVideoInfo
              Scenario.generateKey "ABC-123" w Scenario.md w1 w2)
    as (w2' & Hres & Hreq & _).
  - vm_compute. reflexivity.
  - vm_compute. discriminate.
  - reflexivity.
  - vm_compute. split; discriminate.
  - exists w2'. split; [exact Hres|exact Hreq].
Defined.

(** The site answers with an error: the item fails with that error and
    the tree is untouched. *)
Lemma fetch_failure_leaves_tree_witness :
  let getVideoInfo : string → nat → Result Organizer.metadata :=
    fun _ _ => Throw (Error "404") in
  let w := Scenario.world_of Scenario.fs_apart in
  ∃ w1,
    Organizer.processVideo getVideoInfo Scenario.http_get
      Scenario.splitCoverImage Scenario.url_extname Organizer.details
      Scenario.generateKey Scenario.dev
      Scenario.vi_apart Scenario.cfg Scenario.targetDir w
    = (Return (Organizer.Failure "ABC-123" "404"), w1)
    ∧ Organizer.fs w1 = Scenario.fs_apart.
Proof.
  intros getVideoInfo w.
  assert (∃ w1, Organizer.resolveMetadata getVideoInfo Scenario.generateKey
                  "ABC-123" w = (Throw (Error "404"), w1)) as [w1 H]
    by (eexists; vm_compute; reflexivity).
  exists w1.
  exact (fetch_failure_leaves_tree getVideoInfo Scenario.http_get
           Scenario.splitCoverImage Scenario.url_extname Organizer.details
           Scenario.generateKey Scenario.dev
           Scenario.vi_apart Scenario.cfg Scenario.targetDir w
           (Error "404") w1 H).
Defined.

Section YieldFacts.
Import Hoare HoareReturn.
Context {S : Type}.

Lemma yields_ret {A} (P : S → Prop) (Q : A → S → Prop) (v : A) :
  (∀ s, P s → Q v s) → yields P Q (Js.ret v).
Proof. intros HQ s v' s' HP [= <- <-]. by apply HQ. Qed.

Lemma yields_throw {A} (P : S → Prop) (Q : A → S → Prop) e :
  yields P Q (Js.throw e).
Proof. by intros s v s' HP H. Qed.

Lemma yields_bind {A B} (P : S → Prop) (R : A → S → Prop)
    (Q : B → S → Prop) (c : M S A) (k : A → M S B) :
  yields P R c → (∀ a, yields (R a) Q (k a)) → yields P Q (Js.bind c k).
Proof.
  intros Hc Hk s v s' HP H. unfold Js.bind in H.
  destruct (c s) as [[a|e] s1] eqn:Hcs; [|done].
  eapply Hk; [|exact H]. by eapply Hc.
Qed.

Lemma keeps_yields {A} (P : S → Prop) (c : M S A) :
  keeps P c → yields P (fun _ => P) c.
Proof. intros Hc s v s' HP H. by eapply Hc. Qed.

Lemma yields_weaken {A} (P : S → Prop) (Q Q' : A → S → Prop) (c : M S A) :
  yields P Q c → (∀ v s, Q v s → Q' v s) → yields P Q' c.
Proof. intros Hc HQ s v s' HP H. apply HQ. by eapply Hc. Qed.

Variable isAborting : S → bool.
Variable sleep : Z → S → S.

Lemma retry_loop_yields {A} (P : S → Prop) (Q : A → S → Prop)
    (operation : M S A) o n :
  (∀ d s, P s → P (sleep d s)) →
  keeps_on_throw P operation → yields P Q operation →
  ∀ attempt lastError,
    yields P Q (Retry.loop isAborting sleep operation o n attempt lastError).
Proof.
  intros Hsleep Hthrow Hop.
  induction n as [|n IH]; intros attempt lastError s v s' HP H; simpl in H.
  - by destruct lastError.
  - destruct (isAborting s); [done|].
    destruct (operation s) as [[v1|e] s1] eqn:Hs.
    + injection H as <- <-. by eapply Hop.
    + assert (P s1) as HP1 by by eapply Hthrow.
      destruct (_ && _).
      * destruct (isAborting s1); [done|].
        eapply IH; [|exact H]. by apply Hsleep.
      * by eapply IH.
Qed.

Lemma retry_yields {A} (P : S → Prop) (Q : A → S → Prop)
    (operation : M S A) o :
  (∀ d s, P s → P (sleep d s)) →
  keeps_on_throw P operation → yields P Q operation →
  yields P Q (Retry.retryOperation isAborting sleep operation o).
Proof.
  intros Hsleep Hthrow Hop. unfold Retry.retryOperation.
  destruct (Retry.validate o); [apply yields_throw|].
  by apply retry_loop_yields.
Qed.

End YieldFacts.

(** ** A run that succeeds *)

Section MoveKeepsFacts.
Import Path Fs FileUtils.
Variable dev : path → nat.

Lemma writeFile_throws_state p c fs e fs' :
  writeFile p c fs = (Throw e, fs') → fs' = fs.
Proof.
  unfold writeFile. intros H.
  destruct (is_dir fs p); [by injection H as _ <-|].
  destruct (negb _); [by injection H as _ <-|done].
Qed.

Lemma writeFile_keeps_file p c fs r fs' q :
  writeFile p c fs = (r, fs') →
  is_file fs q = true → is_file fs' q = true.
Proof.
  intros H Hq. destruct r as [[]|e].
  - apply writeFile_written in H as (Hp & Hother & _). unfold is_file.
    destruct (decide (q = p)) as [->|Hne]; [by rewrite Hp|].
    by rewrite (Hother q Hne).
  - by apply writeFile_throws_state in H as ->.
Qed.

Lemma delete_dirs (safe : bool) src fs r fs' d :
  (if safe then trash src else unlink src) fs = (r, fs') →
  under src d = false →
  is_dir fs d = true → is_dir fs' d = true.
Proof.
  intros H Hout Hd. destruct safe.
  - unfold trash in H. destruct (exists_ fs src);
      injection H as _ <-; [|done].
    unfold is_dir, prune in *. simpl.
    apply orb_true_iff in Hd as [Hd|Hd]; [by rewrite Hd|].
    apply bool_decide_eq_true in Hd.
    rewrite (bool_decide_eq_true_2 (d ∈ filter _ (dirs fs)));
      [apply orb_true_r|].
    by apply list_elem_of_filter.
  - unfold unlink in H. destruct (is_file fs src);
      [by injection H as _ <-|].
    destruct (is_dir fs src); by injection H as _ <-.
Qed.

(** Moving a file takes no other file and no directory away, however the
    move ends. *)
Lemma transfer_keeps_rest safe src tgt fs r fs' c :
  read fs src = Some c →
  transfer dev safe src tgt fs = (r, fs') →
  (∀ q, under src q = false → is_file fs q = true → is_file fs' q = true)
  ∧ (∀ d, under src d = false → is_dir fs d = true → is_dir fs' d = true).
Proof.
  intros Hsrc H. unfold transfer in H. destruct (decide _).
  - unfold Js.bind, copyFile in H. rewrite Hsrc in H.
    destruct (writeFile tgt c fs) as [[[]|e] fs1] eqn:Hw.
    + assert (read fs1 src = Some c ∨ src = tgt) as Hsrc1.
      { destruct (decide (src = tgt)) as [|Hne]; [by right|left].
        apply writeFile_written in Hw as (_ & Hother & _).
        by rewrite Hother. }
      split.
      * intros q Hout Hq.
        eapply writeFile_keeps_file in Hq; [|exact Hw].
        unfold is_file in *. erewrite delete_keeps; [done|exact H| |done].
        intros ->. by rewrite under_refl in Hout.
      * intros d Hout Hd. eapply delete_dirs; [exact H|done|].
        apply writeFile_written in Hw as (_ & _ & Hdirs).
        eapply is_dir_dirs; [|exact Hd]. by rewrite Hdirs.
    + injection H as _ <-. apply writeFile_throws_state in Hw as ->. done.
  - destruct r as [[]|e].
    + destruct (rename_file src tgt fs fs' c Hsrc H)
        as (Htgt & _ & Hother & Hdirs).
      split.
      * intros q Hout Hq. unfold is_file in *.
        destruct (decide (q = tgt)) as [->|Hne]; [by rewrite Htgt|].
        rewrite Hother; [done| |done].
        intros ->. by rewrite under_refl in Hout.
      * intros d _ Hd. eapply is_dir_dirs; [|exact Hd]. by rewrite Hdirs.
    + by apply rename_throws_state in H as ->.
Qed.

Lemma moveFile_keeps_rest src dir o fs r fs' c :
  read fs src = Some c →
  moveFile dev src dir o fs = (r, fs') →
  (∀ q, under src q = false → is_file fs q = true → is_file fs' q = true)
  ∧ (∀ d, under src d = false → is_dir fs d = true → is_dir fs' d = true).
Proof.
  unfold moveFile. intros Hsrc H.
  destruct (access src fs) as [[[]|e] fs0] eqn:Ha;
    apply access_state in Ha as ->; [|by injection H as _ <-].
  destruct (ensureDir (createDir o) dir fs) as [[[]|e] fs1] eqn:He;
    apply ensureDir_keeps in He as [Hfiles Hdirs].
  - cbv zeta in H.
    set (tgt := pickTarget (overwrite o) fs1 dir (basename src)) in *.
    assert (read fs1 src = Some c) as Hsrc1 by (by rewrite (read_files fs)).
    destruct (transfer dev (useSafeDelete o) src tgt fs1)
      as [r2 fs2] eqn:Ht.
    destruct (transfer_keeps_rest _ _ _ _ _ _ _ Hsrc1 Ht) as [Hf Hd].
    assert (fs' = fs2) as -> by (destruct r2 as [[]|?]; by injection H).
    split.
    + intros q Hout Hq. apply Hf; [done|].
      unfold is_file in *. by rewrite (read_files fs).
    + intros d Hout Hdir. apply Hd; [done|]. by apply Hdirs.
  - injection H as _ <-. split.
    + intros q _ Hq. unfold is_file in *. by rewrite (read_files fs).
    + intros d _ Hdir. by apply Hdirs.
Qed.

(** A move that is reported as done: the file is in the target directory,
    under a name that was free, and no longer at the source. *)
Lemma moveFile_lands src dir o fs to fs' c :
  moveFile dev src dir o fs = (Return (Moved to), fs') →
  overwrite o = false →
  read fs src = Some c →
  under src dir = false →
  (∃ name, to = join dir name)
  ∧ read fs' to = Some c
  ∧ read fs' src = None.
Proof.
  unfold moveFile. intros H Hover Hsrc Hout.
  destruct (access src fs) as [[[]|e] fs0] eqn:Ha;
    apply access_state in Ha as ->; [|done].
  destruct (ensureDir (createDir o) dir fs) as [[[]|e] fs1] eqn:He;
    apply ensureDir_keeps in He as [Hfiles Hdirs]; [|done].
  cbv zeta in H.
  set (tgt := pickTarget (overwrite o) fs1 dir (basename src)) in *.
  destruct (transfer dev (useSafeDelete o) src tgt fs1)
    as [[[]|e] fs2] eqn:Ht; [|done].
  injection H as <- <-.
  assert (read fs1 src = Some c) as Hsrc1 by (by rewrite (read_files fs)).
  destruct (pickTarget_shape (overwrite o) fs1 dir (basename src))
    as [name Hname]. fold tgt in Hname.
  assert (fileExists fs1 tgt = false) as Hfree.
  { unfold tgt, pickTarget. rewrite Hover. cbn [negb].
    apply freeTarget_free. }
  assert (src ≠ tgt) as Hne.
  { intros Heq. unfold fileExists in Hfree. rewrite <- Heq in Hfree.
    by rewrite (read_exists _ _ _ Hsrc1) in Hfree. }
  assert (under src tgt = false) as Hout'.
  { apply under_false. intros Hpre. apply under_false in Hout.
    apply Hout. rewrite Hname in Hpre. unfold join in Hpre.
    destruct (prefix_snoc_cases src dir name Hpre) as [Heq|?]; [|done].
    rewrite Hname in Hne. done. }
  destruct (transfer_file dev (useSafeDelete o) src tgt fs1 fs2 c Hsrc1 Ht
              Hne Hout') as (H1 & H2 & H3).
  split_and!; [by exists name|done|done].
Qed.

(** A directory can only be made where no file is in the way. *)
Lemma mkdir_clear p fs fs' sp c :
  mkdir p fs = (Return tt, fs') →
  read fs sp = Some c →
  under sp p = false.
Proof.
  unfold mkdir. intros H Hsp.
  destruct (is_file fs p) eqn:Hp; [done|].
  destruct (existsb (is_file fs) (ancestry p)) eqn:Hanc; [done|].
  apply under_false. intros Hpre.
  assert (existsb (is_file fs) (ancestry p) = true) as Habs; [|congruence].
  apply existsb_exists. exists sp. split; [|unfold is_file; by rewrite Hsp].
  apply read_nonempty in Hsp. unfold ancestry.
  apply in_map_iff. exists (length sp). split.
  - destruct Hpre as [k ->]. by rewrite take_app_length.
  - apply in_seq. apply prefix_length in Hpre.
    destruct sp; [done|]. simpl in *. lia.
Qed.

End MoveKeepsFacts.

Section Success.
Import Path Fs FileUtils Organizer OrganizerSpec OrganizerProgress.
Import Hoare HoareReturn.
Variable getVideoInfo : string → nat → Result metadata.
Variable http_get : string → nat → Result (option string).
Variable splitCoverImage : string → Result string.
Variable url_extname : string → Result string.
Variable render : metadata → string.
Variable generateKey : string → string.
Variable dev : path → nat.

(** The source file, its content, and the destination directory. *)
Variables (sp : path) (c : string) (vd : path).
Hypothesis outside : under vd sp = false.
Hypothesis clear_above : under sp vd = false.

Local Abbreviation holds := (fun names (w : world) => stocked sp c vd names (fs w)).

Lemma inside_outside n : join vd n ≠ sp ∧ under sp (join vd n) = false.
Proof.
  split.
  - eapply not_under_ne; [apply under_join | exact outside].
  - apply under_false. intros Hpre. unfold join in Hpre.
    apply prefix_snoc_cases in Hpre as [Heq|Hpre].
    + apply under_false in outside. apply outside. rewrite Heq.
      by apply prefix_app_r.
    + apply under_false in clear_above. done.
Qed.

Lemma holds_sleep names d w : holds names w → holds names (sleep d w).
Proof. done. Qed.

Lemma request_holds {A} names (answer : nat → Result A) :
  keeps (holds names) (request answer).
Proof. by intros w r w' HP [= _ <-]. Qed.

Lemma of_result_holds {A} names (r0 : Result A) :
  keeps (holds names) (of_result r0).
Proof. by intros w r w' HP [= _ <-]. Qed.

Lemma access_holds names p : keeps (holds names) (on_fs (access p)).
Proof.
  intros w r w' HP H. unfold on_fs in H.
  destruct (access p (fs w)) as [r1 f'] eqn:Hf. injection H as _ <-.
  by apply access_state in Hf as ->.
Qed.

Lemma write_holds names n content :
  keeps (holds names) (on_fs (writeFile (join vd n) content)).
Proof.
  intros w r w' [Hkept Hfiles] H.
  split.
  - eapply (write_inside_keeps sp c vd outside n content w r w'); done.
  - unfold on_fs in H.
    destruct (writeFile (join vd n) content (fs w)) as [r1 f'] eqn:Hf.
    injection H as _ <-. simpl. intros m Hm.
    eapply writeFile_keeps_file; [exact Hf|]. by apply Hfiles.
Qed.

Lemma write_adds names n content :
  yields (holds names) (fun _ => holds (n :: names))
         (on_fs (writeFile (join vd n) content)).
Proof.
  intros w v w' HP H.
  destruct (write_holds names n content w (Return v) w' HP H)
    as [Hkept Hfiles].
  split; [done|]. intros m [->|Hm]%elem_of_cons; [|by apply Hfiles].
  unfold on_fs in H.
  destruct (writeFile (join vd n) content (fs w)) as [r1 f'] eqn:Hf.
  injection H as -> <-. simpl. destruct v.
  apply writeFile_written in Hf as (Hp & _). unfold is_file. by rewrite Hp.
Qed.

Lemma generateNfoFile_adds names md :
  yields (holds names) (fun _ => holds ((md_code md ++ ".nfo") :: names))
         (generateNfoFile render md vd).
Proof.
  apply retry_yields; [by intros|..]; unfold _generateNfoFile, generateNfo.
  - apply keeps_weaken, keeps_bind; [apply write_holds|].
    intros _. apply keeps_ret.
  - eapply yields_bind; [apply write_adds|]. intros ?; cbv beta. by apply yields_ret.
Qed.

Lemma downloadAndSaveCovers_adds names url :
  yields (holds names)
         (fun _ w => ∃ extension,
            extension ≠ ""
            ∧ holds (("poster" ++ extension) :: ("fanart" ++ extension)
                       :: names) w)
         (downloadAndSaveCovers http_get splitCoverImage url_extname url vd).
Proof.
  unfold downloadAndSaveCovers. destruct (negb _); [apply yields_throw|].
  eapply yields_bind.
  { apply keeps_yields, keeps_try_catch; [apply access_holds|].
    intros e. apply keeps_throw. }
  intros ?; cbv beta. eapply yields_bind; [apply keeps_yields, of_result_holds|].
  intros ext. cbv zeta.
  set (extension := if String.eqb ext "" then ".jpg" else ext).
  assert (extension ≠ "") as Hext.
  { unfold extension. destruct (String.eqb ext "") eqn:He; [done|].
    by apply String.eqb_neq in He. }
  eapply yields_bind.
  { apply keeps_yields, retry_keeps; [by intros|]. unfold _downloadImage.
    apply keeps_bind; [apply request_holds|].
    intros [buffer|]; [apply keeps_ret | apply keeps_throw]. }
  intros imageBuffer. eapply yields_weaken.
  - apply (retry_yields _ _ (holds names)
             (fun _ => holds (("poster" ++ extension)
                                :: ("fanart" ++ extension) :: names)));
      [by intros|..]; unfold _processAndSaveImages.
    + apply keeps_weaken.
      apply keeps_bind; [apply write_holds|]. intros _.
      apply keeps_bind; [apply of_result_holds|]. intros splitCoverBuffer.
      apply keeps_bind; [apply write_holds|]. intros _. apply keeps_ret.
    + eapply yields_bind; [apply write_adds|]. intros ?; cbv beta.
      eapply yields_bind; [apply keeps_yields, of_result_holds|].
      intros splitCoverBuffer.
      eapply yields_bind; [apply write_adds|]. intros ?; cbv beta.
      apply yields_ret. intros w Hw. exact Hw.
  - intros v w Hw. by exists extension.
Qed.

Lemma moveVideoFile_moves names :
  yields (holds names)
         (fun _ w =>
            is_dir (fs w) vd = true
            ∧ (∀ n, n ∈ names → is_file (fs w) (join vd n) = true)
            ∧ (∃ name, read (fs w) (join vd name) = Some c)
            ∧ read (fs w) sp = None)
         (moveVideoFile dev sp vd).
Proof.
  apply retry_yields; [by intros|..].
  - intros w e w' [[Hsp Hdir] Hfiles] H.
    unfold _moveVideoFile, Js.bind, on_fs in H.
    destruct (moveFile dev sp vd moveOptions_in (fs w)) as [r f'] eqn:Hm.
    destruct (moveFile_keeps_rest dev _ _ _ _ _ _ _ Hsp Hm) as [Hf Hd].
    destruct r as [[to|error]|e1].
    + done.
    + injection H as _ <-. simpl.
      apply moveFile_failed with (c := c) in Hm as [Hr _]; [|done..].
      split; [split; [done|by apply Hd]|].
      intros n Hn. apply Hf; [apply inside_outside|by apply Hfiles].
    + exfalso. destruct (moveFile_answers dev sp vd moveOptions_in (fs w))
        as (r' & f'' & Hr'). congruence.
  - intros w v w' [[Hsp Hdir] Hfiles] H.
    unfold _moveVideoFile, Js.bind, on_fs in H.
    destruct (moveFile dev sp vd moveOptions_in (fs w)) as [r f'] eqn:Hm.
    destruct (moveFile_keeps_rest dev _ _ _ _ _ _ _ Hsp Hm) as [Hf Hd].
    destruct r as [[to|error]|e1]; [|done..].
    injection H as _ <-. simpl.
    apply moveFile_lands with (c := c) in Hm
      as ((name & ->) & Hto & Hgone); [|done..].
    split_and!; [by apply Hd| |by exists name|done].
    intros n Hn. apply Hf; [apply inside_outside|by apply Hfiles].
Qed.

Lemma produce_delivers md :
  yields (holds [])
         (fun r w =>
            r = Success (md_code md) vd
            ∧ is_dir (fs w) vd = true
            ∧ is_file (fs w) (join vd (md_code md ++ ".nfo")) = true
            ∧ (∃ extension,
                 extension ≠ ""
                 ∧ is_file (fs w) (join vd ("fanart" ++ extension)) = true
                 ∧ is_file (fs w) (join vd ("poster" ++ extension)) = true)
            ∧ (∃ name, read (fs w) (join vd name) = Some c)
            ∧ read (fs w) sp = None)
         (produce http_get splitCoverImage url_extname render dev md sp vd).
Proof.
  unfold produce.
  eapply yields_bind; [apply generateNfoFile_adds|]. intros ?; cbv beta.
  intros w v w' Hw H. unfold Js.bind in H.
  destruct (downloadAndSaveCovers _ _ _ _ _ w) as [[covers|e] w1] eqn:Hcov;
    [|done].
  destruct (downloadAndSaveCovers_adds _ (coverUrl md) w covers w1 Hw Hcov)
    as (extension & Hext & Hw1).
  destruct (moveVideoFile dev sp vd w1) as [[m|e] w2] eqn:Hmove; [|done].
  injection H as <- <-.
  destruct (moveVideoFile_moves _ w1 m w2 Hw1 Hmove)
    as (Hdir & Hfiles & Hvideo & Hgone).
  split_and!; [done|done| | |done|done].
  - apply Hfiles. rewrite !elem_of_cons. auto.
  - exists extension.
    split_and!; [done|apply Hfiles..]; rewrite !elem_of_cons; auto.
Qed.

End Success.

Section SuccessTheorem.
Import Path Fs FileUtils Organizer OrganizerSpec OrganizerProgress.
Import Hoare HoareReturn.
Variable getVideoInfo : string → nat → Result metadata.
Variable http_get : string → nat → Result (option string).
Variable splitCoverImage : string → Result string.
Variable url_extname : string → Result string.
Variable render : metadata → string.
Variable generateKey : string → string.
Variable dev : path → nat.

Local Abbreviation processVideo :=
  (Organizer.processVideo getVideoInfo http_get splitCoverImage url_extname
                          render generateKey dev).

(** X21.  What a success of [processVideo] means.  When the source is a
    file outside the target directory and [processVideo] resolves to
    {success: true, code, path}, then [path] is the directory named by
    the code under the target directory, and that directory holds the
    description file [<code>.nfo], the two covers [fanart] and [poster]
    with one and the same non-empty extension, and a file with the
    content of the video; the video is no longer at its source path. *)
Theorem processVideo_success vi cfg targetDir w code_ dir w' content :
  let sourceVideoPath := file_path (file vi) in
  processVideo vi cfg targetDir w = (Return (Success code_ dir), w') →
  read (fs w) sourceVideoPath = Some content →
  under targetDir sourceVideoPath = false →
  dir = join targetDir code_
  ∧ is_dir (fs w') dir = true
  ∧ is_file (fs w') (join dir (code_ ++ ".nfo")) = true
  ∧ (∃ extension,
       extension ≠ ""
       ∧ is_file (fs w') (join dir ("fanart" ++ extension)) = true
       ∧ is_file (fs w') (join dir ("poster" ++ extension)) = true)
  ∧ (∃ name, read (fs w') (join dir name) = Some content)
  ∧ read (fs w') sourceVideoPath = None.
Proof.
  intros sp H Hsp Hout. rewrite processVideo_unfold in H. fold sp in H.
  destruct (resolveMetadata _ _ _ w) as [[md|e] w1] eqn:Hresolve; [|done].
  cbv zeta in H. set (vd := videoDir_of targetDir md) in *.
  destruct (on_fs (mkdir vd) w1) as [[[]|e] w2] eqn:Hmkdir; [|done].
  destruct (produce _ _ _ _ _ md sp vd w2) as [[r|e] w3] eqn:Hproduce;
    [|done].
  injection H as -> <-.
  apply resolveMetadata_fs in Hresolve as Hfs1.
  unfold on_fs in Hmkdir.
  destruct (mkdir vd (fs w1)) as [r f2] eqn:Hm.
  injection Hmkdir as -> <-.
  assert (under sp vd = false) as Hclear.
  { eapply mkdir_clear; [exact Hm|]. by rewrite Hfs1. }
  apply mkdir_keeps in Hm as (Hfiles & _ & Hdir).
  assert (under vd sp = false) as Hout'.
  { apply under_false. intros Hpre. apply under_false in Hout. apply Hout.
    etrans; [|exact Hpre]. unfold vd, videoDir_of, join.
    by apply prefix_app_r. }
  assert (stocked sp content vd [] f2) as Hstart.
  { split; [split|by intros n ?%elem_of_nil].
    - by rewrite (read_files (fs w1)), Hfs1.
    - by apply Hdir. }
  eapply (produce_delivers http_get splitCoverImage url_extname render dev
            sp content vd Hout' Hclear md) in Hproduce; [|exact Hstart].
  destruct Hproduce as (Heq & Hrest). injection Heq as -> ->. done.
Qed.

End SuccessTheorem.

(** A site that knows the video and serves its cover: the run succeeds
    and the four files are in place. *)
Lemma processVideo_success_witness :
  let http_get : string → nat → Result (option string) :=
    fun _ _ => Return (Some "IMAGE") in
  let run :=
    Organizer.processVideo Scenario.getVideoInfo http_get
      Scenario.splitCoverImage Scenario.url_extname Organizer.details
      Scenario.generateKey Scenario.dev in
  let w := Scenario.world_of Scenario.fs_apart in
  (run Scenario.vi_apart Scenario.cfg Scenario.targetDir w).1
  = Return (Organizer.Success "ABC-123" ["out"; "ABC-123"])
  ∧ Fs.read (Organizer.fs
               (run Scenario.vi_apart Scenario.cfg Scenario.targetDir w).2)
            ["out"; "ABC-123"; "abc-123.mp4"] = Some "VIDEO"
  ∧ Fs.read (Organizer.fs
               (run Scenario.vi_apart Scenario.cfg Scenario.targetDir w).2)
            ["in"; "abc-123.mp4"] = None.
Proof.
  intros http_get run w.
  assert ((run Scenario.vi_apart Scenario.cfg Scenario.targetDir w).1
          = Return (Organizer.Success "ABC-123" ["out"; "ABC-123"])) as Hrun
    by (vm_compute; reflexivity).
  split; [exact Hrun|].
  assert (run Scenario.vi_apart Scenario.cfg Scenario.targetDir w
          = (Return (Organizer.Success "ABC-123" ["out"; "ABC-123"]),
             (run Scenario.vi_apart Scenario.cfg Scenario.targetDir w).2))
    as Hpair.
  { rewrite <- Hrun. by destruct (run _ _ _ w). }
  pose proof (processVideo_success Scenario.getVideoInfo http_get
                Scenario.splitCoverImage Scenario.url_extname
                Organizer.details Scenario.generateKey Scenario.dev
                Scenario.vi_apart Scenario.cfg Scenario.targetDir w
                "ABC-123" ["out"; "ABC-123"] _ "VIDEO" Hpair
                ltac:(vm_compute; reflexivity)
                ltac:(vm_compute; reflexivity))
    as (_ & _ & _ & _ & _ & Hgone).
  split; [vm_compute; reflexivity | exact Hgone].
Defined.

Section ScannerFacts.
Import Path Fs Scanner ScannerSpec.
Local Open Scope list_scope.
Implicit Types (fs : Fs.t) (cfg : config) (dk : disk) (p d : path)
               (vf : Organizer.videoFile).

(** Appending to the array [videoFiles]. *)
Local Abbreviation appends :=
  (fun scan : path → list Organizer.videoFile → list Organizer.videoFile =>
     ∀ p acc, scan p acc = acc ++ scan p []).

Lemma scanItems_appends scan cfg dk d (items : list string) :
  appends scan →
  ∀ acc, scanItems scan cfg dk d items acc
         = acc ++ scanItems scan cfg dk d items [].
Proof.
  intros Hscan. induction items as [|item rest IH]; intros acc; simpl.
  - by rewrite app_nil_r.
  - destruct (hidden cfg item); [apply IH|].
    destruct (stat_on dk (join d item)) as [st|e]; [|by rewrite app_nil_r].
    destruct (isDirectory st).
    + destruct (negb _); [|apply IH].
      rewrite IH, (IH (scan _ [])), (Hscan _ acc). by rewrite app_assoc.
    + destruct (isFile st); [|apply IH].
      destruct (isVideo cfg item); [|apply IH].
      rewrite IH, (IH [_]). by rewrite app_assoc.
Qed.

Lemma scanDirectory_appends depth cfg dk :
  appends (scanDirectory depth cfg dk).
Proof.
  induction depth as [|depth IH]; intros p acc; simpl.
  - by rewrite app_nil_r.
  - destruct (readdir_on dk p) as [items|e]; [|by rewrite app_nil_r].
    by apply scanItems_appends.
Qed.

(** *** Paths *)

Lemma dirname_join d (name : string) : dirname (join d name) = d.
Proof. unfold dirname, join. apply removelast_last. Qed.

Lemma basename_join d (name : string) : basename (join d name) = name.
Proof. unfold basename, join. apply last_last. Qed.

Lemma join_ne_nil d (name : string) : join d name ≠ [].
Proof. unfold join. by destruct d. Qed.

Lemma length_join d (name : string) : length (join d name) = S (length d).
Proof. unfold join. rewrite length_app. simpl. lia. Qed.

(** *** The loop *)

(** What one item that is looked at adds to the array. *)
Local Abbreviation gives :=
  (fun (scan : path → list Organizer.videoFile → list Organizer.videoFile)
       cfg d (item : string) (st : stats) vf =>
     (isDirectory st = true ∧ excluded cfg item = false
      ∧ vf ∈ scan (join d item) [])
     ∨ (isDirectory st = false ∧ isFile st = true
        ∧ isVideo cfg item = true
        ∧ vf = Organizer.VideoFile (join d item) item)).

Lemma scanItems_cons scan cfg dk d (item : string) rest st vf :
  appends scan →
  hidden cfg item = false →
  stat_on dk (join d item) = Return st →
  vf ∈ scanItems scan cfg dk d (item :: rest) [] ↔
  gives scan cfg d item st vf ∨ vf ∈ scanItems scan cfg dk d rest [].
Proof.
  intros Hscan Hh Hst. cbn [scanItems]. rewrite Hh, Hst.
  destruct (isDirectory st) eqn:Hd.
  - destruct (excluded cfg item) eqn:Hx; cbn [negb].
    + split; [by right|]. intros [[(_ & ? & _)|(? & _)]|?]; done.
    + rewrite scanItems_appends by done. rewrite elem_of_app. split.
      * intros [?|?]; [left; left; done|by right].
      * intros [[(_ & _ & ?)|(? & _)]|?]; [by left|done|by right].
  - destruct (isFile st) eqn:Hf.
    + destruct (isVideo cfg item) eqn:Hv.
      * rewrite scanItems_appends by done. rewrite elem_of_app. simpl.
        rewrite list_elem_of_singleton. split.
        -- intros [->|?]; [left; right; done|by right].
        -- intros [[(? & _)|(_ & _ & _ & ->)]|?]; [done|by left|by right].
      * split; [by right|].
        intros [[(? & _)|(_ & _ & ? & _)]|?]; done.
    + split; [by right|]. intros [[(? & _)|(_ & ? & _)]|?]; done.
Qed.

Lemma scanItems_elem scan cfg dk d (items : list string) vf :
  appends scan →
  vf ∈ scanItems scan cfg dk d items [] ↔
  ∃ pre item post st,
    items = pre ++ item :: post
    ∧ Forall (passable cfg dk d) pre
    ∧ hidden cfg item = false
    ∧ stat_on dk (join d item) = Return st
    ∧ gives scan cfg d item st vf.
Proof.
  intros Hscan. induction items as [|item0 rest IH].
  - simpl. split; [by intros ?%elem_of_nil|].
    intros (pre & item & post & st & Heq & _). by destruct pre.
  - destruct (hidden cfg item0) eqn:Hh.
    { cbn [scanItems]. rewrite Hh, IH. split.
      - intros (pre & item & post & st & -> & Hpre & Hrest).
        exists (item0 :: pre), item, post, st.
        split; [done|]. split; [|done]. constructor; [by left|done].
      - intros (pre & item & post & st & Heq & Hpre & Hhi & Hrest).
        destruct pre as [|x pre]; injection Heq as <- ->; [congruence|].
        exists pre, item, post, st. split; [done|].
        split; [by inversion Hpre|done]. }
    destruct (stat_on dk (join d item0)) as [st0|e] eqn:Hst.
    + rewrite (scanItems_cons scan cfg dk d item0 rest st0) by done.
      rewrite IH. split.
      * intros [Hg|(pre & item & post & st & -> & Hpre & Hrest)].
        -- by exists [], item0, rest, st0.
        -- exists (item0 :: pre), item, post, st.
           split; [done|]. split; [|done].
           constructor; [right; by exists st0|done].
      * intros (pre & item & post & st & Heq & Hpre & Hhi & Hsti & Hg).
        destruct pre as [|x pre]; injection Heq as <- ->.
        -- left. rewrite Hst in Hsti. by injection Hsti as <-.
        -- right. exists pre, item, post, st. split; [done|].
           split; [by inversion Hpre|done].
    + cbn [scanItems]. rewrite Hh, Hst. split; [by intros ?%elem_of_nil|].
      intros (pre & item & post & st & Heq & Hpre & Hhi & Hsti & Hg).
      destruct pre as [|x pre]; injection Heq as <- ->; [congruence|].
      inversion Hpre as [|? ? [?|[st' ?]] _]; congruence.
Qed.

Lemma scanDirectory_elem depth cfg dk d vf :
  vf ∈ scanDirectory (S depth) cfg dk d [] ↔
  ∃ name st,
    reached cfg dk d name
    ∧ stat_on dk (join d name) = Return st
    ∧ gives (scanDirectory depth cfg dk) cfg d name st vf.
Proof.
  cbn [scanDirectory]. unfold reached.
  destruct (readdir_on dk d) as [items|e] eqn:Hread.
  - rewrite scanItems_elem by apply scanDirectory_appends. split.
    + intros (pre & item & post & st & -> & Hpre & Hh & Hst & Hg).
      exists item, st. split; [|done]. by exists pre, post.
    + intros (name & st & (pre & post & [= ->] & Hpre & Hh) & Hst & Hg).
      by exists pre, name, post, st.
  - split; [by intros ?%elem_of_nil|].
    by intros (name & st & (pre & post & ? & _) & _).
Qed.

(** *** Depth *)

Lemma readdir_on_length dk d items :
  readdir_on dk d = Return items → (length d ≤ path_max dk)%nat.
Proof.
  unfold readdir_on. destruct (Nat.ltb_spec (path_max dk) (length d)); [done|].
  intros _. lia.
Qed.

Lemma scan_sound depth cfg dk :
  ∀ d vf, vf ∈ scanDirectory depth cfg dk d [] → found cfg dk d vf.
Proof.
  induction depth as [|depth IH]; intros d vf; [by intros ?%elem_of_nil|].
  rewrite scanDirectory_elem.
  intros (name & st & Hreach & Hst
          & [(Hd & Hx & Hin)|(Hnd & Hf & Hv & ->)]).
  - eapply found_below; [done|done|done|done|]. by apply IH.
  - by eapply found_here.
Qed.

Lemma scan_complete cfg dk d vf :
  found cfg dk d vf →
  ∀ depth, (path_max dk < depth + length d)%nat →
           vf ∈ scanDirectory depth cfg dk d [].
Proof.
  induction 1 as [d name st Hreach Hst Hnd Hf Hv
                 |d name st vf Hreach Hst Hd Hx Hfound IH];
    intros depth Hdepth.
  - destruct Hreach as (pre & post & Hread & Hrest).
    pose proof (readdir_on_length dk d _ Hread).
    destruct depth as [|depth]; [lia|].
    apply scanDirectory_elem. exists name, st.
    split; [by exists pre, post|]. split; [done|]. by right.
  - destruct Hreach as (pre & post & Hread & Hrest).
    pose proof (readdir_on_length dk d _ Hread).
    destruct depth as [|depth]; [lia|].
    apply scanDirectory_elem. exists name, st.
    split; [by exists pre, post|]. split; [done|]. left.
    split_and!; [done|done|]. apply IH. rewrite length_join. lia.
Qed.

(** What a file that the walk finds looks like. *)
Lemma found_shape cfg dk d vf :
  found cfg dk d vf →
  (∃ st, stat_on dk (Organizer.file_path vf) = Return st
         ∧ isDirectory st = false ∧ isFile st = true)
  ∧ under d (Organizer.file_path vf) = true
  ∧ Organizer.file_path vf ≠ d
  ∧ Organizer.file_name vf = basename (Organizer.file_path vf)
  ∧ Str.toLowerCase (extname (Organizer.file_name vf))
    ∈ fileTypes_video cfg
  ∧ hidden cfg (Organizer.file_name vf) = false.
Proof.
  induction 1 as [d name st Hreach Hst Hnd Hf Hv
                 |d name st vf Hreach Hst Hd Hx Hfound IH].
  - simpl. split_and!.
    + by exists st.
    + apply under_join.
    + unfold join. intros Heq. apply (f_equal length) in Heq.
      rewrite length_app in Heq. simpl in Heq. lia.
    + by rewrite basename_join.
    + by apply bool_decide_eq_true in Hv.
    + by destruct Hreach as (? & ? & _ & _ & ?).
  - destruct IH as (Hf & Hu & Hne & Hrest).
    split_and!; [done| | |apply Hrest..].
    + eapply under_trans; [apply under_join|done].
    + intros Heq. rewrite Heq in Hu. apply under_true in Hu.
      apply prefix_length in Hu. rewrite length_join in Hu. lia.
Qed.

(** X20.  What [getVideoFiles] returns, on any disk and whatever fails
    there.  The walk ends by itself and throws nothing; a search path
    that cannot be listed gives the empty list.  A file is in the result
    exactly when the walk comes across it: it is a video by its
    lower-cased extension, [fs.stat] says it is a file, and it is reached
    from the search path through directories that can be listed, none of
    which is excluded by name; neither its name nor the name of a
    directory on the way is skipped as hidden; and in each listing on the
    way, [fs.stat] answers for every item that comes before the entry
    taken and is not hidden.  An item for which [fs.stat] fails hides all
    that the listing has after it.  Every entry of the result is a file
    below the search path, listed with its own name. *)
Theorem getVideoFiles_finds cfg (dirPath : option path) dk vf :
  let searchPath :=
    match dirPath with Some p => p | None => sourceDir cfg end in
  (vf ∈ getVideoFiles_on cfg dirPath dk ↔ found cfg dk searchPath vf)
  ∧ ((∀ items, readdir_on dk searchPath ≠ Return items) →
     getVideoFiles_on cfg dirPath dk = [])
  ∧ (vf ∈ getVideoFiles_on cfg dirPath dk →
     (∃ st, stat_on dk (Organizer.file_path vf) = Return st
            ∧ isDirectory st = false ∧ isFile st = true)
     ∧ under searchPath (Organizer.file_path vf) = true
     ∧ Organizer.file_name vf = basename (Organizer.file_path vf)
     ∧ Str.toLowerCase (extname (Organizer.file_name vf))
       ∈ fileTypes_video cfg).
Proof.
  cbv zeta. unfold getVideoFiles_on.
  set (searchPath := match dirPath with Some p => p | None => sourceDir cfg end).
  assert (vf ∈ scanDirectory (S (path_max dk)) cfg dk searchPath []
          ↔ found cfg dk searchPath vf) as Hiff.
  { split; [apply scan_sound|]. intros H. apply scan_complete; [done|lia]. }
  split_and!; [done| |].
  - intros Hd. cbn [scanDirectory].
    destruct (readdir_on dk searchPath) as [items|e] eqn:Hread; [|done].
    by destruct (Hd items).
  - intros Hin%Hiff.
    destruct (found_shape cfg dk searchPath vf Hin) as (? & ? & _ & ? & ? & _).
    done.
Qed.

(** *** Trees *)

Lemma stat_on_tree fs p st :
  stat_on (of_tree fs) p = Return st →
  isDirectory st = is_dir fs p ∧ isFile st = is_file fs p.
Proof.
  unfold stat_on, of_tree. cbn [path_max status].
  destruct (_ <? _)%nat; [done|]. unfold stat.
  destruct (exists_ fs p); [|done]. by intros [= <-].
Qed.

End ScannerFacts.

(** A source directory with a video at the top, a video in a
    subdirectory, one in an excluded directory, one in a hidden directory
    and a text file, where nothing fails: the first two are found, in
    that order. *)
Example getVideoFiles_tree :
  let cfg := Scanner.Config ["in"] true ["output"] [".mp4"; ".mkv"] in
  let fs := Fs.Make [["in"]; ["in"; "sub"]; ["in"; "output"]; ["in"; ".git"]]
                    [(["in"; "a.MP4"], "1"); (["in"; "notes.txt"], "2");
                     (["in"; "sub"; "b.mkv"], "3");
                     (["in"; "output"; "c.mp4"], "4");
                     (["in"; ".git"; "d.mp4"], "5")] in
  Scanner.getVideoFiles cfg None fs
  = [Organizer.VideoFile ["in"; "a.MP4"] "a.MP4";
     Organizer.VideoFile ["in"; "sub"; "b.mkv"] "b.mkv"].
Proof. vm_compute. reflexivity. Qed.

(** A directory that lists a video, then a link that leads nowhere, then
    another video: the first video is found, the second is not. *)
Lemma getVideoFiles_finds_witness :
  let cfg := Scanner.Config ["in"] true ["output"] [".mp4"; ".mkv"] in
  let dk :=
    Scanner.Disk
      (fun p => if decide (p = ["in"])
                then Return ["a.mp4"; "gone"; "b.mp4"]
                else Throw Fs.ENOTDIR)
      (fun p => if decide (p = ["in"; "gone"]) then Throw Fs.ENOENT
                else Return (Scanner.Stats false true))
      64 in
  Scanner.getVideoFiles_on cfg None dk
  = [Organizer.VideoFile ["in"; "a.mp4"] "a.mp4"]
  ∧ ScannerSpec.found cfg dk ["in"]
      (Organizer.VideoFile ["in"; "a.mp4"] "a.mp4")
  ∧ ¬ ScannerSpec.found cfg dk ["in"]
      (Organizer.VideoFile ["in"; "b.mp4"] "b.mp4").
Proof.
  intros cfg dk.
  assert (Scanner.getVideoFiles_on cfg None dk
          = [Organizer.VideoFile ["in"; "a.mp4"] "a.mp4"]) as Heq
    by (vm_compute; reflexivity).
  split; [exact Heq|]. split.
  - apply (proj1 (getVideoFiles_finds cfg None dk
                    (Organizer.VideoFile ["in"; "a.mp4"] "a.mp4"))).
    rewrite Heq. left.
  - intros Hfound.
    apply (proj1 (getVideoFiles_finds cfg None dk
                    (Organizer.VideoFile ["in"; "b.mp4"] "b.mp4")))
      in Hfound.
    rewrite Heq in Hfound.
    apply list_elem_of_singleton in Hfound. discriminate Hfound.
Defined.

Section ScannerSkipFacts.
Import Path Fs Scanner ScannerSpec.
Local Open Scope list_scope.
Implicit Types (fs : Fs.t) (cfg : config) (dk : disk) (p d : path)
               (vf : Organizer.videoFile).

Lemma join_prefix_cases d (name : string) root (n : string) p :
  root `prefix_of` d →
  join d name `prefix_of` p → join root n `prefix_of` p →
  join root n `prefix_of` d ∨ (d = root ∧ name = n).
Proof.
  unfold join. intros Hroot Hd Hn.
  assert (d `prefix_of` p) as Hdp.
  { etrans; [|exact Hd]. by apply prefix_app_r. }
  destruct (prefix_weak_total _ _ _ Hn Hdp) as [Hle|Hge]; [by left|].
  destruct (decide (length d = length (root ++ [n]))) as [Hfull|Hshort].
  { left. apply prefix_length_eq in Hge as ->; [done|lia]. }
  right.
  assert (length d = length root) as Hlen.
  { apply prefix_length in Hge, Hroot. rewrite length_app in Hge, Hshort.
    cbn in Hge, Hshort. lia. }
  assert (d = root) as ->.
  { symmetry. apply prefix_length_eq; [done|lia]. }
  split; [done|].
  destruct (prefix_weak_total _ _ _ Hd Hn) as [H|H];
    apply prefix_length_eq in H; rewrite ?length_app; try done;
    apply app_inj_tail in H as [_ H]; congruence.
Qed.

Lemma found_skips cfg dk root vf :
  found cfg dk root vf →
  ∀ d (name : string),
    root `prefix_of` d →
    (∀ st, stat_on dk (join d name) = Return st → isDirectory st = true) →
    excluded cfg name = true ∨ hidden cfg name = true →
    under (join d name) (Organizer.file_path vf) = false.
Proof.
  induction 1 as [root n st Hreach Hst Hnd Hf Hv
                 |root n st vf Hreach Hst Hd Hx Hfound IH];
    intros d name Hroot Hdir Hskip; apply under_false; intros Hpre.
  - cbn [Organizer.file_path] in Hpre.
    destruct (join_prefix_cases d name root n (join root n) Hroot Hpre)
      as [Hle|[-> ->]]; [done| |].
    + apply prefix_length in Hle, Hpre. rewrite !length_join in *. lia.
    + apply Hdir in Hst. congruence.
  - destruct (found_shape cfg dk (join root n) vf Hfound)
      as (_ & Hunder & _). apply under_true in Hunder.
    destruct (join_prefix_cases d name root n _ Hroot Hpre Hunder)
      as [Hle|[-> ->]].
    + specialize (IH d name Hle Hdir Hskip). apply under_false in IH. done.
    + destruct Hreach as (? & ? & _ & _ & Hh). destruct Hskip; congruence.
Qed.

(** X28.  Directories that are skipped are never entered.  No file that
    [getVideoFiles] returns lies in or below a directory, anywhere below
    the search path, whose name is listed in [base.excludeDirs], or
    whose name starts with a dot while [base.skipHiddenFiles] is set. *)
Theorem skipped_never_scanned cfg (dirPath : option path) fs vf d
    (name : string) :
  let searchPath :=
    match dirPath with Some p => p | None => sourceDir cfg end in
  vf ∈ getVideoFiles cfg dirPath fs →
  searchPath `prefix_of` d →
  is_dir fs (join d name) = true →
  name ∈ excludeDirs cfg
  ∨ (skipHiddenFiles cfg = true ∧ Organizer.startsWith "." name = true) →
  under (join d name) (Organizer.file_path vf) = false.
Proof.
  intros searchPath Hin Hroot Hdir Hskip.
  assert (found cfg (of_tree fs) searchPath vf) as Hfound.
  { unfold getVideoFiles, getVideoFiles_on in Hin.
    by apply scan_sound in Hin. }
  eapply found_skips; [exact Hfound|done| |].
  { intros st [Hst _]%stat_on_tree. by rewrite Hst. }
  destruct Hskip as [Hx|[Hs Hdot]].
  - left. by apply bool_decide_eq_true.
  - right. unfold hidden. by rewrite Hs, Hdot.
Qed.

End ScannerSkipFacts.

(** The video found in the subdirectory of the source is not below the
    excluded output directory. *)
Lemma skipped_never_scanned_witness :
  let cfg := Scanner.Config ["in"] true ["output"] [".mp4"; ".mkv"] in
  let fs := Fs.Make [["in"]; ["in"; "sub"]; ["in"; "output"]; ["in"; ".git"]]
                    [(["in"; "a.MP4"], "1"); (["in"; "notes.txt"], "2");
                     (["in"; "sub"; "b.mkv"], "3");
                     (["in"; "output"; "c.mp4"], "4");
                     (["in"; ".git"; "d.mp4"], "5")] in
  Path.under ["in"; "output"] ["in"; "sub"; "b.mkv"] = false.
Proof.
  intros cfg fs.
  apply (skipped_never_scanned cfg None fs
           (Organizer.VideoFile ["in"; "sub"; "b.mkv"] "b.mkv")
           ["in"] "output").
  - vm_compute. right. left.
  - done.
  - vm_compute. reflexivity.
  - left. left.
Defined.

Section EscapeFacts.
Import Nfo NfoSpec.

Lemma special_cases char :
  special char = true →
  char = lt ∨ char = gt ∨ char = amp ∨ char = apos ∨ char = quot.
Proof.
  unfold special. rewrite !orb_true_iff, !Ascii.eqb_eq. tauto.
Qed.

Lemma special_amp char : special char = false → Ascii.eqb char amp = false.
Proof.
  unfold special. rewrite !orb_false_iff. tauto.
Qed.

Lemma prefix_empty s : String.prefix "" s = true.
Proof. by destruct s. Qed.

Lemma unescape_replace s : unescape (replace s) = s.
Proof.
  unfold unescape. induction s as [|char rest IH]; [done|].
  cbn [replace]. destruct (special char) eqn:Hs.
  - apply special_cases in Hs as [H|[H|[H|[H|H]]]]; subst char;
      cbn; cbv [String.append]; cbn; by rewrite prefix_empty, IH.
  - cbn. cbv [String.append]. cbn. by rewrite (special_amp char Hs), IH.
Qed.

Lemma replace_no_markup s a :
  Str.mem a (replace s) = true → markup a = false.
Proof.
  induction s as [|char rest IH]; [done|].
  cbn [replace]. rewrite mem_append. intros [H|H]%orb_true_iff;
    [|by apply IH].
  destruct (special char) eqn:Hs.
  - apply special_cases in Hs as [E|[E|[E|[E|E]]]]; subst char; cbn in H; cbv [String.append] in H; cbn in H;
      rewrite ?orb_false_r, ?orb_true_iff, ?Ascii.eqb_eq in H;
      intuition (subst; done).
  - cbn in H. rewrite orb_false_r in H. apply Ascii.eqb_eq in H as ->.
    unfold special in Hs. unfold markup.
    rewrite !orb_false_iff in *. tauto.
Qed.

Lemma replace_plain s :
  (∀ a, Str.mem a s = true → special a = false) → replace s = s.
Proof.
  induction s as [|char rest IH]; [done|]. intros H. cbn [replace].
  rewrite (H char) by (cbn; by rewrite Ascii.eqb_refl).
  cbn. cbv [String.append]. rewrite IH; [done|]. intros a Ha. apply H. cbn. by rewrite Ha, orb_true_r.
Qed.

Lemma escapeXML_replace s : escapeXML (Some s) = replace s.
Proof. by destruct s. Qed.

(** X22.  [escapeXML] loses nothing and lets no markup through: reading
    the five predefined entities back gives the text that was escaped
    (so two different texts are never escaped to the same one), the
    result contains none of the characters that open or close a tag or
    an attribute value, and a text without any of the five characters is
    returned as it is.  A field that is not there is escaped to the
    empty text. *)
Theorem escapeXML_round_trip (s : string) :
  unescape (escapeXML (Some s)) = s
  ∧ (∀ a, Str.mem a (escapeXML (Some s)) = true → markup a = false)
  ∧ ((∀ a, Str.mem a s = true → special a = false) →
     escapeXML (Some s) = s)
  ∧ escapeXML None = "".
Proof.
  rewrite escapeXML_replace. split_and!; [|intros a| |done].
  - apply unescape_replace.
  - apply replace_no_markup.
  - apply replace_plain.
Qed.

End EscapeFacts.

Section RegionFacts.
Import Images.
Local Open Scope Z_scope.

(** X23.  The two halves of a cover.  For an image of positive size the
    left half and the right half lie side by side and cover the image:
    the left half starts at column 0, the right half starts where the
    left one ends and ends at the last column, and both have the full
    height.  The left half gets the middle column of an odd width; the
    right half, which is the poster, is empty exactly when the image is
    one column wide. *)
Theorem halves_tile (width_ height_ : Z) :
  0 < width_ → 0 < height_ →
  ∃ l r,
    region width_ height_ false = Return l
    ∧ region width_ height_ true = Return r
    ∧ left l = 0 ∧ left r = left l + width l
    ∧ left r + width r = width_
    ∧ top l = 0 ∧ top r = 0 ∧ height l = height_ ∧ height r = height_
    ∧ width r ≤ width l ≤ width r + 1
    ∧ 0 < width l
    ∧ (width r = 0 ↔ width_ = 1).
Proof.
  intros Hw Hh. unfold region.
  rewrite (proj2 (Z.eqb_neq width_ 0)), (proj2 (Z.eqb_neq height_ 0)) by lia.
  cbn [orb]. eexists _, _. split; [reflexivity|]. split; [reflexivity|].
  cbn [left top width height]. unfold halfWidth.
  pose proof (Z.div_mod (- width_) 2 ltac:(lia)).
  pose proof (Z.mod_pos_bound (- width_) 2 ltac:(lia)).
  lia.
Qed.

End RegionFacts.

Lemma halves_tile_witness :
  ∃ l r,
    Images.region 801 538 false = Return l
    ∧ Images.region 801 538 true = Return r
    ∧ (Images.left l = 0 ∧ Images.left r = Images.left l + Images.width l
    ∧ Images.left r + Images.width r = 801
    ∧ Images.top l = 0 ∧ Images.top r = 0
    ∧ Images.height l = 538 ∧ Images.height r = 538
    ∧ Images.width r ≤ Images.width l ≤ Images.width r + 1
    ∧ 0 < Images.width l
    ∧ (Images.width r = 0 ↔ 801 = 1))%Z.
Proof. apply (halves_tile 801 538); lia. Defined.
